(** * ollama-agent-cli: the agent orchestration core

    A shallow embedding of the orchestration core of the terminal agent
    (the [OllamaAgent] class and the [OllamaClient] transport), of the
    bash tool, of the settings manager and of the search for files of the
    search tool, together with the properties its specification states
    and further properties of the code.

    Modelling conventions.
    - A JavaScript string is a [string]: a sequence of code units, here the
      code units 0..255.  A text with another code unit is outside the
      embedding; so is the character that [JSON.parse] reads from a
      [\u] escape above 00FF, in whose place the embedding has a question
      mark ([Json.code_unit]).  Whether a text parses, and the shape of
      what it parses to, do not depend on that character.
    - A JavaScript value built from JSON data is a [jsval].  An object is
      the list of its own enumerable properties in the order they were
      created, with its prototype: [Object.prototype] for [JObj], as for
      every object that a literal, a spread or [JSON.parse] makes, and the
      prototype that an assignment to [__proto__] has given it for [JHeir].
      Where the program reads or writes a property under a name it has
      computed, the members that an object inherits are taken into account
      ([read], [assign]); under a name it spells out, none of which names a
      member of a built-in prototype, [get_prop] reads the properties that
      the values hold.  [Object.entries] lists the properties whose names
      are array indices first, by index ([entries]).
    - A computation that can raise is an [outcome]: [Ret v] when it returns
      [v], [Throw e] when it raises [e].  [try]/[catch] is [catch].
    - The results are immutable values: where the source updates an array
      or an object in place, the embedding rebuilds the value. *)

From Stdlib Require Import String Ascii List ZArith Lia Bool Arith DecimalString.
From Stdlib Require Import Sorted Permutation.
Import ListNotations.
Local Open Scope string_scope.
Set Warnings "-register-all".

(** ** Exceptions and outcomes *)

Inductive exn : Type :=
| SyntaxError (msg : string)
| TypeError (msg : string)
| Error (msg : string).

(** [error.message] *)
Definition error_message (e : exn) : string :=
  match e with
  | SyntaxError m => m
  | TypeError m => m
  | Error m => m
  end.

Inductive outcome (A : Type) : Type :=
| Ret (a : A)
| Throw (e : exn).
Arguments Ret {A} a.
Arguments Throw {A} e.

Definition bind {A B : Type} (m : outcome A) (k : A -> outcome B) : outcome B :=
  match m with
  | Ret a => k a
  | Throw e => Throw e
  end.

(** [try { body } catch (error) { handler error }] *)
Definition catch {A : Type} (body : outcome A) (handler : exn -> outcome A) : outcome A :=
  match body with
  | Ret a => Ret a
  | Throw e => handler e
  end.

Declare Scope outcome_scope.
Delimit Scope outcome_scope with outcome.
Notation "x <- m ;; k" := (bind m (fun x => k))
  (at level 61, m at next level, right associativity) : outcome_scope.
Local Open Scope outcome_scope.

Definition returns {A : Type} (m : outcome A) : Prop := exists a, m = Ret a.

(** ** JavaScript values *)

(** A JSON number is kept as the decimal it was written as,
    [mant * 10 ^ exp10]; the code only ever tests numbers for truthiness. *)
Record jsnum : Type := mkNum { mant : Z; exp10 : Z }.


(** [JObj props] is an object whose prototype is [Object.prototype].
    [JHeir proto props] is an object whose prototype an assignment to
    [__proto__] has set to [proto]: [JNull] when it has none, or else an
    array or an object.  It is not an array, whatever its prototype is
    ([Array.isArray] is false of it), and it is truthy and of type
    object. *)
Inductive jsval : Type :=
| JUndefined
| JNull
| JBool (b : bool)
| JNum (n : jsnum)
| JStr (s : string)
| JArr (elems : list jsval)
| JObj (props : list (string * jsval))
| JHeir (proto : jsval) (props : list (string * jsval)).

Definition props : Type := list (string * jsval).

(** A decimal rounds to the double 0 when it is 0 or at most 2^-1075 in
    magnitude (the tie at 2^-1075 goes to the even neighbour, 0). *)
Definition num_is_zero (n : jsnum) : bool :=
  (mant n =? 0)%Z
  || ((exp10 n <? 0)%Z && (Z.abs (mant n) * 2 ^ 1075 <=? 10 ^ (- exp10 n))%Z).

(** [!!v] *)
Definition truthy (v : jsval) : bool :=
  match v with
  | JUndefined | JNull => false
  | JBool b => b
  | JNum n => negb (num_is_zero n)
  | JStr s => negb (s =? "")
  | JArr _ | JObj _ | JHeir _ _ => true
  end.

(** [typeof v === 'object'] *)
Definition typeof_object (v : jsval) : bool :=
  match v with
  | JNull | JArr _ | JObj _ | JHeir _ _ => true
  | _ => false
  end.

(** [v === undefined || v === null] *)
Definition nullish (v : jsval) : bool :=
  match v with
  | JUndefined | JNull => true
  | _ => false
  end.

Definition string_of_nat (n : nat) : string := NilZero.string_of_uint (Nat.to_uint n).

(** Own properties *)
Fixpoint lookup (k : string) (o : props) : option jsval :=
  match o with
  | [] => None
  | (k', v) :: o' => if k' =? k then Some v else lookup k o'
  end.

(** [o[k]] on an object *)
Definition get (o : props) (k : string) : jsval :=
  match lookup k o with
  | Some v => v
  | None => JUndefined
  end.

(** [o[k] = v]: an existing property keeps its place, a new one goes last *)
Fixpoint set (k : string) (v : jsval) (o : props) : props :=
  match o with
  | [] => [(k, v)]
  | (k', v') :: o' => if k' =? k then (k, v) :: o' else (k', v') :: set k v o'
  end.

(** [delete o[k]] *)
Fixpoint remove (k : string) (o : props) : props :=
  match o with
  | [] => []
  | (k', v') :: o' => if k' =? k then remove k o' else (k', v') :: remove k o'
  end.

(** The index-named properties of an array or of a string *)
Fixpoint indexed (i : nat) (l : list jsval) : props :=
  match l with
  | [] => []
  | v :: l' => (string_of_nat i, v) :: indexed (S i) l'
  end.

Fixpoint chars (s : string) : list jsval :=
  match s with
  | EmptyString => []
  | String c s' => JStr (String c EmptyString) :: chars s'
  end.

(** [{ ...v }]: the own enumerable properties *)
Definition spread (v : jsval) : props :=
  match v with
  | JObj o => o
  | JHeir _ o => o
  | JArr l => indexed 0 l
  | JStr s => indexed 0 (chars s)
  | _ => []
  end.

(** [a[i]] on an array, [undefined] past the end *)
Definition array_get (a : list jsval) (i : nat) : jsval := nth i a JUndefined.

(** [a[i] = v] on an array, which grows when [i] is past the end *)
Definition array_set (i : nat) (v : jsval) (a : list jsval) : list jsval :=
  firstn i a ++ repeat JUndefined (i - length a) ++ v :: skipn (S i) a.

(** [a.length] and [a[i]] on an array *)
Definition array_prop (l : list jsval) (p : string) : option jsval :=
  if p =? "length" then Some (JNum (mkNum (Z.of_nat (length l)) 0))
  else lookup p (indexed 0 l).

(** What a property spelt out by the program is in the prototype [x] and
    the prototypes above it *)
Fixpoint inherited (x : jsval) (p : string) : jsval :=
  match x with
  | JObj o => get o p
  | JHeir q o =>
      match lookup p o with
      | Some v => v
      | None => inherited q p
      end
  | JArr l =>
      match array_prop l p with
      | Some v => v
      | None => JUndefined
      end
  | _ => JUndefined
  end.

(** [v.p] for a named property [p] *)
Definition get_prop (v : jsval) (p : string) : outcome jsval :=
  match v with
  | JUndefined | JNull =>
      Throw (TypeError ("Cannot read properties of undefined (reading '" ++ p ++ "')"))
  | JObj o => Ret (get o p)
  | JHeir _ _ => Ret (inherited v p)
  | JArr l => Ret (if p =? "length" then JNum (mkNum (Z.of_nat (length l)) 0) else get (indexed 0 l) p)
  | JStr s => Ret (if p =? "length" then JNum (mkNum (Z.of_nat (String.length s)) 0)
                   else get (indexed 0 (chars s)) p)
  | _ => Ret JUndefined
  end.

(** [v?.p] *)
Definition get_prop_opt (v : jsval) (p : string) : jsval :=
  match get_prop v p with
  | Ret x => x
  | Throw _ => JUndefined
  end.

(** ** Properties under a computed name

    [o[key]] and [o[key] = v] for a name that the program has computed go
    through the prototypes of [o]: an ordinary object inherits the methods
    of [Object.prototype] and its accessor [__proto__], which reads and
    sets the prototype of the object it is used on. *)

(** The methods of [Object.prototype] *)
Definition object_members : list string :=
  ["constructor"; "__defineGetter__"; "__defineSetter__"; "hasOwnProperty";
   "__lookupGetter__"; "__lookupSetter__"; "isPrototypeOf"; "propertyIsEnumerable";
   "toString"; "valueOf"; "toLocaleString"].

(** The methods of [Array.prototype] (ECMAScript 2023) *)
Definition array_members : list string :=
  ["constructor"; "at"; "concat"; "copyWithin"; "fill"; "find"; "findIndex";
   "findLast"; "findLastIndex"; "lastIndexOf"; "pop"; "push"; "reverse"; "shift";
   "unshift"; "slice"; "sort"; "splice"; "includes"; "indexOf"; "join"; "keys";
   "entries"; "values"; "forEach"; "filter"; "flat"; "flatMap"; "map"; "every";
   "some"; "reduce"; "reduceRight"; "toLocaleString"; "toString"; "toReversed";
   "toSorted"; "toSpliced"; "with"].

Definition is_member (members : list string) (key : string) : bool :=
  existsb (String.eqb key) members.

(** An object that the program builds: its own properties and its
    prototype, [None] for [Object.prototype] *)
Record object : Type := mkObject {
  own : props;
  proto : option jsval
}.

(** [{ ...v }] *)
Definition copy_of (v : jsval) : object := mkObject (spread v) None.

(** The object as a value *)
Definition value_of (o : object) : jsval :=
  match proto o with
  | None => JObj (own o)
  | Some x => JHeir x (own o)
  end.

(** What [o[key]] is: a value, a method of a built-in prototype,
    [Object.prototype] itself, or [undefined] for want of a property *)
Inductive reading : Type :=
| Found (v : jsval)
| Method
| Root
| Missing.

(** [key] in [Object.prototype], for an object whose prototype is [top] *)
Definition at_root (top : option jsval) (key : string) : reading :=
  if key =? "__proto__" then
    match top with
    | Some x => Found x
    | None => Root
    end
  else if is_member object_members key then Method
  else Missing.

(** [key] in the prototype [x] and the prototypes above it *)
Fixpoint through (top : option jsval) (x : jsval) (key : string) : reading :=
  match x with
  | JObj o =>
      match lookup key o with
      | Some v => Found v
      | None => at_root top key
      end
  | JHeir q o =>
      match lookup key o with
      | Some v => Found v
      | None => through top q key
      end
  | JArr l =>
      match array_prop l key with
      | Some v => Found v
      | None => if is_member array_members key then Method else at_root top key
      end
  | _ => Missing
  end.

(** [o[key]] *)
Definition read (o : object) (key : string) : reading :=
  match lookup key (own o) with
  | Some v => Found v
  | None =>
      match proto o with
      | None => at_root None key
      | Some x => through (proto o) x key
      end
  end.

(** Whether an assignment to [key] gets to [Object.prototype] through the
    prototype [x]: no prototype on the way has a property [key] *)
Fixpoint reaches_root (x : jsval) (key : string) : bool :=
  match x with
  | JObj o =>
      match lookup key o with
      | Some _ => false
      | None => true
      end
  | JHeir q o =>
      match lookup key o with
      | Some _ => false
      | None => reaches_root q key
      end
  | JArr l =>
      match array_prop l key with
      | Some _ => false
      | None => true
      end
  | _ => false
  end.

(** [o[key] = v].  A property of [o] is updated; a name that [o] has not
    is created in [o], unless it is [__proto__] and the setter of
    [Object.prototype] is reached: the setter makes an object, an array or
    [null] the prototype of [o], and does nothing with any other value. *)
Definition assign (o : object) (key : string) (v : jsval) : object :=
  match lookup key (own o) with
  | Some _ => mkObject (set key v (own o)) (proto o)
  | None =>
      if (key =? "__proto__")
         && match proto o with
            | None => true
            | Some x => reaches_root x key
            end
      then
        match v with
        | JNull | JArr _ | JObj _ | JHeir _ _ => mkObject (own o) (Some v)
        | _ => o
        end
      else mkObject (set key v (own o)) (proto o)
  end.

(** An array that [o] holds or inherits under [key] is updated where it
    is: [replace x key a] is the prototype [x] with [a] for the property
    [key] of the first object that has it.  An array that no object on the
    way holds is the prototype itself, read by [o.__proto__]. *)
Fixpoint replace (x : jsval) (key : string) (a : jsval) : jsval :=
  match x with
  | JObj o =>
      match lookup key o with
      | Some _ => JObj (set key a o)
      | None => x
      end
  | JHeir q o =>
      match lookup key o with
      | Some _ => JHeir q (set key a o)
      | None => JHeir (replace q key a) o
      end
  | JArr l =>
      match lookup key (indexed 0 l) with
      | Some _ => JArr (map snd (set key a (indexed 0 l)))
      | None => x
      end
  | _ => x
  end.

Definition update (o : object) (key : string) (a : jsval) : object :=
  match lookup key (own o) with
  | Some _ => mkObject (set key a (own o)) (proto o)
  | None =>
      match proto o with
      | Some x =>
          mkObject (own o) (Some (if reaches_root x key then a else replace x key a))
      | None => o
      end
  end.

(** A name that is an array index: the decimal numeral, without a
    leading zero, of a number below 2^32 - 1 *)
Definition index_of (key : string) : option N :=
  match NilZero.uint_of_string key with
  | Some u =>
      let n := N.of_uint u in
      if (NilZero.string_of_uint (N.to_uint n) =? key) && (n <? 4294967295)%N
      then Some n
      else None
  | None => None
  end.

Section ByIndex.

Context {A : Type}.
Variable name : A -> string.

Fixpoint insert_index (n : N) (a : A) (l : list (N * A)) : list (N * A) :=
  match l with
  | [] => [(n, a)]
  | (m, b) :: l' => if (n <? m)%N then (n, a) :: l else (m, b) :: insert_index n a l'
  end.

(** Those that are named by an array index, by index *)
Fixpoint indices (l : list A) : list (N * A) :=
  match l with
  | [] => []
  | a :: l' =>
      match index_of (name a) with
      | Some n => insert_index n a (indices l')
      | None => indices l'
      end
  end.

Definition named_otherwise (a : A) : bool :=
  match index_of (name a) with
  | Some _ => false
  | None => true
  end.

(** The order in which the properties of an object are listed: those
    named by an array index first, by index, then the others in the order
    they were created *)
Definition by_index (l : list A) : list A :=
  (map snd (indices l) ++ filter named_otherwise l)%list.

End ByIndex.

(** [Object.entries(o)] for the own properties [o] *)
Definition entries (o : props) : props := by_index fst o.

(** ** The stream aggregator: [messageReducer] *)

Module Aggregator.

(** [delete arr.index] *)
Definition delete_index (arr : jsval) : outcome jsval :=
  match arr with
  | JUndefined | JNull =>
      Throw (TypeError "Cannot convert undefined or null to object")
  | JObj o => Ret (JObj (remove "index" o))
  | JHeir q o => Ret (JHeir q (remove "index" o))
  | _ => Ret arr
  end.

Fixpoint delete_indexes (l : list jsval) : outcome (list jsval) :=
  match l with
  | [] => Ret []
  | arr :: l' =>
      arr' <- delete_index arr ;;
      l'' <- delete_indexes l' ;;
      Ret (arr' :: l'')
  end.

(** A recursive call [reduce(_, d)] waiting for its accumulator. *)
Definition merge : Type := jsval -> outcome jsval.

(** One entry [[key, value]] of [Object.entries(delta)], with the recursive
    calls the loop body can make on it: [reduce(_, value)] and, when
    [value] is an array, [reduce(_, value[i])] for each [i]. *)
Record entry : Type := mkEntry {
  e_key : string;
  e_value : jsval;
  e_into : merge;
  e_elems : list merge
}.

(** [for (let i = 0; i < value.length; i++) { if (!accArray[i]) accArray[i] = {};
      accArray[i] = reduce(accArray[i], value[i]); }] *)
Fixpoint merge_array (elems : list merge) (i : nat) (accArray : list jsval)
  : outcome (list jsval) :=
  match elems with
  | [] => Ret accArray
  | into_i :: elems' =>
      let cur := array_get accArray i in
      let cur := if truthy cur then cur else JObj [] in
      r <- into_i cur ;;
      merge_array elems' (S i) (array_set i r accArray)
  end.

(** The body of the [for ... of Object.entries(delta)] loop.  [acc[key]]
    is read through the prototypes of [acc]: a method that [acc] inherits
    is neither [undefined], a string, an array nor an object, so that the
    entry is passed over; [Object.prototype], which [acc.__proto__] is
    until the loop has given [acc] another prototype, is an object without
    enumerable properties. *)
Definition merge_entry (e : entry) (acc : object) : outcome object :=
  let key := e_key e in
  let value := e_value e in
  let first :=
    match value with
    | JArr l =>
        l' <- delete_indexes l ;;
        Ret (assign acc key (JArr l'))
    | _ => Ret (assign acc key value)
    end in
  let into cur :=
    if typeof_object cur && typeof_object value then
      r <- e_into e cur ;;
      Ret (assign acc key r)
    else Ret acc in
  match read acc key with
  | Missing | Found JUndefined | Found JNull => first
  | Found (JStr s) =>
      match value with
      | JStr t => Ret (assign acc key (JStr (s ++ t)))
      | _ => Ret acc
      end
  | Found (JArr accArray) =>
      match value with
      | JArr _ =>
          accArray' <- merge_array (e_elems e) 0 accArray ;;
          Ret (update acc key (JArr accArray'))
      | _ => into (JArr accArray)
      end
  | Found cur => into cur
  | Root => into (JObj [])
  | Method => Ret acc
  end.

Fixpoint merge_entries (es : list entry) (acc : object) : outcome object :=
  match es with
  | [] => Ret acc
  | e :: es' =>
      acc' <- merge_entry e acc ;;
      merge_entries es' acc'
  end.

Definition elems_of (reduce_into : jsval -> merge) (value : jsval) : list merge :=
  match value with
  | JArr l => map reduce_into l
  | _ => []
  end.

(** The entry of a property of [delta] *)
Definition entry_with (reduce_into : jsval -> merge) (kv : string * jsval) : entry :=
  mkEntry (fst kv) (snd kv) (reduce_into (snd kv)) (elems_of reduce_into (snd kv)).

Fixpoint with_keys (i : nat) (l : list (jsval * (merge * list merge))) : list entry :=
  match l with
  | [] => []
  | (v, (into, elems)) :: l' => mkEntry (string_of_nat i) v into elems :: with_keys (S i) l'
  end.

(** The entries of the own properties [o] of [delta], each with the
    recursive calls on its value *)
Definition entries_with (reduce_into : jsval -> merge) (o : props) : list entry :=
  by_index e_key (map (entry_with reduce_into) o).

(** [reduce_into delta acc] is [reduce(acc, delta)].  The recursion follows
    the structure of [delta]: a property value, or an element of a property
    value that is an array. *)
Fixpoint reduce_into (delta : jsval) : merge :=
  fun acc =>
    match delta with
    | JUndefined | JNull =>
        Throw (TypeError "Cannot convert undefined or null to object")
    | JBool _ | JNum _ => Ret (JObj (spread acc))
    | JStr s =>
        r <- merge_entries
               (with_keys 0 (map (fun c => (c, (fun _ => Ret (JObj []), []))) (chars s)))
               (copy_of acc) ;;
        Ret (value_of r)
    | JArr l =>
        r <- merge_entries
               (with_keys 0 (map (fun v => (v, (reduce_into v, elems_of reduce_into v))) l))
               (copy_of acc) ;;
        Ret (value_of r)
    | JObj o | JHeir _ o =>
        r <- merge_entries (entries_with reduce_into o) (copy_of acc) ;;
        Ret (value_of r)
    end.

Definition reduce (acc delta : jsval) : outcome jsval := reduce_into delta acc.

(** [messageReducer(previous, item)] is
    [reduce(previous, item.choices[0]?.delta || {})]. *)
Definition messageReducer (previous item : jsval) : outcome jsval :=
  choices <- get_prop item "choices" ;;
  choice <- get_prop choices "0" ;;
  let delta := get_prop_opt choice "delta" in
  reduce previous (if truthy delta then delta else JObj []).

End Aggregator.

(** ** Text: characters and the string methods the code calls *)

Module Text.

Definition text : Type := list ascii.

Definition of_string (s : string) : text := list_ascii_of_string s.
Definition to_string (t : text) : string := string_of_list_ascii t.

Definition code (c : ascii) : nat := nat_of_ascii c.

(** The double-quote character *)
Definition dquote : ascii := ascii_of_nat 34.

(** A text written with ['] where it has double quotes: [quoted] puts the
    double quotes back. *)
Fixpoint quoted (s : string) : string :=
  match s with
  | EmptyString => EmptyString
  | String c s' => String (if Ascii.eqb c "'" then dquote else c) (quoted s')
  end.

(** White space and line terminators, as [\s] and [trim] see them:
    TAB, LF, VT, FF, CR, SP and NBSP. *)
Definition is_space (c : ascii) : bool :=
  let n := code c in
  ((9 <=? n)%nat && (n <=? 13)%nat) || (n =? 32)%nat || (n =? 160)%nat.

(** Line terminators, which [.] does not match without the [s] flag *)
Definition is_line_terminator (c : ascii) : bool :=
  let n := code c in (n =? 10)%nat || (n =? 13)%nat.

Fixpoint drop_spaces (t : text) : text :=
  match t with
  | c :: t' => if is_space c then drop_spaces t' else t
  | [] => []
  end.

(** [s.trim()] *)
Definition trim (s : string) : string :=
  to_string (rev (drop_spaces (rev (drop_spaces (of_string s))))).

(** [s.startsWith(p)] *)
Definition startsWith (p s : string) : bool := String.prefix p s.

(** [s.endsWith(p)] *)
Definition endsWith (p s : string) : bool :=
  String.prefix (to_string (rev (of_string p))) (to_string (rev (of_string s))).

(** [s.substring(0, n)] *)
Definition substring0 (n : nat) (s : string) : string := String.substring 0 n s.

(** [parts.join(sep)] *)
Fixpoint join (sep : string) (parts : list string) : string :=
  match parts with
  | [] => ""
  | [p] => p
  | p :: parts' => p ++ sep ++ join sep parts'
  end.

End Text.

(** ** Regular expressions

    A backtracking matcher for the constructs the patterns of the agent
    use.  It follows the matching order of ECMAScript: alternatives left to
    right, greedy quantifiers longest first, lazy ones shortest first, and
    an iteration of a quantifier that consumes nothing fails. *)

Module Regex.
Import Text.

Inductive item : Type :=
| One (c : ascii)          (* a character *)
| Space.                   (* \s *)

Inductive regex : Type :=
| Eps
| Chr (c : ascii)                    (* a literal character *)
| Dot                                (* .  without the s flag *)
| Any                                (* .  with the s flag, [\s\S] *)
| Cls (items : list item)            (* [...] and \s *)
| NotCls (items : list item)         (* [^...] *)
| Seq (r1 r2 : regex)
| Alt (r1 r2 : regex)                (* r1|r2 *)
| Star (greedy : bool) (r : regex)   (* r* and r*? *)
| Group (n : nat) (r : regex)        (* the n-th capturing group *)
| NotBehind (c : ascii)              (* (?<!c) *)
| NotAhead (r : regex).              (* (?!r) *)

Definition Plus (r : regex) : regex := Seq r (Star true r).

Fixpoint Lit (t : text) : regex :=
  match t with
  | [] => Eps
  | [c] => Chr c
  | c :: t' => Seq (Chr c) (Lit t')
  end.

Definition item_matches (c : ascii) (i : item) : bool :=
  match i with
  | One c' => Ascii.eqb c c'
  | Space => is_space c
  end.

Definition in_class (items : list item) (c : ascii) : bool :=
  existsb (item_matches c) items.

(** A position in the subject, with the captures made so far. *)
Record mstate : Type := mkState {
  before : text;                     (* what precedes, last character first *)
  after : text;                      (* what follows *)
  caps : list (nat * string)         (* group number and captured text *)
}.

Definition capture (n : nat) (s : mstate) : option string :=
  option_map snd (find (fun c => (fst c =? n)%nat) (caps s)).

(** Move past one character accepted by [ok]. *)
Definition step (ok : ascii -> bool) (s : mstate) (k : mstate -> option mstate)
  : option mstate :=
  match after s with
  | c :: rest => if ok c then k (mkState (c :: before s) rest (caps s)) else None
  | [] => None
  end.

(** The text between two positions of one subject *)
Definition between (s s' : mstate) : string :=
  to_string (firstn (length (after s) - length (after s')) (after s)).

Definition or_else {A : Type} (a b : option A) : option A :=
  match a with
  | Some x => Some x
  | None => b
  end.

(** The iterations of a quantifier whose body is matched by [body]: one
    more iteration, which must consume something, or the continuation;
    the former first when the quantifier is greedy.  No iteration is left
    when the fuel, the number of characters that follow plus one, is
    spent. *)
Fixpoint iterate (body : mstate -> (mstate -> option mstate) -> option mstate)
    (greedy : bool) (k : mstate -> option mstate) (fuel : nat) (s : mstate)
  : option mstate :=
  match fuel with
  | 0 => None
  | S fuel' =>
      let again :=
        body s (fun s1 =>
          if (length (after s1) <? length (after s))%nat
          then iterate body greedy k fuel' s1 else None) in
      if greedy then or_else again (k s) else or_else (k s) again
  end.

(** [m r s k]: match [r] at [s] and continue with [k], backtracking into
    [r] when [k] fails. *)
Fixpoint m (r : regex) (s : mstate) (k : mstate -> option mstate) {struct r}
  : option mstate :=
  match r with
  | Eps => k s
  | Chr c => step (Ascii.eqb c) s k
  | Dot => step (fun c => negb (is_line_terminator c)) s k
  | Any => step (fun _ => true) s k
  | Cls items => step (in_class items) s k
  | NotCls items => step (fun c => negb (in_class items c)) s k
  | Seq r1 r2 => m r1 s (fun s1 => m r2 s1 k)
  | Alt r1 r2 => or_else (m r1 s k) (m r2 s k)
  | Star greedy r1 => iterate (m r1) greedy k (S (length (after s))) s
  | Group n r1 =>
      m r1 s (fun s1 => k (mkState (before s1) (after s1) ((n, between s s1) :: caps s1)))
  | NotBehind c =>
      match before s with
      | c' :: _ => if Ascii.eqb c' c then None else k s
      | [] => k s
      end
  | NotAhead r1 =>
      match m r1 s Some with
      | Some _ => None
      | None => k s
      end
  end.

(** A pattern that cannot match without consuming a character *)
Fixpoint consumes (r : regex) : bool :=
  match r with
  | Chr _ | Dot | Any | Cls _ | NotCls _ => true
  | Seq r1 r2 => consumes r1 || consumes r2
  | Alt r1 r2 => consumes r1 && consumes r2
  | Group _ r1 => consumes r1
  | _ => false
  end.

(** A match: where it starts and where it ends. *)
Record found : Type := mkFound { m_start : mstate; m_end : mstate }.

(** The matched text, [match[0]] *)
Definition matched (f : found) : string := between (m_start f) (m_end f).

(** [match[n]], [undefined] when the group took no part *)
Definition group (n : nat) (f : found) : option string := capture n (m_end f).

Definition is_empty (f : found) : bool :=
  (length (after (m_end f)) =? length (after (m_start f)))%nat.

(** The leftmost match at or after a position *)
Fixpoint search (r : regex) (bef aft : text) : option found :=
  let s := mkState bef aft [] in
  match m r s Some with
  | Some e => Some (mkFound s e)
  | None =>
      match aft with
      | [] => None
      | c :: aft' => search r (c :: bef) aft'
      end
  end.

(** [regex.exec(subject)] for a regex without the g flag: the first match *)
Definition exec (r : regex) (subject : string) : option found :=
  search r [] (of_string subject).

(** [while ((match = regex.exec(subject)) !== null) { ... }] for a regex
    with the g flag: each search starts where the previous match ended.  A
    match of no character would be found again for ever; [None] stands for
    that loop which never ends. *)
Fixpoint exec_loop (fuel : nat) (r : regex) (bef aft : text) : option (list found) :=
  match fuel with
  | 0 => None
  | S fuel' =>
      match search r bef aft with
      | None => Some []
      | Some f =>
          match exec_loop fuel' r (before (m_end f)) (after (m_end f)) with
          | Some fs => Some (f :: fs)
          | None => None
          end
      end
  end.

Definition exec_all (r : regex) (subject : string) : option (list found) :=
  exec_loop (S (String.length subject)) r [] (of_string subject).

(** The matches [subject.matchAll(regex)] and [subject.replace(regex, _)]
    visit for a regex with the g flag: after a match of no character the
    search resumes one character further. *)
Fixpoint match_loop (fuel : nat) (r : regex) (bef aft : text) : list found :=
  match fuel with
  | 0 => []
  | S fuel' =>
      match search r bef aft with
      | None => []
      | Some f =>
          let e := m_end f in
          if is_empty f then
            match after e with
            | [] => [f]
            | c :: aft' => f :: match_loop fuel' r (c :: before e) aft'
            end
          else f :: match_loop fuel' r (before e) (after e)
      end
  end.

Definition matchAll (r : regex) (subject : string) : list found :=
  match_loop (S (String.length subject)) r [] (of_string subject).

(** [subject.replace(regex, replacer)] for a regex with the g flag *)
Fixpoint splice (replacer : found -> string) (aft : text) (fs : list found) : string :=
  match fs with
  | [] => to_string aft
  | f :: fs' =>
      to_string (firstn (length aft - length (after (m_start f))) aft)
      ++ replacer f ++ splice replacer (after (m_end f)) fs'
  end.

Definition replace_all (r : regex) (replacer : found -> string) (subject : string) : string :=
  splice replacer (of_string subject) (matchAll r subject).

End Regex.

(** ** [JSON.parse]

    The JSON grammar of ECMA-404, as [JSON.parse] reads it.  A [\uXXXX]
    escape above [00FF] denotes a code unit outside the strings of this
    development; it is read as ["?"]. *)

Module Json.
Import Text.

Inductive parsed (A : Type) : Type :=
| Parsed (a : A) (rest : text)
| Invalid
| OutOfFuel.
Arguments Parsed {A} a rest.
Arguments Invalid {A}.
Arguments OutOfFuel {A}.

Definition chr_is (ch c : ascii) : bool := Ascii.eqb c ch.

Definition is_ws (c : ascii) : bool :=
  let n := code c in ((n =? 9) || (n =? 10) || (n =? 13) || (n =? 32))%nat.

Fixpoint skip_ws (t : text) : text :=
  match t with
  | c :: t' => if is_ws c then skip_ws t' else t
  | [] => []
  end.

Definition digit (c : ascii) : option nat :=
  let n := code c in
  if ((48 <=? n) && (n <=? 57))%nat then Some (n - 48) else None.

Definition hex_digit (c : ascii) : option nat :=
  let n := code c in
  if ((48 <=? n) && (n <=? 57))%nat then Some (n - 48)
  else if ((65 <=? n) && (n <=? 70))%nat then Some (n - 55)
  else if ((97 <=? n) && (n <=? 102))%nat then Some (n - 87)
  else None.

(** *** Strings *)

Inductive string_state : Type :=
| Plain
| Escape
| Unicode (seen value : nat).

(** The character of the code unit [v] of a [\u] escape.  The strings of
    the embedding hold the code units 0..255 only: a code unit above them
    is read as a question mark, which is not the character that
    [JSON.parse] gives. *)
Definition code_unit (v : nat) : ascii :=
  if (v <? 256)%nat then ascii_of_nat v else "?"%char.

Definition escaped (c : ascii) : option ascii :=
  if chr_is dquote c then Some dquote
  else if chr_is "\" c then Some "\"%char
  else if chr_is "/" c then Some "/"%char
  else if chr_is "b" c then Some (ascii_of_nat 8)
  else if chr_is "f" c then Some (ascii_of_nat 12)
  else if chr_is "n" c then Some (ascii_of_nat 10)
  else if chr_is "r" c then Some (ascii_of_nat 13)
  else if chr_is "t" c then Some (ascii_of_nat 9)
  else None.

(** The characters of a string after its opening quote; [acc] holds what
    was read, last character first. *)
Fixpoint string_chars (st : string_state) (acc : text) (t : text) : parsed string :=
  match t with
  | [] => Invalid
  | c :: t' =>
      match st with
      | Plain =>
          if chr_is dquote c then Parsed (to_string (rev acc)) t'
          else if chr_is "\" c then string_chars Escape acc t'
          else if (code c <? 32)%nat then Invalid
          else string_chars Plain (c :: acc) t'
      | Escape =>
          if chr_is "u" c then string_chars (Unicode 0 0) acc t'
          else match escaped c with
               | Some c' => string_chars Plain (c' :: acc) t'
               | None => Invalid
               end
      | Unicode seen value =>
          match hex_digit c with
          | None => Invalid
          | Some d =>
              let value' := 16 * value + d in
              if (seen =? 3)%nat then string_chars Plain (code_unit value' :: acc) t'
              else string_chars (Unicode (S seen) value') acc t'
          end
      end
  end.

(** *** Numbers *)

(** A run of digits: their value when read after [value], how many there
    are, and what follows. *)
Fixpoint digits (value : Z) (count : nat) (t : text) : Z * nat * text :=
  match t with
  | c :: t' =>
      match digit c with
      | Some d => digits (10 * value + Z.of_nat d) (S count) t'
      | None => (value, count, t)
      end
  | [] => (value, count, [])
  end.

(** int: [0] or a digit run that does not start with [0] *)
Definition int_part (t : text) : parsed Z :=
  match t with
  | c :: t' =>
      if chr_is "0" c then Parsed 0%Z t'
      else match digits 0 0 t with
           | (_, 0, _) => Invalid
           | (v, _, rest) => Parsed v rest
           end
  | [] => Invalid
  end.

(** frac: the value of the digits read so far with those after the point,
    and the number of the latter *)
Definition frac_part (v : Z) (t : text) : parsed (Z * nat) :=
  match t with
  | c :: t' =>
      if chr_is "." c then
        match digits v 0 t' with
        | (_, 0, _) => Invalid
        | (v', n, rest) => Parsed (v', n) rest
        end
      else Parsed (v, 0) t
  | [] => Parsed (v, 0) []
  end.

Definition exp_digits (sign : Z) (t : text) : parsed Z :=
  match digits 0 0 t with
  | (_, 0, _) => Invalid
  | (e, _, rest) => Parsed (sign * e)%Z rest
  end.

Definition exp_part (t : text) : parsed Z :=
  match t with
  | c :: t' =>
      if chr_is "e" c || chr_is "E" c then
        match t' with
        | s :: t'' =>
            if chr_is "+" s then exp_digits 1 t''
            else if chr_is "-" s then exp_digits (-1) t''
            else exp_digits 1 t'
        | [] => Invalid
        end
      else Parsed 0%Z t
  | [] => Parsed 0%Z []
  end.

Definition unsigned_number (sign : Z) (t : text) : parsed jsval :=
  match int_part t with
  | Parsed i t1 =>
      match frac_part i t1 with
      | Parsed (v, n) t2 =>
          match exp_part t2 with
          | Parsed e t3 => Parsed (JNum (mkNum (sign * v) (e - Z.of_nat n))) t3
          | _ => Invalid
          end
      | _ => Invalid
      end
  | _ => Invalid
  end.

Definition number (t : text) : parsed jsval :=
  match t with
  | c :: t' => if chr_is "-" c then unsigned_number (-1) t' else unsigned_number 1 t
  | [] => Invalid
  end.

(** *** Values *)

Definition keyword (w : string) (v : jsval) (t : text) : parsed jsval :=
  let n := String.length w in
  if (to_string (firstn n t) =? w)%string then Parsed v (skipn n t) else Invalid.

(** [value], [elements] (after [[] or [,], with the elements read so far,
    last first) and [members] (after [{] or [,], with the members read so
    far).  A repeated member name keeps its first place and takes the last
    value. *)
Fixpoint value (fuel : nat) (t : text) {struct fuel} : parsed jsval :=
  match fuel with
  | 0 => OutOfFuel
  | S fuel' =>
      match skip_ws t with
      | [] => Invalid
      | c :: t1 =>
          if chr_is "{" c then
            match skip_ws t1 with
            | c' :: t2 => if chr_is "}" c' then Parsed (JObj []) t2 else members fuel' [] t1
            | [] => Invalid
            end
          else if chr_is "[" c then
            match skip_ws t1 with
            | c' :: t2 => if chr_is "]" c' then Parsed (JArr []) t2 else elements fuel' [] t1
            | [] => Invalid
            end
          else if chr_is dquote c then
            match string_chars Plain [] t1 with
            | Parsed s rest => Parsed (JStr s) rest
            | Invalid => Invalid
            | OutOfFuel => OutOfFuel
            end
          else if chr_is "t" c then keyword "true" (JBool true) (c :: t1)
          else if chr_is "f" c then keyword "false" (JBool false) (c :: t1)
          else if chr_is "n" c then keyword "null" JNull (c :: t1)
          else number (c :: t1)
      end
  end

with elements (fuel : nat) (acc : list jsval) (t : text) {struct fuel} : parsed jsval :=
  match fuel with
  | 0 => OutOfFuel
  | S fuel' =>
      match value fuel' t with
      | Parsed v t1 =>
          match skip_ws t1 with
          | c :: t2 =>
              if chr_is "," c then elements fuel' (v :: acc) t2
              else if chr_is "]" c then Parsed (JArr (rev (v :: acc))) t2
              else Invalid
          | [] => Invalid
          end
      | Invalid => Invalid
      | OutOfFuel => OutOfFuel
      end
  end

with members (fuel : nat) (acc : props) (t : text) {struct fuel} : parsed jsval :=
  match fuel with
  | 0 => OutOfFuel
  | S fuel' =>
      match skip_ws t with
      | c :: t1 =>
          if chr_is dquote c then
            match string_chars Plain [] t1 with
            | Parsed k t2 =>
                match skip_ws t2 with
                | c' :: t3 =>
                    if chr_is ":" c' then
                      match value fuel' t3 with
                      | Parsed v t4 =>
                          match skip_ws t4 with
                          | c'' :: t5 =>
                              if chr_is "," c'' then members fuel' (set k v acc) t5
                              else if chr_is "}" c'' then Parsed (JObj (set k v acc)) t5
                              else Invalid
                          | [] => Invalid
                          end
                      | Invalid => Invalid
                      | OutOfFuel => OutOfFuel
                      end
                    else Invalid
                | [] => Invalid
                end
            | _ => Invalid
            end
          else Invalid
      | [] => Invalid
      end
  end.

(** The fuel a text needs: a step of [value], [elements] or [members]
    either reads a character or is followed by one that does. *)
Definition enough (t : text) : nat := 2 * length t + 2.

(** [JSON.parse(s)] *)
Definition parse (s : string) : outcome jsval :=
  let t := of_string s in
  match value (enough t) t with
  | Parsed v rest =>
      match skip_ws rest with
      | [] => Ret v
      | _ => Throw (SyntaxError "Unexpected non-whitespace character after JSON")
      end
  | _ => Throw (SyntaxError "Unexpected token in JSON")
  end.

End Json.

(** ** The argument decoder: [safeJsonParse] and its repair stages

    The patterns of the source are quoted token by token, with [Q] standing
    for the double-quote character. *)

Module Decoder.
Import Text Regex.

Definition quote : ascii := dquote.
Definition backslash : ascii := "\"%char.

Definition seq (rs : list regex) : regex := fold_right Seq Eps rs.
Definition spaces : regex := Star true (Cls [Space]).
Definition unquoted : regex := Star true (NotCls [One quote]).

(** [(?<!\\) Q], flag g *)
Definition unescapedQuote : regex := seq [NotBehind backslash; Chr quote].

(** [value.replace(unescapedQuote, backslash Q)] *)
Definition escapeQuotes (value : string) : string :=
  replace_all unescapedQuote (fun _ => String backslash (String quote "")) value.

(** The first occurrence of [needle], as the number of characters before it *)
Fixpoint index_of (needle : string) (hay : string) : option nat :=
  if String.prefix needle hay then Some 0
  else match hay with
       | EmptyString => None
       | String _ hay' => option_map S (index_of needle hay')
       end.

(** The replacement text of [str.replace(searchString, replacement)]:
    [$$], [$&], [$`] and [$'] are expanded, any other [$] stands for itself. *)
Fixpoint substitution (matched preceding following : string) (replacement : text) : string :=
  match replacement with
  | [] => ""
  | c :: rest =>
      if Ascii.eqb c "$" then
        match rest with
        | d :: rest' =>
            if Ascii.eqb d "$" then "$" ++ substitution matched preceding following rest'
            else if Ascii.eqb d "&" then matched ++ substitution matched preceding following rest'
            else if Ascii.eqb d "`" then preceding ++ substitution matched preceding following rest'
            else if Ascii.eqb d "'" then following ++ substitution matched preceding following rest'
            else "$" ++ substitution matched preceding following rest
        | [] => "$"
        end
      else String c (substitution matched preceding following rest)
  end.

(** [str.replace(searchString, replacement)] with two strings *)
Definition replace_first (searchString replacement str : string) : string :=
  match index_of searchString str with
  | None => str
  | Some pos =>
      let preceding := String.substring 0 pos str in
      let following :=
        String.substring (pos + String.length searchString)
                         (String.length str - (pos + String.length searchString)) str in
      preceding ++ substitution searchString preceding following (of_string replacement)
                ++ following
  end.

Definition group_text (n : nat) (f : found) : string :=
  match group n f with
  | Some s => s
  | None => ""
  end.

(** Step 1: [Q ( [^Q]* ) Q ( \s* : \s* ) Q ( [^Q]* ) Q], flag g *)
Definition keyColonValue : regex :=
  seq [Chr quote; Group 1 unquoted; Chr quote;
       Group 2 (seq [spaces; Chr ":"; spaces]);
       Chr quote; Group 3 unquoted; Chr quote].

(** Step 2: [Q : \s* Q ( [^Q]* (?: \\ . [^Q]* )* ) Q], flag g *)
Definition colonValue : regex :=
  seq [Chr quote; Chr ":"; spaces; Chr quote;
       Group 1 (seq [unquoted; Star true (seq [Chr backslash; Dot; unquoted])]);
       Chr quote].

(** Steps 3 and 4: [( Q : \s* Q [^Q]* ) c ( [^Q]* Q )], flag g, for a control
    character [c] *)
Definition controlInValue (c : ascii) : regex :=
  seq [Group 1 (seq [Chr quote; Chr ":"; spaces; Chr quote; unquoted]);
       Chr c;
       Group 2 (seq [unquoted; Chr quote])].

(** The replacement [$1\\c$2] *)
Definition escapeControl (letter : ascii) (f : found) : string :=
  group_text 1 f ++ String backslash (String letter "") ++ group_text 2 f.

(** Step 5: [(?<!\\) \\ (?! [Q\\/bfnrt] )], flag g *)
Definition loneBackslash : regex :=
  seq [NotBehind backslash; Chr backslash;
       NotAhead (Cls [One quote; One backslash; One "/"; One "b"; One "f";
                      One "n"; One "r"; One "t"])].

Definition fixJsonString (jsonString : string) : string :=
  let fixed := jsonString in
  let fixed :=
    replace_all keyColonValue
      (fun f =>
         let key := group_text 1 f in
         let colon := group_text 2 f in
         let value := group_text 3 f in
         let escapedValue := escapeQuotes value in
         String quote key ++ String quote colon ++ String quote escapedValue
           ++ String quote "")
      fixed in
  let fixed :=
    replace_all colonValue
      (fun f =>
         let value := group_text 1 f in
         let escapedValue := escapeQuotes value in
         replace_first value escapedValue (matched f))
      fixed in
  let fixed := replace_all (controlInValue (ascii_of_nat 10)) (escapeControl "n") fixed in
  let fixed := replace_all (controlInValue (ascii_of_nat 9)) (escapeControl "t") fixed in
  let fixed := replace_all (controlInValue (ascii_of_nat 13)) (escapeControl "r") fixed in
  let fixed :=
    replace_all loneBackslash (fun _ => String backslash (String backslash "")) fixed in
  fixed.

(** [Q ( [^Q]+ ) Q \s* : \s* (?: Q ( [^Q]* ) Q | ( [^,}\s]+ ) )], flag g *)
Definition keyValuePattern : regex :=
  seq [Chr quote; Group 1 (Plus (NotCls [One quote])); Chr quote;
       spaces; Chr ":"; spaces;
       Alt (seq [Chr quote; Group 2 unquoted; Chr quote])
           (Group 3 (Plus (NotCls [One ","; One "}"; Space])))].

(** [Q ( [^Q]+ ) Q], flag g *)
Definition simplePattern : regex :=
  seq [Chr quote; Group 1 (Plus (NotCls [One quote])); Chr quote].

(** The matches a [while (... exec ...)] loop visits.  Both patterns above
    match at least one character, so the loop ends
    ([keyValuePattern_loop_ends], [simplePattern_loop_ends]). *)
Definition visited (r : regex) (subject : string) : list found :=
  match exec_all r subject with
  | Some fs => fs
  | None => []
  end.

(** The body of the first loop, for one match *)
Definition store_pair (result : object) (f : found) : object :=
  let key := group_text 1 f in
  match group 2 f, group 3 f with
  | Some stringValue, _ => assign result key (JStr stringValue)
  | None, Some nonStringValue =>
      match Json.parse nonStringValue with
      | Ret v => assign result key v
      | Throw _ => assign result key (JStr nonStringValue)
      end
  | None, None => result
  end.

(** [for (let i = 0; i < values.length; i += 2) result[values[i]] = values[i + 1]] *)
Fixpoint pair_up (values : list string) (result : object) : object :=
  match values with
  | k :: v :: values' => pair_up values' (assign result k (JStr v))
  | _ => result
  end.

(** [const result: any = {}] *)
Definition empty_object : object := mkObject [] None.

Definition extractArgumentsManually (jsonString : string) : outcome jsval :=
  catch
    (let result := fold_left store_pair (visited keyValuePattern jsonString) empty_object in
     let result :=
       if (length (own result) =? 0)%nat then
         let values := map (group_text 1) (visited simplePattern jsonString) in
         if (2 <=? length values)%nat && (length values mod 2 =? 0)%nat
         then pair_up values result
         else result
       else result in
     Ret (value_of result))
    (fun _ => Ret (JObj [])).

(** [\{ .* \}], flag s *)
Definition outerBraces : regex := seq [Chr "{"; Star true Any; Chr "}"].

(** The second stage: trim, cut to the outermost braces, repair, parse. *)
Definition repaired (jsonString : string) : string :=
  let fixedJson := trim jsonString in
  let fixedJson :=
    if negb (startsWith "{" fixedJson) || negb (endsWith "}" fixedJson) then
      match exec outerBraces fixedJson with
      | Some f => matched f
      | None => fixedJson
      end
    else fixedJson in
  fixJsonString fixedJson.

Definition safeJsonParse (jsonString : jsval) : outcome jsval :=
  match jsonString with
  | JStr s =>
      if (s =? "")%string then Ret (JObj [])
      else
        catch (Json.parse s) (fun _ =>
        catch (Json.parse (repaired s)) (fun _ =>
        catch (extractArgumentsManually s) (fun _ =>
        Ret (JObj []))))
  | _ => Ret (JObj [])
  end.

End Decoder.

(** ** Messages, tool results and chunks *)

Definition newline : string := String (ascii_of_nat 10) EmptyString.

(** [OllamaMessage].  An absent [tool_calls] or [tool_call_id] is
    [JUndefined]. *)
Record message : Type := mkMessage {
  role : string;
  content : string;
  tool_calls : jsval;
  tool_call_id : jsval
}.

(** [ToolResult] *)
Record ToolResult : Type := mkResult {
  success : bool;
  output : option string;
  error : option string
}.

Definition succeeded (out : string) : ToolResult := mkResult true (Some out) None.
Definition failed (err : string) : ToolResult := mkResult false None (Some err).

(** [s || fallback] for an optional string *)
Definition or_default (s : option string) (fallback : string) : string :=
  match s with
  | Some t => if (t =? "")%string then fallback else t
  | None => fallback
  end.

(** [v || fallback] where a string is expected *)
Definition string_or (v : jsval) (fallback : string) : string :=
  match v with
  | JStr t => if (t =? "")%string then fallback else t
  | _ => fallback
  end.

(** ** The transport: [OllamaClient.chat] and [OllamaClient.chatStream] *)

Module Transport.

(** [error.response] *)
Record response : Type := mkResponse {
  status : Z;
  data : jsval;
  headers : jsval
}.

(** The error an attempt fails with.  The HTTP client raises either an
    error that carries the server's response, or, when no response came, an
    error that carries a code such as [ECONNREFUSED] or [ETIMEDOUT]. *)
Inductive failure : Type :=
| Http (msg : string) (r : response)
| Network (msg : string) (code : string).

(** [error.message] *)
Definition f_message (e : failure) : string :=
  match e with
  | Http msg _ => msg
  | Network msg _ => msg
  end.

(** [error.response] *)
Definition f_response (e : failure) : option response :=
  match e with
  | Http _ r => Some r
  | Network _ _ => None
  end.

(** [error.code], for an error without a response *)
Definition f_code (e : failure) : option string :=
  match e with
  | Http _ _ => None
  | Network _ code => Some code
  end.

Inductive attempt : Type :=
| Answer (data : jsval)
| Fails (e : failure).

(** [requestPayload] *)
Record payload : Type := mkPayload {
  p_model : string;
  p_messages : list jsval;
  p_tools : option (list jsval);
  p_stream : bool
}.

Record LastErrorDetails : Type := mkDetails {
  d_timestamp : string;
  d_status : Z;
  d_message : string;
  d_response : jsval;
  d_headers : jsval;
  d_payload : payload
}.

(** The fields of the client the call reads and writes, with the number
    of requests it has posted and the delays it has slept, in
    milliseconds, oldest first. *)
Record client : Type := mkClient {
  currentModel : string;
  lastErrorDetails : option LastErrorDetails;
  posted : nat;
  slept : list Z
}.

Definition getLastErrorDetails (c : client) : option LastErrorDetails :=
  lastErrorDetails c.

Definition clearLastErrorDetails (c : client) : client :=
  mkClient (currentModel c) None (posted c) (slept c).

Definition maxRetries : nat := 3.

(** One converted tool call of [convertMessages]: the arguments are parsed
    when they are a string, and are the empty object when that fails. *)
Definition convertToolCall (toolCall : jsval) : outcome jsval :=
  let parsedArguments :=
    catch (fn <- get_prop toolCall "function" ;;
           arguments <- get_prop fn "arguments" ;;
           match arguments with
           | JStr s => Json.parse s
           | _ => Ret arguments
           end)
          (fun _ => Ret (JObj [])) in
  args <- parsedArguments ;;
  id <- get_prop toolCall "id" ;;
  type <- get_prop toolCall "type" ;;
  fn <- get_prop toolCall "function" ;;
  name <- get_prop fn "name" ;;
  Ret (JObj [("id", id); ("type", type);
             ("function", JObj [("name", name); ("arguments", args)])]).

Fixpoint traverse {A B : Type} (f : A -> outcome B) (l : list A) : outcome (list B) :=
  match l with
  | [] => Ret []
  | a :: l' =>
      b <- f a ;;
      bs <- traverse f l' ;;
      Ret (b :: bs)
  end.

Definition convertMessage (msg : message) : outcome jsval :=
  let converted := [("role", JStr (role msg)); ("content", JStr (content msg))] in
  converted <-
    (if truthy (tool_calls msg) then
       match tool_calls msg with
       | JArr l =>
           l' <- traverse convertToolCall l ;;
           Ret (set "tool_calls" (JArr l') converted)
       | _ => Throw (TypeError "msg.tool_calls.map is not a function")
       end
     else Ret converted) ;;
  Ret (JObj (if truthy (tool_call_id msg)
             then set "tool_call_id" (tool_call_id msg) converted
             else converted)).

Definition convertMessages (messages : list message) : outcome (list jsval) :=
  traverse convertMessage messages.

(** [convertTools]: a tool is its [function] record. *)
Definition convertTool (tool : jsval) : outcome jsval :=
  fn <- get_prop tool "function" ;;
  name <- get_prop fn "name" ;;
  description <- get_prop fn "description" ;;
  parameters <- get_prop fn "parameters" ;;
  Ret (JObj [("type", JStr "function");
             ("function", JObj [("name", name); ("description", description);
                                ("parameters", parameters)])]).

Definition convertTools (tools : list jsval) : outcome (list jsval) :=
  traverse convertTool tools.

Definition requestPayload (c : client) (messages : list message)
    (tools : option (list jsval)) (model : option string) (stream : bool)
  : outcome payload :=
  msgs <- convertMessages messages ;;
  let model := match model with
               | Some m => if (m =? "")%string then currentModel c else m
               | None => currentModel c
               end in
  match tools with
  | Some (t :: ts) =>
      tools' <- convertTools (t :: ts) ;;
      Ret (mkPayload model msgs (Some tools') stream)
  | _ => Ret (mkPayload model msgs None stream)
  end.

Definition status_of (e : failure) : option Z := option_map status (f_response e).

(** [error.response?.status >= 400 && error.response?.status < 500] *)
Definition is_client_error (e : failure) : bool :=
  match status_of e with
  | Some st => ((400 <=? st) && (st <? 500))%Z
  | None => false
  end.

(** [isRetryable] *)
Definition isRetryable (e : failure) : bool :=
  match status_of e with
  | Some st => (st =? 429)%Z || ((500 <=? st) && (st <=? 504))%Z
  | None => false
  end
  || match f_code e with
     | Some code => (code =? "ECONNREFUSED")%string || (code =? "ETIMEDOUT")%string
     | None => false
     end.

Definition string_of_Z (z : Z) : string := NilZero.string_of_int (Z.to_int z).

Section Chat.

(** [JSON.stringify] of a response body *)
Variable JSON_stringify : jsval -> string.
(** [new Date().toISOString()] when the attempt of that number fails *)
Variable now : nat -> string.
(** What [this.client.post('/api/chat', requestPayload)] does at the attempt
    of that number, counted from 0 *)
Variable post : nat -> payload -> attempt.

Definition errorMessage (e : failure) : string :=
  let errorMessage := "Ollama API error: " ++ f_message e in
  let errorMessage :=
    match f_response e with
    | Some r => if (status r =? 0)%Z then errorMessage
                else errorMessage ++ " (status: " ++ string_of_Z (status r) ++ ")"
    | None => errorMessage
    end in
  match f_response e with
  | Some r => if truthy (data r)
              then errorMessage ++ " - " ++ JSON_stringify (data r)
              else errorMessage
  | None => errorMessage
  end.

(** The record the catch block stores for a status in 400..499 *)
Definition details (at_attempt : nat) (e : failure) (p : payload) : option LastErrorDetails :=
  match f_response e with
  | Some r =>
      if is_client_error e then
        Some (mkDetails (now at_attempt) (status r) (f_message e) (data r) (headers r)
                        (mkPayload (p_model p) (p_messages p) (p_tools p) false))
      else None
  | None => None
  end.

Definition record_error (at_attempt : nat) (e : failure) (p : payload) (c : client) : client :=
  match details at_attempt e p with
  | Some d => mkClient (currentModel c) (Some d) (posted c) (slept c)
  | None => c
  end.

Definition sleep (delay : Z) (c : client) : client :=
  mkClient (currentModel c) (lastErrorDetails c) (posted c) (slept c ++ [delay]).

Definition count_post (c : client) : client :=
  mkClient (currentModel c) (lastErrorDetails c) (S (posted c)) (slept c).

(** [while (retryCount <= maxRetries) { try { ... } catch (error) { ... } }].
    [None] stands for a loop that is still running when the fuel is spent. *)
Fixpoint attempts (fuel : nat) (retryCount : nat) (p : payload) (c : client)
  : option (outcome jsval * client) :=
  if (retryCount <=? maxRetries)%nat then
    match fuel with
    | 0 => None
    | S fuel' =>
        let c := count_post c in
        match post retryCount p with
        | Answer d => Some (Ret d, c)
        | Fails e =>
            let at_attempt := retryCount in
            let retryCount := S retryCount in
            let c := record_error at_attempt e p c in
            if (retryCount <=? maxRetries)%nat && isRetryable e then
              let delay := (2 ^ Z.of_nat (retryCount - 1) * 1000)%Z in
              attempts fuel' retryCount p (sleep delay c)
            else Some (Throw (Error (errorMessage e)), c)
        end
    end
  else Some (Throw (Error "Unexpected error: exceeded retry loop"), c).

(** The loop, from its first attempt *)
Definition run (p : payload) (c : client) : option (outcome jsval * client) :=
  attempts (S maxRetries) 0 p c.

Definition chat (messages : list message) (tools : option (list jsval))
    (model : option string) (c : client) : option (outcome jsval * client) :=
  match requestPayload c messages tools model false with
  | Ret p => run p c
  | Throw e => Some (Throw e, c)
  end.

End Chat.

(** *** [chatStream]

    The response of a streaming request is a sequence of pieces of text
    (each [chunk.toString()], taken as a string of code units); the method
    cuts them into lines, each a JSON document, and yields one converted
    chunk per document. *)

(** [s.split("\n")] *)
Fixpoint split_lines (s : string) : list string :=
  match s with
  | EmptyString => [EmptyString]
  | String c s' =>
      if Ascii.eqb c (ascii_of_nat 10) then EmptyString :: split_lines s'
      else
        match split_lines s' with
        | line :: lines => String c line :: lines
        | [] => [String c EmptyString]
        end
  end.

(** [{ choices: [{ delta: { content, tool_calls }, finish_reason }] }] *)
Definition convertedChunk (content : string) (tool_calls : jsval) (done : jsval) : jsval :=
  JObj [("choices",
         JArr [JObj [("delta", JObj [("content", JStr content); ("tool_calls", tool_calls)]);
                     ("finish_reason", if truthy done then JStr "stop" else JNull)]])].

(** What the [try] block of a line does with the parsed [data], up to the
    [yield]: the chunk it yields and whether [data.done] holds.  The log
    lines read [data.done], which raises when [data] is [null], and call
    [data.message?.content?.substring], which raises when the content is
    neither a string nor [null] or [undefined]. *)
Definition convert (data : jsval) : outcome (jsval * bool) :=
  done <- get_prop data "done" ;;
  let message := get_prop_opt data "message" in
  let content := get_prop_opt message "content" in
  let tool_calls := get_prop_opt message "tool_calls" in
  match content with
  | JUndefined | JNull => Ret (convertedChunk "" tool_calls done, truthy done)
  | JStr c => Ret (convertedChunk c tool_calls done, truthy done)
  | _ => Throw (TypeError "data.message?.content?.substring is not a function")
  end.

Inductive line_result : Type :=
| Skipped
| Chunk (converted : jsval) (done : bool).

(** [if (line.trim()) { try { ... } catch (parseError) { ... } }] *)
Definition process_line (line : string) : line_result :=
  if (Text.trim line =? "")%string then Skipped
  else
    match (data <- Json.parse line ;; convert data) with
    | Ret (converted, done) => Chunk converted done
    | Throw _ => Skipped
    end.

(** [for (const line of lines) { ... }]: the chunks yielded, and whether
    the generator returned on a line with [done] *)
Fixpoint process_lines (lines : list string) : list jsval * bool :=
  match lines with
  | [] => ([], false)
  | line :: rest =>
      match process_line line with
      | Skipped => process_lines rest
      | Chunk converted true => ([converted], true)
      | Chunk converted false =>
          let (yielded, done) := process_lines rest in
          (converted :: yielded, done)
      end
  end.

(** The body of [for await (const chunk of response.data)]:
    [buffer += chunk.toString(); lines = buffer.split('\n');
     buffer = lines.pop() || '';] and the loop over the lines *)
Definition feed (buffer chunk : string) : list jsval * bool * string :=
  let lines := split_lines (buffer ++ chunk) in
  let buffer' := last lines EmptyString in
  (process_lines (removelast lines), buffer').

(** [for await (const chunk of response.data) { ... }] *)
Fixpoint pump (buffer : string) (chunks : list string) : list jsval * bool :=
  match chunks with
  | [] => ([], false)
  | chunk :: rest =>
      match feed buffer chunk with
      | (yielded, true, _) => (yielded, true)
      | (yielded, false, buffer') =>
          let (more, done) := pump buffer' rest in
          ((yielded ++ more)%list, done)
      end
  end.

(** What a streaming request does: the request fails, or a response comes
    whose stream delivers pieces of text and then ends or breaks. *)
Inductive stream_attempt : Type :=
| Refused (e : failure)
| Streams (chunks : list string) (broken : option failure).

Section ChatStream.

Variable now : nat -> string.
(** What [this.client.post('/api/chat', requestPayload, { responseType:
    'stream' })] does at the attempt of that number, counted from 0 *)
Variable post : nat -> payload -> stream_attempt.

Definition streamErrorMessage (e : failure) : string :=
  let errorMessage := "Ollama API streaming error: " ++ f_message e in
  match f_response e with
  | Some r => if (status r =? 0)%Z then errorMessage
              else errorMessage ++ " (status: " ++ string_of_Z (status r) ++ ")"
  | None => errorMessage
  end.

Definition stream_details (at_attempt : nat) (e : failure) (p : payload)
  : option LastErrorDetails :=
  match f_response e with
  | Some r =>
      if is_client_error e then
        Some (mkDetails (now at_attempt) (status r) (f_message e) (data r) (headers r)
                        (mkPayload (p_model p) (p_messages p) (p_tools p) true))
      else None
  | None => None
  end.

Definition record_stream_error (at_attempt : nat) (e : failure) (p : payload) (c : client)
  : client :=
  match stream_details at_attempt e p with
  | Some d => mkClient (currentModel c) (Some d) (posted c) (slept c)
  | None => c
  end.

(** What the generator has yielded, how it ended and the client then *)
Definition streamed : Type := list jsval * outcome unit * client.

(** [while (retryCount <= maxRetries) { try { ... } catch (error) { ... } }]
    of [chatStream].  An attempt that fails after it yielded chunks has
    yielded them: the next attempt yields after them. *)
Fixpoint stream_attempts (fuel : nat) (retryCount : nat) (p : payload) (c : client)
  : option streamed :=
  if (retryCount <=? maxRetries)%nat then
    match fuel with
    | 0 => None
    | S fuel' =>
        let c := count_post c in
        let failed (yielded : list jsval) (e : failure) : option streamed :=
          let at_attempt := retryCount in
          let retryCount := S retryCount in
          let c := record_stream_error at_attempt e p c in
          if (retryCount <=? maxRetries)%nat && isRetryable e then
            let delay := (2 ^ Z.of_nat (retryCount - 1) * 1000)%Z in
            match stream_attempts fuel' retryCount p (sleep delay c) with
            | Some (more, r, c') => Some ((yielded ++ more)%list, r, c')
            | None => None
            end
          else Some (yielded, Throw (Error (streamErrorMessage e)), c) in
        match post retryCount p with
        | Refused e => failed [] e
        | Streams chunks broken =>
            match pump EmptyString chunks, broken with
            | (yielded, true), _ => Some (yielded, Ret tt, c)
            | (yielded, false), None => Some (yielded, Ret tt, c)
            | (yielded, false), Some e => failed yielded e
            end
        end
    end
  else Some ([], Ret tt, c).

Definition chatStream (messages : list message) (tools : option (list jsval))
    (model : option string) (c : client) : option streamed :=
  match requestPayload c messages tools model true with
  | Ret p => stream_attempts (S maxRetries) 0 p c
  | Throw e => Some ([], Throw e, c)
  end.

End ChatStream.

End Transport.

(** ** Conversation state: [summarizeContext] *)

Module Context.
Import Text.

(** [messages.slice(-n)] *)
Definition slice_last {A : Type} (n : nat) (l : list A) : list A :=
  skipn (length l - n) l.

(** [messages.slice(1, -n)] *)
Definition slice_middle {A : Type} (n : nat) (l : list A) : list A :=
  firstn (length l - n - 1) (skipn 1 l).

(** The line a middle message contributes to the digest *)
Definition digest_line (msg : message) : string :=
  if (role msg =? "user")%string then "User: " ++ content msg
  else if (role msg =? "assistant")%string then "Assistant: " ++ content msg
  else if (role msg =? "tool")%string
  then "Tool result: " ++ substring0 100 (content msg) ++ "..."
  else "".

Definition summaryContent (messagesToSummarize : list message) : string :=
  join newline
       (filter (fun line => negb (line =? "")%string)
               (map digest_line messagesToSummarize)).

Definition summaryMessage (messagesToSummarize : list message) : message :=
  mkMessage "assistant"
    ("[Context Summary] Previous conversation included:" ++ newline
       ++ substring0 1000 (summaryContent messagesToSummarize) ++ "...")
    JUndefined JUndefined.

(** The [try] block: with messages whose [content] is a string nothing in
    it raises. *)
Definition buildSummary (messagesToSummarize : list message) : outcome message :=
  Ret (summaryMessage messagesToSummarize).

Definition summarizeContext (messages : list message) : list message :=
  if (length messages <=? 10)%nat then messages
  else
    match messages with
    | [] => messages
    | systemMessage :: _ =>
        let recentMessages := slice_last 6 messages in
        let messagesToSummarize := slice_middle 6 messages in
        match messagesToSummarize with
        | [] => messages
        | _ =>
            match buildSummary messagesToSummarize with
            | Ret summary => systemMessage :: summary :: recentMessages
            | Throw _ => systemMessage :: recentMessages
            end
        end
    end.

End Context.

(** ** The agent: tool dispatch and the streaming loop *)

Module Agent.
Import Text.

(** *** What the agent exchanges with its collaborators *)

(** A call of a built-in tool, with the arguments the dispatcher reads
    from the decoded mapping *)
Inductive builtin : Type :=
| View (path : jsval) (range : option (jsval * jsval))
| Create (path content : jsval)
| StrReplace (path old_str new_str replace_all : jsval)
| Bash (command : jsval)
| CreateTodoList (todos : jsval)
| UpdateTodoList (updates : jsval)
| Search (query : jsval) (options : props).

(** An item of the content of an external tool's result *)
Inductive mcp_item : Type :=
| TextItem (text : string)
| ResourceItem (uri : option string)
| OtherItem (rendered : string).

Record mcp_result : Type := mkMcp {
  isError : bool;
  mcp_content : list mcp_item
}.

(** A fragment of the stream, as [chatStream] builds it:
    [{ choices: [{ delta: { content, tool_calls } }] }]; [NoChoice] is a
    fragment without [choices[0]]. *)
Inductive fragment : Type :=
| NoChoice
| Delta (text : string) (calls : option (list jsval)).

(** [StreamingChunk] *)
Inductive chunk : Type :=
| Content (text : string)
| ToolCalls (toolCalls : jsval)
| ToolResultChunk (toolCall : jsval) (toolResult : ToolResult)
| Done
| TokenCount (tokenCount : Z).

Inductive entry_type : Type := user | assistant | tool_result | tool_call.

(** [ChatEntry], without its timestamp *)
Record ChatEntry : Type := mkEntry {
  entry_kind : entry_type;
  entry_content : string;
  entry_toolCalls : jsval;
  entry_toolCall : jsval;
  entry_toolResult : option ToolResult
}.

(** What happens during a run, in the order it happens. *)
Inductive event : Type :=
| Yielded (c : chunk)                    (* [yield c] *)
| AbortChecked (aborted : bool)          (* a read of [signal.aborted] *)
| ToolsRequested                         (* [getAllOllamaTools()] *)
| StreamStarted (sent : list message)    (* [chatStream(messages, tools)] *)
| FragmentReceived (f : fragment)        (* the stream delivers a fragment *)
| ExecuteTool (toolCall : jsval)         (* [executeTool(toolCall)] starts *)
| BuiltinCalled (b : builtin)            (* a built-in tool runs *)
| McpCalled (name : string) (args : jsval). (* [mcpManager.callTool] *)

(** The state of the agent: the conversation, the history shown to the
    user and the events so far, oldest first. *)
Record agent : Type := mkAgent {
  messages : list message;
  chatHistory : list ChatEntry;
  log : list event
}.

(** *** Computations over the agent's state that can raise *)

Definition io (A : Type) : Type := agent -> outcome A * agent.

Definition ret {A : Type} (a : A) : io A := fun s => (Ret a, s).

Definition throw {A : Type} (e : exn) : io A := fun s => (Throw e, s).

Definition bind_io {A B : Type} (m : io A) (k : A -> io B) : io B :=
  fun s =>
    match m s with
    | (Ret a, s') => k a s'
    | (Throw e, s') => (Throw e, s')
    end.

(** [try { body } catch (error) { handler error }]: what the body did
    before it raised stays done. *)
Definition try_catch {A : Type} (body : io A) (handler : exn -> io A) : io A :=
  fun s =>
    match body s with
    | (Ret a, s') => (Ret a, s')
    | (Throw e, s') => handler e s'
    end.

Definition lift {A : Type} (o : outcome A) : io A := fun s => (o, s).

Definition emit (e : event) : io unit :=
  fun s => (Ret tt, mkAgent (messages s) (chatHistory s) (log s ++ [e])).

(** Ask the environment, which answers from what has happened so far. *)
Definition observe {A : Type} (f : list event -> A) : io A :=
  fun s => (Ret (f (log s)), s).

Definition push_message (m : message) : io unit :=
  fun s => (Ret tt, mkAgent (messages s ++ [m]) (chatHistory s) (log s)).

Definition push_history (e : ChatEntry) : io unit :=
  fun s => (Ret tt, mkAgent (messages s) (chatHistory s ++ [e]) (log s)).

Definition get_messages : io (list message) := fun s => (Ret (messages s), s).

Definition set_messages (ms : list message) : io unit :=
  fun s => (Ret tt, mkAgent ms (chatHistory s) (log s)).

Declare Scope io_scope.
Delimit Scope io_scope with io.
Notation "x <- m ;; k" := (bind_io m (fun x => k))
  (at level 61, m at next level, right associativity) : io_scope.
Notation "m ;; k" := (bind_io m (fun _ => k))
  (at level 61, right associativity) : io_scope.

(** How a step of the generator ends: it goes on with a value, the
    generator returns, or (for a loop) the fuel is spent while it runs. *)
Inductive flow (A : Type) : Type :=
| Go (a : A)
| Returned
| Running.
Arguments Go {A} a.
Arguments Returned {A}.
Arguments Running {A}.

Definition yield (c : chunk) : io unit := emit (Yielded c).

Definition maxToolRounds : nat := 50.

Definition cancelNotice : string := newline ++ newline ++ "[Operation cancelled by user]".

Definition limitNotice : string :=
  newline ++ newline
  ++ "Maximum tool execution rounds reached. Stopping to prevent infinite loops.".

Definition errorNotice (e : exn) : string :=
  "Sorry, I encountered an error: " ++ error_message e.

(** [{ choices: [{ delta: { content, tool_calls } }] }] *)
Definition fragment_json (f : fragment) : jsval :=
  match f with
  | NoChoice => JObj [("choices", JArr [])]
  | Delta text calls =>
      JObj [("choices",
             JArr [JObj [("delta",
                          JObj [("content", JStr text);
                                ("tool_calls",
                                 match calls with
                                 | Some l => JArr l
                                 | None => JUndefined
                                 end)])]])]
  end.

(** [toolCalls.some((tc) => tc.function?.name)] *)
Fixpoint some_named (toolCalls : list jsval) : outcome bool :=
  match toolCalls with
  | [] => Ret false
  | tc :: rest =>
      (fn <- get_prop tc "function" ;;
       if truthy (get_prop_opt fn "name") then Ret true else some_named rest)%outcome
  end.

(** The tool calls of the accumulated message, when it has any: the
    fragments above only ever leave an array or nothing there. *)
Definition calls_of (accumulatedMessage : jsval) : list jsval :=
  match get_prop_opt accumulatedMessage "tool_calls" with
  | JArr l => l
  | _ => []
  end.

(** The variables of the generator that outlive a round *)
Record counters : Type := mkCounters {
  toolRounds : nat;
  inputTokens : Z;
  totalOutputTokens : Z
}.

(** The variables of one round's streaming loop *)
Record streaming : Type := mkStreaming {
  accumulatedMessage : jsval;
  accumulatedContent : string;
  toolCallsYielded : bool
}.

Section Collaborators.

Local Open Scope io_scope.

(** [this.abortController?.signal.aborted] *)
Variable aborted : list event -> bool.
(** [getAllOllamaTools()] *)
Variable getAllOllamaTools : list event -> outcome jsval.
(** [this.ollamaClient.chatStream(messages, tools)]: the fragments the
    stream delivers and, when it then fails, what it raises *)
Variable chatStream : list event -> list message -> jsval -> list fragment * option exn.
(** The built-in tools *)
Variable run_builtin : list event -> builtin -> outcome ToolResult.
(** [getMCPManager().callTool(name, args)] *)
Variable callTool : list event -> string -> jsval -> outcome mcp_result.
(** The token counter *)
Variable countMessageTokens : list message -> Z.
Variable estimateStreamingTokens : string -> Z.
Variable countTokens : string -> Z.
(** [JSON.stringify(v)], as a template literal prints it *)
Variable JSON_stringify : jsval -> string.
(** [String(v)] for a value that is not a string *)
Variable ToString : jsval -> string.
(** The identifier made from the clock and a random number for the
    [n]-th call found in a content *)
Variable new_call_id : list event -> nat -> string.

Definition text_of (v : jsval) : string :=
  match v with
  | JStr s => s
  | _ => ToString v
  end.

(** *** [executeMCPTool] *)

Definition first_text (items : list mcp_item) : string :=
  match items with
  | TextItem t :: _ => if (t =? "")%string then "MCP tool error" else t
  | _ => "MCP tool error"
  end.

Definition render_item (item : mcp_item) : string :=
  match item with
  | TextItem t => t
  | ResourceItem uri => "Resource: " ++ or_default uri "Unknown"
  | OtherItem rendered => rendered
  end.

Definition executeMCPTool (toolCall : jsval) : io ToolResult :=
  try_catch
    (fn <- lift (get_prop toolCall "function") ;;
     arguments <- lift (get_prop fn "arguments") ;;
     args <- lift (Json.parse (text_of arguments)) ;;
     name <- lift (get_prop fn "name") ;;
     result <- observe (fun l => callTool l (text_of name) args) ;;
     emit (McpCalled (text_of name) args) ;;
     result <- lift result ;;
     if isError result then ret (failed (first_text (mcp_content result)))
     else
       let output := join newline (map render_item (mcp_content result)) in
       ret (succeeded (if (output =? "")%string then "Success" else output)))
    (fun e => ret (failed ("MCP tool execution error: " ++ error_message e))).

(** *** [executeTool] *)

Definition call_builtin (b : builtin) : io ToolResult :=
  result <- observe (fun l => run_builtin l b) ;;
  emit (BuiltinCalled b) ;;
  lift result.

(** [!args || !args.f || typeof args.f !== 'string' || args.f.trim() === ''] *)
Definition missing_text (args : jsval) (f : string) : bool :=
  negb (truthy args)
  || match get_prop_opt args f with
     | JStr s => (s =? "")%string || (trim s =? "")%string
     | _ => true
     end.

Definition search_options (args : jsval) : props :=
  [("searchType", get_prop_opt args "search_type");
   ("includePattern", get_prop_opt args "include_pattern");
   ("excludePattern", get_prop_opt args "exclude_pattern");
   ("caseSensitive", get_prop_opt args "case_sensitive");
   ("wholeWord", get_prop_opt args "whole_word");
   ("regex", get_prop_opt args "regex");
   ("maxResults", get_prop_opt args "max_results");
   ("fileTypes", get_prop_opt args "file_types");
   ("includeHidden", get_prop_opt args "include_hidden")].

Definition dispatch (toolCall : jsval) (name : jsval) (args : jsval) : io ToolResult :=
  let arg f := lift (get_prop args f) in
  let named n := match name with JStr s => (s =? n)%string | _ => false end in
  if named "view_file" then
    if missing_text args "path" then
      ret (failed ("Invalid path parameter: " ++ JSON_stringify (get_prop_opt args "path")
                   ++ ". Path must be a non-empty string."))
    else
      path <- arg "path" ;;
      start_line <- arg "start_line" ;;
      end_line <- arg "end_line" ;;
      call_builtin (View path (if truthy start_line && truthy end_line
                               then Some (start_line, end_line) else None))
  else if named "create_file" then
    path <- arg "path" ;;
    file_content <- arg "content" ;;
    call_builtin (Create path file_content)
  else if named "str_replace_editor" then
    path <- arg "path" ;;
    old_str <- arg "old_str" ;;
    new_str <- arg "new_str" ;;
    replace_all <- arg "replace_all" ;;
    call_builtin (StrReplace path old_str new_str replace_all)
  else if named "bash" then
    command <- arg "command" ;;
    call_builtin (Bash command)
  else if named "create_todo_list" then
    todos <- arg "todos" ;;
    call_builtin (CreateTodoList todos)
  else if named "update_todo_list" then
    updates <- arg "updates" ;;
    call_builtin (UpdateTodoList updates)
  else if named "search" then
    if missing_text args "query" then
      ret (failed ("Invalid query parameter: " ++ JSON_stringify (get_prop_opt args "query")
                   ++ ". Query must be a non-empty string."))
    else
      query <- arg "query" ;;
      call_builtin (Search query (search_options args))
  else
    match name with
    | JStr s =>
        if startsWith "mcp__" s then executeMCPTool toolCall
        else ret (failed ("Unknown tool: " ++ s))
    | JUndefined | JNull =>
        throw (TypeError "Cannot read properties of undefined (reading 'startsWith')")
    | _ => throw (TypeError "toolCall.function.name.startsWith is not a function")
    end.

Definition executeTool (toolCall : jsval) : io ToolResult :=
  emit (ExecuteTool toolCall) ;;
  try_catch
    (fn <- lift (get_prop toolCall "function") ;;
     arguments <- lift (get_prop fn "arguments") ;;
     args <- lift (Decoder.safeJsonParse arguments) ;;
     name <- lift (get_prop fn "name") ;;
     dispatch toolCall name args)
    (fun e => ret (failed ("Tool execution error: " ++ error_message e))).

(** *** [parseToolCallsFromContent] *)

(** Three backquotes, [json], [\s*], a line feed, [( [\s\S]*? )], a line
    feed, three backquotes; flag g *)
Definition jsonBlockRegex : Regex.regex :=
  Decoder.seq [Regex.Lit (of_string "```json"); Decoder.spaces; Regex.Chr (ascii_of_nat 10);
               Regex.Group 1 (Regex.Star false Regex.Any);
               Regex.Chr (ascii_of_nat 10); Regex.Lit (of_string "```")].

(** The tool call a parsed value stands for, when it has a [name] and
    [arguments] *)
Definition as_tool_call (id : string) (parsed : jsval) : outcome (option jsval) :=
  (name <- get_prop parsed "name" ;;
   if truthy name then
     arguments <- get_prop parsed "arguments" ;;
     if truthy arguments then
       Ret (Some (JObj [("id", JStr id); ("type", JStr "function");
                        ("function",
                         JObj [("name", name);
                               ("arguments",
                                match arguments with
                                | JStr a => JStr a
                                | _ => JStr (JSON_stringify arguments)
                                end)])]))
     else Ret None
   else Ret None)%outcome.

Definition parse_call (l : list event) (toolCalls : list jsval) (jsonContent : string)
  : list jsval :=
  match (parsed <- Json.parse jsonContent ;;
         as_tool_call (new_call_id l (length toolCalls)) parsed)%outcome with
  | Ret (Some toolCall) => toolCalls ++ [toolCall]
  | _ => toolCalls
  end.

Definition parseToolCallsFromContent (l : list event) (content : jsval) : list jsval :=
  match content with
  | JStr s =>
      if (s =? "")%string then []
      else
        let matches := Regex.matchAll jsonBlockRegex s in
        let toolCalls :=
          fold_left (fun toolCalls f => parse_call l toolCalls (trim (Decoder.group_text 1 f)))
                    matches [] in
        match toolCalls with
        | [] => parse_call l [] s
        | _ => toolCalls
        end
  | _ => []
  end.

(** *** [processUserMessageStream] *)

Definition checkAborted : io bool :=
  stop <- observe aborted ;;
  emit (AbortChecked stop) ;;
  ret stop.

(** The three statements of every cancellation branch *)
Definition cancelled {A : Type} : io (flow A) :=
  yield (Content cancelNotice) ;;
  yield Done ;;
  ret Returned.

(** The content a tool result puts in the history and in the conversation *)
Definition result_text (result : ToolResult) (fallback : string) : string :=
  if success result then or_default (output result) "Success"
  else or_default (error result) fallback.

(** The body of [for await (const chunk of stream)], once the fragment
    passed the cancellation check *)
Definition absorb (f : fragment) (c : counters) (st : streaming)
  : io (counters * streaming) :=
  match f with
  | NoChoice => ret (c, st)
  | Delta text _ =>
      acc <- lift (Aggregator.messageReducer (accumulatedMessage st) (fragment_json f)) ;;
      yielded <-
        (if negb (toolCallsYielded st) && (0 <? length (calls_of acc))%nat then
           hasCompleteTool <- lift (some_named (calls_of acc)) ;;
           if hasCompleteTool : bool then
             yield (ToolCalls (get_prop_opt acc "tool_calls")) ;;
             ret true
           else ret false
         else ret (toolCallsYielded st)) ;;
      if negb (text =? "")%string then
        let accumulated := (accumulatedContent st ++ text)%string in
        let currentOutputTokens :=
          (estimateStreamingTokens accumulated
           + (if truthy (get_prop_opt acc "tool_calls")
              then countTokens (JSON_stringify (get_prop_opt acc "tool_calls"))
              else 0))%Z in
        let c := mkCounters (toolRounds c) (inputTokens c) currentOutputTokens in
        yield (Content text) ;;
        yield (TokenCount (inputTokens c + totalOutputTokens c)) ;;
        ret (c, mkStreaming acc accumulated yielded)
      else ret (c, mkStreaming acc (accumulatedContent st) yielded)
  end.

(** [for await (const chunk of stream) { ... }] over the fragments the
    stream delivers *)
Fixpoint consume (fs : list fragment) (failure : option exn)
    (c : counters) (st : streaming) : io (flow (counters * streaming)) :=
  match fs with
  | [] =>
      match failure with
      | Some e => throw e
      | None => ret (Go (c, st))
      end
  | f :: fs' =>
      emit (FragmentReceived f) ;;
      stop <- checkAborted ;;
      if stop : bool then cancelled
      else
        r <- absorb f c st ;;
        consume fs' failure (fst r) (snd r)
  end.

(** [for (const toolCall of toolCalls) { ... }] *)
Fixpoint run_tools (toolCalls : list jsval) : io (flow unit) :=
  match toolCalls with
  | [] => ret (Go tt)
  | toolCall :: rest =>
      stop <- checkAborted ;;
      if stop : bool then cancelled
      else
        result <- executeTool toolCall ;;
        push_history (mkEntry tool_result (result_text result "Error occurred")
                              JUndefined toolCall (Some result)) ;;
        yield (ToolResultChunk toolCall result) ;;
        id <- lift (get_prop toolCall "id") ;;
        push_message (mkMessage "tool" (result_text result "Error") JUndefined id) ;;
        run_tools rest
  end.

(** One turn of the [while] loop.  It goes on with [true] when the loop
    continues and with [false] at the [break]. *)
Definition round (c : counters) : io (flow (bool * counters)) :=
  stop <- checkAborted ;;
  if stop : bool then cancelled
  else
    tools <- observe getAllOllamaTools ;;
    emit ToolsRequested ;;
    tools <- lift tools ;;
    sent <- get_messages ;;
    stream <- observe (fun l => chatStream l sent tools) ;;
    emit (StreamStarted sent) ;;
    r <- consume (fst stream) (snd stream) c (mkStreaming (JObj []) "" false) ;;
    match r with
    | Returned => ret Returned
    | Running => ret Running
    | Go (c, st) =>
        let acc := accumulatedMessage st in
        toolCalls <-
          (match calls_of acc with
           | [] => observe (fun l => parseToolCallsFromContent l (get_prop_opt acc "content"))
           | calls => ret calls
           end) ;;
        push_history (mkEntry assistant
                        (string_or (get_prop_opt acc "content") "Using tools to help you...")
                        (JArr toolCalls) JUndefined None) ;;
        push_message (mkMessage "assistant" (string_or (get_prop_opt acc "content") "")
                                (JArr toolCalls) JUndefined) ;;
        if (0 <? length toolCalls)%nat then
          let c := mkCounters (S (toolRounds c)) (inputTokens c) (totalOutputTokens c) in
          (if negb (toolCallsYielded st) then yield (ToolCalls (JArr toolCalls)) else ret tt) ;;
          r <- run_tools toolCalls ;;
          match r with
          | Returned => ret Returned
          | Running => ret Running
          | Go _ =>
              now <- get_messages ;;
              let c := mkCounters (toolRounds c) (countMessageTokens now)
                                  (totalOutputTokens c) in
              yield (TokenCount (inputTokens c + totalOutputTokens c)) ;;
              ret (Go (true, c))
          end
        else ret (Go (false, c))
    end.

(** [while (toolRounds < maxToolRounds) { ... }] *)
Fixpoint rounds (fuel : nat) (c : counters) : io (flow counters) :=
  if (toolRounds c <? maxToolRounds)%nat then
    match fuel with
    | 0 => ret Running
    | S fuel' =>
        r <- round c ;;
        match r with
        | Go (true, c') => rounds fuel' c'
        | Go (false, c') => ret (Go c')
        | Returned => ret Returned
        | Running => ret Running
        end
    end
  else ret (Go c).

(** The [try] block: the loop, the limit notice and the final chunk *)
Definition tryBlock (c : counters) : io (flow unit) :=
  r <- rounds maxToolRounds c ;;
  match r with
  | Go c =>
      (if (maxToolRounds <=? toolRounds c)%nat then yield (Content limitNotice) else ret tt) ;;
      yield Done ;;
      ret (Go tt)
  | Returned => ret Returned
  | Running => ret Running
  end.

(** The [catch] block *)
Definition catchBlock (e : exn) : io (flow unit) :=
  stop <- checkAborted ;;
  if stop : bool then cancelled
  else
    push_history (mkEntry assistant (errorNotice e) JUndefined JUndefined None) ;;
    yield (Content (errorNotice e)) ;;
    yield Done ;;
    ret (Go tt).

(** What comes before the [try]: the user's message joins the
    conversation, which is compacted when it is estimated above 15000
    tokens. *)
Definition manageContext (text : string) : io Z :=
  push_history (mkEntry user text JUndefined JUndefined None) ;;
  push_message (mkMessage "user" text JUndefined JUndefined) ;;
  now <- get_messages ;;
  let inputTokens := countMessageTokens now in
  if (15000 <? inputTokens)%Z then
    set_messages (Context.summarizeContext now) ;;
    now <- get_messages ;;
    ret (countMessageTokens now)
  else ret inputTokens.

Definition processUserMessageStream (text : string) : io (flow unit) :=
  inputTokens <- manageContext text ;;
  yield (TokenCount inputTokens) ;;
  try_catch (tryBlock (mkCounters 0 inputTokens 0)) catchBlock.

End Collaborators.

(** *** [processUserMessage]: the loop without streaming

    The reply of [chat] is taken as its interface [OllamaResponse] types
    it: a message, when there is one, has a [content] that is a string and
    [tool_calls] that are an array or missing.  The wait for the MCP
    servers that comes first is left out: it ends when [initializeMCP]
    has, which it always does. *)

Record reply : Type := mkReply {
  reply_content : string;
  reply_tool_calls : option (list jsval)
}.

(** The agent and the conversations it has sent to [chat], oldest first *)
Record session : Type := mkSession {
  the_agent : agent;
  requests : list (list message)
}.

Definition talk (A : Type) : Type := session -> outcome A * session.

Definition talk_ret {A : Type} (a : A) : talk A := fun s => (Ret a, s).

Definition talk_throw {A : Type} (e : exn) : talk A := fun s => (Throw e, s).

Definition talk_bind {A B : Type} (m : talk A) (k : A -> talk B) : talk B :=
  fun s =>
    match m s with
    | (Ret a, s') => k a s'
    | (Throw e, s') => (Throw e, s')
    end.

Definition talk_try {A : Type} (body : talk A) (handler : exn -> talk A) : talk A :=
  fun s =>
    match body s with
    | (Ret a, s') => (Ret a, s')
    | (Throw e, s') => handler e s'
    end.

(** A computation of the agent, within a session *)
Definition of_io {A : Type} (m : io A) : talk A :=
  fun s =>
    let (r, a) := m (the_agent s) in
    (r, mkSession a (requests s)).

Declare Scope talk_scope.
Delimit Scope talk_scope with talk.
Notation "x <- m ;; k" := (talk_bind m (fun x => k))
  (at level 61, m at next level, right associativity) : talk_scope.
Notation "m ;; k" := (talk_bind m (fun _ => k))
  (at level 61, right associativity) : talk_scope.

(** [a === b] for identifiers: strings, or [undefined] where a tool call
    has none.  Numbers, arrays and objects, which [===] compares as
    doubles and by reference, are no identifiers: the model answers
    [false] for them. *)
Definition strict_equal (a b : jsval) : bool :=
  match a, b with
  | JUndefined, JUndefined => true
  | JNull, JNull => true
  | JBool x, JBool y => Bool.eqb x y
  | JStr x, JStr y => (x =? y)%string
  | _, _ => false
  end.

(** [(entry) => entry.type === "tool_call" && entry.toolCall?.id === id] *)
Definition awaits (id : jsval) (entry : ChatEntry) : bool :=
  match entry_kind entry with
  | tool_call => strict_equal (get_prop_opt (entry_toolCall entry) "id") id
  | _ => false
  end.

(** [array.findIndex(p)], [None] for -1 *)
Fixpoint findIndex {A : Type} (p : A -> bool) (l : list A) : option nat :=
  match l with
  | [] => None
  | a :: l' => if p a then Some 0 else option_map S (findIndex p l')
  end.

(** [array[i] = a] for an index within the array *)
Fixpoint replace_at {A : Type} (i : nat) (a : A) (l : list A) : list A :=
  match l, i with
  | [], _ => []
  | _ :: l', 0 => a :: l'
  | b :: l', S i' => b :: replace_at i' a l'
  end.

(** [{ ...entry, type: "tool_result", content, toolResult: result }] *)
Definition updatedEntry (entry : ChatEntry) (result : ToolResult) : ChatEntry :=
  mkEntry tool_result (result_text result "Error occurred")
          (entry_toolCalls entry) (entry_toolCall entry) (Some result).

Definition set_history (h : list ChatEntry) : io unit :=
  fun s => (Ret tt, mkAgent (messages s) h (log s)).

Definition get_history : io (list ChatEntry) := fun s => (Ret (chatHistory s), s).

Definition warningEntry : ChatEntry :=
  mkEntry assistant
          "Maximum tool execution rounds reached. Stopping to prevent infinite loops."
          JUndefined JUndefined None.

Definition errorEntry (e : exn) : ChatEntry :=
  mkEntry assistant (errorNotice e) JUndefined JUndefined None.

Definition pendingEntry (toolCall : jsval) : ChatEntry :=
  mkEntry tool_call "Executing..." JUndefined toolCall None.

Section Conversation.

Local Open Scope talk_scope.

Variable getAllOllamaTools : list event -> outcome jsval.
(** [this.ollamaClient.chat(this.messages, tools, undefined)], which
    answers from what has happened so far: the events and the requests *)
Variable chat : list event -> list (list message) -> list message -> jsval
                -> outcome (option reply).
Variable run_builtin : list event -> builtin -> outcome ToolResult.
Variable callTool : list event -> string -> jsval -> outcome mcp_result.
Variable JSON_stringify : jsval -> string.
Variable ToString : jsval -> string.
Variable new_call_id : list event -> nat -> string.

Definition request (tools : jsval) : talk (option reply) :=
  fun s =>
    let sent := messages (the_agent s) in
    (chat (log (the_agent s)) (requests s) sent tools,
     mkSession (the_agent s) (requests s ++ [sent])).

(** [for (const toolCall of toolCalls) { ... }]: the tool runs, the entry
    that awaits its result is replaced in the history and in the new
    entries, and the result joins the conversation. *)
Fixpoint run_calls (toolCalls : list jsval) (newEntries : list ChatEntry)
  : talk (list ChatEntry) :=
  match toolCalls with
  | [] => talk_ret newEntries
  | toolCall :: rest =>
      result <- of_io (executeTool run_builtin callTool JSON_stringify ToString toolCall) ;;
      id <- of_io (lift (get_prop toolCall "id")) ;;
      history <- of_io get_history ;;
      newEntries <-
        match findIndex (awaits id) history with
        | Some entryIndex =>
            let updated := updatedEntry (nth entryIndex history warningEntry) result in
            of_io (set_history (replace_at entryIndex updated history)) ;;
            talk_ret match findIndex (awaits id) newEntries with
                     | Some newEntryIndex => replace_at newEntryIndex updated newEntries
                     | None => newEntries
                     end
        | None => talk_ret newEntries
        end ;;
      of_io (push_message (mkMessage "tool" (result_text result "Error") JUndefined id)) ;;
      run_calls rest newEntries
  end.

(** [while (toolRounds < maxToolRounds) { ... }], which ends with the
    round counter and the new entries *)
Fixpoint exchange (fuel : nat) (toolRounds : nat) (tools : jsval)
    (currentResponse : option reply) (newEntries : list ChatEntry)
  : talk (flow (nat * list ChatEntry)) :=
  if (toolRounds <? maxToolRounds)%nat then
    match fuel with
    | 0 => talk_ret Running
    | S fuel' =>
        match currentResponse with
        | None => talk_throw (Error "No response from Ollama")
        | Some assistantMessage =>
            let content := reply_content assistantMessage in
            toolCalls <-
              match reply_tool_calls assistantMessage with
              | Some (toolCall :: calls) => talk_ret (toolCall :: calls)
              | _ =>
                  of_io (observe (fun l =>
                    parseToolCallsFromContent JSON_stringify new_call_id l (JStr content)))
              end ;;
            match toolCalls with
            | _ :: _ =>
                let toolRounds := S toolRounds in
                let assistantEntry :=
                  mkEntry assistant (or_default (Some content) "Using tools to help you...")
                          (JArr toolCalls) JUndefined None in
                of_io (push_history assistantEntry) ;;
                of_io (push_message (mkMessage "assistant" content (JArr toolCalls)
                                               JUndefined)) ;;
                let pending := map pendingEntry toolCalls in
                history <- of_io get_history ;;
                of_io (set_history (history ++ pending)) ;;
                newEntries <- run_calls toolCalls (newEntries ++ assistantEntry :: pending) ;;
                currentResponse <- request tools ;;
                exchange fuel' toolRounds tools currentResponse newEntries
            | [] =>
                let finalEntry :=
                  mkEntry assistant
                    (or_default (Some content)
                                "I understand, but I don't have a specific response.")
                    JUndefined JUndefined None in
                of_io (push_history finalEntry) ;;
                of_io (push_message (mkMessage "assistant" content JUndefined JUndefined)) ;;
                talk_ret (Go (toolRounds, (newEntries ++ [finalEntry])%list))
            end
        end
    end
  else talk_ret (Go (toolRounds, newEntries)).

(** The [try] block *)
Definition converse (userEntry : ChatEntry) : talk (flow (list ChatEntry)) :=
  tools <- of_io (observe getAllOllamaTools) ;;
  of_io (emit ToolsRequested) ;;
  tools <- of_io (lift tools) ;;
  currentResponse <- request tools ;;
  r <- exchange maxToolRounds 0 tools currentResponse [userEntry] ;;
  match r with
  | Go (toolRounds, newEntries) =>
      if (maxToolRounds <=? toolRounds)%nat then
        of_io (push_history warningEntry) ;;
        talk_ret (Go (newEntries ++ [warningEntry])%list)
      else talk_ret (Go newEntries)
  | Returned => talk_ret Returned
  | Running => talk_ret Running
  end.

Definition processUserMessage (message : string) : talk (flow (list ChatEntry)) :=
  let userEntry := mkEntry user message JUndefined JUndefined None in
  of_io (push_history userEntry) ;;
  of_io (push_message (mkMessage "user" message JUndefined JUndefined)) ;;
  talk_try (converse userEntry)
           (fun e =>
              of_io (push_history (errorEntry e)) ;;
              talk_ret (Go [userEntry; errorEntry e])).

End Conversation.

End Agent.

(** ** The bash tool: [BashTool]

    The tool runs a command of the model in a shell, after it has looked
    whether the command is dangerous and whether the user lets it run. *)

Module Shell.
Import Text Regex.

(** A letter of a pattern with the i flag: the letter in either case *)
Definition letter (c : ascii) : regex :=
  let n := code c in
  if ((97 <=? n) && (n <=? 122))%nat then Cls [One c; One (ascii_of_nat (n - 32))]
  else if ((65 <=? n) && (n <=? 90))%nat then Cls [One c; One (ascii_of_nat (n + 32))]
  else Chr c.

(** A literal of a pattern with the i flag *)
Definition word (w : string) : regex := fold_right Seq Eps (map letter (of_string w)).

Definition seq (rs : list regex) : regex := fold_right Seq Eps rs.

(** [\s] *)
Definition space : regex := Cls [Space].

(** A pattern that starts with [^], and one that does not *)
Inductive pattern : Type :=
| AtStart (r : regex)
| Anywhere (r : regex).

(** [pattern.test(subject)] *)
Definition test (p : pattern) (subject : string) : bool :=
  match p with
  | AtStart r =>
      match m r (mkState [] (of_string subject) []) Some with
      | Some _ => true
      | None => false
      end
  | Anywhere r =>
      match exec r subject with
      | Some _ => true
      | None => false
      end
  end.

(** The patterns of [isDangerousCommand], in the order of the source:
    [^rm\s+.*-r], [^rm\s+.*-f], [^sudo\s], [^chmod\s+.*777], [^dd\s+],
    [^mkfs\.], [^fdisk\s], [^format\s], [^del\s+.*\/s], [^rmdir\s+.*\/s],
    [>\s*\/dev\/(null|zero|random)], [curl.*\|\s*sh], [wget.*\|\s*sh],
    [^killall\s], [^pkill\s], [^systemctl\s], [^service\s], [^mount\s],
    [^umount\s]; all with the i flag *)
Definition dangerousPatterns : list pattern :=
  [AtStart (seq [word "rm"; Plus space; Star true Dot; word "-r"]);
   AtStart (seq [word "rm"; Plus space; Star true Dot; word "-f"]);
   AtStart (seq [word "sudo"; space]);
   AtStart (seq [word "chmod"; Plus space; Star true Dot; word "777"]);
   AtStart (seq [word "dd"; Plus space]);
   AtStart (seq [word "mkfs"; Chr "."]);
   AtStart (seq [word "fdisk"; space]);
   AtStart (seq [word "format"; space]);
   AtStart (seq [word "del"; Plus space; Star true Dot; word "/s"]);
   AtStart (seq [word "rmdir"; Plus space; Star true Dot; word "/s"]);
   Anywhere (seq [Chr ">"; Star true space; word "/dev/";
                  Group 1 (Alt (word "null") (Alt (word "zero") (word "random")))]);
   Anywhere (seq [word "curl"; Star true Dot; Chr "|"; Star true space; word "sh"]);
   Anywhere (seq [word "wget"; Star true Dot; Chr "|"; Star true space; word "sh"]);
   AtStart (seq [word "killall"; space]);
   AtStart (seq [word "pkill"; space]);
   AtStart (seq [word "systemctl"; space]);
   AtStart (seq [word "service"; space]);
   AtStart (seq [word "mount"; space]);
   AtStart (seq [word "umount"; space])].

(** [dangerousPatterns.some(pattern => pattern.test(command.trim()))] *)
Definition isDangerousCommand (command : string) : bool :=
  existsb (fun p => test p (trim command)) dangerousPatterns.

(** [sessionFlags], as far as the tool reads them *)
Record flags : Type := mkFlags {
  bashCommands : bool;
  allOperations : bool
}.

(** The answer to a request for confirmation *)
Record confirmation : Type := mkConfirmation {
  confirmed : bool;
  feedback : option string
}.

(** What the tool does to the world, in the order it does it *)
Inductive effect : Type :=
| Asked (command content : string)       (* [requestConfirmation] *)
| ChangedDirectory (newDir : string)     (* [process.chdir(newDir)] *)
| Ran (command cwd : string).            (* [execAsync(command, { cwd })] *)

Record shell : Type := mkShell {
  currentDirectory : string;
  effects : list effect
}.

(** [command.trim()] and the other string methods, on what the
    dispatcher passes for a command *)
Definition receiver (command : jsval) (method : string) : outcome string :=
  match command with
  | JStr s => Ret s
  | JUndefined =>
      Throw (TypeError ("Cannot read properties of undefined (reading '" ++ method ++ "')"))
  | JNull =>
      Throw (TypeError ("Cannot read properties of null (reading '" ++ method ++ "')"))
  | _ => Throw (TypeError ("command." ++ method ++ " is not a function"))
  end.

Section Execute.

(** [this.confirmationService.getSessionFlags()] *)
Variable getSessionFlags : list effect -> flags.
(** [this.confirmationService.requestConfirmation(...)] for a command and
    the content shown with it *)
Variable requestConfirmation : list effect -> string -> string -> outcome confirmation.
(** [process.chdir(newDir); process.cwd()] *)
Variable chdir : list effect -> string -> outcome string.
(** [execAsync(command, { cwd, timeout, maxBuffer })]: the standard output
    and the standard error *)
Variable execAsync : list effect -> string -> string -> outcome (string * string).

Definition did (e : effect) (s : shell) : shell :=
  mkShell (currentDirectory s) (effects s ++ [e]).

(** What follows the two checks *)
Definition perform (command : string) (s : shell) : outcome ToolResult * shell :=
  if startsWith "cd " command then
    let newDir := trim (String.substring 3 (String.length command - 3) command) in
    let s' := did (ChangedDirectory newDir) s in
    match chdir (effects s) newDir with
    | Ret cwd => (Ret (succeeded ("Changed directory to: " ++ cwd)), mkShell cwd (effects s'))
    | Throw e => (Ret (failed ("Cannot change directory: " ++ error_message e)), s')
    end
  else
    let s' := did (Ran command (currentDirectory s)) s in
    match execAsync (effects s) command (currentDirectory s) with
    | Ret (stdout, stderr) =>
        let output :=
          stdout ++ (if (stderr =? "")%string then "" else newline ++ "STDERR: " ++ stderr) in
        (Ret (succeeded (if (trim output =? "")%string
                         then "Command executed successfully (no output)"
                         else trim output)), s')
    | Throw e => (Throw e, s')
    end.

(** The [try] block of [execute] *)
Definition attempt (command : jsval) (s : shell) : outcome ToolResult * shell :=
  match receiver command "trim" with
  | Throw e => (Throw e, s)
  | Ret c =>
      let isDangerous := isDangerousCommand c in
      let sessionFlags := getSessionFlags (effects s) in
      if isDangerous && negb (allOperations sessionFlags) then
        (Ret (failed ("Dangerous command detected: " ++ String dquote c ++ String dquote
                      ". This command requires interactive mode for safety. "
                      ++ "Please use the interactive mode (without --prompt) "
                      ++ "to execute potentially harmful commands.")), s)
      else if negb isDangerous && negb (bashCommands sessionFlags)
              && negb (allOperations sessionFlags) then
        let content :=
          "Command: " ++ c ++ newline ++ "Working directory: " ++ currentDirectory s in
        let s' := did (Asked c content) s in
        match requestConfirmation (effects s) c content with
        | Throw e => (Throw e, s')
        | Ret confirmationResult =>
            if confirmed confirmationResult then perform c s'
            else (Ret (failed (or_default (feedback confirmationResult)
                                          "Command execution cancelled by user")), s')
        end
      else perform c s
  end.

(** [execute(command)] *)
Definition execute (command : jsval) (s : shell) : ToolResult * shell :=
  match attempt command s with
  | (Ret result, s') => (result, s')
  | (Throw e, s') => (failed ("Command failed: " ++ error_message e), s')
  end.

(** [listFiles], [findFiles] and [grep] *)
Definition listFiles (directory : string) : shell -> ToolResult * shell :=
  execute (JStr ("ls -la " ++ directory)).

Definition findFiles (pattern directory : string) : shell -> ToolResult * shell :=
  execute (JStr ("find " ++ directory ++ " -name " ++ String dquote pattern
                 ++ String dquote " -type f")).

Definition grep (pattern files : string) : shell -> ToolResult * shell :=
  execute (JStr ("grep -r " ++ String dquote pattern ++ String dquote (" " ++ files))).

End Execute.

End Shell.

(** ** The settings: [SettingsManager]

    The user's settings and the project's settings each live in a JSON
    file of their own, in a directory made for it. *)

Module Settings.

(** The two files *)
Inductive place : Type := UserSettings | ProjectSettings.

(** What the disk holds for a settings file: whether its directory
    exists, and the content of the file when it exists *)
Record slot : Type := mkSlot {
  directory : bool;
  file : option string
}.

Record disk : Type := mkDisk {
  user_slot : slot;
  project_slot : slot
}.

Definition slot_of (p : place) (d : disk) : slot :=
  match p with
  | UserSettings => user_slot d
  | ProjectSettings => project_slot d
  end.

Definition with_slot (p : place) (s : slot) (d : disk) : disk :=
  match p with
  | UserSettings => mkDisk s (project_slot d)
  | ProjectSettings => mkDisk (user_slot d) s
  end.

Definition DEFAULT_USER_SETTINGS : props :=
  [("baseURL", JStr "http://localhost:11434");
   ("defaultModel", JUndefined);
   ("models", JArr [])].

Definition DEFAULT_PROJECT_SETTINGS : props := [("model", JUndefined)].

Definition defaults (p : place) : props :=
  match p with
  | UserSettings => DEFAULT_USER_SETTINGS
  | ProjectSettings => DEFAULT_PROJECT_SETTINGS
  end.

(** [{ ...a, ...b }] *)
Definition assign (a : props) (b : jsval) : props :=
  fold_left (fun acc kv => set (fst kv) (snd kv) acc) (spread b) a.

Section Files.

(** Whether the file system lets the process read, respectively make and
    write, what belongs to a settings file; where it does not, [fs] raises. *)
Variable readable : place -> bool.
Variable writable : place -> bool.
(** [JSON.stringify(value, null, 2)] *)
Variable JSON_stringify : jsval -> string.

Definition denied (what : string) : exn :=
  Error ("EACCES: permission denied, " ++ what).

(** [ensureDirectoryExists(filePath)] *)
Definition ensureDirectoryExists (p : place) (d : disk) : outcome unit * disk :=
  if directory (slot_of p d) then (Ret tt, d)
  else if writable p then (Ret tt, with_slot p (mkSlot true (file (slot_of p d))) d)
  else (Throw (denied "mkdir"), d).

(** [fs.readFileSync(path, 'utf-8')] for a file that exists *)
Definition readFileSync (p : place) (content : string) : outcome string :=
  if readable p then Ret content else Throw (denied "open").

(** [saveUserSettings] and [saveProjectSettings] *)
Definition save (p : place) (settings : jsval) (d : disk) : outcome unit * disk :=
  match ensureDirectoryExists p d with
  | (Throw e, d') => (Throw e, d')
  | (Ret _, d') =>
      let existingSettings :=
        match file (slot_of p d') with
        | Some content =>
            match (text <- readFileSync p content ;; Json.parse text) with
            | Ret parsed => assign (defaults p) parsed
            | Throw _ => defaults p
            end
        | None => defaults p
        end in
      let mergedSettings := assign existingSettings settings in
      if writable p then
        (Ret tt,
         with_slot p (mkSlot (directory (slot_of p d'))
                             (Some (JSON_stringify (JObj mergedSettings)))) d')
      else (Throw (denied "open"), d')
  end.

(** [loadUserSettings] and [loadProjectSettings] *)
Definition load (p : place) (d : disk) : props * disk :=
  match file (slot_of p d) with
  | None =>
      match save p (JObj (defaults p)) d with
      | (_, d') => (defaults p, d')
      end
  | Some content =>
      match (text <- readFileSync p content ;; Json.parse text) with
      | Ret settings => (assign (defaults p) settings, d)
      | Throw _ => (defaults p, d)
      end
  end.

Definition loadUserSettings : disk -> props * disk := load UserSettings.
Definition saveUserSettings : jsval -> disk -> outcome unit * disk := save UserSettings.
Definition loadProjectSettings : disk -> props * disk := load ProjectSettings.
Definition saveProjectSettings : jsval -> disk -> outcome unit * disk := save ProjectSettings.

(** [updateUserSetting(key, value)] and [updateProjectSetting(key, value)] *)
Definition update (p : place) (key : string) (value : jsval) : disk -> outcome unit * disk :=
  save p (JObj [(key, value)]).

(** [getUserSetting(key)] and [getProjectSetting(key)] *)
Definition setting (p : place) (key : string) (d : disk) : jsval * disk :=
  let (settings, d') := load p d in
  (get settings key, d').

Definition updateUserSetting : string -> jsval -> disk -> outcome unit * disk :=
  update UserSettings.
Definition getUserSetting : string -> disk -> jsval * disk := setting UserSettings.
Definition updateProjectSetting : string -> jsval -> disk -> outcome unit * disk :=
  update ProjectSettings.
Definition getProjectSetting : string -> disk -> jsval * disk := setting ProjectSettings.

(** [setCurrentModel(model)] *)
Definition setCurrentModel (model : string) : disk -> outcome unit * disk :=
  updateProjectSetting "model" (JStr model).

(** [getCurrentModelSync()] *)
Definition getCurrentModelSync (d : disk) : outcome jsval * disk :=
  let (projectModel, d1) := getProjectSetting "model" d in
  if truthy projectModel then (Ret projectModel, d1)
  else
    let (userDefaultModel, d2) := getUserSetting "defaultModel" d1 in
    if truthy userDefaultModel then (Ret userDefaultModel, d2)
    else
      (Throw (Error ("No model configured. Please run the application first "
                     ++ "to auto-detect available models.")), d2).

(** [process.env.OLLAMA_BASE_URL] *)
Variable OLLAMA_BASE_URL : option string.

(** [getBaseURL()] *)
Definition getBaseURL (d : disk) : jsval * disk :=
  match OLLAMA_BASE_URL with
  | Some envBaseURL =>
      if negb (envBaseURL =? "")%string then (JStr envBaseURL, d)
      else
        let (userBaseURL, d') := getUserSetting "baseURL" d in
        (if truthy userBaseURL then userBaseURL
         else if truthy (get DEFAULT_USER_SETTINGS "baseURL")
              then get DEFAULT_USER_SETTINGS "baseURL"
              else JStr "http://localhost:11434", d')
  | None =>
      let (userBaseURL, d') := getUserSetting "baseURL" d in
      (if truthy userBaseURL then userBaseURL
       else if truthy (get DEFAULT_USER_SETTINGS "baseURL")
            then get DEFAULT_USER_SETTINGS "baseURL"
            else JStr "http://localhost:11434", d')
  end.

(** [Object.values(OLLAMA_MODELS)] *)
Definition OLLAMA_MODELS : list string :=
  ["qwen2.5-coder:3b"; "llama3.2:3b"; "codellama:7b"; "mistral:7b";
   "deepseek-coder:6.7b"; "qwen2.5:7b"].

(** The names that [GET /api/tags] of the server at a base URL lists, or
    what the request or the reading of its answer raises *)
Variable tags : jsval -> outcome (list string).

(** [new OllamaClient(undefined, baseURL).refreshAvailableModels()], which
    falls back on the models it knows by name *)
Definition refreshAvailableModels (baseURL : jsval) : list string :=
  match tags baseURL with
  | Ret names => names
  | Throw _ => OLLAMA_MODELS
  end.

(** [getCurrentModel()] *)
Definition getCurrentModel (d : disk) : outcome jsval * disk :=
  let (projectModel, d1) := getProjectSetting "model" d in
  if truthy projectModel then (Ret projectModel, d1)
  else
    let (userDefaultModel, d2) := getUserSetting "defaultModel" d1 in
    if truthy userDefaultModel then (Ret userDefaultModel, d2)
    else
      let none :=
        Error ("No models available. Please install models in Ollama first "
               ++ "using: ollama pull <model-name>") in
      let (baseURL, d3) := getBaseURL d2 in
      match refreshAvailableModels baseURL with
      | firstModel :: _ =>
          match updateUserSetting "defaultModel" (JStr firstModel) d3 with
          | (Ret _, d4) => (Ret (JStr firstModel), d4)
          | (Throw _, d4) => (Throw none, d4)
          end
      | [] => (Throw none, d3)
      end.

(** [getAvailableModels()] *)
Definition getAvailableModels (d : disk) : jsval * disk :=
  let (baseURL, d0) := getBaseURL d in
  let models := JArr (map JStr (refreshAvailableModels baseURL)) in
  match updateUserSetting "models" models d0 with
  | (Ret _, d') => (models, d')
  | (Throw _, d') =>
      let (cachedModels, d'') := getUserSetting "models" d' in
      (if truthy cachedModels then cachedModels else JArr [], d'')
  end.

End Files.

End Settings.

(** ** The search tool ([SearchTool]): the search for files

    The directory that is searched is a tree of entries, as [readdir] with
    [withFileTypes] lists them.  Names are those of directory entries: they
    hold no separator, so that the path of an entry relative to the current
    directory is the names on the way to it joined by ["/"]. *)

Module Search.
Import Text.

(** [c.toLowerCase()] for a code unit below 256 *)
Definition lower (c : ascii) : ascii :=
  let n := N_of_ascii c in
  if (((65 <=? n) && (n <=? 90))
      || ((192 <=? n) && (n <=? 222) && negb (n =? 215)))%N
  then ascii_of_N (n + 32)
  else c.

(** [s.toLowerCase()] *)
Fixpoint toLowerCase (s : string) : string :=
  match s with
  | EmptyString => EmptyString
  | String c s' => String (lower c) (toLowerCase s')
  end.

(** [s.includes(p)] *)
Fixpoint includes (s p : string) : bool :=
  String.prefix p s
  || match s with
     | EmptyString => false
     | String _ s' => includes s' p
     end.

(** The loop of the fuzzy match: what is left of the pattern when the
    name has been gone through, each character of the name that equals the
    first character left of the pattern taking it away *)
Fixpoint unmatched (name pattern : string) : string :=
  match name with
  | EmptyString => pattern
  | String c name' =>
      match pattern with
      | EmptyString => EmptyString
      | String p pattern' =>
          if Ascii.eqb c p then unmatched name' pattern' else unmatched name' pattern
      end
  end.

Definition len (s : string) : Z := Z.of_nat (String.length s).

(** [calculateFileScore(fileName, filePath, pattern)] *)
Definition calculateFileScore (fileName filePath pattern : string) : Z :=
  let lowerFileName := toLowerCase fileName in
  let lowerFilePath := toLowerCase filePath in
  if (lowerFileName =? pattern)%string then 100%Z
  else if includes lowerFileName pattern then 80%Z
  else if includes lowerFilePath pattern then 60%Z
  else if (unmatched lowerFileName pattern =? "")%string
       then Z.max 10 (40 - (len fileName - len pattern))
       else 0%Z.

(** What [readdir] lists: a file, a directory with its entries ([None] when
    it cannot be read), or an entry that is neither (a link, a socket) *)
Inductive entry : Type :=
| File (name : string)
| Directory (name : string) (entries : option (list entry))
| Special (name : string).

Definition entry_name (e : entry) : string :=
  match e with
  | File name => name
  | Directory name _ => name
  | Special name => name
  end.

Definition isDirectory (e : entry) : bool :=
  match e with
  | Directory _ _ => true
  | _ => false
  end.

Record FileSearchResult : Type := mkFileResult {
  path : string;
  name : string;
  score : Z
}.

Record SearchResult : Type := mkSearchResult {
  result_file : string;
  result_line : Z;
  result_column : Z;
  result_text : string;
  result_match : string
}.

(** The options of a search that the code reads *)
Record options : Type := mkOptions {
  searchType : option string;
  maxResults : option Z;
  includeHidden : bool;
  excludePattern : option string
}.

(** The directories that are not entered *)
Definition skipped : list string :=
  ["node_modules"; ".git"; ".svn"; ".hg"; "dist"; "build"; ".next"; ".cache"].

(** [path.relative(currentDirectory, path.join(dir, name))], where
    [dir] is the relative path of the directory, empty for the current one *)
Definition relative (dir name : string) : string :=
  if (dir =? "")%string then name else dir ++ "/" ++ name.

(** [files.sort((a, b) => b.score - a.score)]: by score, the highest
    first, entries of the same score in the order they had *)
Fixpoint insert (r : FileSearchResult) (l : list FileSearchResult) : list FileSearchResult :=
  match l with
  | [] => [r]
  | x :: l' => if (score r <? score x)%Z then x :: insert r l' else r :: l
  end.

Definition sort (l : list FileSearchResult) : list FileSearchResult :=
  fold_right insert [] l.

(** [l.slice(0, n)] *)
Definition slice0 {A : Type} (n : Z) (l : list A) : list A :=
  if (n <? 0)%Z then firstn (length l - Z.to_nat (- n)) l
  else firstn (Z.to_nat n) l.

Section Find.

Variable o : options.
(** [pattern.toLowerCase()] and [options.maxResults || 50] *)
Variable searchPattern : string.
Variable limit : Z.

(** [files.length >= maxResults] *)
Definition full (files : list FileSearchResult) : bool :=
  (limit <=? Z.of_nat (length files))%Z.

(** The three tests that make the loop go on to the next entry *)
Definition passed_over (e : entry) (relativePath : string) : bool :=
  (negb (includeHidden o) && startsWith "." (entry_name e))
  || (isDirectory e && existsb (String.eqb (entry_name e)) skipped)
  || match excludePattern o with
     | Some excluded => negb (excluded =? "")%string && includes relativePath excluded
     | None => false
     end.

(** The loop over the entries of a directory *)
Definition each (body : entry -> list FileSearchResult -> list FileSearchResult)
  : list entry -> list FileSearchResult -> list FileSearchResult :=
  fix loop (entries : list entry) (files : list FileSearchResult) :=
    match entries with
    | [] => files
    | e :: entries' => if full files then files else loop entries' (body e files)
    end.

(** The body of the loop for the entry [e] of the directory [dir] at depth
    [depth], with [walkDir(fullPath, depth + 1)] for a directory *)
Fixpoint visit (depth : nat) (dir : string) (e : entry) (files : list FileSearchResult)
  : list FileSearchResult :=
  let relativePath := relative dir (entry_name e) in
  if passed_over e relativePath then files
  else
    match e with
    | File fileName =>
        let s := calculateFileScore fileName relativePath searchPattern in
        if (0 <? s)%Z then (files ++ [mkFileResult relativePath fileName s])%list
        else files
    | Directory _ entries =>
        if (10 <? S depth)%nat || full files then files
        else
          match entries with
          | Some entries => each (visit (S depth) relativePath) entries files
          | None => files
          end
    | Special _ => files
    end.

(** [walkDir(this.currentDirectory)] *)
Definition walkDir (root : option (list entry)) : list FileSearchResult :=
  if full [] then []
  else
    match root with
    | Some entries => each (visit 0 "") entries []
    | None => []
    end.

End Find.

(** [findFilesByPattern(pattern, options)] in the directory [root] *)
Definition findFilesByPattern (pattern : string) (o : options) (root : option (list entry))
  : list FileSearchResult :=
  let maxResults :=
    match maxResults o with
    | Some n => if (n =? 0)%Z then 50%Z else n
    | None => 50%Z
    end in
  let searchPattern := toLowerCase pattern in
  slice0 maxResults (sort (walkDir o searchPattern maxResults root)).

(** The results of both kinds *)
Inductive UnifiedSearchResult : Type :=
| TextResult (r : SearchResult)
| FileResult (file : string) (score : Z).

Definition file (r : UnifiedSearchResult) : string :=
  match r with
  | TextResult r => result_file r
  | FileResult f _ => f
  end.

Definition is_text (r : UnifiedSearchResult) : bool :=
  match r with
  | TextResult _ => true
  | FileResult _ _ => false
  end.

(** [new Set()] with [add]: each string once, in the order of insertion *)
Definition add (allFiles : list string) (f : string) : list string :=
  if existsb (String.eqb f) allFiles then allFiles else (allFiles ++ [f])%list.

Definition displayLimit : nat := 8.

(** [formatUnifiedResults(results, query, searchType)] *)
Definition formatUnifiedResults (results : list UnifiedSearchResult) (query : string) : string :=
  match results with
  | [] => quoted "No results found for '" ++ query ++ quoted "'"
  | _ =>
      let output := quoted "Search results for '" ++ query ++ quoted "':" ++ newline in
      let textResults := filter is_text results in
      let fileResults := filter (fun r => negb (is_text r)) results in
      let allFiles := fold_left add (map file textResults) [] in
      let fileList := fold_left add (map file fileResults) allFiles in
      let output :=
        fold_left
          (fun output f =>
             let matchCount :=
               length (filter (fun r => (file r =? f)%string) textResults) in
             let matchIndicator :=
               if (0 <? matchCount)%nat
               then " (" ++ string_of_nat matchCount ++ " matches)"
               else "" in
             output ++ "  " ++ f ++ matchIndicator ++ newline)
          (firstn displayLimit fileList) output in
      let output :=
        if (displayLimit <? length fileList)%nat
        then output ++ "  ... +" ++ string_of_nat (length fileList - displayLimit)
                    ++ " more" ++ newline
        else output in
      trim output
  end.

Section Unified.

(** [executeTextSearch(query, options)], with ripgrep or without: the
    matches in the files, or what the search raises *)
Variable executeTextSearch : string -> options -> outcome (list SearchResult).

(** [search(query, options)] *)
Definition search (query : jsval) (o : options) (root : option (list entry)) : ToolResult :=
  let searchQuery :=
    match query with
    | JStr q => if (trim q =? "")%string then "*" else q
    | _ => "*"
    end in
  let searchType :=
    match searchType o with
    | Some t => if (t =? "")%string then "files" else t
    | None => "files"
    end in
  match
    (textResults <-
       (if (searchType =? "text")%string || (searchType =? "both")%string
        then executeTextSearch searchQuery o
        else Ret []) ;;
     let fileResults :=
       if (searchType =? "files")%string || (searchType =? "both")%string
       then findFilesByPattern searchQuery o root
       else [] in
     let results :=
       (map TextResult textResults
        ++ map (fun r => FileResult (path r) (score r)) fileResults)%list in
     Ret (match results with
          | [] => succeeded (quoted "No results found for '" ++ searchQuery ++ quoted "'")
          | _ => succeeded (formatUnifiedResults results searchQuery)
          end))
  with
  | Ret result => result
  | Throw e => failed ("Search error: " ++ error_message e)
  end.

End Unified.

End Search.

(** * Specification

    The vocabulary of the statements below and the concrete inputs they
    are tried on. *)

Module Spec.
Import Text.

(** ** The stream aggregator *)

Definition entry_of : string * jsval -> Aggregator.entry :=
  Aggregator.entry_with Aggregator.reduce_into.

(** The element the positional merge starts from: [accArray[i]], or [{}]
    when there is none *)
Definition slot (a : list jsval) (i : nat) : jsval :=
  if truthy (array_get a i) then array_get a i else JObj [].

(** What [reduce] leaves in [acc[key]] for a field [key: value] of the
    fragment, by what [acc[key]] was: the value or, for an array, its
    elements without their [index], where it was [undefined] or [null];
    the two strings, one after the other; the two arrays merged element
    by element; [reduce(acc[key], value)] for two objects; and what it
    was otherwise *)
Definition field_effect (acc : props) (key : string) (value : jsval) (now : jsval) : Prop :=
  match get acc key, value with
  | (JUndefined | JNull), JArr l =>
      exists l', now = JArr l'
        /\ length l' = length l
        /\ forall i, (i < length l)%nat ->
             Aggregator.delete_index (nth i l JUndefined) = Ret (nth i l' JUndefined)
  | (JUndefined | JNull), _ => now = value
  | JStr s, JStr t => now = JStr (s ++ t)
  | JArr a, JArr v =>
      exists a', now = JArr a'
        /\ length a' = Nat.max (length a) (length v)
        /\ (forall i, (i < length v)%nat ->
              Aggregator.reduce (slot a i) (nth i v JUndefined) = Ret (array_get a' i))
        /\ (forall i, (length v <= i)%nat -> array_get a' i = array_get a i)
  | cur, _ =>
      if typeof_object cur && typeof_object value
      then Aggregator.reduce cur value = Ret now
      else now = cur
  end.

(** A name under which an object inherits a member of
    [Object.prototype]: one of its methods, or its accessor [__proto__] *)
Definition inherits (key : string) : bool :=
  (key =? "__proto__")%string || is_member object_members key.






(** ** The argument decoder *)

(** The quoted tokens of a text, in the order the second scan finds them *)
Definition tokens (s : string) : list string :=
  map (Decoder.group_text 1) (Decoder.visited Decoder.simplePattern s).

(** [values.length >= 2 && values.length % 2 === 0] *)
Definition paired (values : list string) : bool :=
  ((2 <=? length values) && (length values mod 2 =? 0))%nat.

(** The tokens at the even positions *)
Fixpoint keys_of (values : list string) : list string :=
  match values with
  | k :: _ :: values' => k :: keys_of values'
  | _ => []
  end.

(** An object: a mapping from names to values, with the prototype of
    objects or another *)
Definition is_object (v : jsval) : Prop :=
  exists o, v = JObj o \/ exists x, v = JHeir x o.

(** The pairs of tokens set in turn, but for those whose key is
    [__proto__] *)
Fixpoint set_pairs (values : list string) (o : props) : props :=
  match values with
  | k :: v :: values' =>
      set_pairs values' (if (k =? "__proto__")%string then o else set k (JStr v) o)
  | _ => o
  end.

(** ** The transport *)

Definition backoff : list Z := [1000; 2000; 4000]%Z.

Definition has_status (e : Transport.failure) (st : Z) : Prop :=
  exists r, Transport.f_response e = Some r /\ Transport.status r = st.

Definition has_code (e : Transport.failure) (code : string) : Prop :=
  Transport.f_code e = Some code.

Definition service_unavailable : Transport.failure :=
  Transport.Http "Request failed with status code 503"
                 (Transport.mkResponse 503 JNull (JObj [])).

Definition not_found : Transport.failure :=
  Transport.Http "Request failed with status code 404"
                 (Transport.mkResponse 404 (JObj [("error", JStr "model not found")])
                                       (JObj [])).

(** A server that is unavailable three times and then answers *)
Definition recovering (n : nat) (_ : Transport.payload) : Transport.attempt :=
  if (n <? 3)%nat then Transport.Fails service_unavailable
  else Transport.Answer (JObj [("done", JBool true)]).

(** A server that does not know the model *)
Definition unknown_model (_ : nat) (_ : Transport.payload) : Transport.attempt :=
  Transport.Fails not_found.

Definition fresh_client : Transport.client :=
  Transport.mkClient "qwen2.5-coder:3b" None 0 [].

Definition empty_request : Transport.payload :=
  Transport.mkPayload "qwen2.5-coder:3b" [] None false.

Definition some_time (_ : nat) : string := "2025-01-01T00:00:00.000Z".

Definition no_text (_ : jsval) : string := "".

(** ** The conversation *)

Definition user_message (text : string) : message :=
  mkMessage "user" text JUndefined JUndefined.

(** The conversation once the user's message has joined it *)
Definition asked (s : Agent.agent) (text : string) : list message :=
  Agent.messages s ++ [user_message text].

Definition twelve_messages : list message :=
  mkMessage "system" "You are Ollama Agent CLI" JUndefined JUndefined
    :: repeat (user_message "hello") 11.

(** ** Tool dispatch *)

(** The state once more events have happened *)
Definition after_events (s : Agent.agent) (es : list Agent.event) : Agent.agent :=
  Agent.mkAgent (Agent.messages s) (Agent.chatHistory s) (Agent.log s ++ es).

Definition function_call (id name arguments : string) : jsval :=
  JObj [("id", JStr id); ("type", JStr "function");
        ("function", JObj [("name", JStr name); ("arguments", JStr arguments)])].

Definition start : Agent.agent :=
  Agent.mkAgent [mkMessage "system" "You are Ollama Agent CLI" JUndefined JUndefined] [] [].

Definition tools_work (_ : list Agent.event) (_ : Agent.builtin) : outcome ToolResult :=
  Ret (succeeded "ok").

Definition no_mcp (_ : list Agent.event) (_ : string) (_ : jsval) : outcome Agent.mcp_result :=
  Ret (Agent.mkMcp false []).

(** ** The streaming loop

    What a run of the generator does is read off its log of events. *)

Import Agent.

(** *** The order of events

    Where a run stands between the reads of the cancellation flag: a
    fragment was [Received] and awaits the read; the flag was [Checked]
    and found clear; it was found set and the run is [Cancelling], has
    [Noticed] it to the user, has [Ended].  [Broken] is an order the
    generator is shown never to produce. *)
Inductive phase : Type :=
| Idle | Checked | Received | Cancelling | Noticed | Ended | Broken.

(** One event of the run *)
Definition advance (p : phase) (e : event) : phase :=
  match e, p with
  | AbortChecked false, (Idle | Checked | Received) => Checked
  | AbortChecked true, (Idle | Checked | Received) => Cancelling
  | FragmentReceived _, (Idle | Checked) => Received
  | ExecuteTool _, Checked => Idle
  | Yielded (Content t), Cancelling => if (t =? cancelNotice)%string then Noticed else Broken
  | Yielded Done, Noticed => Ended
  | (Yielded _ | ToolsRequested | StreamStarted _ | BuiltinCalled _ | McpCalled _ _),
    (Idle | Checked) => Idle
  | _, _ => Broken
  end.

(** The phase after a stretch of events *)
Definition follow (p : phase) (l : list event) : phase := fold_left advance l p.

(** The phases in which the run may go on *)
Definition quiet (p : phase) : bool :=
  match p with
  | Idle | Checked => true
  | _ => false
  end.

(** Where a run may stand when it ends: [Ended] when it stopped on a
    cancellation, a quiet phase otherwise *)
Definition accepts (stopped : bool) (p : phase) : Prop :=
  if stopped then p = Ended else quiet p = true.

(** The generator returned: [return] inside the loop *)
Definition is_returned {A : Type} (r : flow A) : bool :=
  match r with
  | Returned => true
  | _ => false
  end.

Definition never {A : Type} (_ : A) : bool := false.

(** Whether a computation stopped the generator *)
Definition stopped {A : Type} (stops : A -> bool) (o : outcome A) : bool :=
  match o with
  | Ret a => stops a
  | Throw _ => false
  end.

(** The events of the computation, started in phase [p], come in an
    order the automaton accepts. *)
Definition orderly {A : Type} (stops : A -> bool) (p : phase) (m : io A) : Prop :=
  forall s, exists ext,
    log (snd (m s)) = (log s ++ ext)%list
    /\ accepts (stopped stops (fst (m s))) (follow p ext).

(** *** What a run returns *)

(** Every value the computation returns satisfies [P]. *)
Definition yields {A : Type} (P : A -> Prop) (m : io A) : Prop :=
  forall s a s', m s = (Ret a, s') -> P a.

(** The loop came to an end within its fuel. *)
Definition settled {A : Type} (r : flow A) : Prop := r <> Running.

(** The round counter after a turn of the loop that started with [c] *)
Definition counted (c : counters) (r : flow (bool * counters)) : Prop :=
  match r with
  | Go (true, c') => toolRounds c' = S (toolRounds c)
  | Go (false, _) => True
  | Returned => True
  | Running => False
  end.

(** The streaming loop leaves the round counter alone. *)
Definition same_round {A : Type} (c : counters) (r : flow (counters * A)) : Prop :=
  match r with
  | Go (c', _) => toolRounds c' = toolRounds c
  | Returned => True
  | Running => False
  end.

(** The state after the [catch] block turned [e] into a message *)
Definition after_error (e : exn) (s : agent) : agent :=
  mkAgent (messages s)
          (chatHistory s ++ [mkEntry assistant (errorNotice e) JUndefined JUndefined None])
          (log s ++ [AbortChecked false; Yielded (Content (errorNotice e)); Yielded Done]).

(** The chunks a run yields, in order *)
Fixpoint yielded (l : list event) : list chunk :=
  match l with
  | [] => []
  | Yielded c :: l' => c :: yielded l'
  | _ :: l' => yielded l'
  end.

(** Collaborators for the examples *)
Definition never_aborted (_ : list event) : bool := false.
Definition no_tools (_ : list event) : outcome jsval := Ret (JArr []).
Definition no_tokens {A : Type} (_ : A) : Z := 0%Z.
Definition some_id (_ : list event) (_ : nat) : string := "call_0".

Definition bash_call : jsval := function_call "call_1" "bash" (quoted "{'command':'ls'}").

(** A stream that fails after one fragment *)
Definition broken_stream (_ : list event) (_ : list message) (_ : jsval)
  : list fragment * option exn :=
  ([Delta "Let me" None], Some (Error "socket hang up")).

(** A model that asks for one tool and answers once the tool has run *)
Definition executed (e : event) : bool :=
  match e with
  | ExecuteTool _ => true
  | _ => false
  end.

Definition asks_once (l : list event) (_ : list message) (_ : jsval)
  : list fragment * option exn :=
  if existsb executed l then ([Delta "done" None], None)
  else ([Delta "" (Some [bash_call])], None).

(** Built-in tools that raise *)
Definition tools_raise (_ : list event) (_ : builtin) : outcome ToolResult :=
  Throw (Error "spawn ENOENT").

(** *** Counting rounds *)

(** The streams a run opens *)
Definition stream_started (e : event) : bool :=
  match e with
  | StreamStarted _ => true
  | _ => false
  end.

(** The limit notice, when the loop yields it *)
Definition limit_noticed (e : event) : bool :=
  match e with
  | Yielded (Content t) => (t =? limitNotice)%string
  | _ => false
  end.

(** The same text, when the model streams it *)
Definition limit_echoed (e : event) : bool :=
  match e with
  | FragmentReceived (Delta t _) => (t =? limitNotice)%string
  | _ => false
  end.

(** How many events of a kind a stretch holds *)
Definition count (p : event -> bool) (l : list event) : nat := length (filter p l).

Definition streams : list event -> nat := count stream_started.
Definition notices : list event -> nat := count limit_noticed.
Definition echoes : list event -> nat := count limit_echoed.

(** What a stretch of events adds to the three counts: the streams, and
    the notices beyond the echoes *)
Definition weigh (l : list event) : nat * Z :=
  (streams l, Z.of_nat (notices l) - Z.of_nat (echoes l))%Z.

(** The weight of two stretches in a row *)
Definition both (w1 w2 : nat * Z) : nat * Z := (fst w1 + fst w2, (snd w1 + snd w2)%Z).

(** The computation returns a value that satisfies [R], after events of
    the weight [w]. *)
Definition runs {A : Type} (w : nat * Z) (R : A -> Prop) (m : io A) : Prop :=
  forall s, exists a s' ext,
    m s = (Ret a, s') /\ log s' = (log s ++ ext)%list /\ weigh ext = w /\ R a.

(** The computation, whether it returns or raises, adds nothing to the counts. *)
Definition calm {A : Type} (m : io A) : Prop :=
  forall s, exists ext, log (snd (m s)) = (log s ++ ext)%list /\ weigh ext = (0, 0%Z).

(** The accumulated message after the fragments of a stream *)
Fixpoint accumulate (acc : jsval) (fs : list fragment) : outcome jsval :=
  match fs with
  | [] => Ret acc
  | NoChoice :: fs' => accumulate acc fs'
  | f :: fs' =>
      acc' <- Aggregator.messageReducer acc (fragment_json f) ;;
      accumulate acc' fs'
  end.

(** No tool call of the accumulated message is [null] or [undefined]. *)
Definition sound (acc : jsval) : Prop :=
  (exists o, acc = JObj o) /\ Forall (fun tc => nullish tc = false) (calls_of acc).

(** The tool invocations a round finds in the accumulated message: its
    tool calls or, when it has none, those written in its content *)
Definition invocations (JSON_stringify : jsval -> string)
    (new_call_id : list event -> nat -> string) (l : list event) (acc : jsval) : list jsval :=
  match calls_of acc with
  | [] => parseToolCallsFromContent JSON_stringify new_call_id l (get (spread acc) "content")
  | calls => calls
  end.

(** A model that asks for the same tool in every round *)
Definition keeps_asking (_ : list event) (_ : list message) (_ : jsval)
  : list fragment * option exn :=
  ([Delta "" (Some [bash_call])], None).

(** Every event of the computation, whether it returns or raises,
    satisfies [P]. *)
Definition keeps {A : Type} (P : event -> Prop) (m : io A) : Prop :=
  forall s, exists ext, log (snd (m s)) = (log s ++ ext)%list /\ Forall P ext.

(** A string with a character that is not white space *)
Definition is_text (v : jsval) : Prop :=
  exists s, v = JStr s /\ trim s <> "".

(** The file viewer and the search run on a text only. *)
Definition runs_on_text (e : event) : Prop :=
  match e with
  | BuiltinCalled (View path _) => is_text path
  | BuiltinCalled (Search query _) => is_text query
  | _ => True
  end.

(** The names the dispatcher knows *)
Definition builtin_names : list string :=
  ["view_file"; "create_file"; "str_replace_editor"; "bash";
   "create_todo_list"; "update_todo_list"; "search"].

(** A tool call as the model writes it, with any value for arguments *)
Definition call_of (name : string) (arguments : jsval) : jsval :=
  JObj [("id", JStr "call_1"); ("type", JStr "function");
        ("function", JObj [("name", JStr name); ("arguments", arguments)])].

(** A result with something to show: an output when it succeeded, an
    error when it failed, and not the empty string *)
Definition has_text (r : ToolResult) : Prop :=
  if success r then exists o, output r = Some o /\ o <> ""
  else exists e, error r = Some e /\ e <> "".

(** The tool call [parseToolCallsFromContent] makes of a name and of
    arguments that are, or were turned into, a string *)
Definition parsed_call (id : string) (name : jsval) (arguments : string) : jsval :=
  JObj [("id", JStr id); ("type", JStr "function");
        ("function", JObj [("name", name); ("arguments", JStr arguments)])].

(** The texts of the fragments of a stream, one after the other *)
Fixpoint texts (fs : list fragment) : string :=
  match fs with
  | [] => ""
  | NoChoice :: fs' => texts fs'
  | Delta t _ :: fs' => t ++ texts fs'
  end.

Definition has_delta (fs : list fragment) : bool :=
  existsb (fun f => match f with Delta _ _ => true | NoChoice => false end) fs.

(** The computation leaves the conversation and the history as they are. *)
Definition untouched {A : Type} (m : io A) : Prop :=
  forall s, messages (snd (m s)) = messages s /\ chatHistory (snd (m s)) = chatHistory s.

(** A model that answers in two fragments *)
Definition answers (_ : list event) (_ : list message) (_ : jsval)
  : list fragment * option exn :=
  ([Delta "Hel" None; Delta "lo" None], None).

(** ** The streaming transport *)

(** The text a response delivers, piece after piece *)
Definition received (chunks : list string) : string := fold_right append "" chunks.

(** The lines of a text that end with a line feed *)
Definition complete_lines (s : string) : list string :=
  removelast (Transport.split_lines s).

(** What follows the last line feed *)
Definition unfinished (s : string) : string := last (Transport.split_lines s) "".

Definition line_feed : string := String (ascii_of_nat 10) "".

(** A reply in two lines, and a server whose first response breaks after
    the first of them *)
Definition first_line : string :=
  quoted "{'message':{'content':'Hel'},'done':false}" ++ line_feed.

Definition last_line : string :=
  quoted "{'message':{'content':'lo'},'done':true}" ++ line_feed.

Definition breaks_once (n : nat) (_ : Transport.payload) : Transport.stream_attempt :=
  match n with
  | 0 => Transport.Streams [first_line]
           (Some (Transport.Network "timeout of 300000ms exceeded" "ETIMEDOUT"))
  | _ => Transport.Streams [first_line; last_line] None
  end.

(** The longest a summary message can be: its heading, a line feed, 1000
    characters of digest and three dots *)
Definition summary_limit : nat :=
  String.length "[Context Summary] Previous conversation included:" + 1 + 1000 + 3.

(** ** The loop without streaming *)

(** The computation returns a value that satisfies [R], after [n]
    requests to the model. *)
Definition speaks {A : Type} (n : nat) (R : A -> Prop) (m : talk A) : Prop :=
  forall s, exists a s',
    m s = (Ret a, s') /\ length (requests s') = length (requests s) + n /\ R a.

(** Every value the computation returns satisfies [P]. *)
Definition says {A : Type} (P : A -> Prop) (m : talk A) : Prop :=
  forall s a s', m s = (Ret a, s') -> P a.

(** The entry of the user's message *)
Definition userEntry (text : string) : ChatEntry :=
  mkEntry user text JUndefined JUndefined None.

(** The session of an agent that has sent nothing yet *)
Definition opening (a : agent) : session := mkSession a [].

(** The tool calls [processUserMessage] finds in a reply *)
Definition asked_calls (JSON_stringify : jsval -> string)
    (new_call_id : list event -> nat -> string) (l : list event) (r : reply) : list jsval :=
  match reply_tool_calls r with
  | Some (toolCall :: calls) => toolCall :: calls
  | _ => parseToolCallsFromContent JSON_stringify new_call_id l (JStr (reply_content r))
  end.

(** The tool calls a reply carries *)
Definition carried_calls (r : reply) : list jsval :=
  match reply_tool_calls r with
  | Some calls => calls
  | None => []
  end.

(** A model that always asks for the same tool, one that answers, and one
    that cannot be reached *)
Definition insists (_ : list event) (_ : list (list message)) (_ : list message) (_ : jsval)
  : outcome (option reply) :=
  Ret (Some (mkReply "" (Some [bash_call]))).

Definition replies (_ : list event) (_ : list (list message)) (_ : list message) (_ : jsval)
  : outcome (option reply) :=
  Ret (Some (mkReply "Hello" None)).

Definition unreachable (_ : list event) (_ : list (list message)) (_ : list message)
    (_ : jsval) : outcome (option reply) :=
  Throw (Error "Ollama API error: connect ECONNREFUSED").

(** ** The bash tool *)

(** The effects that change the world: all but a question to the user *)
Definition acts (e : Shell.effect) : bool :=
  match e with
  | Shell.Asked _ _ => false
  | _ => true
  end.

(** The commands of system administration that are dangerous whatever
    follows them *)
Definition system_words : list string :=
  ["sudo"; "dd"; "fdisk"; "format"; "killall"; "pkill"; "systemctl"; "service";
   "mount"; "umount"].

(** What the tool answers to a dangerous command *)
Definition refusal (c : string) : ToolResult :=
  failed ("Dangerous command detected: " ++ String dquote c ++ String dquote
          ". This command requires interactive mode for safety. "
          ++ "Please use the interactive mode (without --prompt) "
          ++ "to execute potentially harmful commands.").

(** A session in which nothing is allowed yet, a user who declines, and a
    shell that must not be reached *)
Definition nothing_allowed (_ : list Shell.effect) : Shell.flags := Shell.mkFlags false false.

Definition bash_allowed (_ : list Shell.effect) : Shell.flags := Shell.mkFlags true false.

Definition declines (_ : list Shell.effect) (_ _ : string) : outcome Shell.confirmation :=
  Ret (Shell.mkConfirmation false None).

Definition no_chdir (_ : list Shell.effect) (_ : string) : outcome string :=
  Throw (Error "ENOENT: no such file or directory").

Definition enters (_ : list Shell.effect) (dir : string) : outcome string :=
  Ret ("/home/user/" ++ dir).

Definition no_exec (_ : list Shell.effect) (_ _ : string) : outcome (string * string) :=
  Throw (Error "spawn /bin/sh ENOENT").

Definition prints (_ : list Shell.effect) (command cwd : string) : outcome (string * string) :=
  Ret (cwd, "").

Definition home : Shell.shell := Shell.mkShell "/home/user" [].

(** ** The settings *)

(** The names of the properties of an object *)
Definition keys (o : props) : list string := map fst o.

(** The settings [o], once written, are read back with the properties
    they have: what [JSON.parse] makes of [JSON.stringify(o)] is an object
    with the values of [o] (a property that is [undefined] is not written,
    and is [undefined] when read). *)
Definition reads_back (JSON_stringify : jsval -> string) (o : props) : Prop :=
  exists back,
    Json.parse (JSON_stringify (JObj o)) = Ret (JObj back)
    /\ NoDup (keys back)
    /\ forall k, get back k = get o k.

(** A printer of JSON for the examples, for values whose strings need no
    escape and that hold no number *)
Fixpoint compact_json (v : jsval) : string :=
  match v with
  | JUndefined | JNull | JNum _ => "null"
  | JBool true => "true"
  | JBool false => "false"
  | JStr s => String dquote s ++ String dquote ""
  | JArr l => "[" ++ join "," (map compact_json l) ++ "]"
  | JObj o | JHeir _ o =>
      "{" ++ join ","
               ((fix fields (o : list (string * jsval)) : list string :=
                   match o with
                   | [] => []
                   | (_, JUndefined) :: rest => fields rest
                   | (k, x) :: rest =>
                       (String dquote k ++ String dquote ":" ++ compact_json x)
                         :: fields rest
                   end) o)
          ++ "}"
  end.

(** The other settings file *)
Definition other (p : Settings.place) : Settings.place :=
  match p with
  | Settings.UserSettings => Settings.ProjectSettings
  | Settings.ProjectSettings => Settings.UserSettings
  end.

(** The error of [getCurrentModel] *)
Definition no_models_available : exn :=
  Error "No models available. Please install models in Ollama first using: ollama pull <model-name>".

(** What [getAvailableModels] falls back on: the models of the user
    settings, or none *)
Definition cached_models (settings : props) : jsval :=
  if truthy (get settings "models") then get settings "models" else JArr [].

Definition everything (_ : Settings.place) : bool := true.
Definition nothing (_ : Settings.place) : bool := false.

(** A disk without settings, and one whose user settings are damaged *)
Definition blank_disk : Settings.disk :=
  Settings.mkDisk (Settings.mkSlot false None) (Settings.mkSlot false None).

Definition damaged_disk : Settings.disk :=
  Settings.mkDisk (Settings.mkSlot true (Some "{ baseURL: ")) (Settings.mkSlot false None).

(** A disk with user settings that set nothing *)
Definition fresh_disk : Settings.disk :=
  Settings.mkDisk (Settings.mkSlot true (Some "{}")) (Settings.mkSlot false None).

(** A server that cannot be reached, and one with a model *)
Definition unreachable_server (_ : jsval) : outcome (list string) :=
  Throw (Error "connect ECONNREFUSED 127.0.0.1:11434").

Definition small_server (_ : jsval) : outcome (list string) :=
  Ret ["llama3.2:3b"].

(** ** The search for files *)

(** [p] is a part of [s]: it occurs in it, its characters next to each
    other *)
Definition part_of (p s : string) : Prop := exists a b, s = a ++ p ++ b.

(** The characters of [p] occur in [s] in the order they have in [p] *)
Inductive scattered : string -> string -> Prop :=
| scattered_none s : scattered "" s
| scattered_take c p s : scattered p s -> scattered (String c p) (String c s)
| scattered_skip c p s : scattered p s -> scattered p (String c s).

(** [options.maxResults || 50] *)
Definition limit_of (o : Search.options) : Z :=
  match Search.maxResults o with
  | Some n => if (n =? 0)%Z then 50%Z else n
  | None => 50%Z
  end.

(** The files under an entry that the walk takes when nothing stops it
    but the depth, in the order of the walk *)
Fixpoint matches (o : Search.options) (pattern : string) (depth : nat) (dir : string)
    (e : Search.entry) : list Search.FileSearchResult :=
  let relativePath := Search.relative dir (Search.entry_name e) in
  if Search.passed_over o e relativePath then []
  else
    match e with
    | Search.File fileName =>
        let s := Search.calculateFileScore fileName relativePath pattern in
        if (0 <? s)%Z then [Search.mkFileResult relativePath fileName s] else []
    | Search.Directory _ (Some entries) =>
        if (10 <? S depth)%nat then []
        else flat_map (matches o pattern (S depth) relativePath) entries
    | _ => []
    end.

Definition all_matches (o : Search.options) (pattern : string)
    (root : option (list Search.entry)) : list Search.FileSearchResult :=
  match root with
  | Some entries => flat_map (matches o pattern 0 "") entries
  | None => []
  end.

(** The results with the score [s] *)
Definition scoring (s : Z) (l : list Search.FileSearchResult) : list Search.FileSearchResult :=
  filter (fun f => (Search.score f =? s)%Z) l.

(** The best score comes first *)
Definition best_first (l : list Search.FileSearchResult) : Prop :=
  StronglySorted (fun a b => (Search.score b <= Search.score a)%Z) l.

(** What holds of a file that is found *)
Definition wanted (o : Search.options) (pattern : string) (f : Search.FileSearchResult)
  : Prop :=
  (0 < Search.score f)%Z
  /\ Search.score f = Search.calculateFileScore (Search.name f) (Search.path f) pattern
  /\ (Search.includeHidden o = false -> startsWith "." (Search.name f) = false)
  /\ (forall excluded, Search.excludePattern o = Some excluded -> excluded <> "" ->
        Search.includes (Search.path f) excluded = false).

(** Every name in and under an entry is one that [ok] accepts *)
Fixpoint named (ok : string -> bool) (e : Search.entry) : bool :=
  ok (Search.entry_name e)
  && match e with
     | Search.Directory _ (Some entries) => forallb (named ok) entries
     | _ => true
     end.

(** No name in the directory has an asterisk *)
Definition starless (root : option (list Search.entry)) : bool :=
  match root with
  | Some entries => forallb (named (fun n => negb (Search.includes n "*"))) entries
  | None => true
  end.

(** A query that [search] replaces by ["*"] *)
Definition blank (query : jsval) : bool :=
  match query with
  | JStr q => (trim q =? "")%string
  | _ => true
  end.

(** The search types that look for files only *)
Definition files_only (o : Search.options) : bool :=
  match Search.searchType o with
  | Some t => (t =? "")%string || (t =? "files")%string
  | None => true
  end.

Definition no_text_search (_ : string) (_ : Search.options)
  : outcome (list Search.SearchResult) :=
  Throw (Error "spawn rg ENOENT").

Definition plain_options : Search.options := Search.mkOptions None None false None.

Definition small_project : option (list Search.entry) :=
  Some [Search.Directory "src" (Some [Search.File "index.ts"; Search.File "agent.ts"]);
        Search.Directory "node_modules" (Some [Search.File "index.js"]);
        Search.File "README.md";
        Search.File ".env"].

(** An object that has the prototype of objects *)
Definition plain (acc : object) : Prop := proto acc = None.

(** The failures of the attempts that [chat] makes from the attempt [i]
    on, when [n] attempts are left, each with the number of its attempt:
    another attempt is made after a failure that can be retried *)
Fixpoint failures_from (post : nat -> Transport.payload -> Transport.attempt)
    (p : Transport.payload) (n i : nat) : list (nat * Transport.failure) :=
  match n with
  | 0 => []
  | S n' =>
      match post i p with
      | Transport.Answer _ => []
      | Transport.Fails e =>
          (i, e) :: (if Transport.isRetryable e then failures_from post p n' (S i) else [])
      end
  end.

(** The failures of a call of [chat] *)
Definition failures (post : nat -> Transport.payload -> Transport.attempt)
    (p : Transport.payload) : list (nat * Transport.failure) :=
  failures_from post p 4 0.

(** The record that the failures leave one after the other, from the
    record there was *)
Definition record_after (now : nat -> string) (p : Transport.payload)
    (before : option Transport.LastErrorDetails) (l : list (nat * Transport.failure))
  : option Transport.LastErrorDetails :=
  fold_left (fun d ie => match Transport.details now (fst ie) (snd ie) p with
                         | Some d' => Some d'
                         | None => d
                         end) l before.

(** A clock that tells the attempts apart *)
Definition clock (n : nat) : string := "2025-01-01T00:00:0" ++ string_of_nat n ++ ".000Z".

Definition too_many_requests : Transport.failure :=
  Transport.Http "Request failed with status code 429"
                 (Transport.mkResponse 429 (JObj [("error", JStr "rate limited")]) (JObj [])).

(** A server that refuses the model, is busy and then answers *)
Definition throttled (n : nat) (_ : Transport.payload) : Transport.attempt :=
  match n with
  | 0 => Transport.Fails too_many_requests
  | 1 => Transport.Fails service_unavailable
  | _ => Transport.Answer (JObj [("done", JBool true)])
  end.

(** What a response that fails has yielded before, and the failure: a
    request that is refused has yielded nothing, and a response that
    breaks has yielded the chunks of its complete lines, none of which
    was the [done] line *)
Definition breaks (a : Transport.stream_attempt) : option (list jsval * Transport.failure) :=
  match a with
  | Transport.Refused e => Some ([], e)
  | Transport.Streams chunks (Some e) =>
      match Transport.pump "" chunks with
      | (ys, false) => Some (ys, e)
      | (_, true) => None
      end
  | Transport.Streams _ None => None
  end.

(** What the attempts before the attempt [i] have yielded, when each of
    them failed with a failure that can be retried *)
Fixpoint retried (post : nat -> Transport.payload -> Transport.stream_attempt)
    (p : Transport.payload) (i : nat) : option (list jsval) :=
  match i with
  | 0 => Some []
  | S j =>
      match retried post p j, breaks (post j p) with
      | Some earlier, Some (ys, e) =>
          if Transport.isRetryable e then Some (earlier ++ ys)%list else None
      | _, _ => None
      end
  end.

End Spec.

(** * Properties *)

Import Text Spec.
Local Open Scope nat_scope.

(** ** Outcomes, strings and own properties *)

Lemma bind_ret {A B} (m : outcome A) (k : A -> outcome B) b :
  bind m k = Ret b -> exists a, m = Ret a /\ k a = Ret b.
Proof. destruct m; simpl; [eauto | discriminate]. Qed.

Lemma append_assoc (a b c : string) : ((a ++ b) ++ c = a ++ (b ++ c))%string.
Proof. induction a; simpl; [reflexivity | now f_equal]. Qed.

Lemma append_empty (a : string) : (a ++ "" = a)%string.
Proof. induction a; simpl; [reflexivity | now f_equal]. Qed.

Lemma prefix_split (p : string) : forall s,
  String.prefix p s = true -> exists rest, s = (p ++ rest)%string.
Proof.
  induction p as [|c p IH]; intros s H.
  - now exists s.
  - destruct s as [|c' s]; [discriminate|]. simpl in H.
    destruct (Ascii.ascii_dec c c'); [|discriminate]. subst c'.
    destruct (IH s H) as (rest & ->). now exists rest.
Qed.

Lemma of_string_length s : length (of_string s) = String.length s.
Proof. induction s; simpl; auto. Qed.

Lemma lookup_set_same k v o : lookup k (set k v o) = Some v.
Proof.
  induction o as [|[k' v'] o IH]; simpl.
  - now rewrite String.eqb_refl.
  - destruct (k' =? k)%string eqn:E; simpl.
    + now rewrite String.eqb_refl.
    + now rewrite E.
Qed.

Lemma lookup_set_other k k' v o : k <> k' -> lookup k' (set k v o) = lookup k' o.
Proof.
  intros N. induction o as [|[k0 v0] o IH]; simpl.
  - destruct (k =? k')%string eqn:E; [apply String.eqb_eq in E; contradiction | reflexivity].
  - destruct (k0 =? k)%string eqn:E; simpl.
    + apply String.eqb_eq in E. subst k0.
      destruct (k =? k')%string eqn:E'; [apply String.eqb_eq in E'; contradiction | reflexivity].
    + destruct (k0 =? k')%string; [reflexivity | exact IH].
Qed.

Lemma get_set_same k v o : get (set k v o) k = v.
Proof. unfold get. now rewrite lookup_set_same. Qed.

Lemma get_set_other k k' v o : k <> k' -> get (set k v o) k' = get o k'.
Proof. intros N. unfold get. now rewrite lookup_set_other. Qed.

(** ** The stream aggregator *)

Section AggregatorFacts.
Import Aggregator.

Lemma insert_index_map {A B : Type} (f : A -> B) n a l :
  insert_index n (f a) (map (fun p => (fst p, f (snd p))) l)
  = map (fun p => (fst p, f (snd p))) (insert_index n a l).
Proof.
  induction l as [|[m b] l IH]; [reflexivity|]. cbn [map insert_index fst snd].
  destruct (n <? m)%N; [reflexivity|]. cbn [map fst snd]. now rewrite IH.
Qed.

Lemma by_index_map {A B : Type} (nameA : A -> string) (nameB : B -> string) (f : A -> B) l :
  (forall a, nameB (f a) = nameA a) ->
  by_index nameB (map f l) = map f (by_index nameA l).
Proof.
  intros N. unfold by_index. rewrite map_app. f_equal.
  - assert (I : indices nameB (map f l)
                = map (fun p => (fst p, f (snd p))) (indices nameA l)).
    { induction l as [|a l IH]; [reflexivity|]. cbn [map indices]. rewrite N, IH.
      destruct (index_of (nameA a)); [apply insert_index_map | reflexivity]. }
    rewrite I, !map_map. reflexivity.
  - induction l as [|a l IH]; [reflexivity|]. cbn [map filter].
    assert (E : named_otherwise nameB (f a) = named_otherwise nameA a)
      by (unfold named_otherwise; now rewrite N).
    rewrite E, IH. now destruct (named_otherwise nameA a).
Qed.

(** The entries are those of [Object.entries], in its order *)
Lemma entries_with_entries reduce_into o :
  entries_with reduce_into o = map (entry_with reduce_into) (entries o).
Proof. apply by_index_map. reflexivity. Qed.

Lemma array_set_length i v a :
  i <= length a -> length (array_set i v a) = Nat.max (length a) (S i).
Proof.
  intros H. unfold array_set.
  rewrite !length_app, repeat_length, length_firstn. cbn [length].
  pose proof (length_skipn (S i) a). lia.
Qed.

Lemma array_get_set i v a j :
  i <= length a ->
  array_get (array_set i v a) j = if j =? i then v else array_get a j.
Proof.
  intros H. unfold array_get, array_set.
  replace (i - length a) with 0 by lia. cbn [repeat app].
  destruct (Nat.eqb_spec j i) as [->|N].
  - rewrite app_nth2; rewrite length_firstn; [|lia].
    replace (i - Nat.min i (length a)) with 0 by lia. reflexivity.
  - destruct (Nat.lt_ge_cases j i).
    + rewrite app_nth1 by (rewrite length_firstn; lia).
      now rewrite nth_firstn, (proj2 (Nat.ltb_lt _ _)) by lia.
    + rewrite app_nth2 by (rewrite length_firstn; lia).
      rewrite length_firstn. replace (Nat.min i (length a)) with i by lia.
      destruct (j - i) as [|d] eqn:E; [lia|]. cbn [nth].
      rewrite nth_skipn. f_equal. lia.
Qed.

Lemma merge_array_spec v : forall i a a',
  i <= length a ->
  merge_array (map reduce_into v) i a = Ret a' ->
  length a' = Nat.max (length a) (i + length v)
  /\ (forall j, j < i -> array_get a' j = array_get a j)
  /\ (forall j, j < length v ->
        reduce (slot a (i + j)) (nth j v JUndefined) = Ret (array_get a' (i + j)))
  /\ (forall j, i + length v <= j -> array_get a' j = array_get a j).
Proof.
  induction v as [|d v IH]; intros i a a' Hi H; simpl in H.
  - injection H as <-. simpl. repeat split; intros; try lia; reflexivity.
  - apply bind_ret in H as (r & Hr & H).
    apply IH in H as (HL & Hlow & Hmid & Hhigh); [|rewrite array_set_length; lia].
    rewrite array_set_length in HL by lia. simpl.
    repeat split.
    + lia.
    + intros j Hj. rewrite Hlow by lia. rewrite array_get_set by lia.
      destruct (Nat.eqb_spec j i); [lia | reflexivity].
    + intros [|j] Hj.
      * rewrite Nat.add_0_r. simpl. rewrite Hlow by lia.
        rewrite array_get_set, Nat.eqb_refl by lia. exact Hr.
      * simpl. replace (i + S j) with (S i + j) by lia.
        rewrite <- Hmid by lia. unfold slot.
        rewrite array_get_set by lia.
        destruct (Nat.eqb_spec (S i + j) i); [lia | reflexivity].
    + intros j Hj. rewrite Hhigh by lia. rewrite array_get_set by lia.
      destruct (Nat.eqb_spec j i); [lia | reflexivity].
Qed.

Lemma delete_indexes_spec l : forall l',
  delete_indexes l = Ret l' ->
  length l' = length l
  /\ forall i, i < length l -> delete_index (nth i l JUndefined) = Ret (nth i l' JUndefined).
Proof.
  induction l as [|x l IH]; intros l' H; simpl in H.
  - injection H as <-. split; [reflexivity | simpl; lia].
  - apply bind_ret in H as (x' & Hx & H). apply bind_ret in H as (l2 & Hl & H).
    injection H as <-. destruct (IH _ Hl) as [HL HI]. split; [simpl; lia|].
    intros [|i] Hi; simpl; [exact Hx | apply HI; simpl in Hi; lia].
Qed.

(** *** The order of the entries *)

Section Order.

Context {A : Type}.
Variable name : A -> string.

Lemma insert_index_perm n (a : A) l : Permutation (insert_index n a l) ((n, a) :: l).
Proof.
  induction l as [|[m b] l IH]; cbn [insert_index]; [reflexivity|].
  destruct (n <? m)%N; [reflexivity|]. rewrite IH. apply perm_swap.
Qed.

Lemma by_index_perm (l : list A) : Permutation (by_index name l) l.
Proof.
  unfold by_index. induction l as [|a l IH]; [reflexivity|].
  cbn [indices filter]. unfold named_otherwise at 1.
  destruct (index_of (name a)) as [n|].
  - rewrite insert_index_perm. cbn [map snd app]. now constructor.
  - rewrite <- Permutation_middle. now constructor.
Qed.

End Order.

Lemma entries_with_perm d :
  Permutation (entries_with reduce_into d) (map entry_of d).
Proof. apply by_index_perm. Qed.

(** *** An accumulator that keeps the prototype of objects *)

Lemma assign_back acc key v : plain (assign acc key v) -> plain acc.
Proof.
  unfold assign, plain. destruct (lookup key (own acc)); [trivial|].
  destruct ((key =? "__proto__")%string && _); [|trivial].
  destruct v; cbn; trivial; discriminate.
Qed.

Lemma update_back acc key a : plain (update acc key a) -> plain acc.
Proof.
  unfold update, plain. destruct (lookup key (own acc)); [trivial|].
  destruct (proto acc); [discriminate | trivial].
Qed.

(** An entry leaves the accumulator as it is, assigns to its field or
    updates the array of its field *)
Lemma merge_entry_shape e acc acc' :
  merge_entry e acc = Ret acc' ->
  acc' = acc
  \/ (exists v, acc' = assign acc (e_key e) v)
  \/ (exists a, acc' = update acc (e_key e) a).
Proof.
  unfold merge_entry. intros H.
  assert (First : forall r,
             match e_value e with
             | JArr l => l' <- delete_indexes l ;; Ret (assign acc (e_key e) (JArr l'))
             | _ => Ret (assign acc (e_key e) (e_value e))
             end = Ret r -> exists v, r = assign acc (e_key e) v).
  { intros r Hr. destruct (e_value e); try (injection Hr as <-; eauto).
    apply bind_ret in Hr as (l' & _ & Hr). injection Hr as <-. eauto. }
  assert (Into : forall cur r,
             (if typeof_object cur && typeof_object (e_value e)
              then r0 <- e_into e cur ;; Ret (assign acc (e_key e) r0)
              else Ret acc) = Ret r ->
             r = acc \/ exists v, r = assign acc (e_key e) v).
  { intros cur r Hr. destruct (typeof_object cur && typeof_object (e_value e)).
    - apply bind_ret in Hr as (r0 & _ & Hr). injection Hr as <-. eauto.
    - injection Hr as <-. now left. }
  assert (Idle : forall cur, Ret acc = Ret acc' \/
             (if typeof_object cur && typeof_object (e_value e)
              then r0 <- e_into e cur ;; Ret (assign acc (e_key e) r0)
              else Ret acc) = Ret acc' ->
             acc' = acc
             \/ (exists v, acc' = assign acc (e_key e) v)
             \/ (exists a, acc' = update acc (e_key e) a)).
  { intros cur [E|E]; [injection E as <-; now left|].
    destruct (Into _ _ E) as [->|E']; [now left | right; now left]. }
  destruct (read acc (e_key e)) as [cur| | |].
  - destruct cur as [| |b|n|s|accArray|o|q o]; cbv beta iota in H.
    + right. left. exact (First _ H).
    + right. left. exact (First _ H).
    + apply (Idle (JBool b)). now right.
    + apply (Idle (JNum n)). now right.
    + destruct (e_value e); try (injection H as <-; now left).
      injection H as <-. right. left. eauto.
    + destruct (e_value e) eqn:V;
        try (apply (Idle (JArr accArray)); right; exact H).
      apply bind_ret in H as (a' & _ & H). injection H as <-. right. right. eauto.
    + apply (Idle (JObj o)). now right.
    + apply (Idle (JHeir q o)). now right.
  - injection H as <-. now left.
  - apply (Idle (JObj [])). now right.
  - right. left. exact (First _ H).
Qed.

Lemma merge_entry_back e acc acc' :
  merge_entry e acc = Ret acc' -> plain acc' -> plain acc.
Proof.
  intros H P. destruct (merge_entry_shape _ _ _ H) as [->|[(v & ->)|(a & ->)]];
    [exact P | now apply assign_back in P | now apply update_back in P].
Qed.

Lemma merge_entries_back es : forall acc acc',
  merge_entries es acc = Ret acc' -> plain acc' -> plain acc.
Proof.
  induction es as [|e es IH]; intros acc acc' H P; simpl in H.
  - now injection H as <-.
  - apply bind_ret in H as (acc1 & H1 & H).
    eapply merge_entry_back; [exact H1|]. eapply IH; eauto.
Qed.

Lemma read_plain acc key :
  plain acc ->
  read acc key
  = match lookup key (own acc) with
    | Some v => Found v
    | None =>
        if (key =? "__proto__")%string then Root
        else if is_member object_members key then Method else Missing
    end.
Proof. unfold plain, read, at_root. intros ->. reflexivity. Qed.

Lemma assign_plain acc key v :
  plain acc -> plain (assign acc key v) ->
  assign acc key v
  = if match lookup key (own acc) with Some _ => false | None => (key =? "__proto__")%string end
    then acc
    else mkObject (set key v (own acc)) None.
Proof.
  unfold plain, assign. intros P. rewrite P.
  destruct (lookup key (own acc)); [reflexivity|].
  rewrite andb_true_r. destruct (key =? "__proto__")%string; [|reflexivity].
  destruct v; cbn; try discriminate; intros _; destruct acc; cbn in *; now subst.
Qed.

Lemma update_plain acc key a :
  plain acc ->
  update acc key a
  = match lookup key (own acc) with
    | Some _ => mkObject (set key a (own acc)) None
    | None => acc
    end.
Proof.
  unfold plain, update. intros P. rewrite P. reflexivity.
Qed.

Lemma assign_other acc key v k :
  key <> k -> lookup k (own (assign acc key v)) = lookup k (own acc).
Proof.
  intros N. unfold assign. destruct (lookup key (own acc)).
  - cbn [own]. now apply lookup_set_other.
  - destruct ((key =? "__proto__")%string && _).
    + destruct v; reflexivity.
    + cbn [own]. now apply lookup_set_other.
Qed.

Lemma update_other acc key a k :
  key <> k -> lookup k (own (update acc key a)) = lookup k (own acc).
Proof.
  intros N. unfold update. destruct (lookup key (own acc)).
  - cbn [own]. now apply lookup_set_other.
  - now destruct (proto acc).
Qed.

Lemma merge_entry_other e acc acc' k :
  merge_entry e acc = Ret acc' -> e_key e <> k ->
  lookup k (own acc') = lookup k (own acc).
Proof.
  intros H N. destruct (merge_entry_shape _ _ _ H) as [->|[(v & ->)|(a & ->)]];
    [reflexivity | now apply assign_other | now apply update_other].
Qed.

Lemma merge_entries_other es : forall acc acc' k,
  merge_entries es acc = Ret acc' ->
  ~ In k (map e_key es) -> lookup k (own acc') = lookup k (own acc).
Proof.
  induction es as [|e es IH]; intros acc acc' k H N; simpl in H.
  - now injection H as <-.
  - apply bind_ret in H as (acc1 & H1 & H).
    rewrite (IH _ _ _ H) by (intros C; apply N; now right).
    eapply merge_entry_other; [exact H1|]. intros E. apply N. now left.
Qed.

Lemma get_lookup (o o' : props) k : lookup k o = lookup k o' -> get o k = get o' k.
Proof. unfold get. now intros ->. Qed.

Lemma inherits_false key :
  inherits key = false ->
  (key =? "__proto__")%string = false /\ is_member object_members key = false.
Proof. unfold inherits. apply orb_false_iff. Qed.

(** What an entry does to its own field, in an accumulator that has and
    keeps the prototype of objects *)
Lemma merge_entry_self key value acc acc' :
  merge_entry (entry_of (key, value)) acc = Ret acc' ->
  plain acc' ->
  (lookup key (own acc) <> None \/ inherits key = false ->
     field_effect (own acc) key value (get (own acc') key))
  /\ (lookup key (own acc) = None -> inherits key = true ->
        lookup key (own acc') = lookup key (own acc)).
Proof.
  intros H P. pose proof (merge_entry_back _ _ _ H P) as P0.
  unfold merge_entry, entry_of, entry_with in H.
  cbn [e_key e_value e_into e_elems fst snd] in H.
  rewrite (read_plain acc key P0) in H.
  assert (Set_ : forall v, plain (assign acc key v) ->
             lookup key (own acc) <> None \/ inherits key = false ->
             get (own (assign acc key v)) key = v).
  { intros v Pv C. rewrite (assign_plain acc key v P0 Pv).
    destruct (lookup key (own acc)) eqn:L; cbn [own]; [apply get_set_same|].
    destruct C as [C|C]; [congruence|]. apply inherits_false in C as [-> _].
    apply get_set_same. }
  assert (First : forall cur,
             nullish cur = true -> get (own acc) key = cur ->
             lookup key (own acc) <> None \/ inherits key = false ->
             match value with
             | JArr l => l' <- delete_indexes l ;; Ret (assign acc key (JArr l'))
             | _ => Ret (assign acc key value)
             end = Ret acc' ->
             field_effect (own acc) key value (get (own acc') key)).
  { intros cur Hn G C E. unfold field_effect. rewrite G.
    assert (F : match value with
                | JArr l =>
                    exists l', get (own acc') key = JArr l'
                      /\ length l' = length l
                      /\ forall i, i < length l ->
                           delete_index (nth i l JUndefined) = Ret (nth i l' JUndefined)
                | _ => get (own acc') key = value
                end).
    { destruct value as [| |b|n|t|l|o|q o];
        try (injection E as <-; now apply Set_).
      apply bind_ret in E as (l' & Hl & E). injection E as <-.
      exists l'. rewrite Set_ by assumption.
      apply delete_indexes_spec in Hl as [HL HI]. auto. }
    destruct cur; try discriminate Hn; exact F. }
  assert (Into : forall cur,
             get (own acc) key = cur ->
             lookup key (own acc) <> None ->
             (if typeof_object cur && typeof_object value
              then r0 <- reduce_into value cur ;; Ret (assign acc key r0)
              else Ret acc) = Ret acc' ->
             if typeof_object cur && typeof_object value
             then reduce cur value = Ret (get (own acc') key)
             else get (own acc') key = cur).
  { intros cur G C E. destruct (typeof_object cur && typeof_object value).
    - apply bind_ret in E as (r0 & Hr & E). injection E as <-.
      rewrite Set_; [exact Hr | exact P | now left].
    - injection E as <-. exact G. }
  destruct (lookup key (own acc)) as [cur|] eqn:L.
  - (* the accumulator has the field *)
    split; [intros C | intros C; discriminate C].
    assert (G : get (own acc) key = cur) by (unfold get; now rewrite L).
    destruct cur as [| |b|n|s|accArray|o|q o]; cbv beta iota in H.
    + now apply (First JUndefined).
    + now apply (First JNull).
    + unfold field_effect. rewrite G. apply (Into (JBool b) G); [discriminate | exact H].
    + unfold field_effect. rewrite G. apply (Into (JNum n) G); [discriminate | exact H].
    + unfold field_effect. rewrite G.
      destruct value; try (injection H as <-; exact G).
      injection H as <-. apply Set_; [exact P | now left].
    + unfold field_effect. rewrite G.
      destruct value as [| |b|n|t|v|o|q o] eqn:V;
        try (apply (Into (JArr accArray) G); [discriminate | exact H]).
      cbn [elems_of] in H.
      apply bind_ret in H as (a' & Ha & H). injection H as <-.
      exists a'. rewrite (update_plain acc key _ P0), L. cbn [own]. rewrite get_set_same.
      apply merge_array_spec in Ha as (HL & _ & Hmid & Hhigh); [|lia].
      repeat split; auto.
    + unfold field_effect. rewrite G. apply (Into (JObj o) G); [discriminate | exact H].
    + unfold field_effect. rewrite G. apply (Into (JHeir q o) G); [discriminate | exact H].
  - (* the accumulator has not the field *)
    destruct (key =? "__proto__")%string eqn:K.
    + split.
      * intros [C|C]; [congruence|]. apply inherits_false in C as [C _]. congruence.
      * intros _ I. destruct (typeof_object (JObj []) && typeof_object value).
        -- apply bind_ret in H as (r0 & _ & H). injection H as <-.
           rewrite (assign_plain acc key r0 P0 P), L, K. exact L.
        -- injection H as <-. exact L.
    + destruct (is_member object_members key) eqn:M.
      * injection H as <-. split; [|intros _ _; exact L].
        intros [C|C]; [congruence|]. apply inherits_false in C as [_ C]. congruence.
      * split; [intros C | intros _ I; unfold inherits in I; rewrite K, M in I; discriminate I].
        apply (First JUndefined); [reflexivity | unfold get; now rewrite L | | exact H].
        right. unfold inherits. now rewrite K, M.
Qed.

Lemma field_effect_ext acc acc0 key value now :
  get acc key = get acc0 key ->
  field_effect acc0 key value now -> field_effect acc key value now.
Proof. unfold field_effect. intros ->. trivial. Qed.

Lemma merge_entries_field es : forall acc acc' key value,
  NoDup (map e_key es) -> In (entry_of (key, value)) es ->
  merge_entries es acc = Ret acc' ->
  plain acc' ->
  (lookup key (own acc) <> None \/ inherits key = false ->
     field_effect (own acc) key value (get (own acc') key))
  /\ (lookup key (own acc) = None -> inherits key = true ->
        lookup key (own acc') = None).
Proof.
  induction es as [|e es IH]; intros acc acc' key value ND HI H P; [destruct HI|].
  simpl in H. apply bind_ret in H as (acc1 & H1 & H).
  inversion ND as [|? ? Hnot ND']; subst.
  pose proof (merge_entries_back _ _ _ H P) as P1.
  destruct HI as [E|HI].
  - subst e. cbn [entry_of entry_with e_key fst] in Hnot.
    pose proof (merge_entries_other _ _ _ key H Hnot) as O.
    destruct (merge_entry_self _ _ _ _ H1 P1) as [F K]. split.
    + intros C. rewrite (get_lookup _ _ _ O). now apply F.
    + intros L I. rewrite O, (K L I). exact L.
  - assert (N : e_key e <> key).
    { intros <-. apply Hnot. change (e_key e) with (e_key (entry_of (e_key e, value))).
      now apply in_map. }
    pose proof (merge_entry_other _ _ _ key H1 N) as O.
    destruct (IH acc1 acc' key value ND' HI H P) as [F K]. split.
    + intros C. eapply field_effect_ext; [symmetry; apply get_lookup; exact O|].
      apply F. now rewrite O.
    + intros L I. apply K; [now rewrite O | exact I].
Qed.

Lemma reduce_object acc d :
  reduce (JObj acc) (JObj d)
  = (r <- merge_entries (entries_with reduce_into d) (mkObject acc None) ;; Ret (value_of r)).
Proof. reflexivity. Qed.

Lemma entries_with_keys d : Permutation (map e_key (entries_with reduce_into d)) (map fst d).
Proof.
  rewrite (Permutation_map e_key (entries_with_perm d)), map_map. reflexivity.
Qed.

Lemma entries_with_In d kv : In kv d -> In (entry_of kv) (entries_with reduce_into d).
Proof.
  intros H. apply (Permutation_in _ (Permutation_sym (entries_with_perm d))).
  now apply in_map.
Qed.

Lemma value_of_plain r o : value_of r = JObj o -> plain r /\ own r = o.
Proof.
  unfold value_of, plain. destruct r as [ow [x|]]; cbn; [discriminate|].
  intros E. injection E as <-. auto.
Qed.

(** *** The field [__proto__] *)

Lemma assign_keeps_proto acc key v :
  key <> "__proto__" \/ lookup "__proto__" (own acc) <> None ->
  proto (assign acc key v) = proto acc.
Proof.
  intros N. unfold assign. destruct (lookup key (own acc)) eqn:L; [reflexivity|].
  destruct (String.eqb_spec key "__proto__") as [->|D]; [|reflexivity].
  destruct N; congruence.
Qed.

Lemma update_installed acc key a : proto (update acc key a) = None <-> proto acc = None.
Proof.
  unfold update. destruct (lookup key (own acc)); cbn [proto]; [tauto|].
  destruct (proto acc) eqn:P; cbn [proto]; split; congruence.
Qed.

Lemma merge_entry_installed e acc acc' :
  e_key e <> "__proto__" \/ lookup "__proto__" (own acc) <> None ->
  merge_entry e acc = Ret acc' -> (proto acc' = None <-> proto acc = None).
Proof.
  intros N H. destruct (merge_entry_shape _ _ _ H) as [->|[(v & ->)|(a & ->)]].
  - tauto.
  - now rewrite assign_keeps_proto.
  - apply update_installed.
Qed.

(** A property that the accumulator has is kept *)
Lemma merge_entry_has e acc acc' k :
  merge_entry e acc = Ret acc' ->
  lookup k (own acc) <> None -> lookup k (own acc') <> None.
Proof.
  intros H L. destruct (String.string_dec (e_key e) k) as [E|N].
  - subst k. destruct (merge_entry_shape _ _ _ H) as [->|[(v & ->)|(a & ->)]]; [exact L| |].
    + unfold assign. destruct (lookup (e_key e) (own acc)); [|congruence].
      cbn [own]. rewrite lookup_set_same. discriminate.
    + unfold update. destruct (lookup (e_key e) (own acc)); [|congruence].
      cbn [own]. rewrite lookup_set_same. discriminate.
  - now rewrite (merge_entry_other _ _ _ k H N).
Qed.

Lemma merge_entries_installed es : forall acc acc',
  ~ In "__proto__" (map e_key es) \/ lookup "__proto__" (own acc) <> None ->
  merge_entries es acc = Ret acc' -> (proto acc' = None <-> proto acc = None).
Proof.
  induction es as [|e es IH]; intros acc acc' N H; simpl in H.
  - injection H as <-. tauto.
  - apply bind_ret in H as (acc1 & H1 & H).
    rewrite (IH acc1 acc').
    + apply (merge_entry_installed e acc acc1); [|exact H1].
      destruct N as [N|N]; [left; intros C; apply N; now left | now right].
    + destruct N as [N|N]; [left; intros C; apply N; now right|].
      right. now apply (merge_entry_has _ _ _ _ H1).
    + exact H.
Qed.


(** [reduce] returns an object *)
Lemma reduce_into_object delta acc r :
  reduce_into delta acc = Ret r -> exists o, r = JObj o \/ exists x, r = JHeir x o.
Proof.
  assert (V : forall m : outcome object,
             (x <- m ;; Ret (value_of x)) = Ret r ->
             exists o, r = JObj o \/ exists x, r = JHeir x o).
  { intros m H. apply bind_ret in H as (x & _ & H). injection H as <-.
    unfold value_of. destruct (proto x); eauto. }
  destruct delta; cbn [reduce_into]; intros H; try discriminate H; eauto.
  - injection H as <-. eauto.
  - injection H as <-. eauto.
Qed.



Lemma reduce_plain (acc d : props) r :
  ~ In "__proto__" (map fst d) \/ lookup "__proto__" acc <> None ->
  reduce (JObj acc) (JObj d) = Ret r -> exists o, r = JObj o.
Proof.
  intros N H. rewrite reduce_object in H.
  apply bind_ret in H as (r' & H & E). injection E as <-.
  assert (P : proto r' = None).
  { apply (merge_entries_installed _ _ _) with (2 := H); [|reflexivity].
    destruct N as [N|N]; [left | now right].
    intros C. apply N. apply (Permutation_in _ (entries_with_keys d) C). }
  exists (own r'). unfold value_of. now rewrite P.
Qed.

(** What [reduce] leaves under the name of a field of the fragment, when
    the result has the prototype of objects *)
Lemma reduce_field (acc d : props) key value o :
  NoDup (map fst d) ->
  In (key, value) d ->
  reduce (JObj acc) (JObj d) = Ret (JObj o) ->
  (lookup key acc <> None \/ inherits key = false ->
     field_effect acc key value (get o key))
  /\ (lookup key acc = None -> inherits key = true -> lookup key o = None).
Proof.
  intros ND HI H.
  rewrite reduce_object in H. apply bind_ret in H as (r & Hr & H). injection H as H.
  apply value_of_plain in H as [P <-].
  apply (merge_entries_field (entries_with reduce_into d) (mkObject acc None) r key value);
    [|now apply entries_with_In | exact Hr | exact P].
  apply (Permutation_NoDup (Permutation_sym (entries_with_keys d)) ND).
Qed.




(** A field [__proto__] of the fragment is not set: a string is dropped,
    and an object becomes the prototype of the result, from which the
    result inherits what the object holds. *)
Example proto_field_is_not_set :
  reduce (JObj []) (JObj [("__proto__", JStr "x")]) = Ret (JObj [])
  /\ reduce (JObj []) (JObj [("__proto__", JObj [("content", JStr "hi")])])
     = Ret (JHeir (JObj [("content", JStr "hi")]) [])
  /\ get_prop (JHeir (JObj [("content", JStr "hi")]) []) "content" = Ret (JStr "hi").
Proof. repeat split. Qed.

End AggregatorFacts.


(** ** Regular expressions: a match of a pattern that consumes goes forward *)

Section RegexFacts.
Import Regex.

Lemma step_inv ok s k x :
  step ok s k = Some x ->
  exists s', k s' = Some x /\ length (after s') < length (after s).
Proof.
  unfold step. destruct (after s) as [|c rest] eqn:E; [discriminate|].
  destruct (ok c); [|discriminate]. intros H. eexists. split; [exact H|]. simpl. lia.
Qed.

Lemma or_else_inv {A} (a b : option A) x :
  or_else a b = Some x -> a = Some x \/ b = Some x.
Proof. destruct a; simpl; auto. Qed.

Lemma m_mono r : forall s k x,
  m r s k = Some x ->
  exists s', k s' = Some x /\ length (after s') <= length (after s).
Proof.
  induction r; intros s k x H; cbn [m] in H;
    try (apply step_inv in H as (s' & H & L); exists s'; split; [exact H | lia]).
  - eauto.
  - apply IHr1 in H as (s1 & H & L1). apply IHr2 in H as (s' & H & L2).
    exists s'. split; [exact H | lia].
  - apply or_else_inv in H as [H|H]; eauto.
  - revert H. generalize (S (length (after s))). intros fuel. revert s.
    induction fuel as [|fuel IHf]; intros s H; [discriminate|].
    cbn [iterate] in H. cbv zeta in H.
    assert (Again :
      m r s (fun s1 => if length (after s1) <? length (after s)
                       then iterate (m r) greedy k fuel s1 else None) = Some x ->
      exists s', k s' = Some x /\ length (after s') <= length (after s)).
    { intros Hy. apply IHr in Hy as (s1 & Hy & L1).
      destruct (Nat.ltb_spec (length (after s1)) (length (after s))); [|discriminate].
      apply IHf in Hy as (s' & Hy & L2). exists s'. split; [exact Hy | lia]. }
    destruct greedy; apply or_else_inv in H as [H|H]; eauto.
  - apply IHr in H as (s1 & H & L). eexists. split; [exact H|]. exact L.
  - destruct (before s) as [|c' ?]; [eauto|]. destruct (Ascii.eqb c' c); [discriminate | eauto].
  - destruct (m r s Some); [discriminate | eauto].
Qed.

Lemma m_strict r : consumes r = true -> forall s k x,
  m r s k = Some x ->
  exists s', k s' = Some x /\ length (after s') < length (after s).
Proof.
  induction r; intros C s k x H; simpl in C; try discriminate; cbn [m] in H;
    try (now apply step_inv in H).
  - apply orb_true_iff in C as [C|C].
    + apply (IHr1 C) in H as (s1 & H & L1). apply m_mono in H as (s' & H & L2).
      exists s'. split; [exact H | lia].
    + apply m_mono in H as (s1 & H & L1). apply (IHr2 C) in H as (s' & H & L2).
      exists s'. split; [exact H | lia].
  - apply andb_true_iff in C as [C1 C2]. apply or_else_inv in H as [H|H]; eauto.
  - apply (IHr C) in H as (s1 & H & L). eexists. split; [exact H|]. exact L.
Qed.

Lemma search_progress r : consumes r = true -> forall aft bef f,
  search r bef aft = Some f ->
  length (after (m_end f)) < length aft.
Proof.
  intros C. induction aft as [|c aft IH]; intros bef f H; simpl in H.
  - destruct (m r (mkState bef [] []) Some) eqn:E.
    + apply (m_strict r C) in E as (s' & _ & L). simpl in L. lia.
    + discriminate.
  - destruct (m r (mkState bef (c :: aft) []) Some) eqn:E.
    + injection H as <-. apply (m_strict r C) in E as (s' & E & L). injection E as ->.
      exact L.
    + apply IH in H. simpl. lia.
Qed.

Lemma exec_loop_ends r : consumes r = true -> forall fuel bef aft,
  length aft < fuel -> exists fs, exec_loop fuel r bef aft = Some fs.
Proof.
  intros C. induction fuel as [|fuel IH]; intros bef aft L; [lia|]. simpl.
  destruct (search r bef aft) as [f|] eqn:E; [|eauto].
  apply (search_progress r C) in E.
  destruct (IH (before (m_end f)) (after (m_end f))) as (fs & ->); [lia | eauto].
Qed.

Lemma exec_all_ends r s : consumes r = true -> exists fs, exec_all r s = Some fs.
Proof.
  intros C. unfold exec_all. apply exec_loop_ends; [exact C|].
  rewrite of_string_length. lia.
Qed.

End RegexFacts.

(** ** The argument decoder *)

Section DecoderFacts.
Import Regex Decoder.

Lemma keyValuePattern_loop_ends s : exists fs, exec_all keyValuePattern s = Some fs.
Proof. apply exec_all_ends. reflexivity. Qed.

Lemma simplePattern_loop_ends s : exists fs, exec_all simplePattern s = Some fs.
Proof. apply exec_all_ends. reflexivity. Qed.

Lemma extractArgumentsManually_spec s :
  extractArgumentsManually s
  = Ret (value_of
           (let result := fold_left store_pair (visited keyValuePattern s) empty_object in
            if length (own result) =? 0
            then if paired (tokens s) then pair_up (tokens s) result else result
            else result)).
Proof. reflexivity. Qed.

Lemma value_of_object r : is_object (value_of r).
Proof. unfold is_object, value_of. destruct (proto r); eauto. Qed.

Lemma safeJsonParse_stage3 s e e' :
  s <> "" -> Json.parse s = Throw e -> Json.parse (repaired s) = Throw e' ->
  safeJsonParse (JStr s) = extractArgumentsManually s.
Proof.
  intros N H1 H2. unfold safeJsonParse.
  destruct (String.eqb_spec s ""); [contradiction|].
  rewrite H1. cbn [catch]. rewrite H2. cbn [catch].
  rewrite extractArgumentsManually_spec. reflexivity.
Qed.

Lemma safeJsonParse_returns jsonString : exists r, safeJsonParse jsonString = Ret r.
Proof.
  destruct jsonString; try (eexists; reflexivity). unfold safeJsonParse.
  destruct (s =? "")%string; [eexists; reflexivity|].
  destruct (Json.parse s); [eexists; reflexivity|]. cbn [catch].
  destruct (Json.parse (repaired s)); [eexists; reflexivity|]. cbn [catch].
  rewrite extractArgumentsManually_spec. eexists; reflexivity.
Qed.

(** The tokens are strings, which the setter of [__proto__] does nothing
    with: the pairing sets every pair but those whose key is [__proto__]. *)
Lemma pair_up_plain : forall n values o,
  length values <= n ->
  lookup "__proto__" o = None ->
  pair_up values (mkObject o None) = mkObject (set_pairs values o) None
  /\ lookup "__proto__" (set_pairs values o) = None.
Proof.
  induction n as [|n IH]; intros values o L P.
  - destruct values; [auto | simpl in L; lia].
  - destruct values as [|k [|v values]]; auto.
    cbn [pair_up set_pairs]. simpl in L.
    unfold assign. cbn [own proto]. rewrite andb_true_r.
    destruct (String.eqb_spec k "__proto__") as [->|N].
    + rewrite P. apply IH; [lia | exact P].
    + destruct (lookup k o); apply IH; try lia; now rewrite lookup_set_other.
Qed.

Lemma assign_named result key v :
  proto result = None -> key <> "__proto__" ->
  assign result key v = mkObject (set key v (own result)) None.
Proof.
  intros P N. unfold assign. rewrite P.
  destruct (lookup key (own result)); [reflexivity|].
  replace (key =? "__proto__")%string with false by (symmetry; now apply String.eqb_neq).
  reflexivity.
Qed.

Lemma store_pair_plain result f :
  proto result = None -> lookup "__proto__" (own result) = None ->
  group_text 1 f <> "__proto__" ->
  proto (store_pair result f) = None /\ lookup "__proto__" (own (store_pair result f)) = None.
Proof.
  intros P L N. unfold store_pair. cbv zeta.
  assert (A : forall v, proto (assign result (group_text 1 f) v) = None
                        /\ lookup "__proto__" (own (assign result (group_text 1 f) v)) = None).
  { intros v. rewrite (assign_named _ _ _ P N). cbn [own proto].
    split; [reflexivity|]. rewrite lookup_set_other; [exact L | congruence]. }
  destruct (group 2 f); [apply A|].
  destruct (group 3 f) as [nonStringValue|]; [|auto].
  destruct (Json.parse nonStringValue); apply A.
Qed.

Lemma store_pairs_plain fs : forall result,
  proto result = None -> lookup "__proto__" (own result) = None ->
  (forall f, In f fs -> group_text 1 f <> "__proto__") ->
  proto (fold_left store_pair fs result) = None
  /\ lookup "__proto__" (own (fold_left store_pair fs result)) = None.
Proof.
  induction fs as [|f fs IH]; intros result P L N; [auto|].
  cbn [fold_left]. destruct (store_pair_plain result f P L (N f (or_introl eq_refl))) as [P' L'].
  apply IH; [exact P' | exact L' |]. intros g Hg. apply N. now right.
Qed.

(** C2, as amended.  [safeJsonParse] never raises, and its two scanning
    loops end.  It returns the empty mapping for an input that is empty or
    not a string; the value of the direct parse, or else of the parse of
    the repaired text, whatever kind of JSON value that is; and, when both
    parses raise, the mapping the manual extraction builds, which is empty
    when the extraction finds no pair and no even run of quoted tokens. *)
Theorem safeJsonParse_never_raises (jsonString : jsval) :
  (exists r, safeJsonParse jsonString = Ret r)
  /\ (forall s, jsonString = JStr s ->
        exec_all keyValuePattern s <> None /\ exec_all simplePattern s <> None)
  /\ ((forall s, jsonString <> JStr s) \/ jsonString = JStr "" ->
        safeJsonParse jsonString = Ret (JObj []))
  /\ (forall s v, jsonString = JStr s -> s <> "" -> Json.parse s = Ret v ->
        safeJsonParse jsonString = Ret v)
  /\ (forall s e v, jsonString = JStr s -> s <> "" ->
        Json.parse s = Throw e -> Json.parse (repaired s) = Ret v ->
        safeJsonParse jsonString = Ret v)
  /\ (forall s e e', jsonString = JStr s -> s <> "" ->
        Json.parse s = Throw e -> Json.parse (repaired s) = Throw e' ->
        exists v, safeJsonParse jsonString = Ret v
          /\ is_object v
          /\ ((forall f, In f (visited keyValuePattern s) -> group_text 1 f <> "__proto__") ->
                exists o, v = JObj o)
          /\ (visited keyValuePattern s = [] -> paired (tokens s) = false -> v = JObj [])).
Proof.
  repeat split.
  - apply safeJsonParse_returns.
  - destruct (keyValuePattern_loop_ends s) as (fs & ->). discriminate.
  - destruct (simplePattern_loop_ends s) as (fs & ->). discriminate.
  - intros [H| ->]; [|reflexivity].
    destruct jsonString; try reflexivity. now destruct (H s).
  - intros s v -> N H. unfold safeJsonParse.
    destruct (String.eqb_spec s ""); [contradiction|]. now rewrite H.
  - intros s e v -> N H1 H2. unfold safeJsonParse.
    destruct (String.eqb_spec s ""); [contradiction|]. now rewrite H1, H2.
  - intros s e e' -> N H1 H2. rewrite (safeJsonParse_stage3 s e e' N H1 H2).
    rewrite extractArgumentsManually_spec. eexists. split; [reflexivity|].
    split; [apply value_of_object|]. split.
    + intros K. cbv zeta.
      destruct (store_pairs_plain (visited keyValuePattern s) empty_object
                  eq_refl eq_refl K) as [P L].
      destruct (fold_left store_pair (visited keyValuePattern s) empty_object)
        as [o q]. cbn [own proto] in *. subst q.
      destruct (length o =? 0); [|eexists; reflexivity].
      destruct (paired (tokens s)); [|eexists; reflexivity].
      rewrite (proj1 (pair_up_plain _ (tokens s) o (Nat.le_refl _) L)).
      eexists; reflexivity.
    + intros K P. rewrite K, P. reflexivity.
Qed.

Lemma safeJsonParse_never_raises_witness :
  let s := quoted "{'command': 'ls" in
  s <> "" /\ Json.parse s = Throw (SyntaxError "Unexpected token in JSON")
  /\ Json.parse (repaired s) = Throw (SyntaxError "Unexpected token in JSON")
  /\ exists v, safeJsonParse (JStr s) = Ret v
       /\ is_object v
       /\ ((forall f, In f (visited keyValuePattern s) -> group_text 1 f <> "__proto__") ->
             exists o, v = JObj o)
       /\ (visited keyValuePattern s = [] -> paired (tokens s) = false -> v = JObj []).
Proof.
  intros s.
  assert (N : s <> "") by discriminate.
  assert (H1 : Json.parse s = Throw (SyntaxError "Unexpected token in JSON")) by reflexivity.
  assert (H2 : Json.parse (repaired s) = Throw (SyntaxError "Unexpected token in JSON"))
    by reflexivity.
  repeat split; try assumption.
  exact (proj2 (proj2 (proj2 (proj2 (proj2 (safeJsonParse_never_raises (JStr s))))))
           s _ _ eq_refl N H1 H2).
Defined.

(** C2, as stated, fails: the text [5] is valid JSON, so the first stage
    returns the number 5, which is not a mapping. *)
Lemma safeJsonParse_returns_a_number :
  ~ (forall jsonString, exists o, safeJsonParse jsonString = Ret (JObj o)).
Proof.
  intros H. destruct (H (JStr "5")) as (o & Ho). vm_compute in Ho. discriminate.
Qed.

(** *** Pairing the quoted tokens *)

Lemma set_pairs_other k : forall n values o,
  length values <= n ->
  ~ In k (keys_of values) -> get (set_pairs values o) k = get o k.
Proof.
  induction n as [|n IH]; intros values o L N.
  - destruct values; [reflexivity | simpl in L; lia].
  - destruct values as [|k0 [|v0 values]]; try reflexivity.
    simpl. simpl in N, L. rewrite IH; [|lia|tauto].
    destruct (k0 =? "__proto__")%string; [reflexivity|].
    apply get_set_other. intros ->. tauto.
Qed.

Lemma keys_of_In k : forall n values,
  length values <= n -> In k (keys_of values) ->
  exists j, 2 * j + 1 < length values /\ nth (2 * j) values "" = k.
Proof.
  induction n as [|n IH]; intros values L H.
  - destruct values; [destruct H | simpl in L; lia].
  - destruct values as [|k0 [|v0 values]]; try destruct H as [].
    + exists 0. simpl. split; [lia | assumption].
    + simpl in L. destruct (IH values) as (j & Hj & E); [lia | assumption |].
      exists (S j). replace (2 * S j) with (S (S (2 * j))) by lia. simpl. split; [lia | exact E].
Qed.

Lemma set_pairs_get : forall n values o i,
  length values <= n ->
  2 * i + 1 < length values ->
  nth (2 * i) values "" <> "__proto__" ->
  (forall j, i < j -> 2 * j + 1 < length values ->
     nth (2 * j) values "" <> nth (2 * i) values "") ->
  get (set_pairs values o) (nth (2 * i) values "") = JStr (nth (2 * i + 1) values "").
Proof.
  induction n as [|n IH]; intros values o i L Hi Hp Hlast; [lia|].
  destruct values as [|k0 [|v0 values]]; simpl in Hi; try lia.
  destruct i as [|i].
  - simpl. simpl in Hp. apply String.eqb_neq in Hp. rewrite Hp.
    rewrite (set_pairs_other k0 (length values)); [apply get_set_same | lia |].
    intros HIn. apply (keys_of_In k0 (length values)) in HIn as (j & Hj & E); [|lia].
    apply (Hlast (S j)); [lia | simpl; lia |].
    replace (2 * S j) with (S (S (2 * j))) by lia. exact E.
  - replace (2 * S i) with (S (S (2 * i))) in * by lia.
    replace (S (S (2 * i)) + 1) with (S (S (2 * i + 1))) by lia.
    cbn [nth set_pairs]. cbn [nth] in Hp. apply IH; [simpl in L; lia | lia | exact Hp |].
    intros j Hj Hlen. specialize (Hlast (S j)).
    replace (2 * S j) with (S (S (2 * j))) in Hlast by lia.
    apply Hlast; [lia | simpl; lia].
Qed.

(** C9, as amended.  When both parses raise and the key/value scan finds
    nothing, the quoted tokens are paired up only when there are at least
    two and an even number of them: token [2i] is then mapped to token
    [2i+1], unless a later pair has the same key or the key is
    [__proto__], which is never set; with an odd number of tokens, or
    fewer than two, the result is the empty mapping. *)
Theorem quoted_tokens_paired_when_even (s : string) :
  s <> "" ->
  (exists e, Json.parse s = Throw e) ->
  (exists e, Json.parse (repaired s) = Throw e) ->
  visited keyValuePattern s = [] ->
  (paired (tokens s) = true ->
     exists o, safeJsonParse (JStr s) = Ret (JObj o)
       /\ lookup "__proto__" o = None
       /\ forall i, 2 * i + 1 < length (tokens s) ->
            nth (2 * i) (tokens s) "" <> "__proto__" ->
            (forall j, i < j -> 2 * j + 1 < length (tokens s) ->
               nth (2 * j) (tokens s) "" <> nth (2 * i) (tokens s) "") ->
            get o (nth (2 * i) (tokens s) "") = JStr (nth (2 * i + 1) (tokens s) ""))
  /\ (paired (tokens s) = false -> safeJsonParse (JStr s) = Ret (JObj [])).
Proof.
  intros N (e & H1) (e' & H2) K.
  rewrite (safeJsonParse_stage3 s e e' N H1 H2), extractArgumentsManually_spec, K.
  cbn [fold_left]. unfold empty_object. cbn [own length Nat.eqb]. cbv zeta.
  split; intros P; rewrite P.
  - destruct (pair_up_plain (length (tokens s)) (tokens s) [] (Nat.le_refl _) eq_refl)
      as [-> L].
    eexists. split; [reflexivity|]. split; [exact L|]. intros i Hi Hp Hlast.
    now apply (set_pairs_get (length (tokens s))).
  - reflexivity.
Qed.

Lemma quoted_tokens_paired_when_even_witness :
  let s := quoted "'path' 'a.txt' '__proto__' 'x'" in
  s <> "" /\ (exists e, Json.parse s = Throw e)
  /\ (exists e, Json.parse (repaired s) = Throw e)
  /\ visited keyValuePattern s = []
  /\ paired (tokens s) = true
  /\ exists o, safeJsonParse (JStr s) = Ret (JObj o)
       /\ lookup "__proto__" o = None
       /\ forall i, 2 * i + 1 < length (tokens s) ->
            nth (2 * i) (tokens s) "" <> "__proto__" ->
            (forall j, i < j -> 2 * j + 1 < length (tokens s) ->
               nth (2 * j) (tokens s) "" <> nth (2 * i) (tokens s) "") ->
            get o (nth (2 * i) (tokens s) "") = JStr (nth (2 * i + 1) (tokens s) "").
Proof.
  intros s.
  assert (N : s <> "") by discriminate.
  assert (H1 : exists e, Json.parse s = Throw e) by (eexists; reflexivity).
  assert (H2 : exists e, Json.parse (repaired s) = Throw e) by (eexists; reflexivity).
  assert (K : visited keyValuePattern s = []) by reflexivity.
  assert (P : paired (tokens s) = true) by reflexivity.
  repeat split; try assumption.
  exact (proj1 (quoted_tokens_paired_when_even s N H1 H2 K) P).
Defined.

(** C9, as stated, fails: the text of the three tokens a, b and c makes
    both parses raise and has no key/value pair, and the decoder returns
    the empty mapping, in which a is not mapped to b. *)
Lemma odd_tokens_are_not_paired :
  ~ (forall s, s <> "" ->
       (exists e, Json.parse s = Throw e) ->
       (exists e, Json.parse (repaired s) = Throw e) ->
       visited keyValuePattern s = [] ->
       forall i, 2 * i + 1 < length (tokens s) ->
         exists o, safeJsonParse (JStr s) = Ret (JObj o)
           /\ get o (nth (2 * i) (tokens s) "") = JStr (nth (2 * i + 1) (tokens s) "")).
Proof.
  intros H.
  destruct (H (quoted "'a' 'b' 'c'")) with (i := 0) as (o & Ho & G).
  - discriminate.
  - eexists; reflexivity.
  - eexists; reflexivity.
  - reflexivity.
  - vm_compute. lia.
  - vm_compute in Ho. injection Ho as <-. vm_compute in G. discriminate.
Qed.

(** The key/value scan gives the result another prototype when it finds
    [null] or an array under [__proto__]: the result then holds no
    property, and a later pair can set a property [__proto__]. *)
Example extraction_sets_the_prototype :
  extractArgumentsManually (quoted "'__proto__': null") = Ret (JHeir JNull [])
  /\ extractArgumentsManually (quoted "'__proto__': null, '__proto__': 'x'")
     = Ret (JHeir JNull [("__proto__", JStr "x")])
  /\ extractArgumentsManually (quoted "'__proto__': 'x', 'path': 'a.txt'")
     = Ret (JObj [("path", JStr "a.txt")]).
Proof. repeat split. Qed.

End DecoderFacts.

(** ** The transport *)

Section Retry.
Import Transport.

Variable JSON_stringify : jsval -> string.
Variable now : nat -> string.

Lemma isRetryable_iff e :
  isRetryable e = true <->
  has_status e 429 \/ (exists st, has_status e st /\ (500 <= st <= 504)%Z)
  \/ has_code e "ECONNREFUSED" \/ has_code e "ETIMEDOUT".
Proof.
  unfold isRetryable, has_status, has_code, status_of.
  destruct e as [msg r|msg code]; simpl.
  - rewrite orb_false_r. split.
    + intros H. apply orb_true_iff in H as [H|H].
      * left. exists r. split; [reflexivity | now apply Z.eqb_eq].
      * right; left. exists (status r). split; [eauto | lia].
    + intros [(r' & E & S)|[(st & (r' & E & S) & R)|[C|C]]]; try discriminate;
        injection E as <-; apply orb_true_iff.
      * left. now apply Z.eqb_eq.
      * right. lia.
  - split.
    + intros H. apply orb_true_iff in H as [H|H]; apply String.eqb_eq in H; subst; auto.
    + intros [(r' & E & S)|[(st & (r' & E & S) & R)|[C|C]]]; try discriminate;
        injection C as ->; reflexivity.
Qed.

Lemma errorMessage_carries_cause e :
  exists rest, errorMessage JSON_stringify e = "Ollama API error: " ++ f_message e ++ rest.
Proof.
  unfold errorMessage. destruct e as [msg r|msg code]; cbn [f_response f_message].
  - destruct (status r =? 0)%Z, (truthy (data r)).
    + eexists. rewrite append_assoc. reflexivity.
    + exists "". now rewrite append_empty.
    + eexists. rewrite !append_assoc. reflexivity.
    + eexists. rewrite append_assoc. reflexivity.
  - exists "". now rewrite append_empty.
Qed.

Variable post : nat -> payload -> attempt.

Lemma record_error_keeps at_attempt e p c :
  posted (record_error now at_attempt e p c) = posted c
  /\ slept (record_error now at_attempt e p c) = slept c.
Proof. unfold record_error. destruct (details now at_attempt e p); split; reflexivity. Qed.

Ltac keep :=
  repeat match goal with
  | |- context [posted (record_error ?n ?a ?e ?p ?c)] =>
      rewrite (proj1 (record_error_keeps a e p c))
  | |- context [slept (record_error ?n ?a ?e ?p ?c)] =>
      rewrite (proj2 (record_error_keeps a e p c))
  end.

Lemma run_bounded p c :
  exists r c' k, run JSON_stringify now post p c = Some (r, c') /\ k <= 3
    /\ posted c' = posted c + S k
    /\ (slept c' = slept c ++ firstn k backoff)%list.
Proof.
  unfold run. cbn [attempts maxRetries Nat.leb andb].
  destruct (post 0 p) as [d|e0].
  { exists (Ret d), (count_post c), 0. cbn. rewrite app_nil_r. repeat split; lia. }
  destruct (isRetryable e0).
  2:{ eexists _, _, 0. split; [reflexivity|]. keep. cbn. rewrite app_nil_r.
      repeat split; lia. }
  destruct (post 1 p) as [d|e1].
  { eexists _, _, 1. split; [reflexivity|]. cbn. keep. cbn. repeat split; lia. }
  destruct (isRetryable e1).
  2:{ eexists _, _, 1. split; [reflexivity|]. keep. cbn. keep. cbn. repeat split; lia. }
  destruct (post 2 p) as [d|e2].
  { eexists _, _, 2. split; [reflexivity|]. cbn. keep. cbn. keep. cbn.
    rewrite <- app_assoc. repeat split; lia. }
  destruct (isRetryable e2).
  2:{ eexists _, _, 2. split; [reflexivity|]. keep. cbn. keep. cbn. keep. cbn.
      rewrite <- app_assoc. repeat split; lia. }
  destruct (post 3 p) as [d|e3].
  { eexists _, _, 3. split; [reflexivity|]. cbn. keep. cbn. keep. cbn. keep. cbn.
    rewrite <- !app_assoc. repeat split; lia. }
  eexists _, _, 3. split; [reflexivity|]. keep. cbn. keep. cbn. keep. cbn. keep. cbn.
  rewrite <- !app_assoc. repeat split; lia.
Qed.


Lemma requestPayload_stream c messages tools model stream p :
  requestPayload c messages tools model stream = Ret p -> p_stream p = stream.
Proof.
  unfold requestPayload. destruct (convertMessages messages); [|discriminate]. cbn [bind].
  destruct tools as [[|t ts]|]; try (intros H; injection H as <-; reflexivity).
  destruct (convertTools (t :: ts)); [|discriminate]. cbn [bind].
  intros H; injection H as <-; reflexivity.
Qed.

Lemma chat_runs c messages tools model p :
  requestPayload c messages tools model false = Ret p ->
  chat JSON_stringify now post messages tools model c = run JSON_stringify now post p c.
Proof. intros H. unfold chat. now rewrite H. Qed.

Lemma client_error_not_retryable msg r :
  (400 <= status r < 500)%Z -> status r <> 429%Z -> isRetryable (Http msg r) = false.
Proof.
  intros R N. unfold isRetryable. cbn.
  destruct (Z.eqb_spec (status r) 429); [contradiction|].
  rewrite orb_false_r. cbn. lia.
Qed.

(** C3.  A call of [chat] ends after at most 4 requests, and the delays it
    sleeps between them are 1000, 2000 and 4000 ms, in that order.  Three
    failures with status 503 followed by an answer return the answer; a
    first failure with a status in 400..499 other than 429 raises at once,
    after one request and no delay; four retryable failures raise an error
    whose message carries the message of the fourth.  A failure is
    retryable when its status is 429 or in 500..504, or its code is
    ECONNREFUSED or ETIMEDOUT. *)
Theorem chat_retries_with_backoff (messages : list message) (tools : option (list jsval))
    (model : option string) (c : client) :
  (exists r c' k,
      chat JSON_stringify now post messages tools model c = Some (r, c')
      /\ k <= 3
      /\ (posted c' = posted c + S k \/ posted c' = posted c /\ k = 0)
      /\ (slept c' = slept c ++ firstn k backoff)%list)
  /\ (forall p, requestPayload c messages tools model false = Ret p ->
      (forall e0 e1 e2 d,
          post 0 p = Fails e0 -> has_status e0 503 ->
          post 1 p = Fails e1 -> has_status e1 503 ->
          post 2 p = Fails e2 -> has_status e2 503 ->
          post 3 p = Answer d ->
          exists c', chat JSON_stringify now post messages tools model c = Some (Ret d, c')
            /\ posted c' = posted c + 4
            /\ (slept c' = slept c ++ backoff)%list)
      /\ (forall msg r,
          post 0 p = Fails (Http msg r) ->
          (400 <= status r < 500)%Z -> status r <> 429%Z ->
          exists c', chat JSON_stringify now post messages tools model c
                     = Some (Throw (Error (errorMessage JSON_stringify (Http msg r))), c')
            /\ posted c' = posted c + 1
            /\ slept c' = slept c)
      /\ (forall e0 e1 e2 e3,
          post 0 p = Fails e0 -> isRetryable e0 = true ->
          post 1 p = Fails e1 -> isRetryable e1 = true ->
          post 2 p = Fails e2 -> isRetryable e2 = true ->
          post 3 p = Fails e3 -> isRetryable e3 = true ->
          exists c' rest,
            chat JSON_stringify now post messages tools model c
            = Some (Throw (Error (errorMessage JSON_stringify e3)), c')
            /\ errorMessage JSON_stringify e3 = "Ollama API error: " ++ f_message e3 ++ rest
            /\ posted c' = posted c + 4
            /\ (slept c' = slept c ++ backoff)%list))
  /\ (forall e, isRetryable e = true <->
        has_status e 429 \/ (exists st, has_status e st /\ (500 <= st <= 504)%Z)
        \/ has_code e "ECONNREFUSED" \/ has_code e "ETIMEDOUT").
Proof.
  split; [|split; [|exact isRetryable_iff]].
  - unfold chat. destruct (requestPayload c messages tools model false) as [p|e].
    + destruct (run_bounded p c) as (r & c' & k & H & Hk & Hp & Hs).
      exists r, c', k. auto.
    + exists (Throw e), c, 0. cbn. rewrite app_nil_r. repeat split; [lia | now right].
  - intros p Hp. rewrite (chat_runs _ _ _ _ _ Hp). unfold run.
    split; [|split].
    + intros e0 e1 e2 d P0 S0 P1 S1 P2 S2 P3.
      assert (R : forall e, has_status e 503 -> isRetryable e = true).
      { intros e S. apply isRetryable_iff. right; left. exists 503%Z. split; [exact S | lia]. }
      cbn [attempts maxRetries Nat.leb andb].
      rewrite P0, (R _ S0), P1, (R _ S1), P2, (R _ S2), P3.
      eexists. split; [reflexivity|]. cbn. keep. cbn. keep. cbn. keep. cbn.
      rewrite <- !app_assoc. split; [lia | reflexivity].
    + intros msg r P0 R N.
      cbn [attempts maxRetries Nat.leb andb].
      rewrite P0, (client_error_not_retryable msg r R N).
      eexists. split; [reflexivity|]. keep. cbn. split; [lia | reflexivity].
    + intros e0 e1 e2 e3 P0 R0 P1 R1 P2 R2 P3 R3.
      destruct (errorMessage_carries_cause e3) as (rest & Hrest).
      cbn [attempts maxRetries Nat.leb andb].
      rewrite P0, R0, P1, R1, P2, R2, P3.
      eexists _, rest. split; [reflexivity|]. split; [exact Hrest|].
      keep. cbn. keep. cbn. keep. cbn. keep. cbn.
      rewrite <- !app_assoc. split; [lia | reflexivity].
Qed.


Lemma is_client_error_iff e :
  is_client_error e = true <-> exists st, has_status e st /\ (400 <= st < 500)%Z.
Proof.
  unfold is_client_error, has_status, status_of. destruct e as [msg r|msg code]; cbn.
  - split.
    + intros H. exists (status r). split; [eauto | lia].
    + intros (st & (r' & E & S) & R). injection E as <-. lia.
  - split; [discriminate|]. intros (st & (r' & E & _) & _). discriminate.
Qed.

End Retry.

Lemma chat_retries_with_backoff_witness :
  Transport.requestPayload fresh_client [] None None false = Ret empty_request
  /\ recovering 0 empty_request = Transport.Fails service_unavailable
  /\ recovering 1 empty_request = Transport.Fails service_unavailable
  /\ recovering 2 empty_request = Transport.Fails service_unavailable
  /\ recovering 3 empty_request = Transport.Answer (JObj [("done", JBool true)])
  /\ has_status service_unavailable 503
  /\ exists c',
       Transport.chat no_text some_time recovering [] None None fresh_client
       = Some (Ret (JObj [("done", JBool true)]), c')
       /\ Transport.posted c' = Transport.posted fresh_client + 4
       /\ (Transport.slept c' = Transport.slept fresh_client ++ backoff)%list.
Proof.
  assert (S503 : has_status service_unavailable 503)
    by (eexists; split; reflexivity).
  do 5 (split; [reflexivity|]). split; [exact S503|].
  destruct (chat_retries_with_backoff no_text some_time recovering [] None None fresh_client)
    as (_ & H & _).
  destruct (H empty_request eq_refl) as (H503 & _).
  exact (H503 service_unavailable service_unavailable service_unavailable
              (JObj [("done", JBool true)])
              eq_refl S503 eq_refl S503 eq_refl S503 eq_refl).
Defined.


Section Diagnostics.
Import Transport.

Variable JSON_stringify : jsval -> string.
Variable now : nat -> string.

Lemma details_client at_attempt msg r p :
  (400 <= status r < 500)%Z -> p_stream p = false ->
  details now at_attempt (Http msg r) p
  = Some (mkDetails (now at_attempt) (status r) msg (data r) (headers r) p).
Proof.
  intros R S. unfold details, is_client_error, status_of. cbn.
  replace ((400 <=? status r)%Z && (status r <? 500)%Z) with true by lia.
  destruct p. cbn in S. now subst.
Qed.

Lemma details_other at_attempt e p :
  is_client_error e = false -> details now at_attempt e p = None.
Proof. intros H. unfold details. rewrite H. now destruct (f_response e). Qed.

Lemma record_error_details at_attempt e p c :
  lastErrorDetails (record_error now at_attempt e p c)
  = match details now at_attempt e p with
    | Some d => Some d
    | None => lastErrorDetails c
    end.
Proof. unfold record_error. now destruct (details now at_attempt e p). Qed.

Section Attempts.

Variable post : nat -> payload -> attempt.
Variable p : payload.

(** The attempts that are made and fail *)
Lemma failures_from_spec : forall n i k e,
  In (k, e) (failures_from post p n i)
  <-> i <= k < i + n /\ post k p = Fails e
      /\ forall j, i <= j < k -> exists e', post j p = Fails e' /\ isRetryable e' = true.
Proof.
  induction n as [|n IH]; intros i k e; cbn [failures_from].
  - split; [intros [] | lia].
  - destruct (post i p) as [d|e0] eqn:P0.
    + split; [intros []|]. intros (R & Pk & Before).
      destruct (Nat.eq_dec k i) as [->|N]; [congruence|].
      destruct (Before i) as (e' & E & _); [lia | congruence].
    + split.
      * intros [E|H].
        -- injection E as <- <-. split; [lia|]. split; [exact P0|]. intros j Hj. lia.
        -- destruct (isRetryable e0) eqn:R0; [|destruct H].
           apply IH in H as (R & Pk & Before). split; [lia|]. split; [exact Pk|].
           intros j Hj. destruct (Nat.eq_dec j i) as [->|N]; [eauto|]. apply Before. lia.
      * intros (R & Pk & Before). destruct (Nat.eq_dec k i) as [->|N].
        -- left. congruence.
        -- right. destruct (Before i) as (e' & E & R'); [lia|].
           assert (e' = e0) by congruence. subst e'. rewrite R'.
           apply IH. split; [lia|]. split; [exact Pk|]. intros j Hj. apply Before. lia.
Qed.

Lemma failures_from_sorted : forall n i,
  StronglySorted (fun a b : nat * failure => fst a < fst b) (failures_from post p n i).
Proof.
  induction n as [|n IH]; intros i; cbn [failures_from]; [constructor|].
  destruct (post i p) as [d|e0]; [constructor|].
  constructor.
  - destruct (isRetryable e0); [apply IH | constructor].
  - destruct (isRetryable e0); [|constructor].
    apply Forall_forall. intros [k e] H. apply failures_from_spec in H. cbn. lia.
Qed.

Lemma record_after_none before l :
  (forall i e, In (i, e) l -> details now i e p = None) -> record_after now p before l = before.
Proof.
  revert before. induction l as [|[i e] l IH]; intros before H; [reflexivity|].
  cbn [record_after fold_left fst snd]. rewrite (H i e) by now left.
  apply IH. intros j e' Hj. apply H. now right.
Qed.

Lemma record_after_latest l : forall before i e d,
  StronglySorted (fun a b : nat * failure => fst a < fst b) l ->
  In (i, e) l ->
  details now i e p = Some d ->
  (forall j e', In (j, e') l -> i < j -> details now j e' p = None) ->
  record_after now p before l = Some d.
Proof.
  induction l as [|[k x] l IH]; intros before i e d S HI D Later; [destruct HI|].
  inversion S as [|? ? S' F]; subst. cbn [record_after fold_left fst snd].
  destruct HI as [E|HI].
  - injection E as -> ->. rewrite D. apply record_after_none.
    intros j e' Hj. apply (Later j e'); [now right|].
    rewrite Forall_forall in F. exact (F _ Hj).
  - apply (IH _ i e d S' HI D). intros j e' Hj. apply Later. now right.
Qed.

(** The loop leaves the record of its failures *)
Lemma attempts_record : forall n i c,
  i + n = 4 ->
  exists res c',
    attempts JSON_stringify now post n i p c = Some (res, c')
    /\ lastErrorDetails c'
       = record_after now p (lastErrorDetails c) (failures_from post p n i).
Proof.
  induction n as [|n IH]; intros i c E.
  - assert (i = 4) by lia. subst i. eexists _, _. split; reflexivity.
  - assert (Hi : (i <=? maxRetries) = true) by (apply Nat.leb_le; unfold maxRetries; lia).
    cbn [attempts failures_from]. rewrite Hi.
    destruct (post i p) as [d|e] eqn:P.
    + eexists _, _. split; reflexivity.
    + cbn [record_after fold_left fst snd].
      destruct (isRetryable e) eqn:R.
      * destruct (S i <=? maxRetries) eqn:Hn; cbn [andb].
        -- destruct (IH (S i) (sleep (2 ^ Z.of_nat (S i - 1) * 1000)
                                     (record_error now i e p (count_post c))))
             as (res & c' & A & L); [lia|].
           exists res, c'. split; [exact A|]. rewrite L. cbn [sleep lastErrorDetails].
           now rewrite record_error_details.
        -- apply Nat.leb_gt in Hn. unfold maxRetries in Hn.
           assert (n = 0) by lia. subst n. cbn [failures_from fold_left].
           eexists _, _. split; [reflexivity|]. now rewrite record_error_details.
      * rewrite andb_false_r. cbn [fold_left].
        eexists _, _. split; [reflexivity|]. now rewrite record_error_details.
Qed.

End Attempts.

Lemma is_client_error_range msg r :
  is_client_error (Http msg r) = true <-> (400 <= status r < 500)%Z.
Proof. unfold is_client_error, status_of. cbn. lia. Qed.

(** C7.  A failure of [chat] with a status in 400..499 replaces
    [lastErrorDetails] by a record of the time, the status, the message,
    the response body, the headers and the payload that was sent.  After
    a call the record is that of the latest of its attempts that failed
    with such a status, whether the call went on to another attempt (after
    a 429) or not, and whether it ended with an answer or an error; a
    call none of whose attempts failed with such a status leaves the
    record as it was.  The attempts that fail are those that are made:
    attempt 0, and each attempt up to attempt 3 that follows a failure
    that can be retried.  [clearLastErrorDetails] resets the record. *)
Theorem lastErrorDetails_keeps_latest_client_error (messages : list message)
    (tools : option (list jsval)) (model : option string) (c : client) (p : payload) :
  requestPayload c messages tools model false = Ret p ->
  (forall post,
      exists res c',
        chat JSON_stringify now post messages tools model c = Some (res, c')
        /\ (forall i msg r,
              In (i, Http msg r) (failures post p) ->
              (400 <= status r < 500)%Z ->
              (forall j e, In (j, e) (failures post p) -> i < j ->
                 is_client_error e = false) ->
              getLastErrorDetails c'
              = Some (mkDetails (now i) (status r) msg (data r) (headers r) p))
        /\ ((forall i e, In (i, e) (failures post p) -> is_client_error e = false) ->
              getLastErrorDetails c' = getLastErrorDetails c))
  /\ (forall post i e,
        In (i, e) (failures post p)
        <-> i <= 3 /\ post i p = Fails e
            /\ forall j, j < i -> exists e', post j p = Fails e' /\ isRetryable e' = true)
  /\ (forall e, is_client_error e = true <->
        exists st, has_status e st /\ (400 <= st < 500)%Z)
  /\ getLastErrorDetails (clearLastErrorDetails c) = None.
Proof.
  intros Hp. pose proof (requestPayload_stream _ _ _ _ _ _ Hp) as Hs.
  split; [|split; [|split; [exact is_client_error_iff | reflexivity]]].
  - intros post. rewrite (chat_runs _ _ _ _ _ _ _ _ Hp). unfold run.
    destruct (attempts_record post p (S maxRetries) 0 c eq_refl) as (res & c' & A & L).
    exists res, c'. split; [exact A|]. unfold getLastErrorDetails. rewrite L.
    fold (failures post p). split.
    + intros i msg r HI R Later.
      apply (record_after_latest p (failures post p) _ i (Http msg r));
        [apply failures_from_sorted | exact HI | now apply details_client |].
      intros j e Hj Lt. apply details_other. now apply (Later j e).
    + intros None_. apply record_after_none. intros i e HI.
      apply details_other. now apply (None_ i e).
  - intros post i e. unfold failures. rewrite failures_from_spec. split.
    + intros (R & Pi & Before). split; [lia|]. split; [exact Pi|].
      intros j Hj. apply Before. lia.
    + intros (R & Pi & Before). split; [lia|]. split; [exact Pi|].
      intros j Hj. apply Before. lia.
Qed.

End Diagnostics.

Lemma lastErrorDetails_keeps_latest_client_error_witness :
  Transport.requestPayload fresh_client [] None None false = Ret empty_request
  /\ exists res c',
       Transport.chat no_text clock throttled [] None None fresh_client = Some (res, c')
       /\ res = Ret (JObj [("done", JBool true)])
       /\ Transport.getLastErrorDetails c'
          = Some (Transport.mkDetails (clock 0) 429 "Request failed with status code 429"
                    (JObj [("error", JStr "rate limited")]) (JObj []) empty_request).
Proof.
  split; [reflexivity|].
  destruct (lastErrorDetails_keeps_latest_client_error no_text clock [] None None
              fresh_client empty_request eq_refl) as (H & _).
  destruct (H throttled) as (res & c' & E & Latest & _).
  exists res, c'. split; [exact E|]. split.
  - vm_compute in E. now injection E as <- _.
  - apply (Latest 0 "Request failed with status code 429"%string
                  (Transport.mkResponse 429 (JObj [("error", JStr "rate limited")]) (JObj []))).
    + left. reflexivity.
    + cbn. lia.
    + intros j e [F|[F|[]]] Lt; [injection F as <- _; lia | injection F as _ <-; reflexivity].
Defined.

(** A model that the server does not know: the failure is surfaced after
    one request, and recorded. *)
Example unknown_model_is_recorded :
  exists e c',
    Transport.chat no_text clock unknown_model [] None None fresh_client
    = Some (Throw e, c')
    /\ Transport.posted c' = 1
    /\ Transport.getLastErrorDetails c'
       = Some (Transport.mkDetails (clock 0) 404 "Request failed with status code 404"
                 (JObj [("error", JStr "model not found")]) (JObj []) empty_request).
Proof. eexists _, _. split; [reflexivity|]. split; reflexivity. Qed.


(** ** Compaction *)

Section ContextFacts.
Import Context Agent.

Lemma slice_last_length {A} n (l : list A) : n <= length l -> length (slice_last n l) = n.
Proof. intros H. unfold slice_last. rewrite length_skipn. lia. Qed.

Lemma slice_middle_length {A} n (l : list A) : length (slice_middle n l) = length l - n - 1.
Proof. unfold slice_middle. rewrite length_firstn, length_skipn. lia. Qed.

Lemma slice_last_cons {A} n (x : A) (l : list A) :
  n <= length l -> slice_last n (x :: l) = slice_last n l.
Proof.
  intros H. unfold slice_last. cbn [length].
  replace (S (length l) - n) with (S (length l - n)) by lia. reflexivity.
Qed.

Lemma slice_last_all {A} (l : list A) : slice_last (length l) l = l.
Proof. unfold slice_last. now rewrite Nat.sub_diag. Qed.

(** C4.  Compacting a conversation of more than 10 messages leaves the
    first message, one assistant message that carries the summary, and
    the last 6 messages as they were: 8 messages, fewer than before.  This
    is what the streaming loop does to the conversation when, with the
    user's message, it has more than 10 messages and is estimated above
    15000 tokens. *)
Theorem compaction_keeps_first_and_last_six :
  (forall messages, 10 < length messages ->
     exists systemMessage,
       nth_error messages 0 = Some systemMessage
       /\ summarizeContext messages
          = systemMessage :: summaryMessage (slice_middle 6 messages) :: slice_last 6 messages
       /\ role (summaryMessage (slice_middle 6 messages)) = "assistant"
       /\ length (slice_last 6 messages) = 6
       /\ slice_last 6 (summarizeContext messages) = slice_last 6 messages
       /\ length (summarizeContext messages) = 8
       /\ length (summarizeContext messages) < length messages)
  /\ (forall countMessageTokens text s,
        10 < length (asked s text) ->
        (15000 < countMessageTokens (asked s text))%Z ->
        messages (snd (manageContext countMessageTokens text s))
        = summarizeContext (asked s text)).
Proof.
  split.
  - intros messages H.
    destruct messages as [|systemMessage rest]; [simpl in H; lia|].
    exists systemMessage. split; [reflexivity|].
    assert (E : summarizeContext (systemMessage :: rest)
                = systemMessage :: summaryMessage (slice_middle 6 (systemMessage :: rest))
                    :: slice_last 6 (systemMessage :: rest)).
    { unfold summarizeContext.
      destruct (Nat.leb_spec (length (systemMessage :: rest)) 10); [lia|].
      pose proof (slice_middle_length 6 (systemMessage :: rest)) as L.
      destruct (slice_middle 6 (systemMessage :: rest)) eqn:M; [exfalso; simpl in L, H; lia|].
      reflexivity. }
    assert (L6 : length (slice_last 6 (systemMessage :: rest)) = 6)
      by (apply slice_last_length; lia).
    pose proof H as H'. cbn [length] in H'.
    rewrite E. repeat split; try assumption.
    + rewrite (slice_last_cons 6 systemMessage) by (cbn [length]; lia).
      rewrite (slice_last_cons 6 (summaryMessage _)) by lia.
      rewrite <- L6 at 1. apply slice_last_all.
    + cbn [length]. lia.
    + cbn [length]. rewrite L6. lia.
  - intros countMessageTokens text s H T.
    unfold manageContext, bind_io, push_history, push_message, get_messages, set_messages, ret.
    cbn. fold (user_message text). fold (asked s text).
    destruct (Z.ltb_spec 15000 (countMessageTokens (asked s text)));
      [reflexivity | lia].
Qed.

End ContextFacts.

Lemma compaction_keeps_first_and_last_six_witness :
  10 < length twelve_messages
  /\ exists systemMessage,
       nth_error twelve_messages 0 = Some systemMessage
       /\ Context.summarizeContext twelve_messages
          = systemMessage :: Context.summaryMessage (Context.slice_middle 6 twelve_messages)
              :: Context.slice_last 6 twelve_messages
       /\ role (Context.summaryMessage (Context.slice_middle 6 twelve_messages)) = "assistant"%string
       /\ length (Context.slice_last 6 twelve_messages) = 6
       /\ Context.slice_last 6 (Context.summarizeContext twelve_messages)
          = Context.slice_last 6 twelve_messages
       /\ length (Context.summarizeContext twelve_messages) = 8
       /\ length (Context.summarizeContext twelve_messages) < length twelve_messages.
Proof.
  assert (H : 10 < length twelve_messages) by (cbn; lia).
  split; [exact H|].
  exact (proj1 compaction_keeps_first_and_last_six twelve_messages H).
Defined.
(** ** Compaction, again *)

Section CompactionBounds.
Import Context Agent.

Lemma length_append (a b : string) :
  String.length (a ++ b) = String.length a + String.length b.
Proof. induction a as [|c a IH]; cbn [append String.length]; [reflexivity | now rewrite IH]. Qed.

Lemma length_substring0 n : forall s, String.length (substring0 n s) <= n.
Proof.
  unfold substring0. induction n as [|n IH]; intros [|c s]; cbn; try lia.
  specialize (IH s). lia.
Qed.

Lemma summarizeContext_long messages :
  10 < length messages ->
  exists systemMessage,
    summarizeContext messages
    = systemMessage :: summaryMessage (slice_middle 6 messages) :: slice_last 6 messages.
Proof.
  intros H. destruct messages as [|systemMessage rest]; [cbn in H; lia|].
  exists systemMessage. unfold summarizeContext.
  destruct (Nat.leb_spec (length (systemMessage :: rest)) 10); [lia|].
  pose proof (slice_middle_length 6 (systemMessage :: rest)) as L.
  destruct (slice_middle 6 (systemMessage :: rest)) eqn:M; [exfalso; cbn in L, H; lia|].
  reflexivity.
Qed.

Lemma summarizeContext_short messages :
  length messages <= 10 -> summarizeContext messages = messages.
Proof.
  intros H. unfold summarizeContext.
  destruct (Nat.leb_spec (length messages) 10); [reflexivity | lia].
Qed.

(** X1.  Compaction leaves a conversation of at most 10 messages as it
    is, whatever its size in tokens, and leaves at most 10 messages of
    any conversation, so that compacting twice changes nothing more.  The
    summary it writes has at most 1053 characters, however long the
    messages it digests. *)
Theorem compaction_is_idempotent_and_bounded (messages : list message) :
  summarizeContext (summarizeContext messages) = summarizeContext messages
  /\ length (summarizeContext messages) <= 10
  /\ (length messages <= 10 -> summarizeContext messages = messages)
  /\ (forall middle, String.length (content (summaryMessage middle)) <= summary_limit)
  /\ summary_limit = 1053.
Proof.
  assert (B : length (summarizeContext messages) <= 10).
  { destruct (Nat.le_gt_cases (length messages) 10) as [H|H].
    - now rewrite summarizeContext_short.
    - destruct (summarizeContext_long messages H) as (systemMessage & ->).
      cbn [length]. rewrite slice_last_length by lia. lia. }
  split; [now apply summarizeContext_short|]. split; [exact B|].
  split; [apply summarizeContext_short|]. split; [|reflexivity].
  intros middle. unfold summaryMessage, summary_limit. cbn [content].
  rewrite !length_append. pose proof (length_substring0 1000 (summaryContent middle)).
  change (String.length newline) with 1. change (String.length "...") with 3. lia.
Qed.

End CompactionBounds.


(** ** Tool dispatch *)

Lemma startsWith_mcp name :
  startsWith "mcp__" name = true -> exists rest, name = "mcp__" ++ rest.
Proof. apply prefix_split. Qed.

Lemma mcp_is_no_builtin name :
  startsWith "mcp__" name = true ->
  (name =? "view_file")%string = false
  /\ (name =? "create_file")%string = false
  /\ (name =? "str_replace_editor")%string = false
  /\ (name =? "bash")%string = false
  /\ (name =? "create_todo_list")%string = false
  /\ (name =? "update_todo_list")%string = false
  /\ (name =? "search")%string = false.
Proof.
  intros H. apply startsWith_mcp in H as (rest & ->). repeat split; reflexivity.
Qed.

Section Dispatch.
Import Decoder Agent.

Variable run_builtin : list event -> builtin -> outcome ToolResult.
Variable callTool : list event -> string -> jsval -> outcome mcp_result.
Variable JSON_stringify : jsval -> string.
Variable ToString : jsval -> string.

(** C10.  For a tool whose name starts with mcp__ the raw arguments go
    through [JSON.parse]: when that raises, [executeTool] returns a failed
    result that carries the MCP execution error, and nothing is called.
    For a built-in tool such as bash the same raw arguments go through
    [safeJsonParse], and the tool is called with what it recovers. *)
Theorem mcp_arguments_are_parsed_strictly (raw : string) (e : exn) (s : agent) :
  Json.parse raw = Throw e ->
  (forall toolCall fn name,
      get_prop toolCall "function" = Ret fn ->
      get_prop fn "name" = Ret (JStr name) ->
      startsWith "mcp__" name = true ->
      get_prop fn "arguments" = Ret (JStr raw) ->
      executeTool run_builtin callTool JSON_stringify ToString toolCall s
      = (Ret (failed ("MCP tool execution error: " ++ error_message e)),
         after_events s [ExecuteTool toolCall]))
  /\ (forall toolCall fn args command,
      get_prop toolCall "function" = Ret fn ->
      get_prop fn "name" = Ret (JStr "bash") ->
      get_prop fn "arguments" = Ret (JStr raw) ->
      safeJsonParse (JStr raw) = Ret args ->
      get_prop args "command" = Ret command ->
      executeTool run_builtin callTool JSON_stringify ToString toolCall s
      = (match run_builtin (log s ++ [ExecuteTool toolCall]) (Bash command) with
         | Ret result => Ret result
         | Throw e' => Ret (failed ("Tool execution error: " ++ error_message e'))
         end,
         after_events s [ExecuteTool toolCall; BuiltinCalled (Bash command)])).
Proof.
  intros Hraw. split.
  - intros toolCall fn name Hfn Hname Hmcp Hargs.
    destruct (mcp_is_no_builtin name Hmcp) as (N1 & N2 & N3 & N4 & N5 & N6 & N7).
    destruct (safeJsonParse_returns (JStr raw)) as (args & Hsafe).
    unfold executeTool, bind_io, try_catch, emit, lift, dispatch.
    cbn [fst snd]. rewrite Hfn, Hargs, Hsafe, Hname, N1, N2, N3, N4, N5, N6, N7, Hmcp.
    unfold executeMCPTool, bind_io, try_catch, lift, text_of.
    rewrite Hfn, Hargs, Hraw. reflexivity.
  - intros toolCall fn args command Hfn Hname Hargs Hsafe Hcommand.
    unfold executeTool, bind_io, try_catch, emit, lift, dispatch, call_builtin, observe.
    cbn [fst snd]. rewrite Hfn, Hargs, Hsafe, Hname.
    cbn. rewrite Hcommand. unfold after_events. cbn.
    rewrite <- app_assoc. cbn.
    destruct (run_builtin (log s ++ [ExecuteTool toolCall]) (Bash command)); reflexivity.
Qed.

End Dispatch.

Lemma mcp_arguments_are_parsed_strictly_witness :
  let raw := "{path: 1"%string in
  let toolCall := function_call "call_1" "mcp__fs__read" raw in
  Json.parse raw = Throw (SyntaxError "Unexpected token in JSON")
  /\ startsWith "mcp__" "mcp__fs__read" = true
  /\ Agent.executeTool tools_work no_mcp no_text no_text toolCall start
     = (Ret (failed "MCP tool execution error: Unexpected token in JSON"),
        after_events start [Agent.ExecuteTool toolCall]).
Proof.
  intros raw toolCall.
  assert (Hraw : Json.parse raw = Throw (SyntaxError "Unexpected token in JSON"))
    by reflexivity.
  split; [exact Hraw|]. split; [reflexivity|].
  exact (proj1 (mcp_arguments_are_parsed_strictly tools_work no_mcp no_text no_text
                  raw _ start Hraw)
           toolCall _ "mcp__fs__read"%string eq_refl eq_refl eq_refl eq_refl).
Defined.
(** ** The streaming loop *)

Import Agent.

(** *** The cancellation flag is read before every fragment and every tool *)

Lemma follow_app p a b : follow p (a ++ b) = follow (follow p a) b.
Proof. apply fold_left_app. Qed.

Lemma follow_cons p e l : follow p (e :: l) = follow (advance p e) l.
Proof. reflexivity. Qed.

Lemma advance_Broken e : advance Broken e = Broken.
Proof. destruct e as [[]|[|]| | | | | |]; reflexivity. Qed.

Lemma follow_Broken l : follow Broken l = Broken.
Proof. induction l as [|e l IH]; [reflexivity|]. now rewrite follow_cons, advance_Broken. Qed.

Lemma accepts_not_Broken b : ~ accepts b Broken.
Proof. destruct b; cbn; discriminate. Qed.

Lemma advance_Checked e :
  advance Idle e <> Broken -> advance Checked e = advance Idle e.
Proof.
  destruct e as [[]|[|]| | | | | |]; try reflexivity.
  intros H. now destruct H.
Qed.

Lemma follow_quiet b p l :
  quiet p = true -> accepts b (follow Idle l) -> accepts b (follow p l).
Proof.
  destruct p; try discriminate; intros _; [trivial|].
  destruct l as [|e l].
  - destruct b; cbn; [discriminate | reflexivity].
  - rewrite !follow_cons. intros H. rewrite advance_Checked; [exact H|].
    intros E. rewrite E, follow_Broken in H. now apply accepts_not_Broken in H.
Qed.

(** *** The rules of orderly computations *)

Lemma orderly_ret {A} (stops : A -> bool) p (a : A) :
  quiet p = true -> stops a = false -> orderly stops p (ret a).
Proof.
  intros Q S s. exists []. cbn. rewrite app_nil_r, S. split; [reflexivity | exact Q].
Qed.

Lemma orderly_throw {A} (stops : A -> bool) p e :
  quiet p = true -> orderly stops p (throw e).
Proof. intros Q s. exists []. cbn. rewrite app_nil_r. split; [reflexivity | exact Q]. Qed.

Lemma orderly_lift {A} p (o : outcome A) : quiet p = true -> orderly never p (lift o).
Proof.
  intros Q s. exists []. cbn. rewrite app_nil_r. split; [reflexivity|].
  destruct o; exact Q.
Qed.

Lemma orderly_observe {A} p (f : list event -> A) : quiet p = true -> orderly never p (observe f).
Proof. intros Q s. exists []. cbn. rewrite app_nil_r. split; [reflexivity | exact Q]. Qed.

Lemma orderly_emit p e : quiet (advance p e) = true -> orderly never p (emit e).
Proof. intros Q s. exists [e]. cbn. split; [reflexivity | exact Q]. Qed.

Lemma orderly_push_message p m : quiet p = true -> orderly never p (push_message m).
Proof. intros Q s. exists []. cbn. rewrite app_nil_r. split; [reflexivity | exact Q]. Qed.

Lemma orderly_push_history p e : quiet p = true -> orderly never p (push_history e).
Proof. intros Q s. exists []. cbn. rewrite app_nil_r. split; [reflexivity | exact Q]. Qed.

Lemma orderly_get_messages p : quiet p = true -> orderly never p get_messages.
Proof. intros Q s. exists []. cbn. rewrite app_nil_r. split; [reflexivity | exact Q]. Qed.

Lemma orderly_set_messages p ms : quiet p = true -> orderly never p (set_messages ms).
Proof. intros Q s. exists []. cbn. rewrite app_nil_r. split; [reflexivity | exact Q]. Qed.

Lemma orderly_start {A} (stops : A -> bool) p (m : io A) :
  quiet p = true -> orderly stops Idle m -> orderly stops p m.
Proof.
  intros Q H s. destruct (H s) as (ext & L & Acc). exists ext. split; [exact L|].
  now apply follow_quiet.
Qed.

Lemma orderly_bind_stop {A B} (stopsA : A -> bool) (stopsB : B -> bool) p
    (m : io A) (k : A -> io B) :
  orderly stopsA p m ->
  (forall a, stopsA a = false -> orderly stopsB Idle (k a)) ->
  (forall a, stopsA a = true -> exists b, k a = ret b /\ stopsB b = true) ->
  orderly stopsB p (bind_io m k).
Proof.
  intros Hm Hk Hstop s. unfold bind_io.
  destruct (Hm s) as (ext1 & L1 & Acc1).
  destruct (m s) as [[a|e] s1]; cbn [fst snd stopped] in *.
  - destruct (stopsA a) eqn:Sa.
    + destruct (Hstop a Sa) as (b & -> & Sb). exists ext1. cbn. rewrite Sb.
      split; [exact L1 | exact Acc1].
    + destruct (Hk a Sa s1) as (ext2 & L2 & Acc2).
      exists (ext1 ++ ext2)%list. rewrite L2, L1, <- app_assoc. split; [reflexivity|].
      rewrite follow_app. apply follow_quiet; assumption.
  - exists ext1. split; [exact L1 | exact Acc1].
Qed.

Lemma orderly_bind {A B} (stops : B -> bool) p (m : io A) (k : A -> io B) :
  orderly never p m ->
  (forall a, orderly stops Idle (k a)) ->
  orderly stops p (bind_io m k).
Proof.
  intros Hm Hk. apply (orderly_bind_stop never); [exact Hm | auto | discriminate].
Qed.

Lemma orderly_try {A} (stops : A -> bool) p (m : io A) (h : exn -> io A) :
  orderly stops p m ->
  (forall e, orderly stops Idle (h e)) ->
  orderly stops p (try_catch m h).
Proof.
  intros Hm Hh s. unfold try_catch.
  destruct (Hm s) as (ext1 & L1 & Acc1).
  destruct (m s) as [[a|e] s1]; cbn [fst snd stopped] in *.
  - exists ext1. split; [exact L1 | exact Acc1].
  - destruct (Hh e s1) as (ext2 & L2 & Acc2).
    exists (ext1 ++ ext2)%list. rewrite L2, L1, <- app_assoc. split; [reflexivity|].
    rewrite follow_app. apply follow_quiet; assumption.
Qed.

Lemma orderly_never {A} (stops : A -> bool) p (m : io A) :
  (forall a, stops a = false) -> orderly never p m -> orderly stops p m.
Proof.
  intros S H s. destruct (H s) as (ext & L & Acc). exists ext. split; [exact L|].
  destruct (fst (m s)); cbn in *; [rewrite S|]; exact Acc.
Qed.


(** *** What an accepted order of events says *)

Lemma advance_Received e :
  (exists b, e = AbortChecked b) \/ advance Received e = Broken.
Proof. destruct e as [[]|b| | | | | |]; try (now right). left. now exists b. Qed.

Lemma advance_fragment p f :
  advance p (FragmentReceived f) = Received \/ advance p (FragmentReceived f) = Broken.
Proof. destruct p; cbn; auto. Qed.

Lemma advance_to_Checked p e : advance p e = Checked -> e = AbortChecked false.
Proof.
  intros H.
  destruct e as [[t| | | |]|[|]| | | | | |], p; cbn in H;
    try discriminate H; try reflexivity.
  match type of H with context [if ?c then _ else _] => destruct c end; discriminate H.
Qed.

Lemma advance_execute p tc :
  advance p (ExecuteTool tc) <> Broken -> p = Checked.
Proof. destruct p; cbn; intros H; try reflexivity; now destruct H. Qed.

Lemma advance_cancel p :
  advance p (AbortChecked true) = Cancelling \/ advance p (AbortChecked true) = Broken.
Proof. destruct p; cbn; auto. Qed.

Lemma follow_accepted_prefix b p l1 l2 :
  accepts b (follow p (l1 ++ l2)) -> follow p l1 <> Broken.
Proof.
  rewrite follow_app. intros H E. rewrite E, follow_Broken in H.
  now apply accepts_not_Broken in H.
Qed.

Lemma follow_to_Checked l : forall p,
  p <> Checked -> follow p l = Checked -> exists l', l = (l' ++ [AbortChecked false])%list.
Proof.
  induction l as [|e l IH] using rev_ind; intros p N H.
  - cbn in H. contradiction.
  - rewrite follow_app in H. cbn in H. apply advance_to_Checked in H. subst e. now exists l.
Qed.

Lemma follow_Cancelling b post :
  accepts b (follow Cancelling post) ->
  post = [Yielded (Content cancelNotice); Yielded Done] /\ b = true.
Proof.
  intros H.
  destruct post as [|e1 post]; [destruct b; cbv in H; discriminate H|].
  rewrite follow_cons in H.
  assert (E1 : e1 = Yielded (Content cancelNotice) /\ advance Cancelling e1 = Noticed).
  { destruct e1 as [[t| | | |]|[|]| | | | | |];
      try (cbn [advance] in H; rewrite follow_Broken in H; now apply accepts_not_Broken in H).
    cbn [advance] in H |- *. destruct (String.eqb_spec t cancelNotice) as [->|];
      [auto | rewrite follow_Broken in H; now apply accepts_not_Broken in H]. }
  destruct E1 as [-> E1]. rewrite E1 in H.
  destruct post as [|e2 post]; [destruct b; cbv in H; discriminate H|].
  rewrite follow_cons in H.
  assert (E2 : e2 = Yielded Done).
  { destruct e2 as [[t| | | |]|[|]| | | | | |];
      try (cbn [advance] in H; rewrite follow_Broken in H; now apply accepts_not_Broken in H).
    reflexivity. }
  subst e2. cbn [advance] in H.
  destruct post as [|e3 post].
  - split; [reflexivity|]. destruct b; [reflexivity | cbv in H; discriminate H].
  - rewrite follow_cons in H.
    replace (advance Ended e3) with Broken in H
      by (destruct e3 as [[]|[|]| | | | | |]; reflexivity).
    rewrite follow_Broken in H. now apply accepts_not_Broken in H.
Qed.

Lemma accepted_fragment b pre f post :
  accepts b (follow Idle (pre ++ FragmentReceived f :: post)) ->
  exists b' post', post = AbortChecked b' :: post'.
Proof.
  intros H. rewrite follow_app, follow_cons in H.
  destruct (advance_fragment (follow Idle pre) f) as [E|E]; rewrite E in H;
    [|rewrite follow_Broken in H; now apply accepts_not_Broken in H].
  destruct post as [|e post]; [destruct b; cbv in H; discriminate H|].
  rewrite follow_cons in H.
  destruct (advance_Received e) as [(b' & ->)|E']; [now exists b', post|].
  rewrite E', follow_Broken in H. now apply accepts_not_Broken in H.
Qed.

Lemma accepted_execute b pre tc post :
  accepts b (follow Idle (pre ++ ExecuteTool tc :: post)) ->
  exists pre', pre = (pre' ++ [AbortChecked false])%list.
Proof.
  intros H. rewrite follow_app, follow_cons in H.
  assert (C : follow Idle pre = Checked).
  { apply (advance_execute _ tc). intros E. rewrite E, follow_Broken in H.
    now apply accepts_not_Broken in H. }
  apply (follow_to_Checked pre Idle); [discriminate | exact C].
Qed.

Lemma accepted_cancel b pre post :
  accepts b (follow Idle (pre ++ AbortChecked true :: post)) ->
  post = [Yielded (Content cancelNotice); Yielded Done] /\ b = true.
Proof.
  intros H. rewrite follow_app, follow_cons in H.
  destruct (advance_cancel (follow Idle pre)) as [E|E]; rewrite E in H.
  - now apply follow_Cancelling.
  - rewrite follow_Broken in H. now apply accepts_not_Broken in H.
Qed.

Ltac orderly_step :=
  match goal with
  | |- orderly _ _ (ret _) => apply orderly_ret; reflexivity
  | |- orderly _ _ (throw _) => apply orderly_throw; reflexivity
  | |- orderly never _ (lift _) => apply orderly_lift; reflexivity
  | |- orderly never _ (observe _) => apply orderly_observe; reflexivity
  | |- orderly never _ (emit _) => apply orderly_emit; reflexivity
  | |- orderly never _ (yield _) => apply orderly_emit; reflexivity
  | |- orderly never _ (push_message _) => apply orderly_push_message; reflexivity
  | |- orderly never _ (push_history _) => apply orderly_push_history; reflexivity
  | |- orderly never _ get_messages => apply orderly_get_messages; reflexivity
  | |- orderly never _ (set_messages _) => apply orderly_set_messages; reflexivity
  | |- orderly _ _ (bind_io _ _) => apply orderly_bind; [ | intros ? ]
  | |- orderly _ _ (try_catch _ _) => apply orderly_try; [ | intros ? ]
  | |- orderly _ _ (if ?b then _ else _) => destruct b
  | |- orderly _ _ (match ?x with _ => _ end) => destruct x
  | |- orderly _ _ (let _ := _ in _) => cbv zeta
  end.

Ltac orderly_auto := repeat orderly_step.

Section Order.

Variable aborted : list event -> bool.
Variable getAllOllamaTools : list event -> outcome jsval.
Variable chatStream : list event -> list message -> jsval -> list fragment * option exn.
Variable run_builtin : list event -> builtin -> outcome ToolResult.
Variable callTool : list event -> string -> jsval -> outcome mcp_result.
Variable countMessageTokens : list message -> Z.
Variable estimateStreamingTokens : string -> Z.
Variable countTokens : string -> Z.
Variable JSON_stringify : jsval -> string.
Variable ToString : jsval -> string.
Variable new_call_id : list event -> nat -> string.

Lemma orderly_guard {A} p (k : io (flow A)) :
  p = Idle \/ p = Checked \/ p = Received ->
  orderly is_returned Checked k ->
  orderly is_returned p
    (bind_io (checkAborted aborted) (fun stop : bool => if stop then cancelled else k)).
Proof.
  intros Hp Hk s.
  unfold checkAborted, cancelled, yield, bind_io, observe, emit, ret. cbn [fst snd log].
  destruct (aborted (log s)) eqn:Ab.
  - exists [AbortChecked true; Yielded (Content cancelNotice); Yielded Done].
    cbn [fst snd log stopped is_returned accepts].
    rewrite <- !app_assoc. split; [reflexivity|].
    rewrite !follow_cons.
    assert (C : advance p (AbortChecked true) = Cancelling)
      by (destruct Hp as [->|[->| ->]]; reflexivity).
    rewrite C. cbn [advance]. rewrite String.eqb_refl. reflexivity.
  - destruct (Hk (mkAgent (messages s) (chatHistory s) (log s ++ [AbortChecked false])))
      as (ext & L & Acc).
    exists (AbortChecked false :: ext). cbn [log] in L. rewrite L, <- app_assoc.
    split; [reflexivity|]. rewrite follow_cons.
    destruct Hp as [->|[->| ->]]; exact Acc.
Qed.

Lemma orderly_fragment {A} p f (k : io (flow A)) :
  quiet p = true ->
  orderly is_returned Checked k ->
  orderly is_returned p
    (bind_io (emit (FragmentReceived f))
       (fun _ => bind_io (checkAborted aborted)
                   (fun stop : bool => if stop then cancelled else k))).
Proof.
  intros Q Hk s.
  destruct (orderly_guard Received k (or_intror (or_intror eq_refl)) Hk
              (mkAgent (messages s) (chatHistory s) (log s ++ [FragmentReceived f])))
    as (ext & L & Acc).
  exists (FragmentReceived f :: ext). unfold bind_io at 1. cbn [emit fst snd].
  cbn [log] in L. rewrite L, <- app_assoc. split; [reflexivity|].
  rewrite follow_cons. destruct p; try discriminate; exact Acc.
Qed.

Lemma orderly_executeMCPTool toolCall :
  orderly never Idle (executeMCPTool callTool ToString toolCall).
Proof. unfold executeMCPTool. orderly_auto. Qed.

Lemma orderly_call_builtin b : orderly never Idle (call_builtin run_builtin b).
Proof. unfold call_builtin. orderly_auto. Qed.

Lemma orderly_dispatch toolCall name args :
  orderly never Idle (dispatch run_builtin callTool JSON_stringify ToString toolCall name args).
Proof.
  unfold dispatch. cbv zeta.
  repeat first [apply orderly_call_builtin | apply orderly_executeMCPTool | orderly_step].
Qed.

Lemma orderly_executeTool toolCall :
  orderly never Checked (executeTool run_builtin callTool JSON_stringify ToString toolCall).
Proof.
  unfold executeTool.
  apply orderly_bind; [apply orderly_emit; reflexivity|]. intros _.
  repeat first [apply orderly_dispatch | orderly_step].
Qed.


Ltac flow_bind H x :=
  eapply (orderly_bind_stop is_returned);
  [ exact H
  | intros [x| |] ?; try discriminate
  | intros [?| |] ?; try discriminate; eexists; split; reflexivity ].

Lemma orderly_absorb f c st :
  orderly never Idle (absorb estimateStreamingTokens countTokens JSON_stringify f c st).
Proof. unfold absorb. orderly_auto. Qed.

Lemma orderly_consume fs failure : forall c st,
  orderly is_returned Idle
    (consume aborted estimateStreamingTokens countTokens JSON_stringify fs failure c st).
Proof.
  induction fs as [|f fs IH]; intros c st; cbn [consume].
  - orderly_auto.
  - apply orderly_fragment; [reflexivity|].
    apply orderly_start; [reflexivity|].
    apply orderly_bind; [apply orderly_absorb|]. intros r. apply IH.
Qed.

Lemma orderly_run_tools toolCalls :
  orderly is_returned Idle
    (run_tools aborted run_builtin callTool JSON_stringify ToString toolCalls).
Proof.
  induction toolCalls as [|toolCall rest IH]; cbn [run_tools].
  - orderly_auto.
  - apply orderly_guard; [now left|].
    apply orderly_bind; [apply orderly_executeTool|]. intros result.
    repeat first [apply IH | orderly_step].
Qed.

Lemma orderly_round c :
  orderly is_returned Idle
    (round aborted getAllOllamaTools chatStream run_builtin callTool countMessageTokens
           estimateStreamingTokens countTokens JSON_stringify ToString new_call_id c).
Proof.
  unfold round. apply orderly_guard; [now left|]. apply orderly_start; [reflexivity|].
  apply orderly_bind; [orderly_step | intros tools0].
  apply orderly_bind; [orderly_step | intros _].
  apply orderly_bind; [orderly_step | intros tools].
  apply orderly_bind; [orderly_step | intros sent].
  apply orderly_bind; [orderly_step | intros stream].
  apply orderly_bind; [orderly_step | intros _].
  flow_bind (orderly_consume (fst stream) (snd stream) c (mkStreaming (JObj []) "" false)) r.
  - destruct r as [c' st].
    apply orderly_bind; [orderly_auto|]. intros toolCalls.
    do 2 (apply orderly_bind; [orderly_step | intros _]).
    destruct (0 <? length toolCalls); [|orderly_auto].
    cbv zeta. apply orderly_bind; [orderly_auto|]. intros _.
    flow_bind (orderly_run_tools toolCalls) u; orderly_auto.
  - orderly_auto.
Qed.

Lemma orderly_rounds fuel : forall c,
  orderly is_returned Idle
    (rounds aborted getAllOllamaTools chatStream run_builtin callTool countMessageTokens
            estimateStreamingTokens countTokens JSON_stringify ToString new_call_id fuel c).
Proof.
  induction fuel as [|fuel IH]; intros c; cbn [rounds].
  - orderly_auto.
  - destruct (toolRounds c <? maxToolRounds); [|orderly_auto].
    flow_bind (orderly_round c) r.
    + destruct r as [[|] c']; [apply IH | orderly_auto].
    + orderly_auto.
Qed.

Lemma orderly_tryBlock c :
  orderly is_returned Idle
    (tryBlock aborted getAllOllamaTools chatStream run_builtin callTool countMessageTokens
              estimateStreamingTokens countTokens JSON_stringify ToString new_call_id c).
Proof.
  unfold tryBlock. flow_bind (orderly_rounds maxToolRounds c) c'; orderly_auto.
Qed.

Lemma orderly_catchBlock e : orderly is_returned Idle (catchBlock aborted e).
Proof.
  unfold catchBlock. apply orderly_guard; [now left|]. apply orderly_start; [reflexivity|].
  orderly_auto.
Qed.

Lemma orderly_manageContext text : orderly never Idle (manageContext countMessageTokens text).
Proof. unfold manageContext. orderly_auto. Qed.

Lemma orderly_processUserMessageStream text :
  orderly is_returned Idle
    (processUserMessageStream aborted getAllOllamaTools chatStream run_builtin callTool
       countMessageTokens estimateStreamingTokens countTokens JSON_stringify ToString
       new_call_id text).
Proof.
  unfold processUserMessageStream.
  apply orderly_bind; [apply orderly_manageContext|]. intros inputTokens.
  apply orderly_bind; [orderly_step|]. intros _.
  apply orderly_try; [apply orderly_tryBlock | apply orderly_catchBlock].
Qed.


(** X2.  In every run of the streaming loop, whatever the collaborators
    do: a fragment the stream delivers is followed at once by a read of
    the cancellation flag, before anything is done with it; a tool is
    executed only directly after a read that found the flag clear; and a
    read that finds the flag set is followed by the cancellation notice
    and the final chunk and by nothing else, the generator returning
    there: no fragment is received and no tool is executed afterwards. *)
Theorem cancellation_is_checked_before_fragments_and_tools (text : string) (s : agent) :
  let run :=
    processUserMessageStream aborted getAllOllamaTools chatStream run_builtin callTool
      countMessageTokens estimateStreamingTokens countTokens JSON_stringify ToString
      new_call_id text s in
  exists ext,
    log (snd run) = (log s ++ ext)%list
    /\ (forall pre f post,
          ext = (pre ++ FragmentReceived f :: post)%list ->
          exists b post', post = AbortChecked b :: post')
    /\ (forall pre toolCall post,
          ext = (pre ++ ExecuteTool toolCall :: post)%list ->
          exists pre', pre = (pre' ++ [AbortChecked false])%list)
    /\ (forall pre post,
          ext = (pre ++ AbortChecked true :: post)%list ->
          post = [Yielded (Content cancelNotice); Yielded Done]
          /\ fst run = Ret Returned).
Proof.
  intros run. destruct (orderly_processUserMessageStream text s) as (ext & L & Acc).
  fold run in L, Acc. exists ext. split; [exact L|]. repeat split.
  - intros pre f post ->. eapply accepted_fragment; exact Acc.
  - intros pre toolCall post ->. eapply accepted_execute; exact Acc.
  - subst ext. apply accepted_cancel in Acc. tauto.
  - subst ext. apply accepted_cancel in Acc as [_ B].
    destruct (fst run) as [[[]| |]|e]; cbn in B; try discriminate. reflexivity.
Qed.

End Order.

(** *** Exceptions *)



Lemma yields_ret {A} (P : A -> Prop) a : P a -> yields P (ret a).
Proof. intros H s a' s' E. injection E as <- _. exact H. Qed.

Lemma yields_throw {A} (P : A -> Prop) e : yields P (throw e).
Proof. intros s a' s' E. discriminate. Qed.

Lemma yields_bind {A B} (P : A -> Prop) (Q : B -> Prop) (m : io A) (k : A -> io B) :
  yields P m -> (forall a, P a -> yields Q (k a)) -> yields Q (bind_io m k).
Proof.
  intros Hm Hk s b s' E. unfold bind_io in E.
  destruct (m s) as [[a|e] s1] eqn:Em; [|discriminate].
  eapply Hk; [eapply Hm; exact Em | exact E].
Qed.

Lemma yields_any {A} (m : io A) : yields (fun _ => True) m.
Proof. intros s a s' _. exact I. Qed.

Lemma yields_bind_any {A B} (Q : B -> Prop) (m : io A) (k : A -> io B) :
  (forall a, yields Q (k a)) -> yields Q (bind_io m k).
Proof. intros Hk. apply (yields_bind (fun _ => True)); [apply yields_any | auto]. Qed.

Lemma yields_try {A} (P : A -> Prop) (m : io A) (h : exn -> io A) :
  yields P m -> (forall e, yields P (h e)) -> yields P (try_catch m h).
Proof.
  intros Hm Hh s a s' E. unfold try_catch in E.
  destruct (m s) as [[a'|e] s1] eqn:Em.
  - injection E as <- <-. eapply Hm; exact Em.
  - eapply Hh; exact E.
Qed.

Ltac yields_step :=
  match goal with
  | |- yields _ (ret _) => apply yields_ret
  | |- yields _ (throw _) => apply yields_throw
  | |- yields _ cancelled => unfold cancelled
  | |- yields _ (bind_io _ _) => apply yields_bind_any; intros ?
  | |- yields _ (if ?b then _ else _) => destruct b
  | |- yields _ (match ?x with _ => _ end) => destruct x
  end.

Section Results.

Variable aborted : list event -> bool.
Variable getAllOllamaTools : list event -> outcome jsval.
Variable chatStream : list event -> list message -> jsval -> list fragment * option exn.
Variable run_builtin : list event -> builtin -> outcome ToolResult.
Variable callTool : list event -> string -> jsval -> outcome mcp_result.
Variable countMessageTokens : list message -> Z.
Variable estimateStreamingTokens : string -> Z.
Variable countTokens : string -> Z.
Variable JSON_stringify : jsval -> string.
Variable ToString : jsval -> string.
Variable new_call_id : list event -> nat -> string.

Lemma absorb_same_round f c st :
  yields (fun r => toolRounds (fst r) = toolRounds c)
         (absorb estimateStreamingTokens countTokens JSON_stringify f c st).
Proof.
  unfold absorb. destruct f as [|text calls]; [now apply yields_ret|].
  do 2 (apply yields_bind_any; intros ?).
  destruct (negb (text =? "")%string); cbv zeta; repeat yields_step; reflexivity.
Qed.

Lemma consume_same_round fs failure : forall c st,
  yields (same_round c)
         (consume aborted estimateStreamingTokens countTokens JSON_stringify fs failure c st).
Proof.
  induction fs as [|f fs IH]; intros c st; cbn [consume].
  - destruct failure; repeat yields_step. reflexivity.
  - do 2 (apply yields_bind_any; intros ?).
    match goal with |- yields _ (if ?b then _ else _) => destruct b end.
    + repeat yields_step. exact I.
    + eapply yields_bind; [apply absorb_same_round|]. intros [c' st'] E. cbn [fst snd] in *.
      intros s r s' Er. apply IH in Er. destruct r as [[c'' st'']| |]; cbn in *; congruence.
Qed.

Lemma run_tools_settled toolCalls :
  yields settled (run_tools aborted run_builtin callTool JSON_stringify ToString toolCalls).
Proof.
  induction toolCalls as [|toolCall rest IH]; cbn [run_tools].
  - apply yields_ret. discriminate.
  - apply yields_bind_any; intros stop. destruct stop.
    + repeat yields_step. discriminate.
    + do 5 (apply yields_bind_any; intros ?). exact IH.
Qed.

Lemma round_counted c :
  yields (counted c)
    (round aborted getAllOllamaTools chatStream run_builtin callTool countMessageTokens
           estimateStreamingTokens countTokens JSON_stringify ToString new_call_id c).
Proof.
  unfold round. apply yields_bind_any; intros stop. destruct stop.
  - repeat yields_step. exact I.
  - do 6 (apply yields_bind_any; intros ?).
    eapply yields_bind; [apply consume_same_round|]. intros [[c' st]| |] E; cbn in E.
    + do 3 (apply yields_bind_any; intros ?).
      match goal with |- yields _ (if ?b then _ else _) => destruct b end.
      * cbv zeta. apply yields_bind_any; intros ?.
        eapply yields_bind; [apply run_tools_settled|]. intros [u| |] S.
        -- repeat yields_step. cbn. congruence.
        -- repeat yields_step. exact I.
        -- now destruct S.
      * apply yields_ret. exact I.
    + apply yields_ret. exact I.
    + destruct E.
Qed.

Lemma rounds_settled fuel : forall c,
  maxToolRounds <= toolRounds c + fuel ->
  yields settled
    (rounds aborted getAllOllamaTools chatStream run_builtin callTool countMessageTokens
            estimateStreamingTokens countTokens JSON_stringify ToString new_call_id fuel c).
Proof.
  induction fuel as [|fuel IH]; intros c H; cbn [rounds].
  - destruct (Nat.ltb_spec (toolRounds c) maxToolRounds); [lia|].
    apply yields_ret. discriminate.
  - destruct (Nat.ltb_spec (toolRounds c) maxToolRounds); [|apply yields_ret; discriminate].
    eapply yields_bind; [apply round_counted|]. intros [[[|] c']| |] E; cbn in E.
    + apply IH. lia.
    + apply yields_ret. discriminate.
    + apply yields_ret. discriminate.
    + destruct E.
Qed.

Lemma tryBlock_settled c :
  yields settled
    (tryBlock aborted getAllOllamaTools chatStream run_builtin callTool countMessageTokens
              estimateStreamingTokens countTokens JSON_stringify ToString new_call_id c).
Proof.
  unfold tryBlock. eapply yields_bind; [apply (rounds_settled maxToolRounds c); lia|].
  intros [c'| |] S.
  - repeat yields_step; discriminate.
  - apply yields_ret. discriminate.
  - now destruct S.
Qed.

Lemma catchBlock_returns e s :
  exists r s', catchBlock aborted e s = (Ret r, s') /\ settled r.
Proof.
  unfold catchBlock, checkAborted, cancelled, yield, bind_io, observe, emit, push_history, ret.
  cbn [fst snd log]. destruct (aborted (log s)); eexists _, _; split; try reflexivity; discriminate.
Qed.

Lemma executeTool_returns toolCall s :
  exists result s',
    executeTool run_builtin callTool JSON_stringify ToString toolCall s = (Ret result, s').
Proof.
  unfold executeTool, bind_io at 1, emit, try_catch. cbn [fst snd].
  match goal with |- context [match ?body with _ => _ end] => destruct body as [[r|e] s1] end;
    eexists _, _; reflexivity.
Qed.


Lemma manageContext_returns text s :
  exists n s', manageContext countMessageTokens text s = (Ret n, s').
Proof.
  unfold manageContext, bind_io, push_history, push_message, get_messages, set_messages, ret.
  cbn [fst snd messages].
  match goal with |- context [if ?b then _ else _] => destruct b end; eexists _, _; reflexivity.
Qed.

Lemma executeTool_bash toolCall fn raw args command s :
  get_prop toolCall "function" = Ret fn ->
  get_prop fn "name" = Ret (JStr "bash") ->
  get_prop fn "arguments" = Ret (JStr raw) ->
  Decoder.safeJsonParse (JStr raw) = Ret args ->
  get_prop args "command" = Ret command ->
  executeTool run_builtin callTool JSON_stringify ToString toolCall s
  = (match run_builtin (log s ++ [ExecuteTool toolCall]) (Bash command) with
     | Ret result => Ret result
     | Throw e' => Ret (failed ("Tool execution error: " ++ error_message e'))
     end,
     after_events s [ExecuteTool toolCall; BuiltinCalled (Bash command)]).
Proof.
  intros Hfn Hname Hargs Hsafe Hcommand.
  unfold executeTool, bind_io, try_catch, emit, lift, dispatch, call_builtin, observe.
  cbn [fst snd]. rewrite Hfn, Hargs, Hsafe, Hname.
  cbn. rewrite Hcommand. unfold after_events. cbn.
  rewrite <- app_assoc. cbn.
  destruct (run_builtin (log s ++ [ExecuteTool toolCall]) (Bash command)); reflexivity.
Qed.

(** X3.  The generator never raises and its loop always comes to an end:
    whatever the collaborators do, [processUserMessageStream] returns.
    When the [try] block raised [e], the [catch] block reads the
    cancellation flag: found clear, the error is recorded in the history
    and yielded as one chunk, followed by the final chunk; found set, the
    cancellation notice and the final chunk are yielded instead. *)
Theorem loop_exceptions_become_error_messages (text : string) (s : agent) :
  let generator :=
    processUserMessageStream aborted getAllOllamaTools chatStream run_builtin callTool
      countMessageTokens estimateStreamingTokens countTokens JSON_stringify ToString
      new_call_id text in
  (exists r s', generator s = (Ret r, s') /\ r <> Running)
  /\ (forall n s0 e s1,
        manageContext countMessageTokens text s = (Ret n, s0) ->
        tryBlock aborted getAllOllamaTools chatStream run_builtin callTool countMessageTokens
                 estimateStreamingTokens countTokens JSON_stringify ToString new_call_id
                 (mkCounters 0 n 0) (after_events s0 [Yielded (TokenCount n)])
        = (Throw e, s1) ->
        generator s
        = if aborted (log s1)
          then (Ret Returned,
                after_events s1 [AbortChecked true; Yielded (Content cancelNotice);
                                 Yielded Done])
          else (Ret (Go tt), after_error e s1)).
Proof.
  intros generator. split.
  - unfold generator, processUserMessageStream.
    destruct (manageContext_returns text s) as (n & s0 & E0).
    unfold bind_io at 1. rewrite E0. unfold bind_io at 1. cbn [yield emit fst snd].
    unfold try_catch.
    match goal with |- context [tryBlock _ _ _ _ _ _ _ _ _ _ _ ?c ?s1] =>
      destruct (tryBlock aborted getAllOllamaTools chatStream run_builtin callTool
                  countMessageTokens estimateStreamingTokens countTokens JSON_stringify
                  ToString new_call_id c s1) as [[r|e] s2] eqn:E
    end.
    + exists r, s2. split; [reflexivity|]. eapply tryBlock_settled; exact E.
    + apply catchBlock_returns.
  - intros n s0 e s1 E0 E.
    unfold generator, processUserMessageStream.
    unfold bind_io at 1. rewrite E0. unfold bind_io at 1. cbn [yield emit fst snd].
    unfold try_catch. unfold after_events in E. rewrite E.
    unfold catchBlock, checkAborted, cancelled, yield, bind_io, observe, emit, push_history, ret.
    cbn [fst snd log messages chatHistory].
    destruct (aborted (log s1)); unfold after_error, after_events;
      cbn [fst snd log messages chatHistory]; rewrite <- !app_assoc; reflexivity.
Qed.

(** X4.  [executeTool] never raises.  What a built-in tool raises comes
    back as a failed result that quotes the error, here for the bash
    tool: the loop goes on with that result. *)
Theorem tool_exceptions_become_failed_results :
  (forall toolCall s0,
     exists result s1,
       executeTool run_builtin callTool JSON_stringify ToString toolCall s0
       = (Ret result, s1))
  /\ (forall toolCall fn raw args command e s0,
        get_prop toolCall "function" = Ret fn ->
        get_prop fn "name" = Ret (JStr "bash") ->
        get_prop fn "arguments" = Ret (JStr raw) ->
        Decoder.safeJsonParse (JStr raw) = Ret args ->
        get_prop args "command" = Ret command ->
        run_builtin (log s0 ++ [ExecuteTool toolCall]) (Bash command) = Throw e ->
        executeTool run_builtin callTool JSON_stringify ToString toolCall s0
        = (Ret (failed ("Tool execution error: " ++ error_message e)),
           after_events s0 [ExecuteTool toolCall; BuiltinCalled (Bash command)])).
Proof.
  split.
  - intros toolCall s0. apply executeTool_returns.
  - intros toolCall fn raw args command e s0 Hfn Hname Hargs Hsafe Hcommand Hraise.
    rewrite (executeTool_bash toolCall fn raw args command s0 Hfn Hname Hargs Hsafe Hcommand).
    now rewrite Hraise.
Qed.

End Results.

Lemma loop_exceptions_become_error_messages_witness :
  let generator :=
    processUserMessageStream never_aborted no_tools broken_stream tools_work no_mcp
      no_tokens no_tokens no_tokens no_text no_text some_id "hello" in
  exists s0 s1,
    manageContext no_tokens "hello" start = (Ret 0%Z, s0)
    /\ tryBlock never_aborted no_tools broken_stream tools_work no_mcp no_tokens no_tokens
                no_tokens no_text no_text some_id (mkCounters 0 0 0)
                (after_events s0 [Yielded (TokenCount 0)])
       = (Throw (Error "socket hang up"), s1)
    /\ generator start = (Ret (Go tt), after_error (Error "socket hang up") s1)
    /\ yielded (log (after_error (Error "socket hang up") s1))
       = [TokenCount 0; Content "Let me"; TokenCount 0;
          Content "Sorry, I encountered an error: socket hang up"; Done].
Proof.
  intros generator. eexists _, _.
  split; [reflexivity|].
  assert (E : tryBlock never_aborted no_tools broken_stream tools_work no_mcp no_tokens
                no_tokens no_tokens no_text no_text some_id (mkCounters 0 0 0)
                (after_events (snd (manageContext no_tokens "hello" start))
                              [Yielded (TokenCount 0)])
              = (Throw (Error "socket hang up"),
                 snd (tryBlock never_aborted no_tools broken_stream tools_work no_mcp no_tokens
                        no_tokens no_tokens no_text no_text some_id (mkCounters 0 0 0)
                        (after_events (snd (manageContext no_tokens "hello" start))
                                      [Yielded (TokenCount 0)])))) by reflexivity.
  split; [exact E|]. split; [|reflexivity].
  exact (proj2 (loop_exceptions_become_error_messages never_aborted no_tools
                  broken_stream tools_work no_mcp no_tokens no_tokens no_tokens
                  no_text no_text some_id "hello" start)
           0%Z _ _ _ eq_refl E).
Defined.

Lemma tool_exceptions_become_failed_results_witness :
  executeTool tools_raise no_mcp no_text no_text bash_call start
  = (Ret (failed "Tool execution error: spawn ENOENT"),
     after_events start [ExecuteTool bash_call; BuiltinCalled (Bash (JStr "ls"))]).
Proof.
  exact (proj2 (tool_exceptions_become_failed_results tools_raise no_mcp no_text no_text)
           bash_call _ _ _ _ (Error "spawn ENOENT") start
           eq_refl eq_refl eq_refl eq_refl eq_refl eq_refl).
Defined.

(** A run in which a tool raises: the model is told so in a tool result
    and answers; no error message is yielded. *)
Example tool_exception_is_not_an_error_message :
  let run :=
    processUserMessageStream never_aborted no_tools asks_once tools_raise no_mcp
      no_tokens no_tokens no_tokens no_text no_text some_id "list the files" start in
  fst run = Ret (Go tt)
  /\ In (BuiltinCalled (Bash (JStr "ls"))) (log (snd run))
  /\ yielded (log (snd run))
     = [TokenCount 0;
        ToolCalls (JArr [bash_call]);
        ToolResultChunk bash_call (failed "Tool execution error: spawn ENOENT");
        TokenCount 0;
        Content "done"; TokenCount 0;
        Done].
Proof.
  intros run. split; [reflexivity|]. split; [|reflexivity].
  vm_compute. tauto.
Qed.

(** *** The round limit *)

Lemma count_app p a b : count p (a ++ b) = count p a + count p b.
Proof. unfold count. now rewrite filter_app, length_app. Qed.

Lemma weigh_app a b : weigh (a ++ b) = both (weigh a) (weigh b).
Proof.
  unfold weigh, both, streams, notices, echoes. rewrite !count_app. cbn [fst snd].
  f_equal. lia.
Qed.

Lemma weigh_nil : weigh [] = (0, 0%Z).
Proof. reflexivity. Qed.

Lemma runs_ret {A} (R : A -> Prop) a : R a -> runs (0, 0%Z) R (ret a).
Proof.
  intros H s. exists a, s, []. rewrite app_nil_r. repeat split; [exact H].
Qed.

Lemma runs_lift {A} (R : A -> Prop) (o : outcome A) a :
  o = Ret a -> R a -> runs (0, 0%Z) R (lift o).
Proof.
  intros -> H s. exists a, s, []. rewrite app_nil_r. repeat split; [exact H].
Qed.

Lemma runs_observe {A} (R : A -> Prop) (f : list event -> A) :
  (forall l, R (f l)) -> runs (0, 0%Z) R (observe f).
Proof.
  intros H s. exists (f (log s)), s, []. rewrite app_nil_r. repeat split; [apply H].
Qed.

Lemma runs_emit e : runs (weigh [e]) (fun _ => True) (emit e).
Proof. intros s. eexists tt, _, [e]. repeat split. Qed.

Lemma runs_emit_at w e : weigh [e] = w -> runs w (fun _ => True) (emit e).
Proof. intros <-. apply runs_emit. Qed.

Lemma runs_push_message m : runs (0, 0%Z) (fun _ => True) (push_message m).
Proof. intros s. eexists tt, _, []. cbn. rewrite app_nil_r. repeat split. Qed.

Lemma runs_push_history e : runs (0, 0%Z) (fun _ => True) (push_history e).
Proof. intros s. eexists tt, _, []. cbn. rewrite app_nil_r. repeat split. Qed.

Lemma runs_get_messages : runs (0, 0%Z) (fun _ => True) get_messages.
Proof. intros s. eexists _, _, []. cbn. rewrite app_nil_r. repeat split. Qed.

Lemma runs_set_messages ms : runs (0, 0%Z) (fun _ => True) (set_messages ms).
Proof. intros s. eexists tt, _, []. cbn. rewrite app_nil_r. repeat split. Qed.

Lemma runs_bind {A B} w1 w2 (R1 : A -> Prop) (R2 : B -> Prop) (m : io A) (k : A -> io B) :
  runs w1 R1 m -> (forall a, R1 a -> runs w2 R2 (k a)) -> runs (both w1 w2) R2 (bind_io m k).
Proof.
  intros Hm Hk s. destruct (Hm s) as (a & s1 & ext1 & E1 & L1 & W1 & Ra).
  destruct (Hk a Ra s1) as (b & s2 & ext2 & E2 & L2 & W2 & Rb).
  exists b, s2, (ext1 ++ ext2)%list. unfold bind_io. rewrite E1, E2.
  repeat split; [| |exact Rb].
  - now rewrite L2, L1, app_assoc.
  - now rewrite weigh_app, W1, W2.
Qed.

Lemma runs_weight {A} w w' (R : A -> Prop) (m : io A) : w = w' -> runs w R m -> runs w' R m.
Proof. now intros ->. Qed.

Lemma runs_result {A} w (R R' : A -> Prop) (m : io A) :
  (forall a, R a -> R' a) -> runs w R m -> runs w R' m.
Proof.
  intros HR Hm s. destruct (Hm s) as (a & s1 & ext1 & E1 & L1 & W1 & Ra).
  exists a, s1, ext1. auto.
Qed.

Lemma runs_try {A} w (R : A -> Prop) (m : io A) (h : exn -> io A) :
  runs w R m -> runs w R (try_catch m h).
Proof.
  intros Hm s. destruct (Hm s) as (a & s1 & ext1 & E1 & L1 & W1 & Ra).
  exists a, s1, ext1. unfold try_catch. rewrite E1. auto.
Qed.

(** [calm] computations *)

Lemma calm_ret {A} (a : A) : calm (ret a).
Proof. intros s. exists []. cbn. now rewrite app_nil_r. Qed.

Lemma calm_throw {A} e : calm (@throw A e).
Proof. intros s. exists []. cbn. now rewrite app_nil_r. Qed.

Lemma calm_lift {A} (o : outcome A) : calm (lift o).
Proof. intros s. exists []. cbn. now rewrite app_nil_r. Qed.

Lemma calm_observe {A} (f : list event -> A) : calm (observe f).
Proof. intros s. exists []. cbn. now rewrite app_nil_r. Qed.

Lemma calm_emit e : weigh [e] = (0, 0%Z) -> calm (emit e).
Proof. intros W s. exists [e]. cbn. auto. Qed.

Lemma calm_bind {A B} (m : io A) (k : A -> io B) :
  calm m -> (forall a, calm (k a)) -> calm (bind_io m k).
Proof.
  intros Hm Hk s. unfold bind_io. destruct (Hm s) as (ext1 & L1 & W1).
  destruct (m s) as [[a|e] s1]; cbn [fst snd] in *.
  - destruct (Hk a s1) as (ext2 & L2 & W2). exists (ext1 ++ ext2)%list.
    rewrite L2, L1, app_assoc, weigh_app, W1, W2. auto.
  - exists ext1. auto.
Qed.

Lemma calm_try {A} (m : io A) (h : exn -> io A) :
  calm m -> (forall e, calm (h e)) -> calm (try_catch m h).
Proof.
  intros Hm Hh s. unfold try_catch. destruct (Hm s) as (ext1 & L1 & W1).
  destruct (m s) as [[a|e] s1]; cbn [fst snd] in *.
  - exists ext1. auto.
  - destruct (Hh e s1) as (ext2 & L2 & W2). exists (ext1 ++ ext2)%list.
    rewrite L2, L1, app_assoc, weigh_app, W1, W2. auto.
Qed.

Lemma calm_runs {A} (m : io A) :
  calm m -> (forall s, exists a s', m s = (Ret a, s')) -> runs (0, 0%Z) (fun _ => True) m.
Proof.
  intros C H s. destruct (H s) as (a & s' & E). destruct (C s) as (ext & L & W).
  exists a, s', ext. rewrite E in L. auto.
Qed.

Ltac calm_step :=
  match goal with
  | |- calm (ret _) => apply calm_ret
  | |- calm (throw _) => apply calm_throw
  | |- calm (lift _) => apply calm_lift
  | |- calm (observe _) => apply calm_observe
  | |- calm (emit _) => apply calm_emit; reflexivity
  | |- calm (bind_io _ _) => apply calm_bind; [ | intros ? ]
  | |- calm (try_catch _ _) => apply calm_try; [ | intros ? ]
  | |- calm (if ?b then _ else _) => destruct b
  | |- calm (match ?x with _ => _ end) => destruct x
  end.

(** ** The accumulated tool calls are never [null] *)

Section Soundness.
Import Aggregator.

Lemma messageReducer_delta acc t calls :
  messageReducer acc (fragment_json (Delta t calls))
  = reduce acc (JObj [("content", JStr t);
                      ("tool_calls", match calls with Some l => JArr l | None => JUndefined end)]).
Proof. reflexivity. Qed.

Lemma reduce_not_nullish acc d r : reduce acc d = Ret r -> nullish r = false.
Proof.
  intros H. destruct (reduce_into_object _ _ _ H) as (o & [-> | (x & ->)]); reflexivity.
Qed.

Lemma delete_index_not_nullish x x' : delete_index x = Ret x' -> nullish x' = false.
Proof.
  destruct x; cbn; intros H; try discriminate H; injection H as <-; reflexivity.
Qed.

Lemma Forall_array_get (P : jsval -> Prop) (a : list jsval) :
  (forall i, i < length a -> P (array_get a i)) -> Forall P a.
Proof.
  intros H. apply Forall_forall. intros x Hx.
  destruct (In_nth _ _ JUndefined Hx) as (i & Hi & <-). now apply H.
Qed.

Lemma array_get_Forall (P : jsval -> Prop) (a : list jsval) i :
  Forall P a -> i < length a -> P (array_get a i).
Proof.
  intros H Hi. rewrite Forall_forall in H. apply H. now apply nth_In.
Qed.

Lemma delta_fields t (tc : jsval) :
  NoDup (map fst [("content", JStr t); ("tool_calls", tc)])
  /\ ~ In "__proto__" (map fst [("content", JStr t); ("tool_calls", tc)]).
Proof.
  split; [repeat constructor; cbn; intuition discriminate | cbn; intuition discriminate].
Qed.

Lemma merge_tool_calls_sound (o o' : props) (tc : jsval) :
  tc = JUndefined \/ (exists l, tc = JArr l) ->
  Forall (fun x => nullish x = false) (calls_of (JObj o)) ->
  field_effect o "tool_calls" tc (get o' "tool_calls") ->
  Forall (fun x => nullish x = false) (calls_of (JObj o')).
Proof.
  intros Htc Ho H. unfold calls_of in *. cbn [get_prop_opt get_prop] in *. unfold field_effect in H.
  assert (Fresh : forall l,
             (exists l', get o' "tool_calls" = JArr l'
                /\ length l' = length l
                /\ forall i, i < length l ->
                     delete_index (nth i l JUndefined) = Ret (nth i l' JUndefined)) ->
             Forall (fun x => nullish x = false)
                    match get o' "tool_calls" with JArr l => l | _ => [] end).
  { intros l (l' & -> & HL & HI). apply Forall_array_get. intros i Hi. rewrite HL in Hi.
    eapply delete_index_not_nullish. apply HI. exact Hi. }
  assert (Reduced : forall cur v,
             reduce cur v = Ret (get o' "tool_calls") ->
             Forall (fun x => nullish x = false)
                    match get o' "tool_calls" with JArr l => l | _ => [] end).
  { intros cur v E. destruct (reduce_into_object _ _ _ E) as (r & [-> | (x & ->)]);
      constructor. }
  destruct (get o "tool_calls") as [| |b|n|s|a|p|q p] eqn:G;
    destruct Htc as [->|[l ->]]; cbn [typeof_object andb] in H;
    try (rewrite H; constructor; fail);
    try (now apply (Fresh l));
    try (now apply (Reduced _ _ H)).
  - rewrite H. exact Ho.
  - destruct H as (a' & -> & HL & Hmid & Hhigh).
    apply Forall_array_get. intros i Hi.
    destruct (Nat.lt_ge_cases i (length l)) as [Hlt|Hge].
    + specialize (Hmid i Hlt). now apply reduce_not_nullish in Hmid.
    + rewrite Hhigh by exact Hge. apply array_get_Forall; [exact Ho | lia].
Qed.

Lemma messageReducer_sound acc t calls acc' :
  sound acc -> messageReducer acc (fragment_json (Delta t calls)) = Ret acc' -> sound acc'.
Proof.
  intros [[o ->] Ho] H. rewrite messageReducer_delta in H.
  set (tc := match calls with Some l => JArr l | None => JUndefined end) in *.
  destruct (delta_fields t tc) as [ND NP].
  destruct (reduce_plain _ _ _ (or_introl NP) H) as (o' & ->).
  split; [eauto|].
  apply (merge_tool_calls_sound o o' tc); [destruct calls; subst tc; eauto | exact Ho |].
  apply (proj1 (reduce_field o _ "tool_calls" tc o' ND (or_intror (or_introl eq_refl)) H)).
  right. reflexivity.
Qed.

Lemma sound_empty : sound (JObj []).
Proof. split; [eauto | constructor]. Qed.

Lemma accumulate_sound fs : forall acc acc',
  sound acc -> accumulate acc fs = Ret acc' -> sound acc'.
Proof.
  induction fs as [|f fs IH]; intros acc acc' Hs H; cbn [accumulate] in H.
  - now injection H as <-.
  - destruct f as [|t calls]; [eauto|].
    apply bind_ret in H as (acc1 & H1 & H). eapply IH; [|exact H].
    eapply messageReducer_sound; eauto.
Qed.

Lemma some_named_returns l :
  Forall (fun x => nullish x = false) l -> exists b, some_named l = Ret b.
Proof.
  induction 1 as [|x l Hx _ IH]; cbn [some_named]; [eauto|].
  destruct x; try discriminate Hx; cbn [get_prop bind];
    match goal with |- context [if ?c then _ else _] => destruct c end; eauto.
Qed.

Lemma get_prop_returns x p : nullish x = false -> exists v, get_prop x p = Ret v.
Proof. destruct x; intros H; try discriminate H; cbn; eauto. Qed.

End Soundness.

Lemma runs_weigh {A} w w' (R : A -> Prop) (m : io A) : runs w R m -> w = w' -> runs w' R m.
Proof. now intros H <-. Qed.

Lemma accumulate_cons acc f fs acc' :
  accumulate acc (f :: fs) = Ret acc' ->
  exists acc1, accumulate acc [f] = Ret acc1 /\ accumulate acc1 fs = Ret acc'.
Proof.
  cbn [accumulate]. destruct f as [|t calls]; [eauto|]. intros H.
  apply bind_ret in H as (acc1 & H1 & H). exists acc1. now rewrite H1.
Qed.

Section Limit.

Variable aborted : list event -> bool.
Variable getAllOllamaTools : list event -> outcome jsval.
Variable chatStream : list event -> list message -> jsval -> list fragment * option exn.
Variable run_builtin : list event -> builtin -> outcome ToolResult.
Variable callTool : list event -> string -> jsval -> outcome mcp_result.
Variable countMessageTokens : list message -> Z.
Variable estimateStreamingTokens : string -> Z.
Variable countTokens : string -> Z.
Variable JSON_stringify : jsval -> string.
Variable ToString : jsval -> string.
Variable new_call_id : list event -> nat -> string.

Lemma as_tool_call_object id parsed tc :
  as_tool_call JSON_stringify id parsed = Ret (Some tc) -> nullish tc = false.
Proof.
  unfold as_tool_call. intros H.
  apply bind_ret in H as (name & _ & H). destruct (truthy name); [|discriminate H].
  apply bind_ret in H as (arguments & _ & H). destruct (truthy arguments); [|discriminate H].
  injection H as <-. reflexivity.
Qed.

Lemma parse_call_sound l toolCalls jsonContent :
  Forall (fun x => nullish x = false) toolCalls ->
  Forall (fun x => nullish x = false) (parse_call JSON_stringify new_call_id l toolCalls jsonContent).
Proof.
  intros H. unfold parse_call.
  match goal with |- context [match ?o with _ => _ end] => destruct o as [[tc|]|e] eqn:E end;
    try exact H.
  apply Forall_app. split; [exact H|]. constructor; [|constructor].
  apply bind_ret in E as (parsed & _ & E). eapply as_tool_call_object. exact E.
Qed.

Lemma parseToolCallsFromContent_sound l content :
  Forall (fun x => nullish x = false)
         (parseToolCallsFromContent JSON_stringify new_call_id l content).
Proof.
  unfold parseToolCallsFromContent. destruct content; try constructor.
  destruct (s =? "")%string; [constructor|]. cbv zeta.
  assert (F : forall fs init, Forall (fun x => nullish x = false) init ->
            Forall (fun x => nullish x = false)
              (fold_left (fun toolCalls f =>
                            parse_call JSON_stringify new_call_id l toolCalls
                                       (trim (Decoder.group_text 1 f))) fs init)).
  { induction fs as [|f fs IH]; intros init Hi; cbn [fold_left]; [exact Hi|].
    apply IH. now apply parse_call_sound. }
  match goal with |- context [match ?x with _ => _ end] =>
    pose proof (F (Regex.matchAll jsonBlockRegex s) [] (Forall_nil _)) as HF;
    destruct x eqn:E end.
  - apply parse_call_sound. constructor.
  - exact HF.
Qed.

Lemma invocations_sound l acc :
  sound acc -> Forall (fun x => nullish x = false) (invocations JSON_stringify new_call_id l acc).
Proof.
  intros [_ H]. unfold invocations. destruct (calls_of acc) eqn:E.
  - apply parseToolCallsFromContent_sound.
  - exact H.
Qed.

(** The tools add nothing to the counts. *)

Lemma calm_executeMCPTool toolCall : calm (executeMCPTool callTool ToString toolCall).
Proof. unfold executeMCPTool. repeat calm_step. Qed.

Lemma calm_call_builtin b : calm (call_builtin run_builtin b).
Proof. unfold call_builtin. repeat calm_step. Qed.

Lemma calm_dispatch toolCall name args :
  calm (dispatch run_builtin callTool JSON_stringify ToString toolCall name args).
Proof.
  unfold dispatch. cbv zeta.
  repeat first [apply calm_call_builtin | apply calm_executeMCPTool | calm_step].
Qed.

Lemma calm_executeTool toolCall :
  calm (executeTool run_builtin callTool JSON_stringify ToString toolCall).
Proof. unfold executeTool. repeat first [apply calm_dispatch | calm_step]. Qed.


Lemma runs_executeTool toolCall :
  runs (0, 0%Z) (fun _ => True)
       (executeTool run_builtin callTool JSON_stringify ToString toolCall).
Proof. apply calm_runs; [apply calm_executeTool | apply executeTool_returns]. Qed.

Lemma runs_absorb f c st acc' :
  sound (accumulatedMessage st) ->
  accumulate (accumulatedMessage st) [f] = Ret acc' ->
  runs (0, if limit_echoed (FragmentReceived f) then 1%Z else 0%Z)
       (fun r => toolRounds (fst r) = toolRounds c /\ accumulatedMessage (snd r) = acc')
       (absorb estimateStreamingTokens countTokens JSON_stringify f c st).
Proof.
  intros Hs H. destruct f as [|t calls]; cbn [accumulate] in H.
  - injection H as <-. apply runs_ret. split; reflexivity.
  - apply bind_ret in H as (acc1 & H1 & E). injection E as <-.
    destruct (messageReducer_sound _ _ _ _ Hs H1) as [_ Hc].
    destruct (some_named_returns _ Hc) as [b Hb].
    intros s. unfold absorb, bind_io, lift, yield, emit, ret. rewrite H1. cbn [fst snd].
    assert (N : negb (t =? "")%string = false -> (t =? limitNotice)%string = false).
    { intros Ht. apply negb_false_iff, String.eqb_eq in Ht. now subst t. }
    cbn [limit_echoed].
    destruct (negb (toolCallsYielded st) && (0 <? length (calls_of acc1))%nat);
      [rewrite Hb; destruct b|]; cbn [fst snd];
      destruct (negb (t =? "")%string) eqn:Ht; cbn [fst snd];
      try rewrite (N eq_refl);
      eexists _, _, _; (split; [reflexivity|]); cbn [log fst snd toolRounds accumulatedMessage].
    all: split; [first [reflexivity | rewrite <- !app_assoc; reflexivity
                       | symmetry; apply app_nil_r]|].
    all: split; [|split; reflexivity].
    all: unfold weigh, streams, notices, echoes, count.
    all: cbn [filter stream_started limit_noticed limit_echoed app].
    all: try destruct (t =? limitNotice)%string; reflexivity.
Qed.

(** ** The round limit *)

Hypothesis never_cancelled : forall l, aborted l = false.

Hypothesis tools_listed : forall l, exists tools, getAllOllamaTools l = Ret tools.

Hypothesis always_invokes : forall l sent tools, exists fs acc,
  chatStream l sent tools = (fs, None)
  /\ accumulate (JObj []) fs = Ret acc
  /\ forall l', invocations JSON_stringify new_call_id l' acc <> [].

Lemma runs_guard {A} w (R : flow A -> Prop) (k : io (flow A)) :
  runs w R k ->
  runs w R (bind_io (checkAborted aborted) (fun stop : bool => if stop then cancelled else k)).
Proof.
  intros Hk s.
  destruct (Hk (mkAgent (messages s) (chatHistory s) (log s ++ [AbortChecked false])))
    as (a & s' & ext & E & L & W & Ra).
  exists a, s', (AbortChecked false :: ext).
  unfold checkAborted, bind_io, observe, emit, ret. cbn [fst snd].
  rewrite never_cancelled. rewrite E. cbn [log] in L. rewrite L, <- app_assoc.
  repeat split; [|exact Ra]. rewrite <- W. reflexivity.
Qed.

Lemma runs_consume fs : forall c st acc',
  sound (accumulatedMessage st) ->
  accumulate (accumulatedMessage st) fs = Ret acc' ->
  runs (0, 0%Z)
       (fun r => exists c' st', r = Go (c', st') /\ toolRounds c' = toolRounds c
                                /\ accumulatedMessage st' = acc')
       (consume aborted estimateStreamingTokens countTokens JSON_stringify fs None c st).
Proof.
  induction fs as [|f fs IH]; intros c st acc' Hs H.
  - cbn in H. injection H as <-. cbn [consume]. apply runs_ret. eauto.
  - apply accumulate_cons in H as (acc1 & H1 & H). cbn [consume].
    eapply runs_weigh.
    + eapply runs_bind; [apply runs_emit|]. intros _ _. apply runs_guard.
      eapply runs_bind; [apply runs_absorb; [exact Hs|exact H1]|].
      intros r [Hr1 Hr2]. rewrite <- Hr1. apply IH; rewrite Hr2; [|exact H].
      eapply accumulate_sound; [exact Hs|exact H1].
    + destruct f as [|t calls]; [reflexivity|].
      unfold weigh, streams, notices, echoes, count, both.
      cbn [filter stream_started limit_noticed limit_echoed].
      destruct (t =? limitNotice)%string; reflexivity.
Qed.

Lemma runs_run_tools toolCalls :
  Forall (fun x => nullish x = false) toolCalls ->
  runs (0, 0%Z) (fun r => r = Go tt)
       (run_tools aborted run_builtin callTool JSON_stringify ToString toolCalls).
Proof.
  induction 1 as [|toolCall rest Hx _ IH]; cbn [run_tools].
  - now apply runs_ret.
  - destruct (get_prop_returns toolCall "id" Hx) as [id Hid].
    apply runs_guard. eapply runs_weigh.
    + eapply runs_bind; [apply runs_executeTool|]. intros result _.
      eapply runs_bind; [apply runs_push_history|]. intros _ _.
      eapply runs_bind; [apply (runs_emit_at (0, 0%Z)); reflexivity|]. intros _ _.
      eapply runs_bind; [eapply (runs_lift (fun x => x = id)); [exact Hid|reflexivity]|].
      intros ? ->.
      eapply runs_bind; [apply runs_push_message|]. intros _ _. exact IH.
    + reflexivity.
Qed.

Lemma runs_invocations acc :
  sound acc ->
  runs (0, 0%Z)
       (fun toolCalls => exists l, toolCalls = invocations JSON_stringify new_call_id l acc)
       (match calls_of acc with
        | [] => observe (fun l => parseToolCallsFromContent JSON_stringify new_call_id l
                                    (get_prop_opt acc "content"))
        | calls => ret calls
        end).
Proof.
  intros [[o ->] _]. unfold invocations. change (get_prop_opt (JObj o) "content")
    with (get (spread (JObj o)) "content"). destruct (calls_of (JObj o)).
  - apply runs_observe. eauto.
  - apply runs_ret. exists []. reflexivity.
Qed.

Lemma runs_round c :
  runs (1, 0%Z)
       (fun r => exists c', r = Go (true, c') /\ toolRounds c' = S (toolRounds c))
       (round aborted getAllOllamaTools chatStream run_builtin callTool countMessageTokens
              estimateStreamingTokens countTokens JSON_stringify ToString new_call_id c).
Proof.
  unfold round. apply runs_guard. eapply runs_weigh.
  - eapply runs_bind;
      [apply (runs_observe (fun x => exists t, x = Ret t)); intros l; apply tools_listed|].
    intros ? [tools ->].
    eapply runs_bind; [apply (runs_emit_at (0, 0%Z)); reflexivity|]. intros _ _.
    eapply runs_bind; [eapply (runs_lift (fun x => x = tools)); reflexivity|]. intros ? ->.
    eapply runs_bind; [apply runs_get_messages|]. intros sent _.
    eapply runs_bind;
      [apply (runs_observe (fun x => exists fs acc,
                 x = (fs, None) /\ accumulate (JObj []) fs = Ret acc
                 /\ forall l', invocations JSON_stringify new_call_id l' acc <> []));
       intros l; apply always_invokes|].
    intros ? (fs & acc & -> & Hacc & Hinv). cbn [fst snd].
    eapply runs_bind; [apply (runs_emit_at (1, 0%Z)); reflexivity|]. intros _ _.
    eapply runs_bind; [apply runs_consume; [apply sound_empty|exact Hacc]|].
    intros ? (c' & st' & -> & Hc & Hst). cbn [accumulatedMessage] in Hst. cbv zeta.
    rewrite Hst.
    eapply runs_bind;
      [apply runs_invocations, (accumulate_sound _ _ _ sound_empty Hacc)|].
    intros toolCalls [l ->].
    pose proof (Hinv l) as Hne.
    pose proof (invocations_sound l acc (accumulate_sound _ _ _ sound_empty Hacc)) as Hnn.
    destruct (invocations JSON_stringify new_call_id l acc) as [|tc tcs] eqn:E;
      [congruence|].
    eapply runs_bind; [apply runs_push_history|]. intros _ _.
    eapply runs_bind; [apply runs_push_message|]. intros _ _.
    cbn [length Nat.ltb Nat.leb].
    eapply runs_bind with (R1 := fun _ => True) (w1 := (0, 0%Z)).
    { destruct (negb (toolCallsYielded st')); [apply (runs_emit_at (0, 0%Z)); reflexivity | now apply runs_ret]. }
    intros _ _.
    eapply runs_bind; [apply runs_run_tools; exact Hnn|]. intros ? ->.
    eapply runs_bind; [apply runs_get_messages|]. intros now _.
    eapply runs_bind; [apply (runs_emit_at (0, 0%Z)); reflexivity|]. intros _ _.
    apply runs_ret. eexists. split; [reflexivity|]. cbn [toolRounds]. now rewrite Hc.
  - reflexivity.
Qed.

Lemma runs_rounds : forall fuel c,
  toolRounds c <= maxToolRounds -> maxToolRounds - toolRounds c <= fuel ->
  runs (maxToolRounds - toolRounds c, 0%Z)
       (fun r => exists c', r = Go c' /\ toolRounds c' = maxToolRounds)
       (rounds aborted getAllOllamaTools chatStream run_builtin callTool countMessageTokens
               estimateStreamingTokens countTokens JSON_stringify ToString new_call_id fuel c).
Proof.
  induction fuel as [|fuel IH]; intros c Hle Hfuel; cbn [rounds];
    destruct (Nat.ltb_spec (toolRounds c) maxToolRounds) as [Hlt|Hge].
  - lia.
  - replace (maxToolRounds - toolRounds c) with 0 by lia. apply runs_ret.
    exists c. split; [reflexivity|lia].
  - eapply runs_weigh.
    + eapply runs_bind with (w2 := (maxToolRounds - S (toolRounds c), 0%Z));
        [apply runs_round|]. intros ? (c' & -> & Hc).
      rewrite <- Hc. apply IH; lia.
    + unfold both. cbn [fst snd]. f_equal. lia.
  - replace (maxToolRounds - toolRounds c) with 0 by lia. apply runs_ret.
    exists c. split; [reflexivity|lia].
Qed.


Lemma manageContext_result text s :
  exists n s', manageContext countMessageTokens text s = (Ret n, s') /\ log s' = log s.
Proof.
  unfold manageContext, bind_io, push_history, push_message, get_messages, set_messages, ret.
  cbn [fst snd messages].
  match goal with |- context [if ?b then _ else _] => destruct b end;
    eexists _, _; split; reflexivity.
Qed.

Lemma tryBlock_limit c s :
  toolRounds c <= maxToolRounds ->
  exists s' body,
    tryBlock aborted getAllOllamaTools chatStream run_builtin callTool countMessageTokens
             estimateStreamingTokens countTokens JSON_stringify ToString new_call_id c s
    = (Ret (Go tt), s')
    /\ log s' = (log s ++ body ++ [Yielded (Content limitNotice); Yielded Done])%list
    /\ weigh body = (maxToolRounds - toolRounds c, 0%Z).
Proof.
  intros Hle.
  destruct (runs_rounds maxToolRounds c Hle (Nat.le_sub_l _ _) s)
    as (r & s1 & body & E & L & W & c' & -> & Hc).
  eexists _, body.
  unfold tryBlock, bind_io at 1. rewrite E. cbn [fst snd]. rewrite Hc, Nat.leb_refl.
  split; [reflexivity|]. split; [|exact W].
  cbn [log]. now rewrite L, <- !app_assoc.
Qed.

(** X5.  When the run is never cancelled, the list of tools is always
    obtained and every stream ends with an accumulated message that
    holds tool invocations, [processUserMessageStream] returns after
    exactly 50 rounds, each with one stream: its last two chunks are the
    limit notice and the final chunk, and before them the text of the
    notice is only yielded where the model itself streamed it, so that
    the loop yields the notice exactly once. *)
Theorem tool_rounds_stop_at_the_limit (text : string) (s : agent) :
  exists s' body,
    processUserMessageStream aborted getAllOllamaTools chatStream run_builtin callTool
      countMessageTokens estimateStreamingTokens countTokens JSON_stringify ToString
      new_call_id text s
    = (Ret (Go tt), s')
    /\ log s' = (log s ++ body ++ [Yielded (Content limitNotice); Yielded Done])%list
    /\ streams body = 50
    /\ notices body = echoes body
    /\ notices (body ++ [Yielded (Content limitNotice); Yielded Done]) = S (echoes body).
Proof.
  destruct (manageContext_result text s) as (n & s0 & E0 & L0).
  destruct (tryBlock_limit (mkCounters 0 n 0) (after_events s0 [Yielded (TokenCount n)])
              (Nat.le_0_l _))
    as (s' & body & E & L & W).
  exists s', (Yielded (TokenCount n) :: body).
  unfold processUserMessageStream, bind_io at 1. rewrite E0. cbn [fst snd].
  unfold bind_io, yield, emit, try_catch. cbn [fst snd].
  unfold after_events in E. rewrite E.
  split; [reflexivity|]. unfold after_events in L. cbn [log] in L.
  split; [rewrite L, L0, <- app_assoc; reflexivity|].
  unfold weigh in W. cbn [toolRounds] in W. injection W as Ws Wb.
  assert (Hs : streams (Yielded (TokenCount n) :: body) = streams body) by reflexivity.
  assert (Hn : notices (Yielded (TokenCount n) :: body) = notices body) by reflexivity.
  assert (He : echoes (Yielded (TokenCount n) :: body) = echoes body) by reflexivity.
  split; [rewrite Hs; exact Ws|].
  assert (Hb : notices body = echoes body) by lia.
  split; [now rewrite Hn, He|].
  unfold notices at 1. rewrite count_app. fold (notices (Yielded (TokenCount n) :: body)).
  rewrite Hn, He, Hb. unfold count. cbn. lia.
Qed.

End Limit.

Lemma tool_rounds_stop_at_the_limit_witness :
  exists s' body,
    processUserMessageStream never_aborted no_tools keeps_asking tools_work no_mcp
      no_tokens no_tokens no_tokens no_text no_text some_id "list the files" start
    = (Ret (Go tt), s')
    /\ log s' = (log start ++ body ++ [Yielded (Content limitNotice); Yielded Done])%list
    /\ streams body = 50
    /\ notices body = echoes body
    /\ notices (body ++ [Yielded (Content limitNotice); Yielded Done]) = S (echoes body).
Proof.
  apply (tool_rounds_stop_at_the_limit never_aborted no_tools keeps_asking tools_work no_mcp
           no_tokens no_tokens no_tokens no_text no_text some_id).
  - reflexivity.
  - intros l. eexists. reflexivity.
  - intros l sent tools. eexists _, _. split; [reflexivity|]. split; [reflexivity|].
    intros l'. discriminate.
Defined.
(** ** The tools *)

Lemma keeps_ret {A} P (a : A) : keeps P (ret a).
Proof. intros s. exists []. cbn. now rewrite app_nil_r. Qed.

Lemma keeps_throw {A} P e : keeps P (@throw A e).
Proof. intros s. exists []. cbn. now rewrite app_nil_r. Qed.

Lemma keeps_lift {A} P (o : outcome A) : keeps P (lift o).
Proof. intros s. exists []. cbn. now rewrite app_nil_r. Qed.

Lemma keeps_emit (P : event -> Prop) e : P e -> keeps P (emit e).
Proof. intros H s. exists [e]. cbn. auto. Qed.

Lemma keeps_bind {A B} P (m : io A) (k : A -> io B) :
  keeps P m -> (forall a, keeps P (k a)) -> keeps P (bind_io m k).
Proof.
  intros Hm Hk s. unfold bind_io. destruct (Hm s) as (ext1 & L1 & F1).
  destruct (m s) as [[a|e] s1]; cbn [fst snd] in *.
  - destruct (Hk a s1) as (ext2 & L2 & F2). exists (ext1 ++ ext2)%list.
    rewrite L2, L1, app_assoc. split; [reflexivity | now apply Forall_app].
  - exists ext1. auto.
Qed.

Lemma keeps_bind_lift {A B} P (o : outcome A) (k : A -> io B) :
  (forall a, o = Ret a -> keeps P (k a)) -> keeps P (bind_io (lift o) k).
Proof.
  intros Hk s. unfold bind_io, lift. destruct o as [a|e].
  - apply (Hk a eq_refl).
  - exists []. cbn. now rewrite app_nil_r.
Qed.

Lemma keeps_bind_observe {A B} P (f : list event -> A) (k : A -> io B) :
  (forall a, keeps P (k a)) -> keeps P (bind_io (observe f) k).
Proof. intros Hk s. unfold bind_io, observe. apply Hk. Qed.

Lemma keeps_try {A} P (m : io A) (h : exn -> io A) :
  keeps P m -> (forall e, keeps P (h e)) -> keeps P (try_catch m h).
Proof.
  intros Hm Hh s. unfold try_catch. destruct (Hm s) as (ext1 & L1 & F1).
  destruct (m s) as [[a|e] s1]; cbn [fst snd] in *.
  - exists ext1. auto.
  - destruct (Hh e s1) as (ext2 & L2 & F2). exists (ext1 ++ ext2)%list.
    rewrite L2, L1, app_assoc. split; [reflexivity | now apply Forall_app].
Qed.

Lemma missing_text_false args f :
  missing_text args f = false ->
  forall v, get_prop args f = Ret v -> is_text v.
Proof.
  unfold missing_text, get_prop_opt. intros H v Hv. rewrite Hv in H.
  apply orb_false_iff in H as [_ H].
  destruct v; try discriminate H. apply orb_false_iff in H as [_ H].
  exists s. split; [reflexivity|]. now apply String.eqb_neq.
Qed.

Section Tools.

Variable run_builtin : list event -> builtin -> outcome ToolResult.
Variable callTool : list event -> string -> jsval -> outcome mcp_result.
Variable JSON_stringify : jsval -> string.
Variable ToString : jsval -> string.

Lemma keeps_call_builtin P b :
  P (BuiltinCalled b) -> keeps P (call_builtin run_builtin b).
Proof.
  intros H. unfold call_builtin. apply keeps_bind_observe. intros result.
  apply keeps_bind; [now apply keeps_emit | intros _; apply keeps_lift].
Qed.

Lemma keeps_executeMCPTool P toolCall :
  (forall name args, P (McpCalled name args)) ->
  keeps P (executeMCPTool callTool ToString toolCall).
Proof.
  intros H. unfold executeMCPTool.
  apply keeps_try; [|intros e; apply keeps_ret].
  repeat (apply keeps_bind_lift; intros ? _).
  apply keeps_bind_observe. intros result.
  apply keeps_bind; [apply keeps_emit, H|]. intros _.
  apply keeps_bind_lift. intros r _. destruct (isError r); apply keeps_ret.
Qed.

Lemma keeps_dispatch toolCall name args :
  keeps runs_on_text (dispatch run_builtin callTool JSON_stringify ToString toolCall name args).
Proof.
  unfold dispatch. cbv zeta.
  repeat match goal with
  | |- keeps _ (if missing_text ?a ?f then _ else _) =>
      let M := fresh "M" in destruct (missing_text a f) eqn:M
  | |- keeps _ (if ?b then _ else _) => destruct b
  | |- keeps _ (match ?x with _ => _ end) => destruct x
  | |- keeps _ (ret _) => apply keeps_ret
  | |- keeps _ (throw _) => apply keeps_throw
  | |- keeps _ (bind_io (lift _) _) => apply keeps_bind_lift; intros ? ?
  | |- keeps _ (executeMCPTool _ _ _) => apply keeps_executeMCPTool; intros; exact I
  | |- keeps _ (call_builtin _ _) => apply keeps_call_builtin; cbn [runs_on_text]
  | |- is_text _ => eapply missing_text_false; eassumption
  | |- True => exact I
  end.
Qed.

Lemma missing_text_iff args f :
  missing_text args f = true <-> ~ is_text (get_prop_opt args f).
Proof.
  unfold missing_text. split.
  - intros H (s & E & T). rewrite E in H.
    destruct (truthy args) eqn:Ta; cbn [negb orb] in H.
    + apply orb_true_iff in H as [H|H]; apply String.eqb_eq in H; [subst s; now apply T | contradiction].
    + unfold get_prop_opt in E.
      destruct args as [| |b|n|c|l|o|q o]; cbn in Ta; try discriminate Ta;
        cbn in E; try discriminate E.
      destruct c; [|discriminate Ta]. cbn in E.
      destruct (f =? "length")%string; discriminate E.
  - intros N. destruct (get_prop_opt args f) as [| |b|n|c|l|o|q o];
      try (apply orb_true_r).
    destruct (trim c =? "")%string eqn:T; [now rewrite !orb_true_r|].
    exfalso. apply N. exists c. split; [reflexivity|]. now apply String.eqb_neq.
Qed.

Lemma executeTool_dispatches name arguments args s :
  Decoder.safeJsonParse arguments = Ret args ->
  executeTool run_builtin callTool JSON_stringify ToString (call_of name arguments) s
  = try_catch (dispatch run_builtin callTool JSON_stringify ToString
                 (call_of name arguments) (JStr name) args)
      (fun e => ret (failed ("Tool execution error: " ++ error_message e)))
      (after_events s [ExecuteTool (call_of name arguments)]).
Proof.
  intros Hsafe. unfold executeTool, bind_io, try_catch, emit, lift.
  cbn [fst snd call_of get_prop get lookup]. cbn. rewrite Hsafe. reflexivity.
Qed.

(** X6.  The file viewer and the search built-ins are only ever invoked
    with a path, respectively a query, that is a string holding a
    character other than white space.  A call of view_file whose
    decoded arguments have any other value for path, and a call of search
    whose decoded arguments have any other value for query, is answered
    with the invalid-parameter error, which shows the value, and nothing
    is invoked. *)
Theorem viewer_and_search_run_on_text_only (toolCall : jsval) (s : agent) :
  (exists ext,
    log (snd (executeTool run_builtin callTool JSON_stringify ToString toolCall s))
    = (log s ++ ext)%list
    /\ (forall path range, In (BuiltinCalled (View path range)) ext -> is_text path)
    /\ (forall query options, In (BuiltinCalled (Search query options)) ext -> is_text query))
  /\ (forall arguments args,
        Decoder.safeJsonParse arguments = Ret args ->
        ~ is_text (get_prop_opt args "path") ->
        executeTool run_builtin callTool JSON_stringify ToString
          (call_of "view_file" arguments) s
        = (Ret (failed ("Invalid path parameter: " ++ JSON_stringify (get_prop_opt args "path")
                        ++ ". Path must be a non-empty string.")),
           after_events s [ExecuteTool (call_of "view_file" arguments)]))
  /\ (forall arguments args,
        Decoder.safeJsonParse arguments = Ret args ->
        ~ is_text (get_prop_opt args "query") ->
        executeTool run_builtin callTool JSON_stringify ToString
          (call_of "search" arguments) s
        = (Ret (failed ("Invalid query parameter: " ++ JSON_stringify (get_prop_opt args "query")
                        ++ ". Query must be a non-empty string.")),
           after_events s [ExecuteTool (call_of "search" arguments)])).
Proof.
  split; [|split].
  - assert (K : keeps runs_on_text
                  (executeTool run_builtin callTool JSON_stringify ToString toolCall)).
    { unfold executeTool. apply keeps_bind; [now apply keeps_emit|]. intros _.
      apply keeps_try; [|intros e; apply keeps_ret].
      repeat (apply keeps_bind_lift; intros ? _). apply keeps_dispatch. }
    destruct (K s) as (ext & L & F). exists ext. split; [exact L|].
    rewrite Forall_forall in F. split; intros ? ? HI; exact (F _ HI).
  - intros arguments args Hsafe N. apply missing_text_iff in N.
    rewrite (executeTool_dispatches _ _ _ _ Hsafe).
    unfold dispatch. cbv zeta. cbn [String.eqb Ascii.eqb Bool.eqb]. rewrite N. reflexivity.
  - intros arguments args Hsafe N. apply missing_text_iff in N.
    rewrite (executeTool_dispatches _ _ _ _ Hsafe).
    unfold dispatch. cbv zeta. cbn [String.eqb Ascii.eqb Bool.eqb]. rewrite N. reflexivity.
Qed.

(** X7.  A tool whose name is none of the built-in names and does not
    start with mcp__ is refused by name, whatever its arguments are:
    nothing is called. *)
Theorem unknown_tools_are_refused (name : string) (arguments : jsval) (s : agent) :
  ~ In name builtin_names ->
  startsWith "mcp__" name = false ->
  executeTool run_builtin callTool JSON_stringify ToString (call_of name arguments) s
  = (Ret (failed ("Unknown tool: " ++ name)),
     after_events s [ExecuteTool (call_of name arguments)]).
Proof.
  intros Hn Hm.
  destruct (safeJsonParse_returns arguments) as (args & Hsafe).
  unfold executeTool, bind_io, try_catch, emit, lift. cbn [fst snd call_of get_prop get lookup].
  cbn. rewrite Hsafe. cbn [fst snd].
  unfold dispatch. cbv zeta.
  assert (N : forall n, In n builtin_names -> (name =? n)%string = false).
  { intros n HI. apply String.eqb_neq. intros ->. contradiction. }
  rewrite !N by (cbn; tauto). rewrite Hm. reflexivity.
Qed.

Lemma first_text_not_empty items : first_text items <> "".
Proof.
  unfold first_text. destruct items as [|[t|u|r] items]; try discriminate.
  destruct (t =? "")%string eqn:E; [discriminate | now apply String.eqb_neq].
Qed.

(** X8.  [executeMCPTool] never raises and leaves the conversation alone.
    It calls the external tool at most once, and only with arguments that
    [JSON.parse] read from the call; its result always has a text to
    show, and it is a success only when the tool returned a result that
    is not marked as an error. *)
Theorem mcp_results_have_a_text (toolCall : jsval) (s : agent) :
  exists result s' ext,
    executeMCPTool callTool ToString toolCall s = (Ret result, s')
    /\ messages s' = messages s /\ chatHistory s' = chatHistory s
    /\ log s' = (log s ++ ext)%list
    /\ has_text result
    /\ (ext = []
        \/ exists fn raw name args,
             get_prop toolCall "function" = Ret fn
             /\ get_prop fn "arguments" = Ret raw
             /\ Json.parse (text_of ToString raw) = Ret args
             /\ ext = [McpCalled name args]
             /\ (success result = true ->
                 exists r, callTool (log s) name args = Ret r /\ isError r = false)).
Proof.
  unfold executeMCPTool, try_catch, bind_io, lift, observe, emit, ret.
  destruct (get_prop toolCall "function") as [fn|e] eqn:Hfn; cbn [fst snd];
    [|exists (failed ("MCP tool execution error: " ++ error_message e)), s, [];
      rewrite app_nil_r; repeat split; [eexists; split; [reflexivity|discriminate] | now left]].
  destruct (get_prop fn "arguments") as [raw|e] eqn:Hraw; cbn [fst snd];
    [|exists (failed ("MCP tool execution error: " ++ error_message e)), s, [];
      rewrite app_nil_r; repeat split; [eexists; split; [reflexivity|discriminate] | now left]].
  destruct (Json.parse (text_of ToString raw)) as [args|e] eqn:Hargs; cbn [fst snd];
    [|exists (failed ("MCP tool execution error: " ++ error_message e)), s, [];
      rewrite app_nil_r; repeat split; [eexists; split; [reflexivity|discriminate] | now left]].
  destruct (get_prop fn "name") as [name|e] eqn:Hname; cbn [fst snd];
    [|exists (failed ("MCP tool execution error: " ++ error_message e)), s, [];
      rewrite app_nil_r; repeat split; [eexists; split; [reflexivity|discriminate] | now left]].
  destruct (callTool (log s) (text_of ToString name) args) as [r|e] eqn:Hcall; cbn [fst snd].
  - destruct (isError r) eqn:Herr; eexists _, _, [McpCalled (text_of ToString name) args];
      (split; [reflexivity|]); cbn [messages chatHistory log];
      repeat (split; [reflexivity|]).
    + split; [eexists; split; [reflexivity | apply first_text_not_empty]|].
      right. exists fn, raw, (text_of ToString name), args. repeat split; auto.
      intros C. discriminate C.
    + split.
      * eexists. split; [reflexivity|].
        destruct (_ =? "")%string eqn:E; [discriminate | now apply String.eqb_neq].
      * right. exists fn, raw, (text_of ToString name), args. repeat split; auto.
        intros _. exists r. auto.
  - eexists _, _, [McpCalled (text_of ToString name) args].
    split; [reflexivity|]. cbn [messages chatHistory log].
    repeat (split; [reflexivity|]).
    split; [eexists; split; [reflexivity|discriminate]|].
    right. exists fn, raw, (text_of ToString name), args. repeat split; auto.
    intros C. discriminate C.
Qed.

Variable new_call_id : list event -> nat -> string.

Lemma as_tool_call_shape id parsed tc :
  as_tool_call JSON_stringify id parsed = Ret (Some tc) ->
  exists name arguments, tc = parsed_call id name arguments /\ truthy name = true.
Proof.
  unfold as_tool_call. intros H.
  apply bind_ret in H as (name & _ & H). destruct (truthy name) eqn:Hn; [|discriminate H].
  apply bind_ret in H as (arguments & _ & H). destruct (truthy arguments); [|discriminate H].
  injection H as <-. exists name.
  destruct arguments; eexists; (split; [reflexivity | exact Hn]).
Qed.

Lemma parse_call_shape l toolCalls jsonContent :
  (forall k tc, nth_error toolCalls k = Some tc ->
     exists name arguments, tc = parsed_call (new_call_id l k) name arguments
                            /\ truthy name = true) ->
  forall k tc,
    nth_error (parse_call JSON_stringify new_call_id l toolCalls jsonContent) k = Some tc ->
    exists name arguments, tc = parsed_call (new_call_id l k) name arguments
                           /\ truthy name = true.
Proof.
  intros H k tc. unfold parse_call.
  match goal with |- context [match ?o with _ => _ end] => destruct o as [[c|]|e] eqn:E end;
    try apply H.
  apply bind_ret in E as (parsed & _ & E). apply as_tool_call_shape in E.
  destruct (Nat.lt_ge_cases k (length toolCalls)) as [Hlt|Hge].
  - rewrite nth_error_app1 by exact Hlt. apply H.
  - rewrite nth_error_app2 by exact Hge.
    destruct (k - length toolCalls) as [|d] eqn:D; cbn [nth_error].
    + intros T. injection T as <-. replace k with (length toolCalls) by lia. exact E.
    + destruct d; discriminate.
Qed.

(** X9.  Every tool call [parseToolCallsFromContent] reads from a content
    is a function call with an identifier of its own, the one made for
    its position, a name that is not empty and arguments that are a
    string. *)
Theorem parsed_tool_calls_are_function_calls (l : list event) (content : jsval) :
  forall k tc,
    nth_error (parseToolCallsFromContent JSON_stringify new_call_id l content) k = Some tc ->
    exists name arguments,
      tc = parsed_call (new_call_id l k) name arguments /\ truthy name = true.
Proof.
  assert (N : forall k (tc : jsval), nth_error [] k = Some tc ->
            exists name arguments, tc = parsed_call (new_call_id l k) name arguments
                                   /\ truthy name = true)
    by (intros [|k] tc H; discriminate H).
  unfold parseToolCallsFromContent. destruct content; try exact N.
  destruct (s =? "")%string; [exact N|]. cbv zeta.
  assert (F : forall fs init,
            (forall k tc, nth_error init k = Some tc ->
               exists name arguments, tc = parsed_call (new_call_id l k) name arguments
                                      /\ truthy name = true) ->
            forall k tc,
              nth_error (fold_left (fun toolCalls f =>
                            parse_call JSON_stringify new_call_id l toolCalls
                                       (trim (Decoder.group_text 1 f))) fs init) k = Some tc ->
              exists name arguments, tc = parsed_call (new_call_id l k) name arguments
                                     /\ truthy name = true).
  { induction fs as [|f fs IH]; intros init Hi; cbn [fold_left]; [exact Hi|].
    apply IH. now apply parse_call_shape. }
  match goal with |- context [match ?x with _ => _ end] =>
    pose proof (F (Regex.matchAll jsonBlockRegex s) [] N) as HF;
    destruct x eqn:E end.
  - apply parse_call_shape. exact N.
  - exact HF.
Qed.

End Tools.

Lemma viewer_and_search_run_on_text_only_witness :
  Decoder.safeJsonParse (JStr (quoted "{'path': true}")) = Ret (JObj [("path", JBool true)])
  /\ executeTool tools_work no_mcp compact_json no_text
       (call_of "view_file" (JStr (quoted "{'path': true}"))) start
     = (Ret (failed "Invalid path parameter: true. Path must be a non-empty string."),
        after_events start [ExecuteTool (call_of "view_file" (JStr (quoted "{'path': true}")))]).
Proof.
  split; [reflexivity|].
  refine (proj1 (proj2 (viewer_and_search_run_on_text_only tools_work no_mcp compact_json
                          no_text JUndefined start)) _ (JObj [("path", JBool true)]) _ _).
  - reflexivity.
  - intros (x & E & _). discriminate E.
Defined.

Lemma unknown_tools_are_refused_witness :
  executeTool tools_work no_mcp no_text no_text (call_of "rm_rf" (JStr "{}")) start
  = (Ret (failed "Unknown tool: rm_rf"),
     after_events start [ExecuteTool (call_of "rm_rf" (JStr "{}"))]).
Proof.
  apply (unknown_tools_are_refused tools_work no_mcp no_text no_text "rm_rf" (JStr "{}") start).
  - cbn. intros H. repeat (destruct H as [H|H]; [discriminate H|]). exact H.
  - reflexivity.
Defined.

Lemma parsed_tool_calls_are_function_calls_witness :
  exists name arguments,
    parsed_call "call_0" (JStr "bash") "" = parsed_call (some_id [] 0) name arguments
    /\ truthy name = true.
Proof.
  exact (parsed_tool_calls_are_function_calls no_text some_id []
           (JStr (quoted "{'name':'bash','arguments':{'command':'ls'}}")) 0
           (parsed_call "call_0" (JStr "bash") "") eq_refl).
Defined.

(** ** The reply of the model *)

Lemma untouched_ret {A} (a : A) : untouched (ret a).
Proof. intros s. split; reflexivity. Qed.

Lemma untouched_throw {A} e : untouched (@throw A e).
Proof. intros s. split; reflexivity. Qed.

Lemma untouched_lift {A} (o : outcome A) : untouched (lift o).
Proof. intros s. split; reflexivity. Qed.

Lemma untouched_observe {A} (f : list event -> A) : untouched (observe f).
Proof. intros s. split; reflexivity. Qed.

Lemma untouched_emit e : untouched (emit e).
Proof. intros s. split; reflexivity. Qed.

Lemma untouched_bind {A B} (m : io A) (k : A -> io B) :
  untouched m -> (forall a, untouched (k a)) -> untouched (bind_io m k).
Proof.
  intros Hm Hk s. unfold bind_io. destruct (Hm s) as [M1 H1].
  destruct (m s) as [[a|e] s1]; cbn [fst snd] in *.
  - destruct (Hk a s1) as [M2 H2]. split; congruence.
  - auto.
Qed.

Ltac untouched_step :=
  match goal with
  | |- untouched (ret _) => apply untouched_ret
  | |- untouched (throw _) => apply untouched_throw
  | |- untouched (lift _) => apply untouched_lift
  | |- untouched (observe _) => apply untouched_observe
  | |- untouched (emit _) => apply untouched_emit
  | |- untouched (yield _) => apply untouched_emit
  | |- untouched (bind_io _ _) => apply untouched_bind; [ | intros ? ]
  | |- untouched (if ?b then _ else _) => destruct b
  | |- untouched (match ?x with _ => _ end) => destruct x
  end.

Section Content.
Import Aggregator.

Lemma messageReducer_content o t calls acc' :
  messageReducer (JObj o) (fragment_json (Delta t calls)) = Ret acc' ->
  exists o', acc' = JObj o'
    /\ (forall s, get o "content" = JStr s -> get o' "content" = JStr (s ++ t))
    /\ (nullish (get o "content") = true -> get o' "content" = JStr t).
Proof.
  intros H. rewrite messageReducer_delta in H.
  set (tc := match calls with Some l => JArr l | None => JUndefined end) in *.
  destruct (delta_fields t tc) as [ND NP].
  destruct (reduce_plain _ _ _ (or_introl NP) H) as (o' & ->).
  exists o'. split; [reflexivity|].
  assert (F : field_effect o "content" (JStr t) (get o' "content")).
  { apply (proj1 (reduce_field o _ "content" (JStr t) o' ND (or_introl eq_refl) H)).
    right. reflexivity. }
  unfold field_effect in F. split.
  - intros s G. rewrite G in F. exact F.
  - intros N. destruct (get o "content"); try discriminate N; exact F.
Qed.

Lemma accumulate_content fs : forall o pre acc,
  get o "content" = JStr pre ->
  accumulate (JObj o) fs = Ret acc ->
  get (spread acc) "content" = JStr (pre ++ texts fs).
Proof.
  induction fs as [|f fs IH]; intros o pre acc G H; cbn [accumulate texts] in *.
  - injection H as <-. cbn [spread]. now rewrite append_empty.
  - destruct f as [|t calls]; [eauto|].
    apply bind_ret in H as (acc1 & H1 & H).
    apply messageReducer_content in H1 as (o1 & -> & Hs & _).
    rewrite <- append_assoc. eapply IH; [|exact H]. now apply Hs.
Qed.

(** X10.  The content of the message accumulated from a stream is the
    concatenation, in order, of the texts of its fragments; it is
    [undefined] when the stream had no fragment with a delta. *)
Theorem streamed_content_is_concatenated (fs : list fragment) (acc : jsval) :
  accumulate (JObj []) fs = Ret acc ->
  get (spread acc) "content" = if has_delta fs then JStr (texts fs) else JUndefined.
Proof.
  induction fs as [|f fs IH]; cbn [accumulate texts has_delta existsb]; intros H.
  - now injection H as <-.
  - destruct f as [|t calls]; [exact (IH H)|]. cbn [orb].
    apply bind_ret in H as (acc1 & H1 & H).
    apply messageReducer_content in H1 as (o1 & -> & _ & Hn).
    eapply accumulate_content; [|exact H]. now apply Hn.
Qed.

End Content.

Lemma streamed_content_is_concatenated_witness :
  exists acc,
    accumulate (JObj []) [Delta "Hel" None; NoChoice; Delta "lo" None] = Ret acc
    /\ get (spread acc) "content" = JStr "Hello".
Proof.
  eexists. split; [reflexivity|].
  exact (streamed_content_is_concatenated [Delta "Hel" None; NoChoice; Delta "lo" None] _ eq_refl).
Defined.

(** *** A reply without tool invocations *)

Section Answer.

Variable aborted : list event -> bool.
Variable getAllOllamaTools : list event -> outcome jsval.
Variable chatStream : list event -> list message -> jsval -> list fragment * option exn.
Variable run_builtin : list event -> builtin -> outcome ToolResult.
Variable callTool : list event -> string -> jsval -> outcome mcp_result.
Variable countMessageTokens : list message -> Z.
Variable estimateStreamingTokens : string -> Z.
Variable countTokens : string -> Z.
Variable JSON_stringify : jsval -> string.
Variable ToString : jsval -> string.
Variable new_call_id : list event -> nat -> string.

Lemma untouched_absorb f c st :
  untouched (absorb estimateStreamingTokens countTokens JSON_stringify f c st).
Proof. unfold absorb. repeat untouched_step. Qed.

Lemma untouched_consume fs failure : forall c st,
  untouched (consume aborted estimateStreamingTokens countTokens JSON_stringify fs failure c st).
Proof.
  induction fs as [|f fs IH]; intros c st; cbn [consume].
  - repeat untouched_step.
  - unfold checkAborted, cancelled.
    repeat first [apply IH | apply untouched_absorb | untouched_step].
Qed.

Hypothesis never_cancelled : forall l, aborted l = false.

Hypothesis tools_listed : forall l, exists tools, getAllOllamaTools l = Ret tools.

Hypothesis never_invokes : forall l sent tools, exists fs acc,
  chatStream l sent tools = (fs, None)
  /\ accumulate (JObj []) fs = Ret acc
  /\ forall l', invocations JSON_stringify new_call_id l' acc = [].

Lemma rounds_step fuel c :
  rounds aborted getAllOllamaTools chatStream run_builtin callTool countMessageTokens
         estimateStreamingTokens countTokens JSON_stringify ToString new_call_id (S fuel) c
  = if (toolRounds c <? maxToolRounds)%nat then
      bind_io (round aborted getAllOllamaTools chatStream run_builtin callTool
                     countMessageTokens estimateStreamingTokens countTokens JSON_stringify
                     ToString new_call_id c)
              (fun r => match r with
                        | Go (true, c') =>
                            rounds aborted getAllOllamaTools chatStream run_builtin callTool
                                   countMessageTokens estimateStreamingTokens countTokens
                                   JSON_stringify ToString new_call_id fuel c'
                        | Go (false, c') => ret (Go c')
                        | Returned => ret Returned
                        | Running => ret Running
                        end)
    else ret (Go c).
Proof. reflexivity. Qed.

(** The turn of the loop that finds no invocation *)
Lemma round_without_invocations c s :
  exists c' s' ext l tools fs acc,
    round aborted getAllOllamaTools chatStream run_builtin callTool countMessageTokens
          estimateStreamingTokens countTokens JSON_stringify ToString new_call_id c s
    = (Ret (Go (false, c')), s')
    /\ toolRounds c' = toolRounds c
    /\ log s' = (log s ++ AbortChecked false :: ToolsRequested
                         :: StreamStarted (messages s) :: ext)%list
    /\ weigh ext = (0, 0%Z)
    /\ chatStream l (messages s) tools = (fs, None)
    /\ accumulate (JObj []) fs = Ret acc
    /\ messages s'
       = (messages s
          ++ [mkMessage "assistant" (string_or (get (spread acc) "content") "")
                        (JArr []) JUndefined])%list
    /\ chatHistory s'
       = (chatHistory s
          ++ [mkEntry assistant
                      (string_or (get (spread acc) "content") "Using tools to help you...")
                      (JArr []) JUndefined None])%list.
Proof.
  set (l1 := (log s ++ [AbortChecked false])%list).
  destruct (tools_listed l1) as (tools & Ht).
  set (l2 := (l1 ++ [ToolsRequested])%list).
  destruct (never_invokes l2 (messages s) tools) as (fs & acc & Hs & Hacc & Hinv).
  set (s2 := mkAgent (messages s) (chatHistory s) (l2 ++ [StreamStarted (messages s)])).
  destruct (runs_consume aborted estimateStreamingTokens countTokens JSON_stringify
              never_cancelled fs c (mkStreaming (JObj []) "" false) acc
              sound_empty Hacc s2)
    as (r & s3 & ext & E & L & W & c' & st' & -> & Hc & Hst).
  destruct (untouched_consume fs None c (mkStreaming (JObj []) "" false) s2) as [M3 H3].
  rewrite E in M3, H3. cbn [fst snd] in M3, H3.
  assert (Hcalls : calls_of acc = []
                   /\ forall l', parseToolCallsFromContent JSON_stringify new_call_id l'
                                   (get (spread acc) "content") = []).
  { unfold invocations in Hinv. destruct (calls_of acc) as [|x xs].
    - split; [reflexivity | exact Hinv].
    - specialize (Hinv []). discriminate Hinv. }
  destruct Hcalls as [Hcalls Hparse].
  assert (Hget : get_prop_opt acc "content" = get (spread acc) "content").
  { destruct (accumulate_sound _ _ _ sound_empty Hacc) as [[o ->] _]. reflexivity. }
  eexists c', _, ext, l2, tools, fs, acc.
  split.
  { unfold round.
    unfold checkAborted, bind_io at 1. unfold bind_io at 1. cbn [observe fst snd log].
    rewrite never_cancelled. unfold bind_io at 1. cbn [emit fst snd]. cbn [ret fst snd].
    unfold bind_io at 1. cbn [observe fst snd log messages chatHistory].
    fold l1. rewrite Ht.
    unfold bind_io at 1. cbn [emit fst snd log messages chatHistory]. fold l2.
    unfold bind_io at 1. cbn [lift fst snd].
    unfold bind_io at 1. cbn [get_messages fst snd messages].
    unfold bind_io at 1. cbn [observe fst snd log]. rewrite Hs.
    unfold bind_io at 1. cbn [emit fst snd log messages chatHistory]. fold s2.
    unfold bind_io at 1. rewrite E. cbn [fst snd]. cbv zeta. rewrite Hst, Hcalls.
    unfold bind_io, observe, push_history, push_message, ret.
    cbn [fst snd log messages chatHistory]. rewrite Hget, Hparse.
    cbn [length Nat.ltb Nat.leb fst snd]. reflexivity. }
  cbn [log messages chatHistory]. rewrite L, M3, H3. subst s2 l2 l1.
  cbn [log messages chatHistory].
  split; [exact Hc|]. split; [rewrite <- !app_assoc; reflexivity|].
  repeat split; assumption.
Qed.

(** X11.  When the run is not cancelled, the list of tools is obtained and
    the model's reply, streamed to its end, holds no tool invocation,
    the generator makes one request and returns: it yields no limit
    notice of its own and ends with the final chunk, and the reply joins
    the conversation as an assistant message with the accumulated
    content and an empty list of tool calls. *)
Theorem reply_without_invocations_ends_the_run (text : string) (s : agent) :
  exists n s0 s' body l tools fs acc,
    manageContext countMessageTokens text s = (Ret n, s0)
    /\ processUserMessageStream aborted getAllOllamaTools chatStream run_builtin callTool
         countMessageTokens estimateStreamingTokens countTokens JSON_stringify ToString
         new_call_id text s
       = (Ret (Go tt), s')
    /\ log s' = (log s ++ body ++ [Yielded Done])%list
    /\ streams body = 1
    /\ notices body = echoes body
    /\ chatStream l (messages s0) tools = (fs, None)
    /\ accumulate (JObj []) fs = Ret acc
    /\ messages s'
       = (messages s0
          ++ [mkMessage "assistant" (string_or (get (spread acc) "content") "")
                        (JArr []) JUndefined])%list
    /\ chatHistory s'
       = (chatHistory s0
          ++ [mkEntry assistant
                      (string_or (get (spread acc) "content") "Using tools to help you...")
                      (JArr []) JUndefined None])%list.
Proof.
  destruct (manageContext_result countMessageTokens text s) as (n & s0 & E0 & L0).
  destruct (round_without_invocations (mkCounters 0 n 0)
              (mkAgent (messages s0) (chatHistory s0) (log s0 ++ [Yielded (TokenCount n)])))
    as (c' & s1 & ext & l & tools & fs & acc & E & Hc & L & W & Hs & Hacc & M & H).
  cbn [messages chatHistory log toolRounds] in *.
  exists n, s0, (mkAgent (messages s1) (chatHistory s1) (log s1 ++ [Yielded Done])),
    (Yielded (TokenCount n) :: AbortChecked false :: ToolsRequested
       :: StreamStarted (messages s0) :: ext), l, tools, fs, acc.
  split; [exact E0|].
  split.
  { unfold processUserMessageStream, bind_io at 1. rewrite E0. cbn [fst snd].
    unfold bind_io at 1. cbn [yield emit fst snd]. unfold try_catch, tryBlock.
    unfold bind_io at 1. change maxToolRounds with (S 49) at 1. rewrite rounds_step.
    cbn [toolRounds]. change (0 <? maxToolRounds) with true. cbv iota.
    unfold bind_io at 1. rewrite E. cbn [fst snd ret]. rewrite Hc.
    change (maxToolRounds <=? 0) with false. cbv iota.
    unfold bind_io, yield, emit, ret. cbn [fst snd]. reflexivity. }
  cbn [log messages chatHistory]. rewrite L.
  split; [rewrite L0, <- !app_assoc; reflexivity|].
  unfold weigh in W. injection W as Ws Wb.
  split; [change (S (streams ext) = 1); now rewrite Ws|].
  split; [|repeat split; assumption].
  change (notices ext = echoes ext). lia.
Qed.

End Answer.

Lemma reply_without_invocations_ends_the_run_witness :
  exists n s0 s' body l tools fs acc,
    manageContext no_tokens "hello" start = (Ret n, s0)
    /\ processUserMessageStream never_aborted no_tools answers tools_work no_mcp
         no_tokens no_tokens no_tokens no_text no_text some_id "hello" start
       = (Ret (Go tt), s')
    /\ log s' = (log start ++ body ++ [Yielded Done])%list
    /\ streams body = 1
    /\ notices body = echoes body
    /\ answers l (messages s0) tools = (fs, None)
    /\ accumulate (JObj []) fs = Ret acc
    /\ messages s'
       = (messages s0
          ++ [mkMessage "assistant" (string_or (get (spread acc) "content") "")
                        (JArr []) JUndefined])%list
    /\ chatHistory s'
       = (chatHistory s0
          ++ [mkEntry assistant
                      (string_or (get (spread acc) "content") "Using tools to help you...")
                      (JArr []) JUndefined None])%list.
Proof.
  apply (reply_without_invocations_ends_the_run never_aborted no_tools answers tools_work
           no_mcp no_tokens no_tokens no_tokens no_text no_text some_id).
  - reflexivity.
  - intros l. eexists. reflexivity.
  - intros l sent tools. eexists _, _. split; [reflexivity|]. split; [reflexivity|].
    intros l'. vm_compute. reflexivity.
Defined.

(** ** The streaming transport *)

Section Framing.
Import Transport.

Lemma split_lines_not_nil s : split_lines s <> [].
Proof.
  destruct s as [|c s]; cbn [split_lines]; [discriminate|].
  destruct (Ascii.eqb c (ascii_of_nat 10)); [discriminate|].
  destruct (split_lines s); discriminate.
Qed.

Lemma removelast_cons {A} (a : A) l : l <> [] -> removelast (a :: l) = a :: removelast l.
Proof. destruct l; [contradiction | reflexivity]. Qed.

Lemma last_cons {A} (a d : A) l : l <> [] -> last (a :: l) d = last l d.
Proof. destruct l; [contradiction | reflexivity]. Qed.

Lemma last_append {A} (l l' : list A) d : l' <> [] -> last (l ++ l') d = last l' d.
Proof.
  intros N. induction l as [|a l IH]; [reflexivity|].
  cbn [app]. rewrite last_cons; [exact IH|]. destruct l; [exact N | discriminate].
Qed.

Lemma split_lines_app s : forall t,
  split_lines (s ++ t)
  = (complete_lines s ++ split_lines (unfinished s ++ t))%list.
Proof.
  unfold complete_lines, unfinished.
  induction s as [|c s IH]; intros t; [reflexivity|].
  cbn [append split_lines].
  pose proof (split_lines_not_nil s) as N.
  destruct (Ascii.eqb c (ascii_of_nat 10)) eqn:E.
  - rewrite removelast_cons, last_cons by exact N. cbn [app]. now rewrite IH.
  - rewrite IH. destruct (split_lines s) as [|l1 ls]; [contradiction|].
    destruct ls as [|l2 ls].
    + cbn [removelast last app append split_lines]. rewrite E. reflexivity.
    + rewrite !removelast_cons, !last_cons by discriminate. reflexivity.
Qed.

Lemma split_lines_free s :
  Forall (fun line => split_lines line = [line]) (split_lines s).
Proof.
  induction s as [|c s IH]; cbn [split_lines]; [repeat constructor|].
  destruct (Ascii.eqb c (ascii_of_nat 10)) eqn:E; [constructor; [reflexivity|exact IH]|].
  destruct (split_lines s) as [|l1 ls].
  - constructor; [cbn [split_lines]; now rewrite E | constructor].
  - inversion IH as [|? ? H1 Hs]; subst. constructor; [|exact Hs].
    cbn [split_lines]. now rewrite E, H1.
Qed.

Lemma complete_unfinished s : complete_lines (unfinished s) = [].
Proof.
  unfold complete_lines, unfinished.
  pose proof (split_lines_free s) as F. pose proof (split_lines_not_nil s) as N.
  rewrite Forall_forall in F.
  rewrite (F (last (split_lines s) "")); [reflexivity|].
  destruct (exists_last N) as (l & a & ->). rewrite last_last. apply in_or_app. right. now left.
Qed.

Lemma complete_lines_app s t :
  complete_lines (s ++ t) = (complete_lines s ++ complete_lines (unfinished s ++ t))%list.
Proof.
  unfold complete_lines at 1. rewrite split_lines_app.
  rewrite removelast_app by apply split_lines_not_nil. reflexivity.
Qed.

Lemma unfinished_app s t : unfinished (s ++ t) = unfinished (unfinished s ++ t).
Proof.
  unfold unfinished at 1. rewrite split_lines_app.
  rewrite last_append by apply split_lines_not_nil. reflexivity.
Qed.

Lemma process_lines_app l1 l2 :
  process_lines (l1 ++ l2)
  = match process_lines l1 with
    | (yielded, true) => (yielded, true)
    | (yielded, false) =>
        let (more, done) := process_lines l2 in ((yielded ++ more)%list, done)
    end.
Proof.
  induction l1 as [|line l1 IH]; cbn [app process_lines].
  - destruct (process_lines l2). reflexivity.
  - destruct (process_line line) as [|converted [|]]; [exact IH | reflexivity|].
    rewrite IH. destruct (process_lines l1) as [ys [|]]; [reflexivity|].
    destruct (process_lines l2). reflexivity.
Qed.

Lemma pump_lines chunks : forall buffer,
  complete_lines buffer = [] ->
  pump buffer chunks = process_lines (complete_lines (buffer ++ received chunks)).
Proof.
  induction chunks as [|chunk rest IH]; intros buffer Hb; cbn [pump received fold_right].
  - now rewrite append_empty, Hb.
  - fold (received rest).
    assert (F : feed buffer chunk
                = (process_lines (complete_lines (buffer ++ chunk)),
                   unfinished (buffer ++ chunk))) by reflexivity.
    rewrite F. clear F.
    replace (buffer ++ chunk ++ received rest) with ((buffer ++ chunk) ++ received rest)
      by apply append_assoc.
    rewrite (complete_lines_app (buffer ++ chunk) (received rest)), process_lines_app.
    destruct (process_lines (complete_lines (buffer ++ chunk))) as [ys [|]]; [reflexivity|].
    rewrite IH by apply complete_unfinished. reflexivity.
Qed.

Lemma split_lines_fed u :
  split_lines u = [u] -> split_lines (u ++ line_feed) = [u; ""].
Proof.
  induction u as [|c u IH]; intros H; [reflexivity|].
  cbn [split_lines append] in *.
  destruct (Ascii.eqb c (ascii_of_nat 10)).
  - pose proof (split_lines_not_nil u). destruct (split_lines u); [contradiction|discriminate].
  - destruct (split_lines u) as [|l1 ls] eqn:E.
    + exfalso. now apply (split_lines_not_nil u).
    + injection H as -> ->. now rewrite IH.
Qed.

Lemma unfinished_fed text : unfinished (text ++ line_feed) = "".
Proof.
  rewrite unfinished_app. unfold unfinished at 1. rewrite split_lines_fed; [reflexivity|].
  pose proof (split_lines_free text) as F. rewrite Forall_forall in F. apply F.
  unfold unfinished. destruct (exists_last (split_lines_not_nil text)) as (l & a & ->).
  rewrite last_last. apply in_or_app. right. now left.
Qed.

(** X12.  The chunks [chatStream] yields for a response depend on the text
    received only, not on the pieces it comes in: they are the chunks of
    the lines that end with a line feed, in order, up to the first line
    with [done].  What follows the last line feed is never read, so that
    a document the server does not terminate with a line feed is lost. *)
Theorem stream_lines_do_not_depend_on_the_pieces (chunks : list string) :
  pump "" chunks = process_lines (complete_lines (received chunks))
  /\ pump "" chunks = pump "" [received chunks]
  /\ (forall text last_line,
        received chunks = text ++ line_feed ++ last_line ->
        complete_lines last_line = [] ->
        pump "" chunks = pump "" [text ++ line_feed]).
Proof.
  assert (P : forall cs, pump "" cs = process_lines (complete_lines (received cs)))
    by (intros cs; apply (pump_lines cs ""); reflexivity).
  split; [apply P|]. split.
  - rewrite !P. cbn [received fold_right]. now rewrite append_empty.
  - intros text last_line E Hl. rewrite !P, E. cbn [received fold_right].
    rewrite append_empty.
    replace (text ++ line_feed ++ last_line) with ((text ++ line_feed) ++ last_line)
      by apply append_assoc.
    rewrite (complete_lines_app (text ++ line_feed) last_line), unfinished_fed.
    cbn [append]. now rewrite Hl, app_nil_r.
Qed.

End Framing.

Section StreamRetry.
Import Transport.

Variable now : nat -> string.
Variable post : nat -> payload -> stream_attempt.

Lemma record_stream_error_keeps at_attempt e p c :
  posted (record_stream_error now at_attempt e p c) = posted c
  /\ slept (record_stream_error now at_attempt e p c) = slept c.
Proof.
  unfold record_stream_error. destruct (stream_details now at_attempt e p); split; reflexivity.
Qed.

Lemma backoff_delay n :
  n <= 2 ->
  skipn n backoff = ((2 ^ Z.of_nat (S n - 1) * 1000)%Z :: skipn (S n) backoff)%list.
Proof.
  intros H. destruct n as [|[|[|n]]]; [reflexivity | reflexivity | reflexivity | lia].
Qed.

Lemma stream_attempts_step fuel n p c :
  n <= 3 ->
  stream_attempts now post (S fuel) n p c
  = let c := count_post c in
    let failed (yielded : list jsval) (e : failure) : option streamed :=
      let c := record_stream_error now n e p c in
      if (S n <=? maxRetries)%nat && isRetryable e then
        match stream_attempts now post fuel (S n) p
                (sleep (2 ^ Z.of_nat (S n - 1) * 1000)%Z c) with
        | Some (more, r, c') => Some ((yielded ++ more)%list, r, c')
        | None => None
        end
      else Some (yielded, Throw (Error (streamErrorMessage e)), c) in
    match post n p with
    | Refused e => failed [] e
    | Streams chunks broken =>
        match pump "" chunks, broken with
        | (yielded, true), _ => Some (yielded, Ret tt, c)
        | (yielded, false), None => Some (yielded, Ret tt, c)
        | (yielded, false), Some e => failed yielded e
        end
    end.
Proof.
  intros H. cbn [stream_attempts].
  replace (n <=? maxRetries) with true by (symmetry; apply Nat.leb_le; exact H).
  reflexivity.
Qed.

Lemma stream_attempts_bounded p : forall fuel n c,
  n <= 3 -> 4 - n <= fuel ->
  exists ys r c' k,
    stream_attempts now post fuel n p c = Some (ys, r, c')
    /\ n + k <= 3
    /\ posted c' = posted c + S k
    /\ (slept c' = slept c ++ firstn k (skipn n backoff))%list.
Proof.
  induction fuel as [|fuel IH]; intros n c Hn Hf; [lia|].
  rewrite stream_attempts_step by exact Hn. cbv zeta.
  assert (Stop : forall (ys : list jsval) (r : outcome unit) (c1 : client),
            posted c1 = S (posted c) -> slept c1 = slept c ->
            exists ys' r' c' k,
              Some (ys, r, c1) = Some (ys', r', c')
              /\ n + k <= 3 /\ posted c' = posted c + S k
              /\ (slept c' = slept c ++ firstn k (skipn n backoff))%list).
  { intros ys r c1 Hp Hs. exists ys, r, c1, 0. cbn [firstn]. rewrite app_nil_r.
    repeat split; [lia | lia | exact Hs]. }
  assert (Failed : forall (ys : list jsval) (e : failure),
            exists ys' r' c' k,
              (let c1 := record_stream_error now n e p (count_post c) in
               if (S n <=? maxRetries)%nat && isRetryable e then
                 match stream_attempts now post fuel (S n) p
                         (sleep (2 ^ Z.of_nat (S n - 1) * 1000)%Z c1) with
                 | Some (more, r, c') => Some ((ys ++ more)%list, r, c')
                 | None => None
                 end
               else Some (ys, Throw (Error (streamErrorMessage e)), c1))
              = Some (ys', r', c')
              /\ n + k <= 3 /\ posted c' = posted c + S k
              /\ (slept c' = slept c ++ firstn k (skipn n backoff))%list).
  { intros ys e. cbv zeta.
    destruct (record_stream_error_keeps n e p (count_post c)) as [Kp Ks].
    destruct ((S n <=? maxRetries)%nat && isRetryable e) eqn:R.
    - apply andb_true_iff in R as [R _]. apply Nat.leb_le in R. unfold maxRetries in R.
      destruct (IH (S n) (sleep (2 ^ Z.of_nat (S n - 1) * 1000)%Z
                            (record_stream_error now n e p (count_post c))) R ltac:(lia))
        as (more & r & c' & k & E & Hk & Hp & Hs).
      rewrite E. exists (ys ++ more)%list, r, c', (S k). split; [reflexivity|].
      split; [lia|]. cbn [posted slept sleep] in Hp, Hs. rewrite Kp in Hp. rewrite Ks in Hs.
      cbn [posted slept count_post] in Hp, Hs.
      split; [lia|]. rewrite Hs, (backoff_delay n) by lia. cbn [firstn].
      now rewrite <- app_assoc.
    - apply Stop; [rewrite Kp | rewrite Ks]; reflexivity. }
  destruct (post n p) as [e|chunks broken]; [apply Failed|].
  destruct (pump "" chunks) as [ys [|]]; [now apply Stop|].
  destruct broken as [e|]; [apply Failed | now apply Stop].
Qed.

Lemma stream_attempts_resume p c : forall i earlier,
  i <= 3 ->
  retried post p i = Some earlier ->
  exists ci,
    posted ci = posted c + i
    /\ (slept ci = slept c ++ firstn i backoff)%list
    /\ stream_attempts now post (S maxRetries) 0 p c
       = match stream_attempts now post (S maxRetries - i) i p ci with
         | Some (more, r, c') => Some ((earlier ++ more)%list, r, c')
         | None => None
         end.
Proof.
  induction i as [|i IH]; intros earlier Hi R.
  - injection R as <-. exists c. cbn [firstn]. rewrite app_nil_r, Nat.add_0_r, Nat.sub_0_r.
    split; [reflexivity|]. split; [reflexivity|].
    now destruct (stream_attempts now post (S maxRetries) 0 p c) as [[[more r] c']|].
  - cbn [retried] in R.
    destruct (retried post p i) as [before|] eqn:Rb; [|discriminate R].
    destruct (breaks (post i p)) as [[ys e]|] eqn:B; [|discriminate R].
    destruct (isRetryable e) eqn:Re; [|discriminate R]. injection R as <-.
    destruct (IH before ltac:(lia) eq_refl) as (ci & Hp & Hs & E).
    destruct (record_stream_error_keeps i e p (count_post ci)) as [Kp Ks].
    exists (sleep (2 ^ Z.of_nat (S i - 1) * 1000)%Z
                  (record_stream_error now i e p (count_post ci))).
    cbn [posted slept sleep]. rewrite Kp, Ks. cbn [posted slept count_post].
    split; [lia|]. split.
    { rewrite Hs, <- app_assoc. f_equal.
      rewrite <- (firstn_skipn i (firstn (S i) backoff)) at 1.
      rewrite firstn_firstn, Nat.min_l by lia. f_equal.
      destruct i as [|[|[|i]]]; [reflexivity | reflexivity | reflexivity | lia]. }
    rewrite E. unfold maxRetries in *.
    replace (4 - i) with (S (4 - S i)) by lia.
    rewrite stream_attempts_step by lia. cbv zeta. unfold maxRetries.
    replace (S i <=? 3)%nat with true by (symmetry; apply Nat.leb_le; lia).
    assert (F : forall m : option streamed,
              match
                match m with
                | Some (more, r, c') => Some ((ys ++ more)%list, r, c')
                | None => None
                end
              with
              | Some (more, r, c') => Some ((before ++ more)%list, r, c')
              | None => None
              end
              = match m with
                | Some (more, r, c') => Some (((before ++ ys) ++ more)%list, r, c')
                | None => None
                end).
    { intros [[[more r] c']|]; [now rewrite app_assoc | reflexivity]. }
    unfold breaks in B.
    destruct (post i p) as [e0|chunks [e0|]]; [| |discriminate B].
    + injection B as <- <-. rewrite Re. cbn [andb]. apply F.
    + destruct (pump "" chunks) as [ys0 [|]]; [discriminate B|].
      injection B as <- <-. rewrite Re. cbn [andb]. apply F.
Qed.

(** X13.  A call of [chatStream] ends after at most 4 requests, with the
    delays 1000, 2000 and 4000 ms between them.  Whatever the number of
    the attempt, once every attempt before it failed with a failure that
    can be retried: a response that delivered its [done] line is
    complete, nothing that breaks afterwards is looked at; so is a
    response that ended without a failure; a response that fails with a
    failure that cannot be retried, or at the fourth attempt, ends the
    call with the streaming error.  Each request starts the reply anew,
    from an empty buffer, and its chunks are yielded after those the
    attempts before it yielded. *)
Theorem stream_retries_start_the_reply_anew (messages : list message)
    (tools : option (list jsval)) (model : option string) (c : client) (p : payload) :
  requestPayload c messages tools model true = Ret p ->
  (exists ys r c' k,
      chatStream now post messages tools model c = Some (ys, r, c')
      /\ k <= 3
      /\ posted c' = posted c + S k
      /\ (slept c' = slept c ++ firstn k backoff)%list)
  /\ (forall i earlier chunks broken ys done,
        i <= 3 ->
        retried post p i = Some earlier ->
        post i p = Streams chunks broken ->
        pump "" chunks = (ys, done) ->
        done = true \/ broken = None ->
        exists c',
          chatStream now post messages tools model c
          = Some ((earlier ++ ys)%list, Ret tt, c')
          /\ posted c' = posted c + S i
          /\ (slept c' = slept c ++ firstn i backoff)%list)
  /\ (forall i earlier ys e,
        i <= 3 ->
        retried post p i = Some earlier ->
        breaks (post i p) = Some (ys, e) ->
        i = 3 \/ isRetryable e = false ->
        exists c',
          chatStream now post messages tools model c
          = Some ((earlier ++ ys)%list, Throw (Error (streamErrorMessage e)), c')
          /\ posted c' = posted c + S i
          /\ (slept c' = slept c ++ firstn i backoff)%list).
Proof.
  intros Hp. unfold chatStream. rewrite Hp. split; [|split].
  - destruct (stream_attempts_bounded p (S maxRetries) 0 c (Nat.le_0_l _) (Nat.le_refl _))
      as (ys & r & c' & k & E & Hk & Hposted & Hs).
    exists ys, r, c', k. repeat split; [exact E | lia | exact Hposted | exact Hs].
  - intros i earlier chunks broken ys done Hi R Pi Pu Ends.
    destruct (stream_attempts_resume p c i earlier Hi R) as (ci & Hposted & Hs & E).
    rewrite E. unfold maxRetries. replace (4 - i) with (S (3 - i)) by lia.
    rewrite stream_attempts_step by lia. cbv zeta. rewrite Pi, Pu.
    exists (count_post ci). cbn [posted slept count_post].
    split; [|split; [lia | exact Hs]].
    destruct done; [reflexivity|]. destruct Ends as [D| ->]; [discriminate D | reflexivity].
  - intros i earlier ys e Hi R B Last.
    destruct (stream_attempts_resume p c i earlier Hi R) as (ci & Hposted & Hs & E).
    rewrite E. unfold maxRetries. replace (4 - i) with (S (3 - i)) by lia.
    rewrite stream_attempts_step by lia. cbv zeta.
    assert (Stop : (S i <=? 3)%nat && isRetryable e = false).
    { destruct Last as [-> | ->]; [reflexivity | apply andb_false_r]. }
    destruct (record_stream_error_keeps i e p (count_post ci)) as [Kp Ks].
    exists (record_stream_error now i e p (count_post ci)).
    rewrite Kp, Ks. cbn [posted slept count_post].
    split; [|split; [lia | exact Hs]].
    unfold breaks in B. unfold maxRetries.
    destruct (post i p) as [e0|chunks [e0|]]; [| |discriminate B].
    + injection B as <- <-. now rewrite Stop.
    + destruct (pump "" chunks) as [ys0 [|]]; [discriminate B|].
      injection B as <- <-. now rewrite Stop.
Qed.

End StreamRetry.

Lemma stream_retries_start_the_reply_anew_witness :
  exists c',
    Transport.chatStream some_time breaks_once [] None None fresh_client
    = Some ([Transport.convertedChunk "Hel" JUndefined (JBool false);
             Transport.convertedChunk "Hel" JUndefined (JBool false);
             Transport.convertedChunk "lo" JUndefined (JBool true)],
            Ret tt, c')
    /\ Transport.posted c' = 2
    /\ Transport.slept c' = [1000%Z].
Proof.
  assert (P1 : Transport.pump "" [first_line; last_line]
               = ([Transport.convertedChunk "Hel" JUndefined (JBool false);
                   Transport.convertedChunk "lo" JUndefined (JBool true)], true))
    by (vm_compute; reflexivity).
  exact (proj1 (proj2 (stream_retries_start_the_reply_anew some_time breaks_once [] None None
                         fresh_client _ eq_refl))
           1 [Transport.convertedChunk "Hel" JUndefined (JBool false)] _ _ _ _
           (le_S _ _ (le_S _ _ (le_n 1))) eq_refl eq_refl P1 (or_introl eq_refl)).
Defined.

(** ** The loop without streaming *)

Lemma says_ret {A} (P : A -> Prop) a : P a -> says P (talk_ret a).
Proof. intros H s a' s' E. injection E as <- _. exact H. Qed.

Lemma says_throw {A} (P : A -> Prop) e : says P (talk_throw e).
Proof. intros s a s' E. discriminate E. Qed.

Lemma says_bind {A B} (P : A -> Prop) (Q : B -> Prop) (m : talk A) (k : A -> talk B) :
  says P m -> (forall a, P a -> says Q (k a)) -> says Q (talk_bind m k).
Proof.
  intros Hm Hk s b s' E. unfold talk_bind in E.
  destruct (m s) as [[a|e] s1] eqn:Em; [|discriminate E].
  eapply Hk; [eapply Hm; exact Em | exact E].
Qed.

Lemma says_any {A} (m : talk A) : says (fun _ => True) m.
Proof. intros s a s' _. exact I. Qed.

Lemma says_bind_any {A B} (Q : B -> Prop) (m : talk A) (k : A -> talk B) :
  (forall a, says Q (k a)) -> says Q (talk_bind m k).
Proof. intros Hk. eapply says_bind; [apply says_any | intros a _; apply Hk]. Qed.

Lemma speaks_ret {A} (R : A -> Prop) a : R a -> speaks 0 R (talk_ret a).
Proof. intros H s. exists a, s. rewrite Nat.add_0_r. auto. Qed.

Lemma speaks_bind {A B} n1 n2 (R1 : A -> Prop) (R2 : B -> Prop) (m : talk A) (k : A -> talk B) :
  speaks n1 R1 m -> (forall a, R1 a -> speaks n2 R2 (k a)) ->
  speaks (n1 + n2) R2 (talk_bind m k).
Proof.
  intros Hm Hk s. destruct (Hm s) as (a & s1 & E1 & L1 & Ra).
  destruct (Hk a Ra s1) as (b & s2 & E2 & L2 & Rb).
  exists b, s2. unfold talk_bind. rewrite E1, E2. repeat split; [lia | exact Rb].
Qed.

Lemma speaks_of_io {A} (R : A -> Prop) (m : io A) :
  (forall s, exists a s', m s = (Ret a, s') /\ R a) -> speaks 0 R (of_io m).
Proof.
  intros H s. destruct (H (the_agent s)) as (a & s' & E & Ra).
  exists a, (mkSession s' (requests s)). unfold of_io. rewrite E. cbn [requests].
  rewrite Nat.add_0_r. auto.
Qed.

Lemma speaks_count {A} n n' (R : A -> Prop) (m : talk A) : speaks n R m -> n = n' -> speaks n' R m.
Proof. now intros H <-. Qed.

Lemma replace_at_length {A} (a : A) l : forall i, length (replace_at i a l) = length l.
Proof. induction l as [|b l IH]; intros [|i]; cbn; auto. Qed.

Lemma findIndex_found {A} (p : A -> bool) (l : list A) (d : A) : forall i,
  findIndex p l = Some i -> i < length l /\ p (nth i l d) = true.
Proof.
  induction l as [|a l IH]; intros i H; [discriminate H|]. cbn [findIndex] in H.
  destruct (p a) eqn:E.
  - injection H as <-. cbn. split; [lia | exact E].
  - destruct (findIndex p l) as [j|]; [|discriminate H]. injection H as <-.
    destruct (IH j eq_refl). cbn. split; [lia | assumption].
Qed.

Lemma replace_at_head {A} (p : A -> bool) (a u : A) (l : list A) i :
  p a = false -> findIndex p (a :: l) = Some i ->
  replace_at i u (a :: l) = a :: replace_at (pred i) u l.
Proof.
  intros Ha H. cbn [findIndex] in H. rewrite Ha in H.
  destruct (findIndex p l) as [j|]; [|discriminate H]. injection H as <-. reflexivity.
Qed.

Ltac says_step :=
  match goal with
  | |- says _ (talk_ret _) => apply says_ret
  | |- says _ (talk_throw _) => apply says_throw
  | |- says _ (talk_bind _ _) => apply says_bind_any; intros ?
  | |- says _ (if ?b then _ else _) => destruct b
  | |- says _ (match ?x with _ => _ end) => destruct x
  end.

Section Talk.

Variable getAllOllamaTools : list event -> outcome jsval.
Variable chat : list event -> list (list message) -> list message -> jsval
                -> outcome (option reply).
Variable run_builtin : list event -> builtin -> outcome ToolResult.
Variable callTool : list event -> string -> jsval -> outcome mcp_result.
Variable JSON_stringify : jsval -> string.
Variable ToString : jsval -> string.
Variable new_call_id : list event -> nat -> string.

Lemma awaits_user id u : entry_kind u = user -> awaits id u = false.
Proof. unfold awaits. now intros ->. Qed.

Lemma run_calls_keeps_head toolCalls : forall u rest,
  entry_kind u = user ->
  says (fun es => exists rest', es = u :: rest')
       (run_calls run_builtin callTool JSON_stringify ToString toolCalls (u :: rest)).
Proof.
  induction toolCalls as [|toolCall calls IH]; intros u rest Hu; cbn [run_calls].
  - apply says_ret. eauto.
  - apply says_bind_any. intros result. apply says_bind_any. intros id.
    apply says_bind_any. intros history.
    eapply says_bind with (P := fun es => exists rest', es = u :: rest').
    + destruct (findIndex (awaits id) history) as [entryIndex|]; [|apply says_ret; eauto].
      apply says_bind_any. intros _. apply says_ret.
      destruct (findIndex (awaits id) (u :: rest)) as [j|] eqn:F; [|eauto].
      erewrite replace_at_head; [eauto | apply (awaits_user id u Hu) | exact F].
    + intros es (rest' & ->). apply says_bind_any. intros _. now apply IH.
Qed.

Lemma exchange_settled : forall fuel toolRounds tools currentResponse u rest,
  maxToolRounds - toolRounds <= fuel ->
  entry_kind u = user ->
  says (fun r => exists n rest', r = Go (n, u :: rest'))
       (exchange chat run_builtin callTool JSON_stringify ToString new_call_id
                 fuel toolRounds tools currentResponse (u :: rest)).
Proof.
  induction fuel as [|fuel IH]; intros toolRounds tools currentResponse u rest Hf Hu;
    cbn [exchange]; destruct (Nat.ltb_spec toolRounds maxToolRounds) as [Hlt|Hge];
    try (apply says_ret; eauto; fail); [lia|].
  destruct currentResponse as [assistantMessage|]; [|apply says_throw].
  cbv zeta. apply says_bind_any. intros toolCalls.
  destruct toolCalls as [|toolCall calls].
  - repeat says_step. cbn [app]. eauto.
  - apply says_bind_any. intros _. apply says_bind_any. intros _.
    apply says_bind_any. intros history. apply says_bind_any. intros _.
    eapply says_bind; [apply (run_calls_keeps_head _ u); exact Hu|].
    intros es (rest' & ->). apply says_bind_any. intros response.
    apply IH; [lia | exact Hu].
Qed.

Lemma converse_settled u :
  entry_kind u = user ->
  says (fun r => exists rest, r = Go (u :: rest))
       (converse getAllOllamaTools chat run_builtin callTool JSON_stringify ToString
                 new_call_id u).
Proof.
  intros Hu. unfold converse. do 4 (apply says_bind_any; intros ?).
  eapply says_bind; [apply (exchange_settled maxToolRounds 0 _ _ u []); [lia | exact Hu]|].
  intros r (n & rest & ->).
  destruct (maxToolRounds <=? n); repeat says_step; cbn [app]; eauto.
Qed.

(** X14.  [processUserMessage] never raises and its loop always ends: it
    returns a list of entries that starts with the entry of the user's
    message.  When its [try] block raised, the entries it returns are
    that entry and the error message, which is also the last entry of
    the history: the entries the rounds made before stay in the history
    but are not returned. *)
Theorem processUserMessage_always_answers (text : string) (s : session) :
  let run := processUserMessage getAllOllamaTools chat run_builtin callTool JSON_stringify
                                ToString new_call_id text in
  let asked := mkSession (mkAgent (messages (the_agent s) ++ [user_message text])
                                  (chatHistory (the_agent s) ++ [userEntry text])
                                  (log (the_agent s)))
                         (requests s) in
  (exists rest s', run s = (Ret (Go (userEntry text :: rest)), s'))
  /\ (forall e s1,
        converse getAllOllamaTools chat run_builtin callTool JSON_stringify ToString
                 new_call_id (userEntry text) asked = (Throw e, s1) ->
        run s = (Ret (Go [userEntry text; errorEntry e]),
                 mkSession (mkAgent (messages (the_agent s1))
                                    (chatHistory (the_agent s1) ++ [errorEntry e])
                                    (log (the_agent s1)))
                           (requests s1))).
Proof.
  intros run asked.
  assert (E : run s
              = match converse getAllOllamaTools chat run_builtin callTool JSON_stringify
                               ToString new_call_id (userEntry text) asked with
                | (Ret a, s') => (Ret a, s')
                | (Throw e, s1) =>
                    (Ret (Go [userEntry text; errorEntry e]),
                     mkSession (mkAgent (messages (the_agent s1))
                                        (chatHistory (the_agent s1) ++ [errorEntry e])
                                        (log (the_agent s1)))
                               (requests s1))
                end).
  { unfold run, processUserMessage, talk_bind at 1, of_io at 1, push_history at 1.
    cbn [fst snd the_agent requests].
    unfold talk_bind at 1, of_io at 1, push_message at 1.
    cbn [fst snd the_agent requests messages chatHistory log].
    unfold talk_try. fold (userEntry text). fold (user_message text). fold asked.
    destruct (converse _ _ _ _ _ _ _ _ asked) as [[a|e] s1]; [reflexivity|].
    reflexivity. }
  split.
  - rewrite E.
    destruct (converse _ _ _ _ _ _ _ _ asked) as [[a|e] s1] eqn:C.
    + destruct (converse_settled (userEntry text) eq_refl _ _ _ C) as (rest & ->). eauto.
    + eauto.
  - intros e s1 C. rewrite E, C. reflexivity.
Qed.

(** *** A reply without tool calls *)

(** X15.  When the list of tools is obtained and the first reply holds no
    tool call, [processUserMessage] makes one request and returns the
    user's entry and the reply: the reply joins the conversation and the
    history, where an empty content is shown as a stock sentence. *)
Theorem first_reply_without_calls_is_the_answer (text : string) (s : session)
    (tools : jsval) (r : reply) :
  let a := the_agent s in
  let sent := (messages a ++ [user_message text])%list in
  let finalEntry :=
    mkEntry assistant
            (or_default (Some (reply_content r))
                        "I understand, but I don't have a specific response.")
            JUndefined JUndefined None in
  getAllOllamaTools (log a) = Ret tools ->
  chat (log a ++ [ToolsRequested]) (requests s) sent tools = Ret (Some r) ->
  asked_calls JSON_stringify new_call_id (log a ++ [ToolsRequested]) r = [] ->
  processUserMessage getAllOllamaTools chat run_builtin callTool JSON_stringify ToString
                     new_call_id text s
  = (Ret (Go [userEntry text; finalEntry]),
     mkSession
       (mkAgent (sent ++ [mkMessage "assistant" (reply_content r) JUndefined JUndefined])
                (chatHistory a ++ [userEntry text; finalEntry])
                (log a ++ [ToolsRequested]))
       (requests s ++ [sent])).
Proof.
  intros a sent finalEntry Ht Hc Hn.
  unfold processUserMessage, talk_bind at 1, of_io at 1, push_history at 1.
  cbn [fst snd the_agent requests].
  unfold talk_bind at 1, of_io at 1, push_message at 1.
  cbn [fst snd the_agent requests messages chatHistory log].
  unfold talk_try, converse.
  unfold talk_bind at 1, of_io at 1, observe at 1.
  cbn [fst snd the_agent requests messages chatHistory log]. fold a. rewrite Ht.
  unfold talk_bind at 1, of_io at 1, emit at 1.
  cbn [fst snd the_agent requests messages chatHistory log].
  unfold talk_bind at 1, of_io at 1, lift at 1.
  cbn [fst snd the_agent requests messages chatHistory log].
  unfold talk_bind at 1, request at 1.
  cbn [fst snd the_agent requests messages chatHistory log].
  fold (user_message text). fold sent. rewrite Hc.
  unfold talk_bind at 1. change maxToolRounds with (S 49) at 1.
  cbn [exchange]. change (0 <? maxToolRounds) with true. cbv iota zeta.
  unfold asked_calls in Hn.
  assert (Hcalls :
    (match reply_tool_calls r with
     | Some (toolCall :: calls) => talk_ret (toolCall :: calls)
     | _ => of_io (observe (fun l => parseToolCallsFromContent JSON_stringify new_call_id l
                                       (JStr (reply_content r))))
     end)
      (mkSession (mkAgent sent (chatHistory a ++ [userEntry text]) (log a ++ [ToolsRequested]))
                 (requests s ++ [sent]))
    = (Ret [],
       mkSession (mkAgent sent (chatHistory a ++ [userEntry text]) (log a ++ [ToolsRequested]))
                 (requests s ++ [sent]))).
  { destruct (reply_tool_calls r) as [[|c cs]|]; try discriminate Hn;
      unfold of_io, observe; cbn [fst snd the_agent requests log]; now rewrite Hn. }
  unfold talk_bind at 1. fold (userEntry text). rewrite Hcalls.
  unfold talk_bind, of_io, push_history, push_message, talk_ret.
  cbn [fst snd the_agent requests messages chatHistory log app].
  change (maxToolRounds <=? 0) with false. cbv iota.
  rewrite <- !app_assoc. reflexivity.
Qed.

(** *** The round limit *)

Hypothesis tools_listed : forall l, exists tools, getAllOllamaTools l = Ret tools.

Hypothesis always_asks : forall l reqs sent tools, exists r,
  chat l reqs sent tools = Ret (Some r)
  /\ Forall (fun toolCall => nullish toolCall = false) (carried_calls r)
  /\ forall l', asked_calls JSON_stringify new_call_id l' r <> [].

Lemma speaks_run_calls toolCalls : forall newEntries,
  Forall (fun toolCall => nullish toolCall = false) toolCalls ->
  speaks 0 (fun _ => True)
         (run_calls run_builtin callTool JSON_stringify ToString toolCalls newEntries).
Proof.
  induction toolCalls as [|toolCall calls IH]; intros newEntries F; cbn [run_calls].
  - now apply speaks_ret.
  - inversion F as [|? ? Hx Hcalls]; subst.
    destruct (get_prop_returns toolCall "id" Hx) as [id Hid].
    eapply speaks_count.
    + eapply speaks_bind with (R1 := fun _ => True).
      { apply speaks_of_io. intros a.
        destruct (executeTool_returns run_builtin callTool JSON_stringify ToString toolCall a)
          as (result & a' & E). eauto. }
      intros result _.
      eapply speaks_bind with (R1 := fun x => x = id).
      { apply speaks_of_io. intros a. exists id, a. unfold lift. now rewrite Hid. }
      intros ? ->.
      eapply speaks_bind with (R1 := fun _ => True).
      { apply speaks_of_io. intros a. eexists _, _. split; [reflexivity | exact I]. }
      intros history _.
      eapply speaks_bind with (R1 := fun _ => True).
      { destruct (findIndex (awaits id) history).
        - eapply speaks_count.
          + eapply speaks_bind with (R1 := fun _ => True).
            { apply speaks_of_io. intros a. eexists _, _. split; [reflexivity | exact I]. }
            intros _ _. now apply speaks_ret.
          + reflexivity.
        - now apply speaks_ret. }
      intros es _.
      eapply speaks_bind with (R1 := fun _ => True).
      { apply speaks_of_io. intros a. eexists _, _. split; [reflexivity | exact I]. }
      intros _ _. apply IH. exact Hcalls.
    + reflexivity.
Qed.

Lemma speaks_request tools :
  speaks 1 (fun response =>
              exists r, response = Some r
                /\ Forall (fun toolCall => nullish toolCall = false) (carried_calls r)
                /\ forall l', asked_calls JSON_stringify new_call_id l' r <> [])
         (request chat tools).
Proof.
  intros s.
  destruct (always_asks (log (the_agent s)) (requests s) (messages (the_agent s)) tools)
    as (r & E & F & N).
  eexists (Some r), _. unfold request. rewrite E. split; [reflexivity|].
  cbn [requests]. rewrite length_app. cbn [length]. split; [reflexivity|]. eauto.
Qed.

Lemma speaks_exchange tools : forall fuel toolRounds r newEntries,
  toolRounds <= maxToolRounds -> maxToolRounds - toolRounds <= fuel ->
  Forall (fun toolCall => nullish toolCall = false) (carried_calls r) ->
  (forall l', asked_calls JSON_stringify new_call_id l' r <> []) ->
  speaks (maxToolRounds - toolRounds)
         (fun x => exists entries, x = Go (maxToolRounds, entries))
         (exchange chat run_builtin callTool JSON_stringify ToString new_call_id
                   fuel toolRounds tools (Some r) newEntries).
Proof.
  induction fuel as [|fuel IH]; intros toolRounds r newEntries Hle Hf F N;
    cbn [exchange]; destruct (Nat.ltb_spec toolRounds maxToolRounds) as [Hlt|Hge];
    try (replace (maxToolRounds - toolRounds) with 0 by lia;
         replace toolRounds with maxToolRounds by lia; apply speaks_ret; eauto; fail);
    [lia|].
  cbv zeta. eapply speaks_count.
  - eapply speaks_bind
      with (R1 := fun toolCalls =>
                    toolCalls <> [] /\ Forall (fun toolCall => nullish toolCall = false) toolCalls)
           (n1 := 0).
    { unfold asked_calls, carried_calls in *.
      destruct (reply_tool_calls r) as [[|c cs]|].
      - apply speaks_of_io. intros a. eexists _, a. split; [reflexivity|].
        split; [apply N | apply parseToolCallsFromContent_sound].
      - apply speaks_ret. split; [discriminate | exact F].
      - apply speaks_of_io. intros a. eexists _, a. split; [reflexivity|].
        split; [apply N | apply parseToolCallsFromContent_sound]. }
    intros toolCalls [Hne Hnn]. destruct toolCalls as [|toolCall calls]; [contradiction|].
    eapply speaks_bind with (R1 := fun _ => True) (n1 := 0).
    { apply speaks_of_io. intros a. eexists _, _. split; [reflexivity | exact I]. }
    intros _ _.
    eapply speaks_bind with (R1 := fun _ => True) (n1 := 0).
    { apply speaks_of_io. intros a. eexists _, _. split; [reflexivity | exact I]. }
    intros _ _.
    eapply speaks_bind with (R1 := fun _ => True) (n1 := 0).
    { apply speaks_of_io. intros a. eexists _, _. split; [reflexivity | exact I]. }
    intros history _.
    eapply speaks_bind with (R1 := fun _ => True) (n1 := 0).
    { apply speaks_of_io. intros a. eexists _, _. split; [reflexivity | exact I]. }
    intros _ _.
    eapply speaks_bind with (n1 := 0); [apply speaks_run_calls; exact Hnn|].
    intros es _.
    eapply speaks_bind with (n2 := maxToolRounds - S toolRounds); [apply speaks_request|].
    intros response (r' & -> & F' & N').
    apply IH; [lia | lia | exact F' | exact N'].
  - lia.
Qed.

(** X16.  When the list of tools is obtained and every reply of the model
    asks for tools, [processUserMessage] stops after 50 rounds: it sends
    51 requests, the reply to the last of which it does not look at, and
    the entries it returns, like the history, end with the notice that
    the limit was reached. *)
Theorem rounds_without_streaming_stop_at_the_limit (text : string) (s : session) :
  exists entries s',
    processUserMessage getAllOllamaTools chat run_builtin callTool JSON_stringify ToString
                       new_call_id text s
    = (Ret (Go (userEntry text :: entries ++ [warningEntry])%list), s')
    /\ length (requests s') = length (requests s) + 51
    /\ exists history, chatHistory (the_agent s') = (history ++ [warningEntry])%list.
Proof.
  set (asked := mkSession (mkAgent (messages (the_agent s) ++ [user_message text])
                                   (chatHistory (the_agent s) ++ [userEntry text])
                                   (log (the_agent s)))
                          (requests s)).
  destruct (tools_listed (log (the_agent s))) as (tools & Ht).
  set (s1 := mkSession (mkAgent (messages (the_agent asked)) (chatHistory (the_agent asked))
                                (log (the_agent s) ++ [ToolsRequested]))
                       (requests s)).
  destruct (speaks_request tools s1) as (response & s2 & E2 & L2 & r & -> & F & N).
  destruct (speaks_exchange tools maxToolRounds 0 r [userEntry text]
              (Nat.le_0_l _) ltac:(lia) F N s2)
    as (x & s3 & E3 & L3 & entries & ->).
  destruct (exchange_settled maxToolRounds 0 tools (Some r) (userEntry text) [] ltac:(lia) eq_refl
              _ _ _ E3) as (n & rest & Hgo).
  injection Hgo as _ ->.
  exists rest. eexists. split.
  - unfold processUserMessage, talk_bind at 1, of_io at 1, push_history at 1.
    cbn [fst snd the_agent requests].
    unfold talk_bind at 1, of_io at 1, push_message at 1.
    cbn [fst snd the_agent requests messages chatHistory log].
    unfold talk_try, converse.
    unfold talk_bind at 1, of_io at 1, observe at 1.
    cbn [fst snd the_agent requests messages chatHistory log]. rewrite Ht.
    unfold talk_bind at 1, of_io at 1, emit at 1.
    cbn [fst snd the_agent requests messages chatHistory log].
    unfold talk_bind at 1, of_io at 1, lift at 1.
    cbn [fst snd the_agent requests messages chatHistory log].
    unfold talk_bind at 1. fold (user_message text). fold (userEntry text).
    change (request chat tools s1) with (request chat tools s1) in E2.
    unfold s1, asked in E2. cbn [the_agent messages chatHistory] in E2. rewrite E2.
    unfold talk_bind at 1. rewrite E3.
    change (maxToolRounds <=? maxToolRounds) with true. cbv iota.
    unfold talk_bind, of_io, push_history, talk_ret. cbn [fst snd the_agent requests app].
    reflexivity.
  - cbn [requests the_agent chatHistory]. split; [|eauto].
    rewrite L3, L2. unfold s1. cbn [requests]. unfold maxToolRounds. lia.
Qed.

End Talk.

Lemma first_reply_without_calls_is_the_answer_witness :
  processUserMessage no_tools replies tools_work no_mcp no_text no_text some_id
                     "hello" (opening start)
  = (Ret (Go [userEntry "hello";
              mkEntry assistant "Hello" JUndefined JUndefined None]),
     mkSession
       (mkAgent ((messages start ++ [user_message "hello"])
                 ++ [mkMessage "assistant" "Hello" JUndefined JUndefined])
                [userEntry "hello"; mkEntry assistant "Hello" JUndefined JUndefined None]
                [ToolsRequested])
       [(messages start ++ [user_message "hello"])%list]).
Proof.
  exact (first_reply_without_calls_is_the_answer no_tools replies tools_work no_mcp no_text
           no_text some_id "hello" (opening start) (JArr []) (mkReply "Hello" None)
           eq_refl eq_refl eq_refl).
Defined.

Lemma rounds_without_streaming_stop_at_the_limit_witness :
  exists entries s',
    processUserMessage no_tools insists tools_work no_mcp no_text no_text some_id
                       "list the files" (opening start)
    = (Ret (Go (userEntry "list the files" :: entries ++ [warningEntry])%list), s')
    /\ length (requests s') = length (requests (opening start)) + 51
    /\ exists history, chatHistory (the_agent s') = (history ++ [warningEntry])%list.
Proof.
  apply (rounds_without_streaming_stop_at_the_limit no_tools insists tools_work no_mcp
           no_text no_text some_id).
  - intros l. eexists. reflexivity.
  - intros l reqs sent tools. eexists. split; [reflexivity|]. split.
    + repeat constructor.
    + intros l'. discriminate.
Defined.

Lemma processUserMessage_always_answers_witness :
  exists s',
    processUserMessage no_tools unreachable tools_work no_mcp no_text no_text some_id
                       "hello" (opening start)
    = (Ret (Go [userEntry "hello";
                errorEntry (Error "Ollama API error: connect ECONNREFUSED")]), s')
    /\ chatHistory (the_agent s')
       = [userEntry "hello"; errorEntry (Error "Ollama API error: connect ECONNREFUSED")].
Proof.
  eexists. split.
  - exact (proj2 (processUserMessage_always_answers no_tools unreachable tools_work no_mcp
                    no_text no_text some_id "hello" (opening start))
             (Error "Ollama API error: connect ECONNREFUSED") _ eq_refl).
  - reflexivity.
Defined.

(** ** The bash tool *)

Section ShellFacts.
Import Shell.

Lemma system_words_are_dangerous c w rest :
  In w system_words -> trim c = w ++ " " ++ rest -> isDangerousCommand c = true.
Proof.
  intros Hw Ht. unfold isDangerousCommand. rewrite Ht. apply existsb_exists.
  cbn [system_words In] in Hw.
  repeat (destruct Hw as [<-|Hw]);
    [ exists (AtStart (seq [word "sudo"; space]))
    | exists (AtStart (seq [word "dd"; Regex.Plus space]))
    | exists (AtStart (seq [word "fdisk"; space]))
    | exists (AtStart (seq [word "format"; space]))
    | exists (AtStart (seq [word "killall"; space]))
    | exists (AtStart (seq [word "pkill"; space]))
    | exists (AtStart (seq [word "systemctl"; space]))
    | exists (AtStart (seq [word "service"; space]))
    | exists (AtStart (seq [word "mount"; space]))
    | exists (AtStart (seq [word "umount"; space]))
    | contradiction ];
    (split; [cbn; tauto|]).
  all: try reflexivity.
  (* [^dd\s+]: the spaces that follow are taken as far as they go *)
  cbn [test seq word fold_right map of_string list_ascii_of_string append].
  replace (letter "d") with (Regex.Cls [Regex.One "d"; Regex.One "D"])
    by (vm_compute; reflexivity).
  cbn. match goal with |- context [Regex.or_else ?x _] => destruct x end; reflexivity.
Qed.

Lemma substring_all s : String.substring 0 (String.length s) s = s.
Proof. induction s as [|c s IH]; cbn; [reflexivity | now rewrite IH]. Qed.

Variable getSessionFlags : list effect -> flags.
Variable requestConfirmation : list effect -> string -> string -> outcome confirmation.
Variable chdir : list effect -> string -> outcome string.
Variable execAsync : list effect -> string -> string -> outcome (string * string).

Lemma perform_effects c s :
  exists e,
    effects (snd (perform chdir execAsync c s)) = (effects s ++ [e])%list
    /\ (e = ChangedDirectory (trim (String.substring 3 (String.length c - 3) c))
        \/ e = Ran c (currentDirectory s)).
Proof.
  unfold perform. destruct (startsWith "cd " c).
  - eexists. split; [|left; reflexivity]. destruct (chdir _ _); reflexivity.
  - eexists. split; [|right; reflexivity]. destruct (execAsync _ _ _) as [[out err]|e]; reflexivity.
Qed.

(** X17.  [execute] never raises, and nothing it does goes without
    permission.  It changes the directory or runs the command, at most
    once, only for a command that is a string and is either dangerous in
    a session where all operations are allowed, or not dangerous and
    then allowed by the session's flags or confirmed by the user just
    before. *)
Theorem nothing_runs_without_permission (command : jsval) (s : shell) :
  exists ext,
    effects (snd (execute getSessionFlags requestConfirmation chdir execAsync command s))
    = (effects s ++ ext)%list
    /\ length (filter acts ext) <= 1
    /\ (forall e, In e ext -> acts e = true ->
        exists c,
          command = JStr c
          /\ let sessionFlags := getSessionFlags (effects s) in
             if isDangerousCommand c then allOperations sessionFlags = true
             else bashCommands sessionFlags = true \/ allOperations sessionFlags = true
                  \/ exists content answer rest,
                       ext = Asked c content :: rest
                       /\ requestConfirmation (effects s) c content = Ret answer
                       /\ confirmed answer = true).
Proof.
  unfold execute, attempt.
  destruct command as [| |b|n|c|l|o|q o];
    try (exists []; rewrite app_nil_r; cbn; repeat split; [lia | intros e []]).
  cbn [receiver]. cbv zeta.
  destruct (isDangerousCommand c) eqn:D; cbn [andb negb].
  - destruct (allOperations (getSessionFlags (effects s))) eqn:A; cbn [negb].
    + destruct (perform_effects c s) as (e & L & He).
      destruct (perform chdir execAsync c s) as [[r|x] s'] eqn:P; cbn [snd] in *;
        (exists [e]; split; [exact L|]; split;
         [destruct He as [-> | ->]; cbn; lia|];
         intros e' [<-|[]] _; exists c; split; [reflexivity|]; cbv zeta; now rewrite D).
    + exists []. rewrite app_nil_r. cbn. repeat split; [lia | intros e []].
  - destruct (bashCommands (getSessionFlags (effects s))) eqn:B; cbn [negb andb].
    + destruct (perform_effects c s) as (e & L & He).
      destruct (perform chdir execAsync c s) as [[r|x] s'] eqn:P; cbn [snd] in *;
        (exists [e]; split; [exact L|]; split;
         [destruct He as [-> | ->]; cbn; lia|];
         intros e' [<-|[]] _; exists c; split; [reflexivity|]; cbv zeta; rewrite D; now left).
    + destruct (allOperations (getSessionFlags (effects s))) eqn:A; cbn [negb].
      * destruct (perform_effects c s) as (e & L & He).
        destruct (perform chdir execAsync c s) as [[r|x] s'] eqn:P; cbn [snd] in *;
          (exists [e]; split; [exact L|]; split;
           [destruct He as [-> | ->]; cbn; lia|];
           intros e' [<-|[]] _; exists c; split; [reflexivity|]; cbv zeta; rewrite D;
           right; now left).
      * set (content := "Command: " ++ c ++ newline ++ "Working directory: "
                        ++ currentDirectory s).
        destruct (requestConfirmation (effects s) c content) as [answer|x] eqn:Q.
        -- destruct (confirmed answer) eqn:K.
           ++ destruct (perform_effects c (did (Asked c content) s)) as (e & L & He).
              cbn [effects did] in L.
              destruct (perform chdir execAsync c (did (Asked c content) s)) as [[r|x] s'] eqn:P;
                cbn [snd] in *;
                (exists [Asked c content; e]; split;
                 [rewrite L, <- app_assoc; reflexivity|]; split;
                 [destruct He as [-> | ->]; cbn; lia|];
                 intros e' HI Ha; exists c; split; [reflexivity|]; cbv zeta; rewrite D;
                 right; right; exists content, answer, [e]; auto).
           ++ exists [Asked c content]. cbn. repeat split; [lia|].
              intros e [<-|[]] Ha. discriminate Ha.
        -- exists [Asked c content]. cbn. repeat split; [lia|].
           intros e [<-|[]] Ha. discriminate Ha.
Qed.

(** X18.  A command that starts, once trimmed, with sudo, dd, fdisk,
    format, killall, pkill, systemctl, service, mount or umount and a
    space is refused in a session where not all operations are allowed:
    the user is not asked, and nothing is done. *)
Theorem system_commands_are_refused (c w rest : string) (s : shell) :
  In w system_words ->
  trim c = w ++ " " ++ rest ->
  allOperations (getSessionFlags (effects s)) = false ->
  execute getSessionFlags requestConfirmation chdir execAsync (JStr c) s = (refusal c, s).
Proof.
  intros Hw Ht Ha. unfold execute, attempt. cbn [receiver]. cbv zeta.
  rewrite (system_words_are_dangerous c w rest Hw Ht), Ha. reflexivity.
Qed.

(** X19.  In a session that allows bash commands, a command [cd dir] that
    is not dangerous goes to [process.chdir] and never to the shell;
    when the directory is entered, the next command runs in it. *)
Theorem cd_is_followed_by_the_next_command (dir c cwd : string) (s : shell) :
  (forall l, bashCommands (getSessionFlags l) = true) ->
  isDangerousCommand ("cd " ++ dir) = false ->
  isDangerousCommand c = false ->
  startsWith "cd " c = false ->
  chdir (effects s) (trim dir) = Ret cwd ->
  let first := execute getSessionFlags requestConfirmation chdir execAsync
                       (JStr ("cd " ++ dir)) s in
  let second := execute getSessionFlags requestConfirmation chdir execAsync (JStr c)
                        (snd first) in
  fst first = succeeded ("Changed directory to: " ++ cwd)
  /\ currentDirectory (snd first) = cwd
  /\ effects (snd second) = (effects s ++ [ChangedDirectory (trim dir); Ran c cwd])%list.
Proof.
  intros Hb Hd Hc Hn Hcd first second.
  assert (E1 : first = (succeeded ("Changed directory to: " ++ cwd),
                        mkShell cwd (effects s ++ [ChangedDirectory (trim dir)]))).
  { unfold first, execute, attempt. cbn [receiver]. cbv zeta.
    rewrite Hd, Hb. cbn [andb negb]. unfold perform.
    change (startsWith "cd " ("cd " ++ dir)) with (startsWith "" dir).
    replace (startsWith "" dir) with true by (destruct dir; reflexivity).
    replace (String.substring 3 (String.length ("cd " ++ dir) - 3) ("cd " ++ dir)) with dir.
    - now rewrite Hcd.
    - cbn [append String.length String.substring Nat.sub]. rewrite Nat.sub_0_r.
      symmetry. apply substring_all. }
  unfold second. rewrite E1. cbn [fst snd currentDirectory].
  repeat split.
  unfold execute, attempt. cbn [receiver]. cbv zeta.
  rewrite Hc, Hb. cbn [andb negb]. unfold perform. rewrite Hn.
  unfold did. cbn [effects currentDirectory].
  destruct (execAsync _ c cwd) as [[out err]|x]; cbn [snd effects];
    rewrite <- app_assoc; reflexivity.
Qed.

End ShellFacts.

Lemma system_commands_are_refused_witness :
  Shell.execute nothing_allowed declines no_chdir no_exec (JStr "  sudo rm -rf /  ") home
  = (refusal "  sudo rm -rf /  ", home).
Proof.
  apply (system_commands_are_refused nothing_allowed declines no_chdir no_exec
           "  sudo rm -rf /  " "sudo" "rm -rf /" home).
  - cbn. tauto.
  - reflexivity.
  - reflexivity.
Defined.

Lemma cd_is_followed_by_the_next_command_witness :
  let first := Shell.execute bash_allowed declines enters prints (JStr "cd src ") home in
  let second := Shell.execute bash_allowed declines enters prints (JStr "pwd") (snd first) in
  fst first = succeeded "Changed directory to: /home/user/src"
  /\ Shell.currentDirectory (snd first) = "/home/user/src"
  /\ Shell.effects (snd second)
     = (Shell.effects home
        ++ [Shell.ChangedDirectory (trim "src "); Shell.Ran "pwd" "/home/user/src"])%list.
Proof.
  apply (cd_is_followed_by_the_next_command bash_allowed declines enters prints
           "src " "pwd" "/home/user/src" home).
  - reflexivity.
  - vm_compute. reflexivity.
  - vm_compute. reflexivity.
  - reflexivity.
  - reflexivity.
Defined.

(** ** The settings manager *)

Section SettingsFacts.
Import Settings.

Lemma get_cons k k' v (o : props) :
  get ((k', v) :: o) k = if (k' =? k)%string then v else get o k.
Proof. unfold get. cbn [lookup]. destruct (k' =? k)%string; reflexivity. Qed.

Lemma get_missing (o : props) k : ~ In k (keys o) -> get o k = JUndefined.
Proof.
  induction o as [|[k' v] o IH]; intros H; [reflexivity|].
  rewrite get_cons. destruct (String.eqb_spec k' k) as [->|N].
  - exfalso. apply H. now left.
  - apply IH. intros C. apply H. now right.
Qed.

Lemma existsb_reversed {A} (f : A -> bool) (l : list A) :
  existsb f (rev l) = existsb f l.
Proof.
  apply eq_iff_eq_true. rewrite !existsb_exists.
  split; intros [x [I F]]; exists x; split; try exact F.
  - now apply in_rev.
  - now apply in_rev in I.
Qed.

Lemma get_app (x y : props) k :
  get (x ++ y)%list k = if existsb (String.eqb k) (keys x) then get x k else get y k.
Proof.
  induction x as [|[kx vx] x IH]; [reflexivity|].
  cbn [app keys map fst existsb]. fold (keys x). rewrite !get_cons.
  rewrite (String.eqb_sym k kx). destruct (kx =? k)%string; [reflexivity|].
  cbn [orb]. exact IH.
Qed.

Lemma existsb_keys (o : props) k :
  existsb (String.eqb k) (keys o) = false -> get o k = JUndefined.
Proof.
  intros E. apply get_missing. intros I.
  assert (T : existsb (String.eqb k) (keys o) = true).
  { apply existsb_exists. exists k. split; [exact I | apply String.eqb_refl]. }
  congruence.
Qed.

Lemma get_rev (o : props) k : NoDup (keys o) -> get (rev o) k = get o k.
Proof.
  induction o as [|[k' v] o IH]; intros N; [reflexivity|].
  cbn [keys map fst] in N. fold (keys o) in N. inversion N as [|? ? Hk No]; subst.
  cbn [rev]. rewrite get_app.
  unfold keys at 1. rewrite map_rev, existsb_reversed. fold (keys o).
  destruct (existsb (String.eqb k) (keys o)) eqn:E.
  - rewrite IH by exact No. rewrite get_cons.
    destruct (String.eqb_spec k' k) as [->|D]; [|reflexivity].
    exfalso. apply Hk. apply existsb_exists in E as [x [I F]].
    apply String.eqb_eq in F. now subst.
  - rewrite !get_cons. destruct (k' =? k)%string; [reflexivity|].
    cbn. symmetry. now apply existsb_keys.
Qed.

Lemma assign_props (b : props) : forall (a : props) k,
  get (fold_left (fun acc kv => set (fst kv) (snd kv) acc) b a) k
  = if existsb (String.eqb k) (keys b)
    then get (rev b) k
    else get a k.
Proof.
  induction b as [|[k' v] b IH]; intros a k; [reflexivity|].
  cbn [fold_left fst snd keys map existsb]. rewrite IH.
  fold (keys b). cbn [rev]. rewrite get_app.
  unfold keys at 3. rewrite map_rev, existsb_reversed. fold (keys b).
  destruct (existsb (String.eqb k) (keys b)) eqn:E.
  - rewrite orb_true_r. reflexivity.
  - rewrite orb_false_r. rewrite get_cons, (String.eqb_sym k' k).
    destruct (String.eqb_spec k k') as [->|N].
    + apply get_set_same.
    + rewrite get_set_other by congruence. reflexivity.
Qed.

(** What [{ ...a, ...b }] holds: the properties of [b], and those of [a]
    that [b] has not *)
Lemma get_assign (a b : props) k :
  NoDup (keys b) ->
  get (assign a (JObj b)) k
  = if existsb (String.eqb k) (keys b) then get b k else get a k.
Proof.
  intros N. unfold assign. cbn [spread]. rewrite assign_props.
  destruct (existsb (String.eqb k) (keys b)); [now apply get_rev | reflexivity].
Qed.

Section Stored.

Variable readable writable : place -> bool.
Variable JSON_stringify : jsval -> string.

Variable OLLAMA_BASE_URL : option string.
Variable tags : jsval -> outcome (list string).

Local Abbreviation load := (load readable writable JSON_stringify).
Local Abbreviation save := (save readable writable JSON_stringify).
Local Abbreviation update := (update readable writable JSON_stringify).
Local Abbreviation setting := (setting readable writable JSON_stringify).
Local Abbreviation getCurrentModelSync :=
  (getCurrentModelSync readable writable JSON_stringify).
Local Abbreviation setCurrentModel := (setCurrentModel readable writable JSON_stringify).
Local Abbreviation getBaseURL :=
  (getBaseURL readable writable JSON_stringify OLLAMA_BASE_URL).
Local Abbreviation getCurrentModel :=
  (getCurrentModel readable writable JSON_stringify OLLAMA_BASE_URL tags).
Local Abbreviation getAvailableModels :=
  (getAvailableModels readable writable JSON_stringify OLLAMA_BASE_URL tags).

Lemma slot_with_same p s d : slot_of p (with_slot p s d) = s.
Proof. destruct p; reflexivity. Qed.

Lemma slot_with_other p q s d : p <> q -> slot_of q (with_slot p s d) = slot_of q d.
Proof. destruct p, q; intros N; try reflexivity; congruence. Qed.

Lemma ensure_file p d :
  file (slot_of p (snd (ensureDirectoryExists writable p d))) = file (slot_of p d).
Proof.
  unfold ensureDirectoryExists. destruct (directory (slot_of p d)); [reflexivity|].
  destruct (writable p); [|reflexivity]. cbn [snd]. now rewrite slot_with_same.
Qed.

Lemma ensure_other p q d :
  p <> q -> slot_of q (snd (ensureDirectoryExists writable p d)) = slot_of q d.
Proof.
  intros N. unfold ensureDirectoryExists. destruct (directory (slot_of p d)); [reflexivity|].
  destruct (writable p); [|reflexivity]. cbn [snd]. now apply slot_with_other.
Qed.

Lemma ensure_writable p d :
  writable p = true -> fst (ensureDirectoryExists writable p d) = Ret tt.
Proof.
  intros W. unfold ensureDirectoryExists. destruct (directory (slot_of p d)); [reflexivity|].
  now rewrite W.
Qed.

(** Saving touches the one file only *)
Lemma save_other p q settings d :
  p <> q -> slot_of q (snd (save p settings d)) = slot_of q d.
Proof.
  intros N. unfold Settings.save.
  pose proof (ensure_other p q d N) as E.
  destruct (ensureDirectoryExists writable p d) as [[u|e] d']; cbn [snd] in E |- *.
  - destruct (writable p); cbn [snd]; [|exact E].
    rewrite slot_with_other by exact N. exact E.
  - exact E.
Qed.

Lemma load_other p q d : p <> q -> slot_of q (snd (load p d)) = slot_of q d.
Proof.
  intros N. unfold Settings.load. destruct (file (slot_of p d)) as [content|].
  - destruct (text <- readFileSync readable p content ;; Json.parse text); reflexivity.
  - pose proof (save_other p q (JObj (defaults p)) d N) as E.
    destruct (save p (JObj (defaults p)) d) as [r d']. exact E.
Qed.

(** A file that exists is left as it is by a load, which depends on that
    file only *)
Lemma load_existing p d content :
  file (slot_of p d) = Some content ->
  load p d
  = (match (text <- readFileSync readable p content ;; Json.parse text) with
     | Ret settings => assign (defaults p) settings
     | Throw _ => defaults p
     end, d).
Proof.
  intros F. unfold Settings.load. rewrite F.
  destruct (text <- readFileSync readable p content ;; Json.parse text); reflexivity.
Qed.

Lemma load_same_file p d d' :
  file (slot_of p d) = file (slot_of p d') -> fst (load p d) = fst (load p d').
Proof.
  intros F. unfold Settings.load. rewrite <- F. destruct (file (slot_of p d)) as [content|].
  - destruct (text <- readFileSync readable p content ;; Json.parse text); reflexivity.
  - destruct (save p (JObj (defaults p)) d), (save p (JObj (defaults p)) d'). reflexivity.
Qed.

(** What a save writes: the settings that a load returns, with the new
    ones over them *)
Lemma save_writes p settings d :
  writable p = true ->
  exists d1,
    save p settings d = (Ret tt, d1)
    /\ file (slot_of p d1)
       = Some (JSON_stringify (JObj (assign (fst (load p d)) settings)))
    /\ slot_of (other p) d1 = slot_of (other p) d.
Proof.
  intros W.
  assert (N : p <> other p) by (destruct p; discriminate).
  pose proof (save_other p (other p) settings d N) as O.
  unfold Settings.save in *.
  pose proof (ensure_file p d) as F. pose proof (ensure_writable p d W) as R.
  destruct (ensureDirectoryExists writable p d) as [r d']. cbn [fst snd] in F, R. subst r.
  rewrite W in *. cbn [snd] in O. eexists. split; [reflexivity|]. split; [|exact O].
  rewrite slot_with_same. cbn [file]. do 3 f_equal.
  unfold Settings.load. rewrite F. destruct (file (slot_of p d)) as [content|].
  - destruct (text <- readFileSync readable p content ;; Json.parse text); reflexivity.
  - destruct (Settings.save readable writable JSON_stringify p (JObj (defaults p)) d).
    reflexivity.
Qed.

(** What is read from a file that holds the settings [o] *)
Lemma load_written p d o k :
  readable p = true ->
  file (slot_of p d) = Some (JSON_stringify (JObj o)) ->
  reads_back JSON_stringify o ->
  snd (load p d) = d
  /\ (get o k <> JUndefined -> get (fst (load p d)) k = get o k).
Proof.
  intros R F [back [P [N G]]].
  rewrite (load_existing p d _ F). unfold readFileSync. rewrite R. cbn [bind].
  rewrite P. cbn [fst snd]. split; [reflexivity|]. intros D.
  rewrite get_assign by exact N.
  destruct (existsb (String.eqb k) (keys back)) eqn:E; [apply G|].
  exfalso. apply D. rewrite <- G. now apply existsb_keys.
Qed.

Lemma update_then_get p key value d :
  writable p = true -> readable p = true ->
  value <> JUndefined ->
  reads_back JSON_stringify (set key value (fst (load p d))) ->
  exists d1,
    update p key value d = (Ret tt, d1)
    /\ slot_of (other p) d1 = slot_of (other p) d
    /\ setting p key d1 = (value, d1)
    /\ forall k, k <> key -> get (fst (load p d)) k <> JUndefined ->
                 fst (setting p k d1) = get (fst (load p d)) k.
Proof.
  intros W R V B.
  destruct (save_writes p (JObj [(key, value)]) d W) as [d1 [S [F O]]].
  exists d1. split; [exact S|]. split; [exact O|].
  change (assign (fst (load p d)) (JObj [(key, value)]))
    with (set key value (fst (load p d))) in F.
  split.
  - destruct (load_written p d1 _ key R F B) as [L1 L2].
    unfold Settings.setting. destruct (load p d1) as [o d2]. cbn [fst snd] in L1, L2.
    subst d2. f_equal. rewrite L2; rewrite get_set_same; [reflexivity | exact V].
  - intros k Nk D.
    destruct (load_written p d1 _ k R F B) as [L1 L2].
    unfold Settings.setting. destruct (load p d1) as [o d2]. cbn [fst snd] in L1, L2 |- *.
    rewrite get_set_other in L2 by congruence. now apply L2.
Qed.

Lemma setting_load p k d : fst (setting p k d) = get (fst (load p d)) k.
Proof. unfold Settings.setting. destruct (load p d). reflexivity. Qed.

Lemma setting_disk p k d : snd (setting p k d) = snd (load p d).
Proof. unfold Settings.setting. destruct (load p d). reflexivity. Qed.

(** Without the right to write, a save raises and a load changes nothing *)
Lemma save_unwritable p settings d :
  writable p = false -> exists e, save p settings d = (Throw e, d).
Proof.
  intros W. unfold Settings.save, ensureDirectoryExists. rewrite W.
  destruct (directory (slot_of p d)); eexists; reflexivity.
Qed.

Lemma load_unwritable p d : writable p = false -> snd (load p d) = d.
Proof.
  intros W. unfold Settings.load. destruct (file (slot_of p d)) as [content|].
  - destruct (text <- readFileSync readable p content ;; Json.parse text); reflexivity.
  - destruct (save_unwritable p (JObj (defaults p)) d W) as [e ->]. reflexivity.
Qed.

Lemma base_url_disk d :
  snd (getBaseURL d) = d \/ snd (getBaseURL d) = snd (load UserSettings d).
Proof.
  unfold Settings.getBaseURL, getUserSetting.
  pose proof (setting_disk UserSettings "baseURL" d) as S.
  destruct OLLAMA_BASE_URL as [u|].
  - destruct (negb (u =? "")%string); [now left|].
    destruct (setting UserSettings "baseURL" d). right. exact S.
  - destruct (setting UserSettings "baseURL" d). right. exact S.
Qed.

Lemma base_url_value d d' :
  file (user_slot d) = file (user_slot d') ->
  fst (getBaseURL d) = fst (getBaseURL d').
Proof.
  intros F. unfold Settings.getBaseURL, getUserSetting.
  pose proof (setting_load UserSettings "baseURL" d) as S.
  pose proof (setting_load UserSettings "baseURL" d') as S'.
  rewrite (load_same_file UserSettings d d' F) in S.
  destruct (setting UserSettings "baseURL" d) as [u1 d1],
           (setting UserSettings "baseURL" d') as [u2 d2].
  cbn [fst] in S, S'. subst u1 u2.
  destruct OLLAMA_BASE_URL as [u|]; [destruct (negb (u =? "")%string)|]; reflexivity.
Qed.

(** X20. A setting that is updated is read back: when the settings file
    can be read and written, [updateUserSetting(key, value)] (and
    [updateProjectSetting]) with a value other than [undefined] returns,
    after it [getUserSetting(key)] is that value, and every other setting
    that had a value keeps it. This holds whatever the file held before,
    also when it was missing or could not be parsed. *)
Theorem a_saved_setting_is_read_back p key value d :
  writable p = true -> readable p = true ->
  value <> JUndefined ->
  reads_back JSON_stringify (set key value (fst (load p d))) ->
  exists d1,
    update p key value d = (Ret tt, d1)
    /\ setting p key d1 = (value, d1)
    /\ forall k, k <> key -> fst (setting p k d) <> JUndefined ->
                 fst (setting p k d1) = fst (setting p k d).
Proof.
  intros W R V B.
  destruct (update_then_get p key value d W R V B) as [d1 [U [_ [S K]]]].
  exists d1. split; [exact U|]. split; [exact S|].
  intros k Nk D. rewrite (setting_load p k d) in *. now apply K.
Qed.

(** X21. The model set for the project is the current one: after
    [setCurrentModel(model)] with a model that is not the empty string,
    [getCurrentModelSync()] returns that model, whatever the user's default
    model is. *)
Theorem the_project_model_is_the_current_one model d :
  model <> "" ->
  writable ProjectSettings = true -> readable ProjectSettings = true ->
  reads_back JSON_stringify (set "model" (JStr model) (fst (load ProjectSettings d))) ->
  exists d1,
    setCurrentModel model d = (Ret tt, d1)
    /\ getCurrentModelSync d1 = (Ret (JStr model), d1).
Proof.
  intros M W R B.
  destruct (update_then_get ProjectSettings "model" (JStr model) d W R) as [d1 [U [_ [S _]]]];
    [discriminate | exact B |].
  exists d1. split; [exact U|].
  unfold Settings.getCurrentModelSync, getProjectSetting. rewrite S.
  cbn [truthy]. apply String.eqb_neq in M. rewrite M. reflexivity.
Qed.

(** X22. [getBaseURL()] never returns an empty URL: its result is truthy
    for every environment and every state of the settings, and a
    non-empty [OLLAMA_BASE_URL] is returned without a look at the
    settings. *)
Theorem the_base_url_is_never_empty d :
  truthy (fst (getBaseURL d)) = true
  /\ (forall url, OLLAMA_BASE_URL = Some url -> url <> "" -> getBaseURL d = (JStr url, d)).
Proof.
  split.
  - unfold Settings.getBaseURL.
    assert (G : forall u : jsval,
               truthy (if truthy u then u
                       else if truthy (get DEFAULT_USER_SETTINGS "baseURL")
                            then get DEFAULT_USER_SETTINGS "baseURL"
                            else JStr "http://localhost:11434") = true).
    { intros u. destruct (truthy u) eqn:T; [exact T | reflexivity]. }
    destruct OLLAMA_BASE_URL as [u|].
    + destruct (negb (u =? "")%string) eqn:E; [exact E|].
      destruct (getUserSetting readable writable JSON_stringify "baseURL" d). apply G.
    + destruct (getUserSetting readable writable JSON_stringify "baseURL" d). apply G.
  - intros url E N. unfold Settings.getBaseURL. rewrite E.
    apply String.eqb_neq in N. rewrite N. reflexivity.
Qed.

(** X23. The model that is detected becomes the default: when no model is
    configured ([getCurrentModelSync()] raises), the user settings file
    exists and can be read and written, and the first model of
    [refreshAvailableModels()] for the base URL is [m] (the first that the
    server lists, or the first known name when the server cannot be
    reached), then [getCurrentModel()] returns [m] and afterwards the
    user's [defaultModel] is [m]. *)
Theorem the_detected_model_becomes_the_default m others content e d :
  file (user_slot d) = Some content ->
  writable UserSettings = true -> readable UserSettings = true ->
  fst (getCurrentModelSync d) = Throw e ->
  refreshAvailableModels tags (fst (getBaseURL d)) = m :: others ->
  reads_back JSON_stringify (set "defaultModel" (JStr m) (fst (load UserSettings d))) ->
  exists d1,
    getCurrentModel d = (Ret (JStr m), d1)
    /\ setting UserSettings "defaultModel" d1 = (JStr m, d1).
Proof.
  intros F W R N L B.
  unfold Settings.getCurrentModelSync in N. unfold Settings.getCurrentModel.
  unfold getProjectSetting, getUserSetting, updateUserSetting in *.
  pose proof (setting_disk ProjectSettings "model" d) as P1.
  destruct (setting ProjectSettings "model" d) as [pm d1]. cbn [snd] in P1.
  destruct (truthy pm); [discriminate N|].
  assert (F1 : file (user_slot d1) = Some content).
  { subst d1. rewrite <- F.
    exact (f_equal file (load_other ProjectSettings UserSettings d ltac:(discriminate))). }
  pose proof (setting_disk UserSettings "defaultModel" d1) as P2.
  destruct (setting UserSettings "defaultModel" d1) as [um d2]. cbn [snd] in P2.
  destruct (truthy um); [discriminate N|].
  rewrite (load_existing UserSettings d1 content F1) in P2. cbn [snd] in P2. subst d2.
  pose proof (base_url_value d1 d) as V. rewrite F, F1 in V. specialize (V eq_refl).
  assert (E3 : snd (getBaseURL d1) = d1).
  { destruct (base_url_disk d1) as [-> | ->]; [reflexivity|].
    now rewrite (load_existing UserSettings d1 content F1). }
  destruct (getBaseURL d1) as [url d3]. cbn [fst snd] in V, E3. subst d3 url.
  rewrite L.
  assert (S : fst (load UserSettings d1) = fst (load UserSettings d)).
  { apply load_same_file. cbn [slot_of]. now rewrite F, F1. }
  rewrite <- S in B.
  destruct (update_then_get UserSettings "defaultModel" (JStr m) d1 W R) as [d4 [U [_ [G _]]]];
    [discriminate | exact B |].
  rewrite U. exists d4. split; [reflexivity | exact G].
Qed.

(** X24. What cannot be saved is not returned: when the user settings
    cannot be written, [getCurrentModel()] with no model configured raises
    "No models available" whatever the server lists, and
    [getAvailableModels()] returns the models of the settings (or none),
    not the ones it has fetched. *)
Theorem what_cannot_be_saved_is_not_returned e d :
  writable UserSettings = false ->
  fst (getCurrentModelSync d) = Throw e ->
  fst (getCurrentModel d) = Throw no_models_available
  /\ fst (getAvailableModels d) = cached_models (fst (load UserSettings d)).
Proof.
  intros W N. split.
  - unfold Settings.getCurrentModelSync in N. unfold Settings.getCurrentModel.
    unfold getProjectSetting, getUserSetting, updateUserSetting in *.
    destruct (setting ProjectSettings "model" d) as [pm d1].
    destruct (truthy pm); [discriminate N|].
    destruct (setting UserSettings "defaultModel" d1) as [um d2].
    destruct (truthy um); [discriminate N|].
    destruct (getBaseURL d2) as [url d3].
    destruct (refreshAvailableModels tags url) as [|firstModel rest]; [reflexivity|].
    destruct (save_unwritable UserSettings (JObj [("defaultModel", JStr firstModel)]) d3 W)
      as [e' S].
    unfold Settings.update. rewrite S. reflexivity.
  - unfold Settings.getAvailableModels, updateUserSetting, getUserSetting.
    assert (E0 : snd (getBaseURL d) = d).
    { destruct (base_url_disk d) as [-> | ->]; [reflexivity | now apply load_unwritable]. }
    destruct (getBaseURL d) as [url d0]. cbn [snd] in E0. subst d0.
    destruct (save_unwritable UserSettings
                (JObj [("models", JArr (map JStr (refreshAvailableModels tags url)))]) d W)
      as [e' S].
    unfold Settings.update. rewrite S.
    pose proof (setting_load UserSettings "models" d) as G.
    destruct (setting UserSettings "models" d) as [c d']. cbn [fst] in G |- *.
    subst c. reflexivity.
Qed.

End Stored.

End SettingsFacts.

Lemma compact_json_reads_back (o back : props) :
  Json.parse (compact_json (JObj o)) = Ret (JObj back) ->
  NoDup (keys back) ->
  (forall k, get back k = get o k) ->
  reads_back compact_json o.
Proof. intros P N G. exists back. auto. Qed.

Lemma a_saved_setting_is_read_back_witness :
  exists d1,
    Settings.update everything everything compact_json
      Settings.UserSettings "defaultModel" (JStr "llama3.2:3b") damaged_disk = (Ret tt, d1)
    /\ Settings.setting everything everything compact_json
         Settings.UserSettings "defaultModel" d1 = (JStr "llama3.2:3b", d1)
    /\ forall k, k <> "defaultModel" ->
         fst (Settings.setting everything everything compact_json
                Settings.UserSettings k damaged_disk) <> JUndefined ->
         fst (Settings.setting everything everything compact_json
                Settings.UserSettings k d1)
         = fst (Settings.setting everything everything compact_json
                  Settings.UserSettings k damaged_disk).
Proof.
  apply (a_saved_setting_is_read_back everything everything compact_json
           Settings.UserSettings "defaultModel" (JStr "llama3.2:3b") damaged_disk).
  - reflexivity.
  - reflexivity.
  - discriminate.
  - eapply compact_json_reads_back.
    + vm_compute. reflexivity.
    + repeat constructor; cbn; intuition discriminate.
    + intros k. vm_compute. reflexivity.
Defined.

Lemma the_project_model_is_the_current_one_witness :
  exists d1,
    Settings.setCurrentModel everything everything compact_json "codellama:7b" blank_disk
    = (Ret tt, d1)
    /\ Settings.getCurrentModelSync everything everything compact_json d1
       = (Ret (JStr "codellama:7b"), d1).
Proof.
  apply (the_project_model_is_the_current_one everything everything compact_json
           "codellama:7b" blank_disk).
  - discriminate.
  - reflexivity.
  - reflexivity.
  - eapply compact_json_reads_back.
    + vm_compute. reflexivity.
    + repeat constructor; cbn; intuition discriminate.
    + intros k. reflexivity.
Defined.

Lemma the_detected_model_becomes_the_default_witness :
  exists d1,
    Settings.getCurrentModel everything everything compact_json None unreachable_server
      fresh_disk = (Ret (JStr "qwen2.5-coder:3b"), d1)
    /\ Settings.setting everything everything compact_json
         Settings.UserSettings "defaultModel" d1 = (JStr "qwen2.5-coder:3b", d1).
Proof.
  apply (the_detected_model_becomes_the_default everything everything compact_json
           None unreachable_server "qwen2.5-coder:3b"
           (tl Settings.OLLAMA_MODELS) "{}"
           (Error "No model configured. Please run the application first to auto-detect available models.")
           fresh_disk).
  - reflexivity.
  - reflexivity.
  - reflexivity.
  - vm_compute. reflexivity.
  - reflexivity.
  - eapply compact_json_reads_back.
    + vm_compute. reflexivity.
    + repeat constructor; cbn; intuition discriminate.
    + intros k. reflexivity.
Defined.

Lemma what_cannot_be_saved_is_not_returned_witness :
  fst (Settings.getCurrentModel everything nothing compact_json None small_server blank_disk)
  = Throw no_models_available
  /\ fst (Settings.getAvailableModels everything nothing compact_json None small_server
            blank_disk)
     = cached_models
         (fst (Settings.load everything nothing compact_json Settings.UserSettings blank_disk)).
Proof.
  apply (what_cannot_be_saved_is_not_returned everything nothing compact_json
           None small_server
           (Error "No model configured. Please run the application first to auto-detect available models.")
           blank_disk).
  - reflexivity.
  - vm_compute. reflexivity.
Defined.

(** ** The search for files *)

Section SearchFacts.
Import Search.

Lemma prefix_starts p : forall s, String.prefix p s = true <-> exists b, s = p ++ b.
Proof.
  induction p as [|c p IH]; intros s.
  - split; [intros _; exists s; reflexivity | intros _; destruct s; reflexivity].
  - destruct s as [|d s]; cbn [String.prefix].
    + split; [discriminate | intros [b E]; discriminate E].
    + destruct (ascii_dec c d) as [->|N].
      * rewrite IH. split; intros [b E]; exists b; [now rewrite E | now inversion E].
      * split; [discriminate | intros [b E]; inversion E; congruence].
Qed.

Lemma includes_part s : forall p, includes s p = true <-> part_of p s.
Proof.
  induction s as [|c s IH]; intros p; cbn [includes].
  - rewrite orb_false_r, prefix_starts. split.
    + intros [b E]. exists "", b. exact E.
    + intros [a [b E]]. destruct a; [exists b; exact E | discriminate E].
  - rewrite orb_true_iff, prefix_starts, IH. split.
    + intros [[b E] | [a [b E]]]; [exists "", b; exact E|].
      exists (String c a), b. cbn. now rewrite E.
    + intros [a [b E]]. destruct a as [|d a]; [left; exists b; exact E|].
      right. exists a, b. now inversion E.
Qed.

Lemma scattered_tail c p s : scattered (String c p) s -> scattered p s.
Proof.
  intros H. remember (String c p) as q eqn:Q. revert c p Q.
  induction H as [s | d q s H IH | d q s H IH]; intros c p Q.
  - discriminate Q.
  - inversion Q; subst. now apply scattered_skip.
  - apply scattered_skip. now apply (IH c).
Qed.

Lemma scattered_same s : scattered s s.
Proof. induction s; constructor; assumption. Qed.

Lemma scattered_append p : forall b, scattered p (p ++ b).
Proof. induction p; intros b; cbn; constructor; auto. Qed.

Lemma part_is_scattered p s : part_of p s -> scattered p s.
Proof.
  intros [a [b ->]]. induction a as [|c a IH]; cbn.
  - apply scattered_append.
  - now apply scattered_skip.
Qed.


(** The loop of the fuzzy match finds the characters of the pattern
    whenever they are there *)
Lemma unmatched_scattered name : forall pattern,
  unmatched name pattern = "" <-> scattered pattern name.
Proof.
  induction name as [|c name IH]; intros pattern; cbn [unmatched].
  - split; [intros ->; constructor | intros H; now inversion H].
  - destruct pattern as [|p pattern]; [split; [constructor | reflexivity]|].
    destruct (Ascii.eqb_spec c p) as [->|N]; rewrite IH.
    + split; [apply scattered_take|].
      intros H. inversion H; subst; [assumption | now apply scattered_tail with p].
    + split; [apply scattered_skip|].
      intros H. inversion H; subst; [congruence | assumption].
Qed.


(** When a file scores *)
Lemma score_sign fileName filePath pattern :
  (0 <= calculateFileScore fileName filePath pattern)%Z
  /\ ((0 < calculateFileScore fileName filePath pattern)%Z <->
      part_of pattern (toLowerCase filePath) \/ scattered pattern (toLowerCase fileName)).
Proof.
  unfold calculateFileScore.
  destruct (String.eqb_spec (toLowerCase fileName) pattern) as [E|N].
  { split; [lia|]. split; [|lia].
    intros _. right. rewrite E. apply scattered_same. }
  destruct (includes (toLowerCase fileName) pattern) eqn:I1.
  { split; [lia|]. split; [|lia].
    intros _. right. now apply part_is_scattered, includes_part. }
  destruct (includes (toLowerCase filePath) pattern) eqn:I2.
  { split; [lia|]. split; [|lia]. intros _. left. now apply includes_part. }
  destruct (String.eqb_spec (unmatched (toLowerCase fileName) pattern) "") as [U|U].
  - apply unmatched_scattered in U. split; [lia|]. split; [intros _; now right | lia].
  - split; [lia|]. split; [lia|].
    intros [P | S].
    + apply includes_part in P. congruence.
    + apply unmatched_scattered in S. contradiction.
Qed.


(** Induction on an entry, with the entries of a directory *)
Lemma entry_induction (P : entry -> Prop) :
  (forall n, P (File n)) ->
  (forall n, P (Directory n None)) ->
  (forall n entries, Forall P entries -> P (Directory n (Some entries))) ->
  (forall n, P (Special n)) ->
  forall e, P e.
Proof.
  intros Hf Hn Hd Hs.
  exact (fix go (e : entry) : P e :=
           match e with
           | File n => Hf n
           | Directory n None => Hn n
           | Directory n (Some entries) =>
               Hd n entries
                  ((fix all (l : list entry) : Forall P l :=
                      match l with
                      | [] => Forall_nil P
                      | x :: l' => Forall_cons x (go x) (all l')
                      end) entries)
           | Special n => Hs n
           end).
Qed.

Lemma firstn_again {A} n (a b : list A) : firstn n (firstn n a ++ b) = firstn n (a ++ b).
Proof.
  destruct (Nat.le_gt_cases (length a) n) as [L|L].
  - now rewrite (firstn_all2 a L).
  - rewrite !firstn_app.
    rewrite length_firstn, Nat.min_l by lia.
    replace (n - n) with 0 by lia. replace (n - length a) with 0 by lia.
    cbn [firstn]. rewrite !app_nil_r, firstn_firstn, Nat.min_id. reflexivity.
Qed.

Section Walk.

Variable o : options.
Variable pattern : string.
Variable limit : Z.
Hypothesis room : (0 < limit)%Z.

Lemma full_length files : full limit files = true <-> Z.to_nat limit <= length files.
Proof. unfold full. rewrite Z.leb_le. lia. Qed.

Lemma each_firstn body g entries :
  Forall (fun e => forall files, length files < Z.to_nat limit ->
                   body e files = firstn (Z.to_nat limit) (files ++ g e)) entries ->
  forall files, length files <= Z.to_nat limit ->
    each limit body entries files = firstn (Z.to_nat limit) (files ++ flat_map g entries).
Proof.
  induction 1 as [|e entries He _ IH]; intros files L; cbn [each flat_map].
  - rewrite app_nil_r. symmetry. now apply firstn_all2.
  - destruct (full limit files) eqn:F.
    + apply full_length in F. rewrite firstn_app.
      replace (Z.to_nat limit - length files) with 0 by lia.
      cbn [firstn]. rewrite app_nil_r. symmetry. apply firstn_all2. lia.
    + assert (L' : length files < Z.to_nat limit).
      { destruct (Nat.le_gt_cases (Z.to_nat limit) (length files)) as [G|G]; [|exact G].
        apply full_length in G. congruence. }
      rewrite (He files L'). rewrite IH by (rewrite length_firstn; lia).
      rewrite firstn_again. now rewrite <- app_assoc.
Qed.

Lemma visit_firstn e : forall depth dir files,
  length files < Z.to_nat limit ->
  visit o pattern limit depth dir e files
  = firstn (Z.to_nat limit) (files ++ matches o pattern depth dir e).
Proof.
  induction e as [n | n | n entries IH | n] using entry_induction;
    intros depth dir files L; cbn [visit matches entry_name];
    destruct (passed_over o _ _);
    try (rewrite app_nil_r; symmetry; apply firstn_all2; lia).
  - destruct (0 <? calculateFileScore n (relative dir n) pattern)%Z.
    + symmetry. apply firstn_all2. rewrite length_app. cbn. lia.
    + rewrite app_nil_r; symmetry; apply firstn_all2; lia.
  - destruct ((10 <? S depth) || full limit files);
      rewrite ?app_nil_r; symmetry; apply firstn_all2; lia.
  - destruct (10 <? S depth); cbn [orb].
    + rewrite app_nil_r; symmetry; apply firstn_all2; lia.
    + destruct (full limit files) eqn:F.
      { apply full_length in F. lia. }
      apply each_firstn; [|lia].
      apply Forall_forall. intros e He files' L'.
      rewrite Forall_forall in IH. now apply IH.
Qed.

End Walk.

(** The walk takes the first matches there are *)
Lemma walk_firstn o pattern limit root :
  walkDir o pattern limit root = firstn (Z.to_nat limit) (all_matches o pattern root).
Proof.
  unfold walkDir, all_matches. destruct (full limit []) eqn:F.
  - unfold full in F. apply Z.leb_le in F. cbn in F.
    replace (Z.to_nat limit) with 0 by lia. reflexivity.
  - unfold full in F. apply Z.leb_gt in F. cbn in F.
    destruct root as [entries|]; [|now rewrite firstn_nil].
    rewrite (each_firstn limit F _ (matches o pattern 0 "")); [reflexivity | | cbn; lia].
    apply Forall_forall. intros e _ files L. now apply visit_firstn.
Qed.

Lemma insert_perm r l : Permutation (insert r l) (r :: l).
Proof.
  induction l as [|x l IH]; cbn [insert]; [reflexivity|].
  destruct (score r <? score x)%Z; [|reflexivity].
  rewrite IH. apply perm_swap.
Qed.

Lemma sort_perm l : Permutation (sort l) l.
Proof.
  induction l as [|x l IH]; cbn; [constructor|].
  rewrite insert_perm. now constructor.
Qed.

Lemma insert_best_first r l : best_first l -> best_first (insert r l).
Proof.
  unfold best_first. induction 1 as [|x l S IH F]; cbn [insert].
  - repeat constructor.
  - destruct (score r <? score x)%Z eqn:C.
    + apply Z.ltb_lt in C. constructor; [exact IH|].
      apply (Permutation_Forall (Permutation_sym (insert_perm r l))).
      constructor; [lia | exact F].
    + apply Z.ltb_ge in C. constructor; [now constructor|].
      constructor; [exact C|].
      eapply Forall_impl; [|exact F]. cbn. intros; lia.
Qed.

Lemma sort_best_first l : best_first (sort l).
Proof.
  induction l as [|x l IH]; cbn; [constructor | now apply insert_best_first].
Qed.

(** The sort keeps the order of the results of a same score *)
Lemma scoring_insert s r l : scoring s (insert r l) = scoring s (r :: l).
Proof.
  induction l as [|x l IH]; cbn [insert]; [reflexivity|].
  destruct (score r <? score x)%Z eqn:C; [|reflexivity].
  apply Z.ltb_lt in C. unfold scoring in *. cbn [filter] in *. rewrite IH.
  destruct (Z.eqb_spec (score x) s), (Z.eqb_spec (score r) s); try reflexivity. lia.
Qed.

Lemma scoring_sort s l : scoring s (sort l) = scoring s l.
Proof.
  induction l as [|x l IH]; [reflexivity|].
  cbn [sort fold_right]. rewrite scoring_insert. unfold scoring in *.
  cbn [filter]. fold (sort l). now rewrite IH.
Qed.

(** The search for files as a whole: the first matches of the walk, sorted *)
Lemma find_sorted pattern o root :
  findFilesByPattern pattern o root
  = sort (firstn (Z.to_nat (limit_of o)) (all_matches o (toLowerCase pattern) root)).
Proof.
  unfold findFilesByPattern. fold (limit_of o). rewrite walk_firstn.
  set (first := firstn _ _).
  assert (L : length (sort first) <= Z.to_nat (limit_of o)).
  { rewrite (Permutation_length (sort_perm first)). apply firstn_le_length. }
  unfold slice0. destruct (limit_of o <? 0)%Z eqn:N.
  - apply Z.ltb_lt in N. replace (Z.to_nat (limit_of o)) with 0 in L by lia.
    destruct (sort first); [reflexivity | cbn in L; lia].
  - now apply firstn_all2.
Qed.

Lemma Forall_first {A} (P : A -> Prop) n : forall l, Forall P l -> Forall P (firstn n l).
Proof.
  induction n as [|n IH]; intros l H; [constructor|].
  destruct H; cbn [firstn]; constructor; auto.
Qed.

Lemma matches_wanted o pattern e : forall depth dir,
  Forall (wanted o pattern) (matches o pattern depth dir e).
Proof.
  induction e as [n | n | n entries IH | n] using entry_induction;
    intros depth dir; cbn [matches entry_name];
    destruct (passed_over o _ _) eqn:P; try constructor.
  - destruct (0 <? calculateFileScore n (relative dir n) pattern)%Z eqn:S; constructor;
      [|constructor].
    unfold passed_over in P. cbn [entry_name isDirectory andb orb] in P.
    apply orb_false_iff in P as [P X]. rewrite orb_false_r in P.
    unfold wanted. cbn [score name path].
    split; [now apply Z.ltb_lt|]. split; [reflexivity|]. split.
    + intros H. rewrite H in P. exact P.
    + intros excluded E N. rewrite E in X. apply String.eqb_neq in N. rewrite N in X.
      exact X.
  - destruct (10 <? S depth); [constructor|].
    apply Forall_flat_map. eapply Forall_impl; [|exact IH]. intros e He. apply He.
Qed.

(** X26. The files that are found are the first matches of the walk:
    [findFilesByPattern] returns the first [maxResults] (50 when it is
    absent or 0) files that the walk of the directory meets with a
    positive score, not the best of all; they come the best score first,
    files of the same score in the order of the walk, and are no more
    than [maxResults]. *)
Theorem file_search_keeps_the_first_matches_of_the_walk pattern o root :
  let found := findFilesByPattern pattern o root in
  let first :=
    firstn (Z.to_nat (limit_of o)) (all_matches o (toLowerCase pattern) root) in
  Permutation found first
  /\ best_first found
  /\ (forall s, scoring s found = scoring s first)
  /\ (Z.of_nat (length found) <= Z.max 0 (limit_of o))%Z.
Proof.
  cbv zeta. rewrite find_sorted. split; [apply sort_perm|].
  split; [apply sort_best_first|]. split; [intros s; apply scoring_sort|].
  rewrite (Permutation_length (sort_perm _)).
  pose proof (firstn_le_length (Z.to_nat (limit_of o))
                (all_matches o (toLowerCase pattern) root)). lia.
Qed.

(** X27. Every file that is found has a positive score, which is the
    score of its name and path for the pattern in lower case; its name
    does not start with a dot unless hidden files are included, and its
    path holds no exclude pattern that is given. *)
Theorem files_found_are_wanted pattern o root :
  Forall (wanted o (toLowerCase pattern)) (findFilesByPattern pattern o root).
Proof.
  rewrite find_sorted.
  apply (Permutation_Forall (Permutation_sym (sort_perm _))).
  apply Forall_first. unfold all_matches. destruct root as [entries|]; [|constructor].
  apply Forall_flat_map. apply Forall_forall. intros e _. apply matches_wanted.
Qed.

Lemma of_string_app a b :
  list_ascii_of_string (a ++ b) = (list_ascii_of_string a ++ list_ascii_of_string b)%list.
Proof. induction a; cbn; congruence. Qed.

Lemma part_char c s : part_of (String c "") s -> In c (list_ascii_of_string s).
Proof.
  intros [a [b ->]]. rewrite of_string_app. apply in_or_app. right. now left.
Qed.

Lemma char_part c s : In c (list_ascii_of_string s) -> part_of (String c "") s.
Proof.
  induction s as [|d s IH]; cbn; [tauto|]. intros [->|I].
  - exists "", s. reflexivity.
  - destruct (IH I) as [a [b ->]]. exists (String d a), b. reflexivity.
Qed.

Lemma scattered_char c s : scattered (String c "") s -> In c (list_ascii_of_string s).
Proof.
  intros H. remember (String c "") as p eqn:P.
  induction H as [s | d q s H IH | d q s H IH]; [discriminate P | |].
  - inversion P; subst. now left.
  - right. now apply IH.
Qed.

Lemma lower_star d : lower d = "*"%char -> d = "*"%char.
Proof.
  destruct d as [[] [] [] [] [] [] [] []]; vm_compute; intros H;
    first [reflexivity | discriminate H].
Qed.

Lemma lower_has_star s :
  In "*"%char (list_ascii_of_string (toLowerCase s)) -> In "*"%char (list_ascii_of_string s).
Proof.
  induction s as [|d s IH]; cbn; [tauto|].
  intros [H|H]; [left; now apply lower_star | right; now apply IH].
Qed.

Lemma starless_chars s : includes s "*" = false <-> ~ In "*"%char (list_ascii_of_string s).
Proof.
  split.
  - intros H I. apply char_part, includes_part in I. congruence.
  - intros H. destruct (includes s "*") eqn:I; [|reflexivity].
    exfalso. apply H. now apply part_char, includes_part.
Qed.

Lemma starless_relative dir n :
  includes dir "*" = false -> includes n "*" = false ->
  includes (relative dir n) "*" = false.
Proof.
  rewrite !starless_chars. intros D N. unfold relative.
  destruct (dir =? "")%string; [exact N|].
  rewrite !of_string_app. intros I.
  apply in_app_or in I as [I|I]; [tauto|].
  apply in_app_or in I as [I|I]; [|tauto].
  cbn in I. destruct I as [I|[]]. discriminate I.
Qed.

Lemma starless_score dir n :
  includes dir "*" = false -> includes n "*" = false ->
  calculateFileScore n (relative dir n) "*" = 0%Z.
Proof.
  intros D N. pose proof (starless_relative dir n D N) as R.
  destruct (score_sign n (relative dir n) "*") as [P S].
  destruct (Z.eq_dec (calculateFileScore n (relative dir n) "*") 0) as [E|E]; [exact E|].
  exfalso. assert (G : (0 < calculateFileScore n (relative dir n) "*")%Z) by lia.
  apply S in G. apply starless_chars in R, N. destruct G as [G|G].
  - apply R. now apply lower_has_star, part_char.
  - apply N. now apply lower_has_star, scattered_char.
Qed.

Lemma starless_matches o e : forall depth dir,
  named (fun n => negb (includes n "*")) e = true ->
  includes dir "*" = false ->
  matches o "*" depth dir e = [].
Proof.
  induction e as [n | n | n entries IH | n] using entry_induction;
    intros depth dir N D; cbn [matches entry_name];
    destruct (passed_over o _ _); try reflexivity.
  - cbn [named entry_name] in N. rewrite andb_true_r in N. apply negb_true_iff in N.
    now rewrite (starless_score dir n D N).
  - destruct (10 <? S depth); [reflexivity|].
    cbn [named entry_name] in N. apply andb_true_iff in N as [N A].
    apply negb_true_iff in N. rewrite forallb_forall in A.
    pose proof (starless_relative dir n D N) as R.
    induction IH as [|e entries He _ IHl]; [reflexivity|].
    cbn [flat_map]. rewrite He; [|apply A; now left | exact R].
    apply IHl. intros x Hx. apply A. now right.
Qed.

(** X28. A blank query finds no file: a query that is not a string, or
    is empty or white space only, is searched as ["*"], and the asterisk
    is matched as a character; so a search for files in a directory where
    no name holds an asterisk returns "No results found" for ["*"],
    whatever files there are. *)
Theorem a_blank_query_finds_no_file executeTextSearch query o root :
  blank query = true ->
  files_only o = true ->
  starless root = true ->
  search executeTextSearch query o root = succeeded (quoted "No results found for '*'").
Proof.
  intros B F S. unfold search.
  assert (Q : match query with
              | JStr q => if (trim q =? "")%string then "*" else q
              | _ => "*"
              end = "*").
  { destruct query; try reflexivity. cbn [blank] in B. now rewrite B. }
  rewrite Q.
  assert (T : match searchType o with
              | Some t => if (t =? "")%string then "files" else t
              | None => "files"
              end = "files").
  { unfold files_only in F. destruct (searchType o) as [t|]; [|reflexivity].
    destruct (t =? "")%string; [reflexivity|]. cbn [orb] in F.
    now apply String.eqb_eq in F. }
  rewrite T. cbn [String.eqb Ascii.eqb Bool.eqb orb bind].
  rewrite find_sorted.
  assert (M : all_matches o (toLowerCase "*") root = []).
  { unfold all_matches. destruct root as [entries|]; [|reflexivity].
    cbn [starless] in S. rewrite forallb_forall in S.
    change (toLowerCase "*") with "*".
    induction entries as [|e entries IH]; [reflexivity|].
    cbn [flat_map]. rewrite starless_matches; [|apply S; now left | reflexivity].
    apply IH. intros x Hx. apply S. now right. }
  rewrite M, firstn_nil. reflexivity.
Qed.

End SearchFacts.

Lemma a_blank_query_finds_no_file_witness :
  Search.search no_text_search (JStr "   ") plain_options small_project
  = succeeded (quoted "No results found for '*'").
Proof.
  apply (a_blank_query_finds_no_file no_text_search (JStr "   ") plain_options small_project).
  - reflexivity.
  - reflexivity.
  - vm_compute. reflexivity.
Defined.

